(** * cbson: the C extension of the BSON codec (ext/cbson/cbson.c)

    A shallow embedding of the encoder ([write_element], [write_doc],
    [method_serialize]), of the decoder ([get_value], [elements_to_hash],
    [method_deserialize]), of the ObjectId generator
    ([objectid_generate]) and of the conversions of an ObjectId from and
    to its string ([objectid_from_string], [objectid_to_s],
    [objectid_legal]), followed by the vocabulary of the properties
    (module [Spec] and the modules after it) and by the properties of the
    codec.

    Conventions of the embedding.
    - A byte is a [Z] in [0, 256); a Ruby [String] is the list of its bytes.
    - A [double] on which the code computes is a [spec_float] of the
      Standard Library, in the format binary64; a [Float] that is only
      copied is its 64-bit pattern.
    - The host is little-endian: [(char* )&x] of a 4-byte integer [x] is
      [le_bytes 4 x].
    - A C [int] that would overflow, and a read outside the byte string
      handed to the decoder, are undefined behaviour: the decoder's outcome
      is then [Undefined].
    - [rb_raise] is the outcome [Raised e]; the encoder threads the
      [bson_buffer] through every call, also past a raise, so that what
      happened to the buffer can be observed. *)

From Stdlib Require Import ZArith String Ascii Bool List Sorted Lia SpecFloat.
Import ListNotations.
Local Open Scope Z_scope.

Set Warnings "-register-all".

(* ================================================================= *)
(** ** Bytes and machine integers *)

Module Bytes.

Definition bytes := list Z.

Definition is_byte (b : Z) : Prop := 0 <= b < 256.

(** [n] bytes of [v], least significant first: the memory image of an
    [n]-byte integer on the host. *)
Fixpoint le_bytes (n : nat) (v : Z) : bytes :=
  match n with
  | O => []
  | S n' => (v mod 256) :: le_bytes n' (v / 256)
  end.

(** [n] bytes of [v], most significant first (network order). *)
Definition be_bytes (n : nat) (v : Z) : bytes := rev (le_bytes n v).

(** The unsigned integer whose little-endian image is [bs]. *)
Fixpoint le_value (bs : bytes) : Z :=
  match bs with
  | [] => 0
  | b :: r => b + 256 * le_value r
  end.

Definition be_value (bs : bytes) : Z := le_value (rev bs).

(** Reading an unsigned [w]-bit pattern as a two's complement integer. *)
Definition to_signed (w : Z) (u : Z) : Z :=
  if u <? 2 ^ (w - 1) then u else u - 2 ^ w.

Definition INT_MIN : Z := - 2 ^ 31.
Definition INT_MAX : Z := 2 ^ 31 - 1.
Definition LLONG_MIN : Z := - 2 ^ 63.
Definition LLONG_MAX : Z := 2 ^ 63 - 1.

Definition in_int (v : Z) : bool := (INT_MIN <=? v) && (v <=? INT_MAX).

(** The bytes of a string literal of the C source. *)
Fixpoint lit (s : string) : bytes :=
  match s with
  | EmptyString => []
  | String c r => Z.of_N (N_of_ascii c) :: lit r
  end.

(** What [strlen] and [strcmp] see of a Ruby string whose bytes are [s]:
    the bytes before the first NUL. *)
Fixpoint cstr (s : bytes) : bytes :=
  match s with
  | [] => []
  | b :: r => if b =? 0 then [] else b :: cstr r
  end.

Fixpoint bytes_eqb (a b : bytes) : bool :=
  match a, b with
  | [], [] => true
  | x :: a', y :: b' => (x =? y) && bytes_eqb a' b'
  | _, _ => false
  end.

(** [printf("%d", i)] for an [int]: the decimal digits of [i]. *)
Fixpoint digits (fuel : nat) (n : Z) (acc : bytes) : bytes :=
  match fuel with
  | O => acc
  | S fuel' =>
      let acc' := (48 + n mod 10) :: acc in
      if n <? 10 then acc' else digits fuel' (n / 10) acc'
  end.

Definition printf_d (i : Z) : bytes :=
  if i <? 0 then 45 :: digits 10 (- i) [] else digits 10 i [].

(** The text of a byte string, for messages. *)
Fixpoint text (bs : bytes) : string :=
  match bs with
  | [] => EmptyString
  | b :: r => String (ascii_of_N (Z.to_N b)) (text r)
  end.

End Bytes.
Export Bytes.

(* ================================================================= *)
(** ** Exceptions of the host runtime *)

Inductive exn_class :=
| NoMemError | RuntimeError | TypeError | RangeError | NoMethodError
| ArgumentError | InvalidKeyName | InvalidStringEncoding | InvalidDocument.

(** An exception: its class and its message. Where the message of the C
    code is a format of the name of a class or of a size, the model keeps
    the text without that argument. *)
Record exn := Exn { exn_cls : exn_class; exn_msg : string }.

(* ================================================================= *)
(** ** ObjectId generation *)

Module ObjectIdGen.

(** What [objectid_generate] reads from its process: [time(NULL)],
    [getpid()] and the digest of the host name computed by [Init_cbson]
    (17 bytes: the MD5 digest and a NUL). *)
Record process := {
  time_now : Z;
  getpid : Z;
  hostname_digest : bytes
}.

(** [htonl(x)] followed by a copy of the first four bytes: the big-endian
    image of the low 32 bits. *)
Definition htonl_bytes (x : Z) : bytes := be_bytes 4 (x mod 2 ^ 32).
Definition htons_bytes (x : Z) : bytes := be_bytes 2 (x mod 2 ^ 16).

(** The increment of the static counter [object_id_inc], an
    [unsigned int] of [sizeof_unsigned_int] bytes. *)
Definition next_inc (sizeof_unsigned_int : Z) (object_id_inc : Z) : Z :=
  if sizeof_unsigned_int =? 4
  then (object_id_inc + 1) mod 2 ^ 32
  else ((object_id_inc + 1) mod 2 ^ (8 * sizeof_unsigned_int)) mod 16777215 (* 0xFFFFFF *).

(** [objectid_generate]: [arg] is the optional time argument, already
    converted by [to_i] and [NUM2UINT]. Returns the 12 bytes and the new
    value of [object_id_inc]. *)
Definition objectid_generate (sizeof_unsigned_int : Z) (p : process)
    (arg : option Z) (object_id_inc : Z) : bytes * Z :=
  let t := match arg with
           | None => htonl_bytes (time_now p)
           | Some a => htonl_bytes a
           end in
  let digest := [nth 0 (hostname_digest p) 0; nth 1 (hostname_digest p) 0;
                 nth 2 (hostname_digest p) 0] in
  let pid := htons_bytes (getpid p) in
  let inc' := next_inc sizeof_unsigned_int object_id_inc in
  (* bytes 1..3 of the memory image of htonl(object_id_inc) *)
  let inc := skipn 1 (htonl_bytes inc') in
  (t ++ digest ++ pid ++ inc, inc').

(** The fields of an id the properties speak of. *)
Definition host_pid_field (oid : bytes) : bytes := firstn 5 (skipn 4 oid).
Definition counter_field (oid : bytes) : Z := be_value (skipn 9 oid).

End ObjectIdGen.

(* ================================================================= *)
(** ** The value universe *)

(** The class of a hash: [BSON::OrderedHash], or [Hash] and its other
    subclasses. Both have [TYPE] [T_HASH]. *)
Inductive hash_class := PlainHash | OrderedHash.

(** A hash key: a [String], a [Symbol] (by its name) or any other object
    (by its class name). *)
Inductive rkey :=
| KStr (s : bytes)
| KSym (name : bytes)
| KOther (cls : string).

(** The Ruby values the codec distinguishes. A hash is the list of its
    entries in iteration order; its keys are pairwise different. A [Float]
    is its IEEE-754 bit pattern. Of a [Time] the encoder sees the [Float]
    that [to_f] returns, and nothing else: a [Time] is that [double]. *)
Inductive value :=
| VInt (n : Z)                              (* Fixnum or Bignum *)
| VTrue
| VFalse
| VNil
| VFloat (bits : Z)
| VHash (c : hash_class) (entries : list (rkey * value))
| VArray (items : list value)
| VString (s : bytes)
| VSymbol (name : bytes)
| VBinary (data : bytes) (subtype : Z)      (* BSON::Binary *)
| VByteBuffer (data : bytes)                (* ByteBuffer *)
| VObjectId (data : list Z)                 (* BSON::ObjectId, its to_a *)
| VDBRef (ns : value) (oid : value)         (* BSON::DBRef *)
| VCode (code : bytes) (scope : value)      (* BSON::Code *)
| VMaxKey
| VMinKey
| VTimestamp (seconds increment : Z)        (* BSON::Timestamp *)
| VTime (to_f : spec_float)                 (* Time *)
| VChars (s : bytes)                        (* ActiveSupport::Multibyte::Chars *)
| VBSONRegex (pattern : bytes) (options : Z) (extra : option bytes)
                                            (* BSON::Regex *)
| VRegexp (src : bytes) (options : Z) (extra : option bytes)
                                            (* a native Regexp *)
| VObject (cls : string)                    (* any other T_OBJECT *)
| VData (cls : string)                      (* any other T_DATA *)
| VOther (cls : string) (type : Z).         (* any other TYPE *)

(** How a call leaves defined behaviour: a read outside the byte string
    (at [address], an offset from its start), or an integer that does not
    fit its C type. *)
Inductive ub :=
| OutOfBounds (address : Z)
| Overflow.

(** Outcomes of a call. [Undefined]: the C code left defined behaviour.
    [OutOfFuel]: the decoder's loops did not finish within the given
    number of steps. *)
Inductive outcome (A : Type) :=
| Ok (a : A)
| Raised (e : exn)
| Undefined (u : ub)
| OutOfFuel.
Arguments Ok {A} a.
Arguments Raised {A} e.
Arguments Undefined {A} u.
Arguments OutOfFuel {A}.

Definition obind {A B} (c : outcome A) (k : A -> outcome B) : outcome B :=
  match c with
  | Ok a => k a
  | Raised e => Raised e
  | Undefined u => Undefined u
  | OutOfFuel => OutOfFuel
  end.

Declare Scope outcome_scope.
Delimit Scope outcome_scope with outcome.
Notation "x <- c ;; k" := (obind c (fun x => k))
  (at level 61, c at next level, right associativity) : outcome_scope.
Notation "' pat <- c ;; k" := (obind c (fun x => match x with pat => k end))
  (at level 61, pat pattern, c at next level, right associativity) : outcome_scope.

(** [int] arithmetic: overflow is undefined. *)
Definition int_of (v : Z) : outcome Z :=
  if in_int v then Ok v else Undefined Overflow.
Definition add_int (a b : Z) : outcome Z := int_of (a + b).
Definition sub_int (a b : Z) : outcome Z := int_of (a - b).

(** [double] arithmetic: the format binary64 (53 bits of precision,
    exponents below 1024) of the specification of floating-point numbers
    of the Standard Library. *)
Definition double := spec_float.

(** [x * y] *)
Definition double_mul (x y : double) : double := SFmul 53 1024 x y.

(** The integer constant [1000], converted to [double]. *)
Definition thousand : double := S754_finite false 1000 0.

(** [round] of a finite number of mantissa [m] and exponent [e], its sign
    apart: the nearest integer, halfway cases away from zero. *)
Definition round_away (m : positive) (e : Z) : Z :=
  if 0 <=? e then Z.pos m * 2 ^ e
  else (2 * Z.pos m + 2 ^ (- e)) / (2 * 2 ^ (- e)).

(** [(long long)round(x)]: the conversion of an infinity, of a NaN and of
    an integer that [long long] cannot hold is undefined. *)
Definition round_to_long_long (x : double) : outcome Z :=
  match x with
  | S754_zero _ => Ok 0
  | S754_finite s m e =>
      let r := if s then - round_away m e else round_away m e in
      if (LLONG_MIN <=? r) && (r <=? LLONG_MAX) then Ok r
      else Undefined Overflow
  | S754_infinity _ | S754_nan => Undefined Overflow
  end.

(* ================================================================= *)
(** ** The decoder *)

Module Decoder.

(** The Ruby side of regular expressions and of times, which is not part
    of the C file: [BSON::Regex.new(pattern, flags_str)], [try_compile],
    and the [Time] that [case 9] makes of [millis], which is, followed by
    [utc], [rb_time_new(millis / 1000, (millis % 1000) * 1000)] before
    Ruby 1.9 and [rb_time_num_new] of
    [millis / 1000 + (millis % 1000).quo(1000)] from Ruby 1.9 on: in both
    the [Time] of [millis] milliseconds after the epoch. *)
Record regex_host := {
  regex_new : bytes -> bytes -> value;
  try_compile : value -> value;
  time_of_millis : Z -> value
}.

Record deserialize_opts := { compile_regex : Z }.

(** [BSON::OrderedHash#[]=]: a new key is appended, the value of a key
    already present is replaced where it stands. *)
Fixpoint ordered_hash_set (h : list (rkey * value)) (name : bytes) (v : value)
  : list (rkey * value) :=
  match h with
  | [] => [(KStr name, v)]
  | (KStr k, w) :: r =>
      if bytes_eqb k name then (KStr k, v) :: r
      else (KStr k, w) :: ordered_hash_set r name v
  | e :: r => e :: ordered_hash_set r name v
  end.

Section WithInput.

Variable host : regex_host.
(** The bytes of the Ruby string handed to [deserialize]; a pointer into
    it is an offset from [RSTRING_PTR]. *)
Variable mem : bytes.

Definition mem_len : Z := Z.of_nat (length mem).

(** [n] bytes at address [a]. *)
Definition rd_bytes (a : Z) (n : nat) : outcome bytes :=
  if (0 <=? a) && (a + Z.of_nat n <=? mem_len)
  then Ok (firstn n (skipn (Z.to_nat a) mem))
  else Undefined (OutOfBounds a).

Definition rd (a : Z) : outcome Z :=
  if (0 <=? a) && (a <? mem_len) then Ok (nth (Z.to_nat a) mem 0)
  else Undefined (OutOfBounds a).

(** [*(int* )a], [memcpy(&i, a, 4)] *)
Definition read_int (a : Z) : outcome Z :=
  (bs <- rd_bytes a 4 ;; Ok (to_signed 32 (le_value bs)))%outcome.
Definition read_uint (a : Z) : outcome Z :=
  (bs <- rd_bytes a 4 ;; Ok (le_value bs))%outcome.
Definition read_ll (a : Z) : outcome Z :=
  (bs <- rd_bytes a 8 ;; Ok (to_signed 64 (le_value bs)))%outcome.

(** The index of the first NUL of [s]. *)
Fixpoint find_nul (s : bytes) : option Z :=
  match s with
  | [] => None
  | b :: r => if b =? 0 then Some 0
              else match find_nul r with Some k => Some (k + 1) | None => None end
  end.

(** [(int)strlen(a)] *)
Definition strlen (a : Z) : outcome Z :=
  if (0 <=? a) && (a <=? mem_len)
  then match find_nul (skipn (Z.to_nat a) mem) with
       | Some k => int_of k
       | None => Undefined (OutOfBounds mem_len)
       end
  else Undefined (OutOfBounds a).

(** [strcmp(a, s) == 0] for a literal [s] without NUL: bytes are read
    up to the first difference. *)
Fixpoint strcmp_eq (a : Z) (s : bytes) : outcome bool :=
  match s with
  | [] => (b <- rd a ;; Ok (b =? 0))%outcome
  | c :: s' => (b <- rd a ;;
                if b =? c then strcmp_eq (a + 1) s' else Ok false)%outcome
  end.

(** [rb_str_new(a, n)] and [STR_NEW(a, n)] (no default internal
    encoding): a negative length is refused by the host before it reads. *)
Definition str_new (a : Z) (n : Z) : outcome bytes :=
  if n <? 0 then Raised (Exn ArgumentError "negative string size (or size too big)")
  else rd_bytes a (Z.to_nat n).

Definition unknown_type (type : Z) : exn :=
  Exn TypeError
    ("Detected unknown BSON type \x" ++ text (printf_d type)
     ++ ". Are you using the latest BSON version?").

Local Open Scope outcome_scope.

(** [get_value(buffer, &position, type, opts)] returns the value and the
    new [*position]; [hash_loop] is the [while] of [elements_to_hash],
    [array_loop] the one of [case 4]. *)
Fixpoint get_value (fuel : nat) (opts : deserialize_opts)
    (buffer position type : Z) {struct fuel} : outcome (value * Z) :=
  match fuel with
  | O => OutOfFuel
  | S fuel' =>
    if type =? 255 then Ok (VMinKey, position)
    else if type =? 1 then
      d <- rd_bytes (buffer + position) 8 ;;
      position <- add_int position 8 ;;
      Ok (VFloat (le_value d), position)
    else if (type =? 2) || (type =? 13) then
      n <- read_int (buffer + position) ;;
      value_length <- sub_int n 1 ;;
      position <- add_int position 4 ;;
      s <- str_new (buffer + position) value_length ;;
      k <- add_int value_length 1 ;;
      position <- add_int position k ;;
      Ok (VString s, position)
    else if type =? 3 then
      size <- read_int (buffer + position) ;;
      is_ref <- strcmp_eq (buffer + position + 5) (lit "$ref") ;;
      value <-
        (if is_ref : bool then
           offset <- add_int position 10 ;;
           n <- read_int (buffer + offset) ;;
           collection_length <- sub_int n 1 ;;
           offset <- add_int offset 4 ;;
           ns <- str_new (buffer + offset) collection_length ;;
           k <- add_int collection_length 1 ;;
           offset <- add_int offset k ;;
           id_type <- rd (buffer + offset) ;;
           offset <- add_int offset 5 ;;
           ' (oid, _) <- get_value fuel' opts buffer offset id_type ;;
           Ok (VDBRef (VString ns) oid)
         else
           max <- sub_int size 5 ;;
           hash_loop fuel' opts (buffer + position + 4) max 0 []) ;;
      position <- add_int position size ;;
      Ok (value, position)
    else if type =? 4 then
      size <- read_int (buffer + position) ;;
      e <- add_int position size ;;
      end_ <- sub_int e 1 ;;
      position <- add_int position 4 ;;
      ' (items, position) <- array_loop fuel' opts buffer end_ position [] ;;
      position <- add_int position 1 ;;
      Ok (VArray items, position)
    else if type =? 5 then
      len <- read_int (buffer + position) ;;
      subtype <- rd (buffer + position + 4) ;;
      data <-
        (if subtype =? 2 then
           n <- sub_int len 4 ;;
           str_new (buffer + position + 9) n
         else str_new (buffer + position + 5) len) ;;
      k <- add_int len 5 ;;
      position <- add_int position k ;;
      Ok (VBinary data subtype, position)
    else if type =? 6 then Ok (VNil, position)
    else if type =? 7 then
      str <- rd_bytes (buffer + position) 12 ;;
      position <- add_int position 12 ;;
      Ok (VObjectId str, position)
    else if type =? 8 then
      b <- rd (buffer + position) ;;
      position <- add_int position 1 ;;
      Ok (if b =? 0 then VFalse else VTrue, position)
    else if type =? 9 then
      millis <- read_ll (buffer + position) ;;
      let value := time_of_millis host millis in
      position <- add_int position 8 ;;
      Ok (value, position)
    else if type =? 10 then Ok (VNil, position)
    else if type =? 11 then
      pattern_length <- strlen (buffer + position) ;;
      pattern <- str_new (buffer + position) pattern_length ;;
      k <- add_int pattern_length 1 ;;
      position <- add_int position k ;;
      flags_length <- strlen (buffer + position) ;;
      flags_str <- str_new (buffer + position) flags_length ;;
      let value := regex_new host pattern flags_str in
      let value := if compile_regex opts =? 1 then try_compile host value
                   else value in
      k <- add_int flags_length 1 ;;
      position <- add_int position k ;;
      Ok (value, position)
    else if type =? 12 then
      n <- read_int (buffer + position) ;;
      collection_length <- sub_int n 1 ;;
      position <- add_int position 4 ;;
      collection <- str_new (buffer + position) collection_length ;;
      k <- add_int collection_length 1 ;;
      position <- add_int position k ;;
      str <- rd_bytes (buffer + position) 12 ;;
      position <- add_int position 12 ;;
      Ok (VDBRef (VString collection) (VObjectId str), position)
    else if type =? 14 then
      value_length <- read_int (buffer + position) ;;
      n <- strlen (buffer + position + 4) ;;
      name <- rd_bytes (buffer + position + 4) (Z.to_nat n) ;;
      k <- add_int value_length 4 ;;
      position <- add_int position k ;;
      Ok (VSymbol name, position)
    else if type =? 15 then
      position <- add_int position 4 ;;
      n <- read_int (buffer + position) ;;
      code_length <- sub_int n 1 ;;
      position <- add_int position 4 ;;
      code <- str_new (buffer + position) code_length ;;
      k <- add_int code_length 1 ;;
      position <- add_int position k ;;
      scope_size <- read_int (buffer + position) ;;
      max <- sub_int scope_size 5 ;;
      scope <- hash_loop fuel' opts (buffer + position + 4) max 0 [] ;;
      position <- add_int position scope_size ;;
      Ok (VCode code scope, position)
    else if type =? 16 then
      i <- read_int (buffer + position) ;;
      position <- add_int position 4 ;;
      Ok (VInt i, position)
    else if type =? 17 then
      inc <- read_uint (buffer + position) ;;
      sec <- read_uint (buffer + position + 4) ;;
      position <- add_int position 8 ;;
      Ok (VTimestamp sec inc, position)
    else if type =? 18 then
      ll <- read_ll (buffer + position) ;;
      position <- add_int position 8 ;;
      Ok (VInt ll, position)
    else if type =? 127 then Ok (VMaxKey, position)
    else Raised (unknown_type type)
  end

with hash_loop (fuel : nat) (opts : deserialize_opts)
    (buffer max position : Z) (hash : list (rkey * value)) {struct fuel}
    : outcome value :=
  match fuel with
  | O => OutOfFuel
  | S fuel' =>
    if position <? max then
      type <- rd (buffer + position) ;;
      position <- add_int position 1 ;;
      name_length <- strlen (buffer + position) ;;
      name <- str_new (buffer + position) name_length ;;
      k <- add_int name_length 1 ;;
      position <- add_int position k ;;
      ' (value, position) <- get_value fuel' opts buffer position type ;;
      hash_loop fuel' opts buffer max position (ordered_hash_set hash name value)
    else Ok (VHash OrderedHash hash)
  end

with array_loop (fuel : nat) (opts : deserialize_opts)
    (buffer end_ position : Z) (items : list value) {struct fuel}
    : outcome (list value * Z) :=
  match fuel with
  | O => OutOfFuel
  | S fuel' =>
    if position <? end_ then
      type <- rd (buffer + position) ;;
      position <- add_int position 1 ;;
      key_size <- strlen (buffer + position) ;;
      k <- add_int key_size 1 ;;
      position <- add_int position k ;;
      ' (to_append, position) <- get_value fuel' opts buffer position type ;;
      array_loop fuel' opts buffer end_ position (items ++ [to_append])
    else Ok (items, position)
  end.

(** [elements_to_hash(buffer, max, opts)] *)
Definition elements_to_hash (fuel : nat) (opts : deserialize_opts)
    (buffer max : Z) : outcome value :=
  hash_loop fuel opts buffer max 0 [].

End WithInput.

(** [method_deserialize(self, bson, opts)]: [compile_regex_opt] is the
    entry of [opts] under [:compile_regex], if any. *)
Definition method_deserialize (host : regex_host) (fuel : nat) (bson : bytes)
    (compile_regex_opt : option value) : outcome value :=
  let remaining := to_signed 32 (Z.of_nat (length bson) mod 2 ^ 32) in
  let opts := {| compile_regex :=
                   match compile_regex_opt with
                   | Some VFalse => 0
                   | _ => 1
                   end |} in
  (* NOTE we just swallow the size and end byte here *)
  let buffer := 4 in
  (remaining <- sub_int remaining 5 ;;
   elements_to_hash host bson fuel opts buffer remaining)%outcome.

End Decoder.

(* ================================================================= *)
(** ** The byte buffer (bson_buffer.h) *)

Module Buffer.

(** Modelled from the spec: the byte buffer of bson_buffer.c, which the
    encoder uses through bson_buffer.h and which is not among the sources.
    Section 4.1 of the specification: an append-only growable buffer with
    a cursor, a reservation ([save_space]) patched later
    ([write_at_position]), and a max-size cap that the buffer only stores.
    Every operation that grows the buffer can fail for want of memory:
    [room] is the number of bytes the allocator is prepared to give this
    buffer. A position is a C [int], so the buffer never holds more than
    [INT_MAX] bytes. [freed] records that [bson_buffer_free] was called. *)
Record bson_buffer := {
  data : bytes;
  max_size : Z;
  room : Z;
  freed : bool
}.

Definition bson_buffer_new (room : Z) : bson_buffer :=
  {| data := []; max_size := 0; room := Z.min room INT_MAX; freed := false |}.

Definition bson_buffer_get_position (b : bson_buffer) : Z :=
  Z.of_nat (length (data b)).

Definition bson_buffer_get_buffer (b : bson_buffer) : bytes := data b.

Definition bson_buffer_get_max_size (b : bson_buffer) : Z := max_size b.

Definition bson_buffer_set_max_size (b : bson_buffer) (n : Z) : bson_buffer :=
  {| data := data b; max_size := n; room := room b; freed := freed b |}.

Definition with_data (b : bson_buffer) (d : bytes) : bson_buffer :=
  {| data := d; max_size := max_size b; room := room b; freed := freed b |}.

(** [bson_buffer_write(buffer, data, size)]: 0 on success. *)
Definition bson_buffer_write (b : bson_buffer) (d : bytes) (size : Z)
  : Z * bson_buffer :=
  if bson_buffer_get_position b + size <=? room b
  then (0, with_data b (data b ++ firstn (Z.to_nat size) d))
  else (1, b).

(** [bson_buffer_save_space(buffer, size)]: the position of the
    reservation, or -1. *)
Definition bson_buffer_save_space (b : bson_buffer) (size : Z)
  : Z * bson_buffer :=
  if bson_buffer_get_position b + size <=? room b
  then (bson_buffer_get_position b,
        with_data b (data b ++ repeat 0 (Z.to_nat size)))
  else (-1, b).

(** [bson_buffer_write_at_position(buffer, position, data, size)]: 0 on
    success; the bytes must lie within what was written. *)
Definition bson_buffer_write_at_position (b : bson_buffer) (position : Z)
    (d : bytes) (size : Z) : Z * bson_buffer :=
  if (0 <=? position) && (position + size <=? bson_buffer_get_position b)
  then (0, with_data b (firstn (Z.to_nat position) (data b)
                        ++ firstn (Z.to_nat size) d
                        ++ skipn (Z.to_nat (position + size)) (data b)))
  else (1, b).

Definition bson_buffer_free (b : bson_buffer) : Z * bson_buffer :=
  (0, {| data := []; max_size := max_size b; room := room b; freed := true |}).

End Buffer.
Export Buffer.

(* ================================================================= *)
(** ** UTF-8 validation (encoding_helpers.h) *)

Module Utf8.

Inductive result_t := VALID | HAS_NULL | INVALID_UTF8.

Definition tail_byte (b : Z) : bool := (128 <=? b) && (b <=? 191).
Definition between (lo b hi : Z) : bool := (lo <=? b) && (b <=? hi).

(** Modelled from the spec: [validate_utf8_encoding] of
    encoding_helpers.c, which is not among the sources. Section 4.2 of the
    specification: the slice is [VALID], [HAS_NULL] (a NUL byte while
    [allow_null] is off) or [INVALID_UTF8] (any sequence that RFC 3629
    does not allow); the slice is scanned from its start. *)
Fixpoint validate_utf8_encoding (s : bytes) (allow_null : bool) : result_t :=
  match s with
  | [] => VALID
  | b :: r =>
    if b <? 128 then
      if (b =? 0) && negb allow_null then HAS_NULL
      else validate_utf8_encoding r allow_null
    else if between 194 b 223 then
      match r with
      | t1 :: r1 =>
          if tail_byte t1 then validate_utf8_encoding r1 allow_null
          else INVALID_UTF8
      | _ => INVALID_UTF8
      end
    else if between 224 b 239 then
      match r with
      | t1 :: t2 :: r2 =>
          if (if b =? 224 then between 160 t1 191
              else if b =? 237 then between 128 t1 159
              else tail_byte t1) && tail_byte t2
          then validate_utf8_encoding r2 allow_null
          else INVALID_UTF8
      | _ => INVALID_UTF8
      end
    else if between 240 b 244 then
      match r with
      | t1 :: t2 :: t3 :: r3 =>
          if (if b =? 240 then between 144 t1 191
              else if b =? 244 then between 128 t1 143
              else tail_byte t1) && tail_byte t2 && tail_byte t3
          then validate_utf8_encoding r3 allow_null
          else INVALID_UTF8
      | _ => INVALID_UTF8
      end
    else INVALID_UTF8
  end.

End Utf8.
Export Utf8.

(* ================================================================= *)
(** ** The encoder *)

Module Encoder.

(** Constants of the host the C file reads but does not define: the
    option bits of a native regular expression (regex.h or oniguruma.h)
    and those of [BSON::Regex] (read from the Ruby class by
    [Init_cbson]). *)
Record regex_consts := {
  IGNORECASE : Z;
  MULTILINE : Z;
  EXTENDED : Z;
  BSONRegex_IGNORECASE : Z;
  BSONRegex_LOCALE_DEPENDENT : Z;
  BSONRegex_MULTILINE : Z;
  BSONRegex_DOTALL : Z;
  BSONRegex_UNICODE : Z;
  BSONRegex_EXTENDED : Z
}.

(** An encoder step: the buffer goes in and comes out, also when the step
    raises. *)
Definition enc (A : Type) := bson_buffer -> outcome A * bson_buffer.

Definition ret {A} (a : A) : enc A := fun b => (Ok a, b).

Definition bind {A B} (c : enc A) (k : A -> enc B) : enc B :=
  fun b =>
    match c b with
    | (Ok a, b') => k a b'
    | (Raised e, b') => (Raised e, b')
    | (Undefined u, b') => (Undefined u, b')
    | (OutOfFuel, b') => (OutOfFuel, b')
    end.

Definition rb_raise {A} (c : exn_class) (msg : string) : enc A :=
  fun b => (Raised (Exn c msg), b).

(** A call into bson_buffer.h. *)
Definition call (op : bson_buffer -> Z * bson_buffer) : enc Z :=
  fun b => let (r, b') := op b in (Ok r, b').

Definition get_position : enc Z :=
  fun b => (Ok (bson_buffer_get_position b), b).

Definition get_max_size : enc Z :=
  fun b => (Ok (bson_buffer_get_max_size b), b).

Declare Scope enc_scope.
Delimit Scope enc_scope with enc.
Notation "x <- c ;; k" := (bind c (fun x => k))
  (at level 61, c at next level, right associativity) : enc_scope.
Notation "c ;; k" := (bind c (fun _ => k))
  (at level 61, right associativity) : enc_scope.
Local Open Scope enc_scope.

Definition free_buffer : enc unit := call bson_buffer_free ;; ret tt.

(** The macro [SAFE_WRITE]. *)
Definition SAFE_WRITE (d : bytes) (size : Z) : enc unit :=
  status <- call (fun b => bson_buffer_write b d size) ;;
  if status =? 0 then ret tt
  else rb_raise NoMemError "failed to allocate memory in bson_buffer.c".

(** The macro [SAFE_WRITE_AT_POS]. *)
Definition SAFE_WRITE_AT_POS (position : Z) (d : bytes) (size : Z) : enc unit :=
  status <- call (fun b => bson_buffer_write_at_position b position d size) ;;
  if status =? 0 then ret tt
  else rb_raise RuntimeError "invalid write at position in bson_buffer.c".

(** [bson_buffer_save_space] followed by the test for -1. *)
Definition save_space (size : Z) : enc Z :=
  length_location <- call (fun b => bson_buffer_save_space b size) ;;
  if length_location =? -1
  then rb_raise NoMemError "failed to allocate memory in buffer.c"
  else ret length_location.

(** [(int)RSTRING_LEN(s)] *)
Definition RSTRING_LENINT (s : bytes) : Z :=
  to_signed 32 (Z.of_nat (length s) mod 2 ^ 32).

(** Conversions of the host (a host whose [long] has 64 bits): they raise
    when the integer does not fit. *)
Definition FIX2INT (v : Z) : enc Z :=
  if in_int v then ret v
  else rb_raise RangeError "integer out of the range of int".

Definition NUM2UINT (v : Z) : enc Z :=
  if (INT_MIN <=? v) && (v <? 2 ^ 32) then ret (v mod 2 ^ 32)
  else rb_raise RangeError "integer out of the range of unsigned int".

Definition NUM2LL (v : Z) : enc Z :=
  if (LLONG_MIN <=? v) && (v <=? LLONG_MAX) then ret v
  else rb_raise RangeError "bignum too big to convert into long long".

(** [TYPE(value) == T_FIXNUM] for an integer: it fits a tagged [long]. *)
Definition is_fixnum (n : Z) : bool := (- 2 ^ 62 <=? n) && (n <? 2 ^ 62).

(** [write_utf8(buffer, string, allow_null)] *)
Definition write_utf8 (s : bytes) (allow_null : bool) : enc unit :=
  match validate_utf8_encoding s allow_null with
  | HAS_NULL =>
      free_buffer ;;
      rb_raise InvalidDocument
        "Key names / regex patterns must not contain the NULL byte"
  | INVALID_UTF8 =>
      free_buffer ;;
      rb_raise InvalidStringEncoding "String not valid UTF-8"
  | VALID => SAFE_WRITE s (RSTRING_LENINT s)
  end.

Definition zero : bytes := [0].
Definition one : bytes := [1].

(** [write_name_and_type(buffer, name, type)] *)
Definition write_name_and_type (name : bytes) (type : Z) : enc unit :=
  SAFE_WRITE [type mod 256] 1 ;;
  write_utf8 name false ;;
  SAFE_WRITE zero 1.

(** [flags & bit] as a condition *)
Definition has_flag (flags bit : Z) : bool := negb (Z.land flags bit =? 0).

Definition write_flag (flags bit : Z) (c : string) : enc unit :=
  if has_flag flags bit then SAFE_WRITE (lit c) 1 else ret tt.

(** [cmp_char]: the order of [char], which is signed *)
Definition char_le (a b : Z) : bool :=
  to_signed 8 (a mod 256) <=? to_signed 8 (b mod 256).

Fixpoint insert_char (c : Z) (l : bytes) : bytes :=
  match l with
  | [] => [c]
  | x :: r => if char_le c x then c :: l else x :: insert_char c r
  end.

(** [qsort(base, n, sizeof(char), cmp_char)] on the bytes [l] *)
Definition qsort_chars (l : bytes) : bytes := fold_right insert_char [] l.

(** [qsort] of [n] bytes of the buffer from [position] on *)
Definition qsort_buffer (position n : Z) : enc unit :=
  fun b =>
    let d := data b in
    let p := Z.to_nat position in
    let k := Z.to_nat n in
    (Ok tt, with_data b (firstn p d ++ qsort_chars (firstn k (skipn p d))
                         ++ skipn (p + k) d)).

(** [serialize_regex(buffer, key, pattern, flags, value, native)]: of
    [value] only the answer to [extra_options_str] is used, [None] when
    it does not respond to it. *)
Definition serialize_regex (rc : regex_consts) (key pattern : bytes)
    (flags : Z) (extra : option bytes) (native : Z) : enc unit :=
  write_name_and_type key 11 ;;
  write_utf8 pattern false ;;
  SAFE_WRITE zero 1 ;;
  (if native =? 1 then
     (* Ruby regular expressions always use multiline mode *)
     SAFE_WRITE (lit "m") 1 ;;
     write_flag flags (IGNORECASE rc) "i" ;;
     (* dotall on the server is multiline in Ruby *)
     write_flag flags (MULTILINE rc) "s" ;;
     write_flag flags (EXTENDED rc) "x"
   else
     write_flag flags (BSONRegex_IGNORECASE rc) "i" ;;
     write_flag flags (BSONRegex_LOCALE_DEPENDENT rc) "l" ;;
     write_flag flags (BSONRegex_MULTILINE rc) "m" ;;
     write_flag flags (BSONRegex_DOTALL rc) "s" ;;
     write_flag flags (BSONRegex_UNICODE rc) "u" ;;
     write_flag flags (BSONRegex_EXTENDED rc) "x") ;;
  match extra with
  | Some extra =>
      old_position <- get_position ;;
      SAFE_WRITE extra (RSTRING_LENINT extra) ;;
      qsort_buffer old_position (Z.of_nat (length extra))
  | None => ret tt
  end ;;
  SAFE_WRITE zero 1.

(** [INT2STRING(&name, i)] *)
Definition INT2STRING (i : Z) : bytes := printf_d i.

(** [rb_hash_foreach(hash, f, extra)], and the loop over [keys] of an
    ordered hash, whose [i]-th key maps to the [i]-th value. *)
Fixpoint each_entry (f : rkey -> value -> enc unit)
    (es : list (rkey * value)) : enc unit :=
  match es with
  | [] => ret tt
  | (k, v) :: r => f k v ;; each_entry f r
  end.

(** The loop over the items of an array, from index [i] on. *)
Fixpoint each_item (f : Z -> value -> enc unit) (i : Z) (items : list value)
  : enc unit :=
  match items with
  | [] => ret tt
  | v :: r => f i v ;; each_item f (i + 1) r
  end.

Definition rkey_eqb (a b : rkey) : bool :=
  match a, b with
  | KStr x, KStr y => bytes_eqb x y
  | KSym x, KSym y => bytes_eqb x y
  | KOther x, KOther y => String.eqb x y
  | _, _ => false
  end.

(** [has_key?(key)] *)
Definition has_key (es : list (rkey * value)) (key : rkey) : bool :=
  existsb (fun e => rkey_eqb (fst e) key) es.

(** [rb_hash_aref(hash, key)] handed to what follows it: [found] gets the
    value under [key], [missing] runs when there is none. *)
Fixpoint with_entry {A} (es : list (rkey * value)) (key : rkey)
    (found : value -> A) (missing : A) : A :=
  match es with
  | [] => missing
  | (k, v) :: r =>
      if rkey_eqb k key then found v else with_entry r key found missing
  end.

Definition id_str : rkey := KStr (lit "_id").
Definition id_sym : rkey := KSym (lit "_id").

(** [(rb_obj_classname(hash), "Hash") == 0]: the comma operator drops the
    class name, and the address of a string literal is not null. *)
Definition classname_comma_Hash_is_null (hash : value) : bool := false.

(** [rb_hash_delete(hash, id_sym)] followed by
    [hash["_id"] = oid_sym]. *)
Definition coalesce_id (es : list (rkey * value)) : list (rkey * value) :=
  with_entry es id_sym
    (fun oid_sym =>
       map (fun e => if rkey_eqb (fst e) id_str then (fst e, oid_sym) else e)
           (filter (fun e => negb (rkey_eqb (fst e) id_sym)) es))
    es.

Definition class_of_hash (c : hash_class) : string :=
  match c with
  | OrderedHash => "BSON::OrderedHash"
  | PlainHash => "Hash"
  end.

(** [int] arithmetic inside the encoder. *)
Definition int_add (a b : Z) : enc Z :=
  fun buf => (add_int a b, buf).

(** A computation that leaves the buffer alone. *)
Definition eval {A} (c : outcome A) : enc A :=
  fun buf => (c, buf).

(** [(long long)round(t * 1000)], the [time_since_epoch] of the [Time]
    whose [to_f] is [t]. *)
Definition millis_of (t : double) : outcome Z :=
  round_to_long_long (double_mul t thousand).

(** [write_doc(buffer, hash, check_keys, move_id)], given the writer of
    one element ([write_element], declared before it in the C file and
    mutually recursive with it). *)
Definition write_doc_with (we : rkey -> value -> bool -> Z -> enc unit)
    (hash : value) (check_keys move_id : bool) : enc unit :=
  start_position <- get_position ;;
  length_location <- save_space 4 ;;
  (* write '_id' first if move_id is true. then don't allow an id to be
     written. *)
  allow_id <-
    (if move_id then
       match hash with
       | VHash _ es =>
           with_entry es id_str
             (fun id => we id_str id check_keys 1)
             (with_entry es id_sym
                (fun id => we id_sym id check_keys 1)
                (ret tt))
       | _ => rb_raise NoMethodError "undefined method has_key?"
       end ;;
       ret 0
     else ret 1) ;;
  (* Ensure that hash doesn't contain both '_id' and :_id *)
  let hash :=
    if move_id then hash
    else if classname_comma_Hash_is_null hash then
      match hash with
      | VHash c es =>
          if has_key es id_str && has_key es id_sym
          then VHash c (coalesce_id es) else hash
      | _ => hash
      end
    else hash in
  (* we have to check for an OrderedHash and handle that specially *)
  match hash with
  | VHash OrderedHash es =>
      each_entry (fun key value => we key value check_keys allow_id) es
  | VHash PlainHash es =>
      each_entry (fun key value => we key value check_keys allow_id) es
  | _ =>
      free_buffer ;;
      rb_raise InvalidDocument "BSON.serialize takes a Hash but got another object"
  end ;;
  (* write null byte and fill in length *)
  SAFE_WRITE zero 1 ;;
  position <- get_position ;;
  let length := position - start_position in
  (* make sure that length doesn't exceed the max size *)
  max_size <- get_max_size ;;
  (if length >? max_size then
     free_buffer ;;
     rb_raise InvalidDocument
       "Document too large: This BSON document is limited to max_size bytes."
   else ret tt) ;;
  SAFE_WRITE_AT_POS length_location (le_bytes 4 length) 4.

Definition unsupported_date (cls : string) : bool :=
  String.eqb cls "DateTime" || String.eqb cls "Date"
  || String.eqb cls "ActiveSupport::TimeWithZone".

Definition refuse {A} (msg : string) : enc A :=
  free_buffer ;; rb_raise InvalidDocument msg.

Definition msg_date : string :=
  "this class is not currently supported; use a UTC Time instance instead.".
Definition msg_numeric : string :=
  "Cannot serialize this Numeric type as BSON; only Bignum, Fixnum, and Float are supported.".
Definition msg_class : string :=
  "Cannot serialize an object of this class into BSON.".

(** The bytes of an ObjectId: [(char)FIX2INT(rb_ary_entry(as_array, i))]
    for [i] from [i] on, [n] of them. *)
Fixpoint write_oid_bytes (as_array : list Z) (i n : nat) : enc unit :=
  match n with
  | O => ret tt
  | S n' =>
      match nth_error as_array i with
      | Some v => byte <- FIX2INT v ;; SAFE_WRITE [byte mod 256] 1
      | None => rb_raise TypeError "no implicit conversion from nil to integer"
      end ;;
      write_oid_bytes as_array (S i) n'
  end.

(** The [T_STRING] case, shared with [ActiveSupport::Multibyte::Chars]. *)
Definition write_string (key s : bytes) : enc unit :=
  write_name_and_type key 2 ;;
  length <- int_add (RSTRING_LENINT s) 1 ;;
  SAFE_WRITE (le_bytes 4 length) 4 ;;
  write_utf8 s true ;;
  SAFE_WRITE zero 1.

(** The binary case, [subtype] already converted to [char]. *)
Definition write_binary (key string_data : bytes) (subtype : Z) : enc unit :=
  let length := RSTRING_LENINT string_data in
  write_name_and_type key 5 ;;
  (if subtype =? 2 then
     other_length <- int_add length 4 ;;
     SAFE_WRITE (le_bytes 4 other_length) 4 ;;
     SAFE_WRITE [subtype mod 256] 1
   else ret tt) ;;
  SAFE_WRITE (le_bytes 4 length) 4 ;;
  (if negb (subtype =? 2) then SAFE_WRITE [subtype mod 256] 1 else ret tt) ;;
  SAFE_WRITE string_data length.

(** [write_element(key, value, extra, allow_id)]: [extra] holds the
    buffer, which the monad threads, and [check_keys]. *)
Fixpoint write_element (rc : regex_consts) (key : rkey) (value : value)
    (check_keys : bool) (allow_id : Z) {struct value} : enc unit :=
  let key := match key with
             | KSym name => KStr (cstr name)
             | _ => key
             end in
  match key with
  | KStr key =>
    if (allow_id =? 0) && bytes_eqb (lit "_id") (cstr key) then ret tt
    else
      (if check_keys then
         (match key with
          | c :: _ =>
              if c =? 36 then
                free_buffer ;;
                rb_raise InvalidKeyName
                  ("key " ++ text (cstr key) ++ " must not start with '$'")%string
              else ret tt
          | [] => ret tt
          end) ;;
         (if existsb (fun c => c =? 46) key then
            free_buffer ;;
            rb_raise InvalidKeyName
              ("key " ++ text (cstr key) ++ " must not contain '.'")%string
          else ret tt)
       else ret tt) ;;
      match value with
      | VInt n =>
          (if is_fixnum n then ret tt
           else (* T_BIGNUM *)
             if (n >? 9223372036854775807)
                || (n <? to_signed 64 ((- 9223372036854775808) mod 2 ^ 64))
             then free_buffer ;;
                  rb_raise RangeError "MongoDB can only handle 8-byte ints"
             else ret tt) ;;
          ll_value <- NUM2LL n ;;
          if (ll_value >? 2147483647) || (ll_value <? -2147483648) then
            write_name_and_type key 18 ;;
            SAFE_WRITE (le_bytes 8 ll_value) 8
          else
            write_name_and_type key 16 ;;
            SAFE_WRITE (le_bytes 4 ll_value) 4
      | VTrue => write_name_and_type key 8 ;; SAFE_WRITE one 1
      | VFalse => write_name_and_type key 8 ;; SAFE_WRITE zero 1
      | VFloat d => write_name_and_type key 1 ;; SAFE_WRITE (le_bytes 8 d) 8
      | VNil => write_name_and_type key 10
      | VHash _ _ =>
          write_name_and_type key 3 ;;
          write_doc_with (write_element rc) value check_keys false
      | VArray items =>
          write_name_and_type key 4 ;;
          start_position <- get_position ;;
          (* save space for length *)
          length_location <- save_space 4 ;;
          each_item (fun i item =>
                       write_element rc (KStr (INT2STRING i)) item check_keys 1)
                    0 items ;;
          (* write null byte and fill in length *)
          SAFE_WRITE zero 1 ;;
          position <- get_position ;;
          let obj_length := position - start_position in
          SAFE_WRITE_AT_POS length_location (le_bytes 4 obj_length) 4
      | VString s => write_string key s
      | VSymbol name =>
          let str_value := cstr name in
          length <- int_add (RSTRING_LENINT str_value) 1 ;;
          write_name_and_type key 14 ;;
          SAFE_WRITE (le_bytes 4 length) 4 ;;
          SAFE_WRITE (str_value ++ [0]) length
      | VBinary string_data subtype =>
          subtype <- FIX2INT subtype ;;
          write_binary key string_data (to_signed 8 (subtype mod 256))
      | VByteBuffer string_data => write_binary key string_data 2
      | VObjectId as_array =>
          write_name_and_type key 7 ;;
          write_oid_bytes as_array 0 12
      | VDBRef ns oid =>
          write_name_and_type key 3 ;;
          start_position <- get_position ;;
          (* save space for length *)
          length_location <- save_space 4 ;;
          write_element rc (KStr (lit "$ref")) ns false 1 ;;
          write_element rc (KStr (lit "$id")) oid false 1 ;;
          (* write null byte and fill in length *)
          SAFE_WRITE zero 1 ;;
          position <- get_position ;;
          let obj_length := position - start_position in
          SAFE_WRITE_AT_POS length_location (le_bytes 4 obj_length) 4
      | VCode code_str scope =>
          write_name_and_type key 15 ;;
          start_position <- get_position ;;
          length_location <- save_space 4 ;;
          length <- int_add (RSTRING_LENINT code_str) 1 ;;
          SAFE_WRITE (le_bytes 4 length) 4 ;;
          SAFE_WRITE code_str (length - 1) ;;
          SAFE_WRITE zero 1 ;;
          write_doc_with (write_element rc) scope false false ;;
          position <- get_position ;;
          let total_length := position - start_position in
          SAFE_WRITE_AT_POS length_location (le_bytes 4 total_length) 4
      | VMaxKey => write_name_and_type key 127
      | VMinKey => write_name_and_type key 255
      | VTimestamp seconds increment =>
          write_name_and_type key 17 ;;
          seconds <- NUM2UINT seconds ;;
          increment <- NUM2UINT increment ;;
          SAFE_WRITE (le_bytes 4 increment) 4 ;;
          SAFE_WRITE (le_bytes 4 seconds) 4
      | VObject cls =>
          if unsupported_date cls then refuse msg_date
          else if String.eqb cls "Complex" || String.eqb cls "Rational"
                  || String.eqb cls "BigDecimal"
          then refuse msg_numeric
          else refuse msg_class
      | VChars str => write_string key str
      | VBSONRegex pattern options extra =>
          flags <- FIX2INT options ;;
          serialize_regex rc key pattern flags extra 0
      | VTime t =>
          time_since_epoch <- eval (millis_of t) ;;
          write_name_and_type key 9 ;;
          SAFE_WRITE (le_bytes 8 time_since_epoch) 8
      | VData cls =>
          (* Date classes are TYPE T_DATA in Ruby >= 1.9.3 *)
          if unsupported_date cls then refuse msg_date
          else if String.eqb cls "BigDecimal" then refuse msg_numeric
          else refuse msg_class
      | VRegexp pattern flags extra =>
          serialize_regex rc key pattern flags extra 1
      | VOther cls type => refuse msg_class
      end
  | _ =>
      free_buffer ;;
      rb_raise TypeError "keys must be strings or symbols"
  end.

Definition write_element_without_id rc key value check_keys :=
  write_element rc key value check_keys 0.
Definition write_element_with_id rc key value check_keys :=
  write_element rc key value check_keys 1.

Definition write_doc (rc : regex_consts) : value -> bool -> bool -> enc unit :=
  write_doc_with (write_element rc).

(** [method_serialize(self, doc, check_keys, move_id, max_size)]. [heap]
    is what the allocator has for the buffer of this call: [None] when
    [bson_buffer_new] fails, [Some room] otherwise. The buffer is returned
    with the outcome, as it stands when the call ends. *)
Definition method_serialize (rc : regex_consts) (heap : option Z)
    (doc : value) (check_keys move_id : bool) (max_size : Z)
  : outcome bytes * option bson_buffer :=
  match heap with
  | None => (Raised (Exn NoMemError "failed to allocate memory in buffer.c"), None)
  | Some room =>
      let run :=
        (max_size <- FIX2INT max_size ;;
         (fun b => (Ok tt, bson_buffer_set_max_size b max_size)) ;;
         write_doc rc doc check_keys move_id ;;
         result <- (fun b => (Ok (firstn (Z.to_nat (bson_buffer_get_position b))
                                         (bson_buffer_get_buffer b)), b)) ;;
         status <- call bson_buffer_free ;;
         if negb (status =? 0) then rb_raise RuntimeError "failed to free buffer"
         else ret result) in
      let (r, b) := run (bson_buffer_new room) in (r, Some b)
  end.

End Encoder.

(* ================================================================= *)
(** ** An instance of the host *)

Module Host.
Import Encoder Decoder.

(** The regex option bits of Ruby 1.9 (oniguruma.h) and of [BSON::Regex]
    (bson/types/regex.rb), to run the encoder on examples. The properties
    below hold for any values of these constants. *)
Definition ruby_consts : regex_consts := {|
  IGNORECASE := 1;
  EXTENDED := 2;
  MULTILINE := 4;
  BSONRegex_IGNORECASE := 1;
  BSONRegex_LOCALE_DEPENDENT := 2;
  BSONRegex_MULTILINE := 4;
  BSONRegex_DOTALL := 8;
  BSONRegex_UNICODE := 16;
  BSONRegex_EXTENDED := 32
|}.

Definition flag_bit (c : Z) : Z :=
  if c =? 105 then 1 else if c =? 108 then 2 else if c =? 109 then 4
  else if c =? 115 then 8 else if c =? 117 then 16 else if c =? 120 then 32
  else 0.

(** The [double] of an integer. *)
Definition double_of_Z (z : Z) : double := binary_normalize 53 1024 z 0 false.

(** A Ruby side for the decoder, to run it on examples: the wrapper keeps
    the pattern and the option bits of the flag characters,
    [try_compile] leaves it as it is, and the [to_f] of the [Time] of
    [millis] milliseconds is the quotient of the doubles of [millis] and
    of 1000. *)
Definition ruby_regex_host : regex_host := {|
  regex_new := fun pattern flags_str =>
    VBSONRegex pattern (fold_right (fun c acc => Z.lor (flag_bit c) acc) 0 flags_str) None;
  try_compile := fun v => v;
  time_of_millis := fun millis =>
    VTime (SFdiv 53 1024 (double_of_Z millis) (double_of_Z 1000))
|}.

End Host.

(* ================================================================= *)
(** ** ObjectId strings *)

Module ObjectIdStr.

(** A byte of a Ruby string read through [char], which is signed. *)
Definition as_char (b : Z) : Z := to_signed 8 (b mod 256).

(** The test of the loop of [legal_objectid_str] on one [char]. *)
Definition hex_digit (c : Z) : bool :=
  ((48 <=? c) && (c <=? 57)) || ((65 <=? c) && (c <=? 70))
  || ((97 <=? c) && (c <=? 102)).

(** [legal_objectid_str(str)]: of the values, a [String] alone has the
    type [T_STRING]. *)
Definition legal_objectid_str (str : value) : bool :=
  match str with
  | VString s =>
      if negb (Z.of_nat (length s) =? 24) then false
      else forallb (fun b => hex_digit (as_char b)) (firstn 24 s)
  | _ => false
  end.

(** [objectid_legal(self, str)]: [Qtrue] or [Qfalse]. *)
Definition objectid_legal (str : value) : value :=
  if legal_objectid_str str then VTrue else VFalse.

(** [hexbyte(hex)] *)
Definition hexbyte (hex : Z) : Z :=
  if (48 <=? hex) && (hex <=? 57) then hex - 48
  else if (65 <=? hex) && (hex <=? 70) then hex - 65 + 10
  else if (97 <=? hex) && (hex <=? 102) then hex - 97 + 10
  else 0.

(** [InvalidObjectId], as [objectid_from_string] raises it: for a string,
    with the message ["illegal ObjectId format: %s"] of its C string; for
    another object, with ["not a String: %s"] of a pointer that is not a
    C string, whose text the model leaves out. *)
Inductive invalid_objectid :=
| IllegalFormat (shown : bytes)
| NotAString.

(** [objectid_from_string(self, str)]: the error, or the [ObjectId] that
    [ObjectId.new] makes of the array of the twelve bytes. *)
Definition objectid_from_string (str : value) : invalid_objectid + value :=
  if negb (legal_objectid_str str) then
    match str with
    | VString s => inl (IllegalFormat (cstr s))
    | _ => inl NotAString
    end
  else
    match str with
    | VString s =>
        inr (VObjectId
               (map (fun i =>
                       Z.lor (Z.shiftl (hexbyte (as_char (nth (2 * i) s 0))) 4)
                             (hexbyte (as_char (nth (2 * i + 1) s 0))))
                    (seq 0 12)))
    | _ => inl NotAString
    end.

(** [NUM2INT] of an [Integer] *)
Definition NUM2INT (v : Z) : outcome Z :=
  if v <? INT_MIN
  then Raised (Exn RangeError "integer too small to convert to `int'")
  else if INT_MAX <? v
  then Raised (Exn RangeError "integer too big to convert to `int'")
  else Ok v.

(** The arguments of the [sprintf] of [objectid_to_s]. C leaves the order
    of their evaluation open; an element out of the range of [int] raises
    the same error in any order. *)
Fixpoint sprintf_args (data : list Z) : outcome (list Z) :=
  match data with
  | [] => Ok []
  | v :: r =>
      (x <- NUM2INT v ;; xs <- sprintf_args r ;; Ok (x :: xs))%outcome
  end.

(** A digit of [%x]. *)
Definition hex_char (d : Z) : Z := if d <? 10 then 48 + d else 87 + d.

(** [printf("%x", u)] for an [unsigned] of 32 bits. *)
Fixpoint hex (fuel : nat) (u : Z) (acc : bytes) : bytes :=
  match fuel with
  | O => acc
  | S fuel' =>
      let acc' := hex_char (u mod 16) :: acc in
      if u <? 16 then acc' else hex fuel' (u / 16) acc'
  end.

(** [printf("%02x", u)]: at least two digits. *)
Definition printf_02x (u : Z) : bytes :=
  let d := hex 8 u [] in
  if (length d <? 2)%nat then 48 :: d else d.

(** [objectid_to_s(self)], from the array [@data] of the id: [sprintf]
    writes the digits of its first twelve elements and a NUL into
    [cstr[25]], and the string is made of the first 24 bytes. An array of
    fewer than twelve elements is read past its end, at the index given;
    more than 24 digits are written past the end of [cstr], from the
    offset given. *)
Definition objectid_to_s (data : list Z) : outcome bytes :=
  if (length data <? 12)%nat
  then Undefined (OutOfBounds (Z.of_nat (length data)))
  else
    (args <- sprintf_args (firstn 12 data) ;;
     let out := concat (map (fun v => printf_02x (v mod 2 ^ 32)) args) in
     if 24 <? Z.of_nat (length out) then Undefined (OutOfBounds 25)
     else Ok (firstn 24 out))%outcome.

End ObjectIdStr.

(* ================================================================= *)
(** * The vocabulary of the properties *)

(** What the properties are stated with: the shape of the input of the
    decoder, the state of the buffer of the encoder, the wire format of
    the values, and the examples. *)

Module Spec.
Import Decoder Encoder.

(** A string without NUL: what a C string holds before its end. *)
Definition no_nul (s : bytes) : Prop := Forall (fun b => b <> 0) s.

(** The tags of the Data Model table of the specification. *)
Definition data_model_tag (t : Z) : bool :=
  ((1 <=? t) && (t <=? 5)) || ((7 <=? t) && (t <=? 18)) || (t =? 127) || (t =? 255).

(** The payload of the tags whose payload has a fixed number of bytes. *)
Definition fixed_width (t : Z) : option Z :=
  if t =? 1 then Some 8 else if t =? 7 then Some 12 else if t =? 8 then Some 1
  else if t =? 9 then Some 8 else if t =? 16 then Some 4
  else if t =? 17 then Some 8 else if t =? 18 then Some 8 else None.

(** The buffer [b] after [bs] was appended to it. *)
Definition appended (b : bson_buffer) (bs : bytes) : bson_buffer :=
  with_data b (data b ++ bs).

(** The buffer has room for [n] more bytes. *)
Definition fits (b : bson_buffer) (n : Z) : Prop :=
  bson_buffer_get_position b + n <= room b /\ room b <= INT_MAX.

(** What stands in the way of writing an element under [key]: the checks
    of [check_keys], and the suppression of [_id]. *)
Definition key_passes (check_keys : bool) (key : bytes) : Prop :=
  check_keys = true -> hd 0 key <> 36 /\ ~ In 46 key.

(** The element is not an [_id] that [allow_id = 0] leaves out. *)
Definition not_suppressed (allow_id : Z) (key : bytes) : Prop :=
  allow_id = 0 -> cstr key <> lit "_id".

(** The values under which no key is written with the [check_keys] of the
    caller: all but hashes and arrays. *)
Definition passes_check_keys_on (v : value) : bool :=
  match v with
  | VHash _ _ | VArray _ => true
  | _ => false
  end.

(** The tag of the element that a call [r] of [write_element] on the
    buffer [b] has appended, if it has. *)
Definition written_tag (b : bson_buffer) (r : outcome unit * bson_buffer)
  : option Z :=
  match r with
  | (Ok _, b') => nth_error (data b') (length (data b))
  | _ => None
  end.

(** A [Hash] or a [BSON::OrderedHash]. *)
Definition is_hash (v : value) : bool :=
  match v with
  | VHash _ _ => true
  | _ => false
  end.

(** The key is one that [write_element] writes as [_id]. *)
Definition id_key (k : rkey) : bool :=
  match k with
  | KStr s => bytes_eqb (lit "_id") (cstr s)
  | KSym name => bytes_eqb (lit "_id") (cstr (cstr name))
  | KOther _ => false
  end.

(** The byte that [write_flag] appends, if the bit is set. *)
Definition flag (flags bit : Z) (c : string) : bytes :=
  if has_flag flags bit then lit c else [].

(** The flag characters of a regular expression without extra options,
    in the order in which [serialize_regex] writes them. *)
Definition regex_flag_bytes (rc : regex_consts) (flags native : Z) : bytes :=
  if native =? 1 then
    lit "m" ++ flag flags (IGNORECASE rc) "i" ++ flag flags (MULTILINE rc) "s"
    ++ flag flags (EXTENDED rc) "x"
  else
    flag flags (BSONRegex_IGNORECASE rc) "i"
    ++ flag flags (BSONRegex_LOCALE_DEPENDENT rc) "l"
    ++ flag flags (BSONRegex_MULTILINE rc) "m"
    ++ flag flags (BSONRegex_DOTALL rc) "s"
    ++ flag flags (BSONRegex_UNICODE rc) "u"
    ++ flag flags (BSONRegex_EXTENDED rc) "x".

(** The flag string the specification asks for: strictly increasing
    (sorted and without duplicates) and over the six letters. *)
Definition flag_letters : bytes := lit "ilmsux".

(** The values directly under a value. *)
Definition children (v : value) : list value :=
  match v with
  | VHash _ es => map snd es
  | VArray items => items
  | VDBRef ns oid => [ns; oid]
  | VCode _ scope => [scope]
  | _ => []
  end.

(** The errors that the encoder raises from its own checks: the size cap,
    the key errors, the encoding errors, the unsupported variants, the
    integers out of range. *)
Definition own_check (e : exn) : Prop :=
  exn_cls e = InvalidDocument \/ exn_cls e = InvalidKeyName
  \/ exn_cls e = InvalidStringEncoding
  \/ e = Exn TypeError "keys must be strings or symbols"
  \/ e = Exn RangeError "MongoDB can only handle 8-byte ints".

(** A step that, when it raises from one of its own checks, has freed the
    buffer. *)
Definition frees {A} (c : enc A) : Prop :=
  forall b e b', c b = (Raised e, b') -> own_check e -> freed b' = true.

(** The error of the size cap. *)
Definition too_large : exn :=
  Exn InvalidDocument
    "Document too large: This BSON document is limited to max_size bytes.".

Section Cap.
Variables M m : Z.

(** Two buffers that differ in their cap only: [M] in the first, [m] in
    the second. *)
Definition same_but_cap (b1 b2 : bson_buffer) : Prop :=
  data b1 = data b2 /\ room b1 = room b2 /\ freed b1 = freed b2
  /\ max_size b1 = M /\ max_size b2 = m.

(** The second run stops on the cap, after freeing the buffer, or the two
    runs do the same. *)
Definition sim {A} (c : enc A) : Prop :=
  forall b1 b2, same_but_cap b1 b2 ->
    (fst (c b2) = Raised too_large /\ freed (snd (c b2)) = true)
    \/ (fst (c b1) = fst (c b2) /\ same_but_cap (snd (c b1)) (snd (c b2))).

End Cap.

(** A document frame: the length, the elements, a NUL. *)
Definition frame (body : bytes) : bytes :=
  le_bytes 4 (Z.of_nat (length body) + 5) ++ body ++ [0].

(** The bytes of the name of a key. *)
Definition key_bytes (k : rkey) : bytes :=
  match k with
  | KStr s => s
  | KSym name => cstr name
  | KOther _ => []
  end.

(** The tag of a value of the round trip. *)
Definition tag_of (v : value) : Z :=
  match v with
  | VInt n => if in_int n then 16 else 18
  | VTrue | VFalse => 8
  | VNil => 10
  | VFloat _ => 1
  | VHash _ _ => 3
  | VArray _ => 4
  | VString _ => 2
  | VBinary _ _ => 5
  | VObjectId _ => 7
  | VMaxKey => 127
  | VMinKey => 255
  | VTimestamp _ _ => 17
  | VTime _ => 9
  | _ => 0
  end.

(** The bytes of a value after its tag and name. *)
Fixpoint payload (v : value) : bytes :=
  match v with
  | VInt n => if in_int n then le_bytes 4 n else le_bytes 8 n
  | VTrue => [1]
  | VFalse => [0]
  | VFloat d => le_bytes 8 d
  | VHash _ es =>
      frame ((fix elements (es : list (rkey * value)) : bytes :=
                match es with
                | [] => []
                | (k, w) :: r =>
                    (tag_of w :: key_bytes k ++ 0 :: payload w) ++ elements r
                end) es)
  | VArray items =>
      frame ((fix items_from (i : Z) (items : list value) : bytes :=
                match items with
                | [] => []
                | w :: r =>
                    (tag_of w :: printf_d i ++ 0 :: payload w)
                    ++ items_from (i + 1) r
                end) 0 items)
  | VString s => le_bytes 4 (Z.of_nat (length s) + 1) ++ s ++ [0]
  | VBinary d subtype =>
      if subtype =? 2
      then le_bytes 4 (Z.of_nat (length d) + 4) ++ [2]
           ++ le_bytes 4 (Z.of_nat (length d)) ++ d
      else le_bytes 4 (Z.of_nat (length d)) ++ [subtype] ++ d
  | VObjectId o => o
  | VTimestamp seconds increment => le_bytes 4 increment ++ le_bytes 4 seconds
  | VTime t =>
      match millis_of t with
      | Ok millis => le_bytes 8 millis
      | _ => []
      end
  | _ => []
  end.

(** An element: the tag, the name and its NUL, the payload. *)
Definition element (key : bytes) (v : value) : bytes :=
  tag_of v :: key ++ 0 :: payload v.

(** The elements of the entries of a document, in their order. *)
Fixpoint elements (es : list (rkey * value)) : bytes :=
  match es with
  | [] => []
  | (k, w) :: r => element (key_bytes k) w ++ elements r
  end.

(** The elements of the items of an array, named by their indices from
    [i] on. *)
Fixpoint items_from (i : Z) (items : list value) : bytes :=
  match items with
  | [] => []
  | w :: r => element (printf_d i) w ++ items_from (i + 1) r
  end.

(** The values of the round trip: Double, String, Document, Array,
    Binary, ObjectId, Bool, Null, Int32 and Int64, Timestamp, MinKey and
    MaxKey, as the wire can hold them. The keys of a document are strings,
    valid UTF-8 without NUL, pairwise different. *)
Definition keys_ok (es : list (rkey * value)) : Prop :=
  Forall (fun e => exists s, fst e = KStr s
                             /\ validate_utf8_encoding s false = VALID) es
  /\ NoDup (map (fun e => key_bytes (fst e)) es).

(** The first key of the document is not ["$ref"]. *)
Definition not_a_reference (es : list (rkey * value)) : Prop :=
  match es with
  | (k, _) :: _ => key_bytes k <> lit "$ref"
  | [] => True
  end.

(** The values that are written and read back as they are. A [Time] is
    not among them: it is written through [double] arithmetic and read
    back as a [Time] that the host makes. *)
Inductive rt : value -> Prop :=
| rt_int n : LLONG_MIN <= n <= LLONG_MAX -> rt (VInt n)
| rt_true : rt VTrue
| rt_false : rt VFalse
| rt_nil : rt VNil
| rt_float d : 0 <= d < 2 ^ 64 -> rt (VFloat d)
| rt_hash c es :
    keys_ok es -> not_a_reference es -> Forall (fun e => rt (snd e)) es ->
    rt (VHash c es)
| rt_array items : Forall rt items -> rt (VArray items)
| rt_string s : validate_utf8_encoding s true = VALID -> rt (VString s)
| rt_binary d subtype : 0 <= subtype < 256 -> rt (VBinary d subtype)
| rt_oid o : length o = 12%nat -> Forall is_byte o -> rt (VObjectId o)
| rt_maxkey : rt VMaxKey
| rt_minkey : rt VMinKey
| rt_timestamp s i : 0 <= s < 2 ^ 32 -> 0 <= i < 2 ^ 32 -> rt (VTimestamp s i).

(** A document of the round trip: a hash of such values; its own first
    key is free. *)
Definition rt_doc (es : list (rkey * value)) : Prop :=
  keys_ok es /\ Forall (fun e => rt (snd e)) es.

(** What the decoder makes of a value: every hash comes back as an
    ordered hash. *)
Fixpoint as_ordered (v : value) : value :=
  match v with
  | VHash _ es =>
      VHash OrderedHash
        ((fix go (es : list (rkey * value)) :=
            match es with
            | [] => []
            | (k, w) :: r => (k, as_ordered w) :: go r
            end) es)
  | VArray items => VArray (map as_ordered items)
  | _ => v
  end.

(** The entries of a document, as the decoder returns them. *)
Definition entries_as_ordered (es : list (rkey * value)) : list (rkey * value) :=
  map (fun e => (fst e, as_ordered (snd e))) es.

(** Bytes of ASCII other than NUL. *)
Definition ascii_text (s : bytes) : Prop := Forall (fun b => 0 < b < 128) s.

(** The encoder writes the element of [w] under any valid key. *)
Definition writes_ok (rc : regex_consts) (w : value) : Prop :=
  forall key b,
    validate_utf8_encoding key false = VALID ->
    fits b (Z.of_nat (length (element key w))) ->
    Z.of_nat (length (element key w)) <= max_size b ->
    write_element rc (KStr key) w false 1 b = (Ok tt, appended b (element key w)).

(** The fuel that decoding a value takes: one step for [get_value], one
    for each turn of a loop and one for its exit. *)
Fixpoint need (v : value) : nat :=
  match v with
  | VHash _ es =>
      S ((fix go (es : list (rkey * value)) : nat :=
            match es with
            | [] => 1%nat
            | (_, w) :: r => S (need w + go r)
            end) es)
  | VArray items =>
      S ((fix go (items : list value) : nat :=
            match items with
            | [] => 1%nat
            | w :: r => S (need w + go r)
            end) items)
  | _ => 1%nat
  end.

(** The fuel of the loop over the entries of a document. *)
Fixpoint need_entries (es : list (rkey * value)) : nat :=
  match es with
  | [] => 1%nat
  | (_, w) :: r => S (need w + need_entries r)
  end.

(** The fuel of the loop over the items of an array. *)
Fixpoint need_items (items : list value) : nat :=
  match items with
  | [] => 1%nat
  | w :: r => S (need w + need_items r)
  end.

(** What follows a value in the input starts with a byte that is not
    '$': a tag or the NUL that closes a frame. *)
Definition post_ok (post : bytes) : Prop :=
  exists t r, post = t :: r /\ t <> 36.

Section Reading.
Variables (host : regex_host) (opts : deserialize_opts).

(** [get_value] reads the payload of [v] and returns it, with ordered
    hashes, wherever it stands in the input. *)
Definition reads_ok (v : value) : Prop :=
  forall fuel mem pre post buffer position,
    (need v <= fuel)%nat ->
    mem = pre ++ payload v ++ post ->
    buffer + position = Z.of_nat (length pre) ->
    0 <= position ->
    position + Z.of_nat (length (payload v)) <= INT_MAX ->
    post_ok post ->
    get_value host mem fuel opts buffer position (tag_of v)
    = Ok (as_ordered v, position + Z.of_nat (length (payload v))).

End Reading.

(** [deserialize(serialize(doc, false, false, 4194304))]: what
    [method_deserialize] makes of the bytes [method_serialize] returns;
    an error of the encoder is the error of the whole. *)
Definition round_trip (rc : regex_consts) (host : regex_host) (avail : Z)
    (fuel : nat) (opt : option value) (doc : value) : outcome value :=
  match fst (method_serialize rc (Some avail) doc false false 4194304) with
  | Ok bson => method_deserialize host fuel bson opt
  | Raised e => Raised e
  | Undefined u => Undefined u
  | OutOfFuel => OutOfFuel
  end.

(** The kinds of values of the non-lossy subset, as the specification
    lists them. *)
Fixpoint in_subset (v : value) : bool :=
  match v with
  | VInt _ | VTrue | VFalse | VNil | VFloat _ | VString _ | VBinary _ _
  | VObjectId _ | VMaxKey | VMinKey | VTimestamp _ _ | VTime _ => true
  | VHash _ es =>
      (fix go (es : list (rkey * value)) : bool :=
         match es with
         | [] => true
         | (_, w) :: r => in_subset w && go r
         end) es
  | VArray items =>
      (fix go (items : list value) : bool :=
         match items with
         | [] => true
         | w :: r => in_subset w && go r
         end) items
  | _ => false
  end.

(** A document of the subset with a nested document whose first key is
    ["$ref"]: [{"a" => {"$ref" => "x", "$id" => 1}}]. *)
Definition nested_reference : value :=
  VHash OrderedHash
    [(KStr (lit "a"),
      VHash OrderedHash [(KStr (lit "$ref"), VString (lit "x"));
                         (KStr (lit "$id"), VInt 1)])].

(** A key that [check_keys] refuses: it begins with '$' or holds a '.'. *)
Definition bad_key (key : bytes) : Prop :=
  (exists rest, key = 36 :: rest) \/ In 46 key.

(** The name under which a key is written: a string as it is, a symbol
    under its name; other keys have none. *)
Definition name_of (k : rkey) : option bytes :=
  match k with
  | KStr s => Some s
  | KSym name => Some (cstr name)
  | KOther _ => None
  end.

(** The sub-document of a [DBRef] whose namespace is the string [s] and
    whose id is the ObjectId [o]. *)
Definition dbref_document (s o : bytes) : bytes :=
  frame (element (lit "$ref") (VString s) ++ element (lit "$id") (VObjectId o)).

(** [{"c" => Code("x", {"$a" => 1})}] *)
Definition code_with_dollar_scope : value :=
  VHash PlainHash
    [(KStr (lit "c"),
      VCode (lit "x") (VHash PlainHash [(KStr (lit "$a"), VInt 1)]))].

End Spec.

(** The vocabulary of the strings of an ObjectId. *)

Module ObjectIdStrSpec.
Import ObjectIdStr.

(** A hexadecimal digit, in either case. *)
Definition is_hex (c : Z) : Prop :=
  48 <= c <= 57 \/ 65 <= c <= 70 \/ 97 <= c <= 102.

(** The lower case of a hexadecimal digit. *)
Definition lower (c : Z) : Z := if (65 <=? c) && (c <=? 70) then c + 32 else c.

(** The time field of an id: its first four bytes, in network order. *)
Definition time_field (oid : bytes) : Z := be_value (firstn 4 oid).

End ObjectIdStrSpec.

(** The vocabulary of the order of the elements and of the values that
    the encoder refuses. *)

Module EncoderSpec.
Import Encoder Spec.

(** The entries that are not written as [_id]. *)
Definition without_id (es : list (rkey * value)) : list (rkey * value) :=
  filter (fun e => negb (id_key (fst e))) es.

(** The document that [move_id] makes [write_doc] write: the value under
    ["_id"], or else the one under [:_id], comes first, and no other
    entry is written as [_id]. *)
Definition id_first (es : list (rkey * value)) : list (rkey * value) :=
  match with_entry es id_str Some None with
  | Some v => (id_str, v) :: without_id es
  | None =>
      match with_entry es id_sym Some None with
      | Some v => (id_sym, v) :: without_id es
      | None => without_id es
      end
  end.

(** The classes of [T_OBJECT] that [write_element] has a case for. *)
Definition written_classes : list string :=
  ["BSON::Binary"; "ByteBuffer"; "BSON::ObjectId"; "BSON::DBRef"; "BSON::Code";
   "BSON::MaxKey"; "BSON::MinKey"; "BSON::Timestamp";
   "ActiveSupport::Multibyte::Chars"; "BSON::Regex"]%string.

(** The values that [write_element] refuses for their class: an object
    of a class it has no case for, a [T_DATA] other than a [Time], a
    value of another type. *)
Definition unsupported (v : value) : bool :=
  match v with
  | VObject cls => negb (existsb (String.eqb cls) written_classes)
  | VData cls => negb (String.eqb cls "Time")
  | VOther _ _ => true
  | _ => false
  end.

End EncoderSpec.

(** The vocabulary of the size cap. *)

Module CapSpec.
Import Encoder Spec.

(** The buffer under another cap. *)
Definition recap (b : bson_buffer) (m : Z) : bson_buffer :=
  bson_buffer_set_max_size b m.

(** A step that does not look at the cap. *)
Definition capless {A} (c : enc A) : Prop :=
  forall b m, c (recap b m) = (fst (c b), recap (snd (c b)) m).

(** A step that, when it returns, has not shortened the buffer. *)
Definition grows {A} (c : enc A) : Prop :=
  forall b a b', c b = (Ok a, b') ->
    bson_buffer_get_position b <= bson_buffer_get_position b'.

(** A step that, when it returns, has not shortened the buffer and
    returns the same under every cap that what is written by then does
    not exceed. *)
Definition stable {A} (c : enc A) : Prop :=
  forall b a b', c b = (Ok a, b') ->
    bson_buffer_get_position b <= bson_buffer_get_position b'
    /\ forall m, bson_buffer_get_position b' <= m ->
                 c (recap b m) = (Ok a, recap b' m).

End CapSpec.

(** The vocabulary of the conversions: what the encoder writes for the
    values that do not come back as they are, and what the decoder makes
    of it. *)

Module ConvSpec.
Import Decoder Encoder Spec.

(** The options that [method_deserialize] hands to [get_value]. *)
Definition opts_of (compile_regex_opt : option value) : deserialize_opts :=
  {| compile_regex := match compile_regex_opt with
                      | Some VFalse => 0
                      | _ => 1
                      end |}.

(** The tag under which a value is written. *)
Definition wire_tag (v : value) : Z :=
  match v with
  | VSymbol _ => 14
  | VByteBuffer _ => 5
  | VChars _ => 2
  | VDBRef _ _ => 3
  | VCode _ _ => 15
  | VBSONRegex _ _ _ | VRegexp _ _ _ => 11
  | _ => tag_of v
  end.

(** A string with its length and its NUL. *)
Definition counted (s : bytes) : bytes :=
  le_bytes 4 (Z.of_nat (length s) + 1) ++ s ++ [0].

(** The bytes that follow a length which counts itself. *)
Definition sized (body : bytes) : bytes :=
  le_bytes 4 (Z.of_nat (length body) + 4) ++ body.

Section Writing.
Variable rc : regex_consts.

(** The bytes of a value after its tag and name. *)
Fixpoint wire_payload (v : value) : bytes :=
  match v with
  | VHash _ es =>
      frame ((fix elements (es : list (rkey * value)) : bytes :=
                match es with
                | [] => []
                | (k, w) :: r =>
                    (wire_tag w :: key_bytes k ++ 0 :: wire_payload w)
                    ++ elements r
                end) es)
  | VArray items =>
      frame ((fix items_from (i : Z) (items : list value) : bytes :=
                match items with
                | [] => []
                | w :: r =>
                    (wire_tag w :: printf_d i ++ 0 :: wire_payload w)
                    ++ items_from (i + 1) r
                end) 0 items)
  | VSymbol name => counted (cstr name)
  | VByteBuffer d => payload (VBinary d 2)
  | VChars s => counted s
  | VDBRef ns oid =>
      frame ((wire_tag ns :: lit "$ref" ++ 0 :: wire_payload ns)
             ++ (wire_tag oid :: lit "$id" ++ 0 :: wire_payload oid))
  | VCode code scope => sized (counted code ++ wire_payload scope)
  | VBSONRegex pattern options _ =>
      pattern ++ 0 :: regex_flag_bytes rc options 0 ++ [0]
  | VRegexp src options _ =>
      src ++ 0 :: regex_flag_bytes rc options 1 ++ [0]
  | _ => payload v
  end.

(** An element: the tag, the name and its NUL, the payload. *)
Definition wire_element (key : bytes) (v : value) : bytes :=
  wire_tag v :: key ++ 0 :: wire_payload v.

(** The elements of the entries of a document, in their order. *)
Fixpoint wire_elements (es : list (rkey * value)) : bytes :=
  match es with
  | [] => []
  | (k, w) :: r => wire_element (key_bytes k) w ++ wire_elements r
  end.

(** The elements of the items of an array, named by their indices from
    [i] on. *)
Fixpoint wire_items_from (i : Z) (items : list value) : bytes :=
  match items with
  | [] => []
  | w :: r => wire_element (printf_d i) w ++ wire_items_from (i + 1) r
  end.

End Writing.

Section Reading.
Variables (rc : regex_consts) (host : regex_host) (opts : deserialize_opts).

(** What [case 11] of [get_value] returns for a pattern and its flags. *)
Definition regex_read (pattern flags_str : bytes) : value :=
  let value := regex_new host pattern flags_str in
  if compile_regex opts =? 1 then try_compile host value else value.

(** What the decoder returns for a value that was written: every hash is
    an ordered hash with string keys, a symbol ends at its first NUL, a
    [ByteBuffer] is a [Binary] of subtype 2, [Chars] are a [String], a
    regular expression is what the host makes of its pattern and of its
    flag letters, a [Time] is the [Time] that the host makes of the
    milliseconds that were written, [(long long)round(to_f * 1000)]. *)
Fixpoint decoded (v : value) : value :=
  match v with
  | VHash _ es =>
      VHash OrderedHash
        ((fix go (es : list (rkey * value)) :=
            match es with
            | [] => []
            | (k, w) :: r => (KStr (key_bytes k), decoded w) :: go r
            end) es)
  | VArray items => VArray (map decoded items)
  | VSymbol name => VSymbol (cstr name)
  | VByteBuffer d => VBinary d 2
  | VChars s => VString s
  | VDBRef ns oid => VDBRef (decoded ns) (decoded oid)
  | VCode code scope => VCode code (decoded scope)
  | VBSONRegex pattern options _ =>
      regex_read pattern (regex_flag_bytes rc options 0)
  | VRegexp src options _ =>
      regex_read src (regex_flag_bytes rc options 1)
  | VTime t =>
      match millis_of t with
      | Ok millis => time_of_millis host millis
      | _ => v
      end
  | _ => v
  end.

(** The entries of a document, as the decoder returns them. *)
Definition entries_decoded (es : list (rkey * value)) : list (rkey * value) :=
  map (fun e => (KStr (key_bytes (fst e)), decoded (snd e))) es.

End Reading.

(** The fuel that decoding a value takes. *)
Fixpoint wire_need (v : value) : nat :=
  match v with
  | VHash _ es =>
      S ((fix go (es : list (rkey * value)) : nat :=
            match es with
            | [] => 1%nat
            | (_, w) :: r => S (wire_need w + go r)
            end) es)
  | VArray items =>
      S ((fix go (items : list value) : nat :=
            match items with
            | [] => 1%nat
            | w :: r => S (wire_need w + go r)
            end) items)
  | VDBRef _ oid => S (wire_need oid)
  | VCode _ scope => wire_need scope
  | _ => 1%nat
  end.

(** The fuel of the loop over the entries of a document. *)
Fixpoint wire_need_entries (es : list (rkey * value)) : nat :=
  match es with
  | [] => 1%nat
  | (_, w) :: r => S (wire_need w + wire_need_entries r)
  end.

(** The fuel of the loop over the items of an array. *)
Fixpoint wire_need_items (items : list value) : nat :=
  match items with
  | [] => 1%nat
  | w :: r => S (wire_need w + wire_need_items r)
  end.

(** The keys of a document are strings or symbols; their names are valid
    UTF-8 without NUL and pairwise different. *)
Definition names_ok (es : list (rkey * value)) : Prop :=
  Forall (fun e => exists key, name_of (fst e) = Some key
                               /\ validate_utf8_encoding key false = VALID) es
  /\ NoDup (map (fun e => key_bytes (fst e)) es).

(** The values that [serialize] writes and [deserialize] reads: those of
    the round trip, and with them documents with symbols for keys,
    symbols, byte buffers, [Chars], references to an id in a collection,
    code with its scope, regular expressions without extra options, and
    the times whose milliseconds [long long] holds.
    No document held as a value (the scope of a [Code] apart) has ["$ref"]
    as its first key. *)
Inductive wired : value -> Prop :=
| wired_rt v : rt v -> wired v
| wired_hash c es :
    names_ok es -> not_a_reference es ->
    Forall (fun e => wired (snd e)) es -> wired (VHash c es)
| wired_array items : Forall wired items -> wired (VArray items)
| wired_symbol name : wired (VSymbol name)
| wired_byte_buffer d : wired (VByteBuffer d)
| wired_chars s : validate_utf8_encoding s true = VALID -> wired (VChars s)
| wired_dbref s oid :
    validate_utf8_encoding s true = VALID -> wired oid ->
    wired (VDBRef (VString s) oid)
| wired_code code c es :
    names_ok es -> Forall (fun e => wired (snd e)) es ->
    wired (VCode code (VHash c es))
| wired_bson_regex pattern options :
    validate_utf8_encoding pattern false = VALID -> in_int options = true ->
    wired (VBSONRegex pattern options None)
| wired_regexp src options :
    validate_utf8_encoding src false = VALID ->
    wired (VRegexp src options None)
| wired_time t millis : millis_of t = Ok millis -> wired (VTime t).

(** A document of such values; its own first key is free. *)
Definition wired_doc (es : list (rkey * value)) : Prop :=
  names_ok es /\ Forall (fun e => wired (snd e)) es.

(** The encoder writes the element of [w] under any valid key. *)
Definition writes_wire (rc : regex_consts) (w : value) : Prop :=
  forall key b,
    validate_utf8_encoding key false = VALID ->
    fits b (Z.of_nat (length (wire_element rc key w))) ->
    Z.of_nat (length (wire_element rc key w)) <= max_size b ->
    write_element rc (KStr key) w false 1 b
    = (Ok tt, appended b (wire_element rc key w)).

(** [get_value] reads the payload of [v] and returns what the decoder
    makes of [v], wherever the payload stands in the input. *)
Definition reads_wire (rc : regex_consts) (host : regex_host)
    (opts : deserialize_opts) (v : value) : Prop :=
  forall fuel mem pre post buffer position,
    (wire_need v <= fuel)%nat ->
    mem = pre ++ wire_payload rc v ++ post ->
    buffer + position = Z.of_nat (length pre) ->
    0 <= position ->
    position + Z.of_nat (length (wire_payload rc v)) <= INT_MAX ->
    post_ok post ->
    get_value host mem fuel opts buffer position (wire_tag v)
    = Ok (decoded rc host opts v,
          position + Z.of_nat (length (wire_payload rc v))).

(** A document with a symbol for a key, a symbol, a byte buffer, a
    reference, code with a scope, a regular expression and the time of
    one second and a half after the epoch. *)
Definition converted_entries : list (rkey * value) :=
  [(KSym (lit "n"), VInt 1);
   (KStr (lit "s"), VSymbol (lit "up"));
   (KStr (lit "b"), VByteBuffer [1; 2; 3]);
   (KStr (lit "r"),
    VDBRef (VString (lit "users")) (VObjectId [0; 1; 2; 3; 4; 5; 6; 7; 8; 9; 10; 11]));
   (KStr (lit "c"),
    VCode (lit "f()") (VHash PlainHash [(KStr (lit "$ref"), VArray [VNil])]));
   (KStr (lit "x"), VRegexp (lit "a.c") 1 None);
   (KStr (lit "t"), VTime (S754_finite false 3 (-1)))].

End ConvSpec.

(** The vocabulary of the round trip with [Time]s. *)

Module TimeSpec.
Import Decoder Encoder Spec ConvSpec.

(** The values of the round trip, and with them the [Time]s whose
    milliseconds [(long long)round(to_f * 1000)] are defined, in
    documents and arrays at will. *)
Inductive dated : value -> Prop :=
| dated_rt v : rt v -> dated v
| dated_time t millis : millis_of t = Ok millis -> dated (VTime t)
| dated_hash c es :
    keys_ok es -> not_a_reference es ->
    Forall (fun e => dated (snd e)) es -> dated (VHash c es)
| dated_array items : Forall dated items -> dated (VArray items).

(** A document of such values; its own first key is free. *)
Definition dated_doc (es : list (rkey * value)) : Prop :=
  keys_ok es /\ Forall (fun e => dated (snd e)) es.

(** What the decoder makes of such a value: every hash comes back as an
    ordered hash, and a [Time] as the [Time] that the host makes of the
    milliseconds that were written. *)
Fixpoint read_back (host : regex_host) (v : value) : value :=
  match v with
  | VHash _ es =>
      VHash OrderedHash
        ((fix go (es : list (rkey * value)) :=
            match es with
            | [] => []
            | (k, w) :: r => (k, read_back host w) :: go r
            end) es)
  | VArray items => VArray (map (read_back host) items)
  | VTime t =>
      match millis_of t with
      | Ok millis => time_of_millis host millis
      | _ => v
      end
  | _ => v
  end.

(** On such a value the wire format of the converted values is the one
    of the round trip. *)
Definition agrees (rc : regex_consts) (host : regex_host)
    (opts : deserialize_opts) (v : value) : Prop :=
  wired v /\ wire_tag v = tag_of v /\ wire_payload rc v = payload v
  /\ decoded rc host opts v = read_back host v /\ wire_need v = need v.

(** A document with a [Time] of one second and a half after the epoch,
    and another one in an array. *)
Definition dated_entries : list (rkey * value) :=
  [(KStr (lit "a"), VInt 1);
   (KStr (lit "t"), VTime (S754_finite false 3 (-1)));
   (KStr (lit "l"), VArray [VTime (S754_zero false); VNil])].

(** The [Time] of 2^53 + 1 milliseconds after the epoch, as the host
    makes it. *)
Definition time_beyond_double : value :=
  time_of_millis Host.ruby_regex_host (2 ^ 53 + 1).

End TimeSpec.

(** The vocabulary of the key checks. *)

Module KeySpec.
Import Encoder Spec EncoderSpec.

(** A name that [check_keys] lets through: it does not begin with '$'
    and holds no '.'. *)
Definition name_allowed (key : bytes) : bool :=
  negb (hd 0 key =? 36) && negb (existsb (fun c => c =? 46) key).

(** A key that [check_keys] lets through: a string, or a symbol by its
    name; another key has no name to check. *)
Definition key_allowed (k : rkey) : bool :=
  match name_of k with
  | Some key => name_allowed key
  | None => true
  end.

(** Every key that [write_element] checks under [check_keys] is let
    through: the keys of [v], if it is a document, and those of the
    documents held in it and in its arrays, at any depth. The keys inside
    a [DBRef] and inside the scope of a [Code] are not among them. *)
Fixpoint keys_allowed (v : value) : bool :=
  match v with
  | VHash _ es =>
      (fix go (es : list (rkey * value)) : bool :=
         match es with
         | [] => true
         | (k, w) :: r => key_allowed k && keys_allowed w && go r
         end) es
  | VArray items =>
      (fix go (items : list value) : bool :=
         match items with
         | [] => true
         | w :: r => keys_allowed w && go r
         end) items
  | _ => true
  end.

(** The entries that [write_doc] writes, in the order in which it writes
    them. *)
Definition written_entries (move_id : bool) (es : list (rkey * value))
  : list (rkey * value) :=
  if move_id then id_first es else es.

(** [ct] is [cf] with the key checks: where [cf] returns, [ct] returns
    the same if [good], and otherwise raises [InvalidKeyName] after
    freeing the buffer. *)
Definition checked {A} (good : bool) (ct cf : enc A) : Prop :=
  forall b a b', cf b = (Ok a, b') ->
    if good then ct b = (Ok a, b')
    else exists msg b'',
           ct b = (Raised (Exn InvalidKeyName msg), b'') /\ freed b'' = true.

(** [{"a" => {"b" => [{"$c" => 1}]}}]: the key ['$c'] is in a document in
    an array in a document in the document. *)
Definition dollar_three_levels_down : list (rkey * value) :=
  [(KStr (lit "a"),
    VHash PlainHash
      [(KStr (lit "b"), VArray [VHash PlainHash [(KStr (lit "$c"), VInt 1)]])])].

End KeySpec.

(** The vocabulary of the documents with an integer. *)

Module IntegerSpec.
Import Encoder Spec.

(** The document [{"_id" => nil, :_id => 2^64}]. *)
Definition suppressed_big_id : value :=
  VHash PlainHash [(KStr (lit "_id"), VNil); (KSym (lit "_id"), VInt (2 ^ 64))].

(** The document [{"a.b" => 2^64}]. *)
Definition big_under_dotted_key : value :=
  VHash PlainHash [(KStr (lit "a.b"), VInt (2 ^ 64))].

(** The frame of the entries [pre], an integer [n] under [key] written
    with the tag [t] on [w] bytes, and the entries [post]. *)
Definition with_integer (pre : list (rkey * value)) (key : bytes) (t : Z)
    (w : nat) (n : Z) (post : list (rkey * value)) : bytes :=
  frame (elements pre ++ (t :: key ++ 0 :: le_bytes w n) ++ elements post).

(** [long long] holds the integer. *)
Definition in_long_long (n : Z) : bool := (LLONG_MIN <=? n) && (n <=? LLONG_MAX).

(** [long long] holds every integer that [write_element] writes for [v]:
    [v] itself, or the integers in the document or array [v], in the
    namespace and the id of a [DBRef] and in the scope of a [Code], at
    any depth. *)
Fixpoint ints_fit (v : value) : bool :=
  match v with
  | VInt n => in_long_long n
  | VHash _ es =>
      (fix go (es : list (rkey * value)) : bool :=
         match es with
         | [] => true
         | (_, w) :: r => ints_fit w && go r
         end) es
  | VArray items =>
      (fix go (items : list value) : bool :=
         match items with
         | [] => true
         | w :: r => ints_fit w && go r
         end) items
  | VDBRef ns oid => ints_fit ns && ints_fit oid
  | VCode _ scope => ints_fit scope
  | _ => true
  end.

(** [v] with 0 for every integer that [long long] does not hold. *)
Fixpoint clamped (v : value) : value :=
  match v with
  | VInt n => if in_long_long n then v else VInt 0
  | VHash c es =>
      VHash c
        ((fix go (es : list (rkey * value)) :=
            match es with
            | [] => []
            | (k, w) :: r => (k, clamped w) :: go r
            end) es)
  | VArray items => VArray (map clamped items)
  | VDBRef ns oid => VDBRef (clamped ns) (clamped oid)
  | VCode code scope => VCode code (clamped scope)
  | _ => v
  end.

(** [ct] is [cf] with an integer that may be too wide: where [cf]
    returns, [ct] returns the same if [good], and otherwise raises the
    [RangeError] of [write_element] after freeing the buffer. *)
Definition ranged {A} (good : bool) (ct cf : enc A) : Prop :=
  forall b a b', cf b = (Ok a, b') ->
    if good then ct b = (Ok a, b')
    else exists b'',
           ct b = (Raised (Exn RangeError "MongoDB can only handle 8-byte ints"),
                   b'')
           /\ freed b'' = true.

(** [{"a" => {"b" => [{"n" => 2^64}]}}]: the integer is in a document in
    an array in a document in the document. *)
Definition big_three_levels_down : list (rkey * value) :=
  [(KStr (lit "a"),
    VHash PlainHash
      [(KStr (lit "b"),
        VArray [VHash PlainHash [(KStr (lit "n"), VInt (2 ^ 64))]])])].

End IntegerSpec.

(* ================================================================= *)
(** * Properties *)

(** ** Bytes and machine integers *)

Module BytesFacts.

Lemma le_bytes_length n v : length (le_bytes n v) = n.
Proof. revert v; induction n; intros; simpl; auto. Qed.

Lemma le_value_le_bytes n v : le_value (le_bytes n v) = v mod 256 ^ Z.of_nat n.
Proof.
  revert v; induction n; intros v.
  - simpl. now rewrite Z.mod_1_r.
  - cbn [le_bytes le_value]. rewrite IHn.
    rewrite Nat2Z.inj_succ, Z.pow_succ_r by lia.
    rewrite Z.rem_mul_r; [reflexivity | lia | apply Z.pow_pos_nonneg; lia].
Qed.

Lemma le_value_app a b :
  le_value (a ++ b) = le_value a + 256 ^ Z.of_nat (length a) * le_value b.
Proof.
  induction a; intros.
  - cbn [app le_value length]. change (256 ^ Z.of_nat 0) with 1. lia.
  - cbn [app le_value length]. rewrite IHa, Nat2Z.inj_succ, Z.pow_succ_r by lia. ring.
Qed.

Lemma be_value_be_bytes n v : be_value (be_bytes n v) = v mod 256 ^ Z.of_nat n.
Proof. unfold be_value, be_bytes. rewrite rev_involutive. apply le_value_le_bytes. Qed.

Lemma to_signed_32 v : in_int v = true -> to_signed 32 (v mod 2 ^ 32) = v.
Proof.
  unfold in_int, INT_MIN, INT_MAX, to_signed. intros H.
  apply andb_prop in H. destruct H as [H1 H2].
  apply Z.leb_le in H1, H2.
  change (2 ^ (32 - 1)) with 2147483648. change (2 ^ 32) with 4294967296 in *.
  change (- 2 ^ 31) with (-2147483648) in *. change (2 ^ 31 - 1) with 2147483647 in *.
  destruct (Z.ltb_spec (v mod 4294967296) 2147483648);
    Z.div_mod_to_equations; lia.
Qed.

Lemma to_signed_64 v :
  LLONG_MIN <= v <= LLONG_MAX -> to_signed 64 (v mod 2 ^ 64) = v.
Proof.
  unfold LLONG_MIN, LLONG_MAX, to_signed. intros H.
  change (2 ^ (64 - 1)) with 9223372036854775808.
  change (2 ^ 64) with 18446744073709551616 in *.
  change (- 2 ^ 63) with (-9223372036854775808) in *.
  change (2 ^ 63 - 1) with 9223372036854775807 in *.
  destruct (Z.ltb_spec (v mod 18446744073709551616) 9223372036854775808);
    Z.div_mod_to_equations; lia.
Qed.

End BytesFacts.

Module ObjectIdFacts.
Import ObjectIdGen BytesFacts.

Lemma counter_field_generate sz p arg inc :
  counter_field (fst (objectid_generate sz p arg inc))
  = next_inc sz inc mod 2 ^ 24.
Proof.
  unfold objectid_generate, counter_field. cbn [fst].
  assert (L : forall x, length (htonl_bytes x) = 4%nat).
  { intros. unfold htonl_bytes, be_bytes. now rewrite length_rev, le_bytes_length. }
  assert (E : forall t rest, length t = 4%nat ->
            skipn 9 (t ++ [nth 0 (hostname_digest p) 0; nth 1 (hostname_digest p) 0;
                           nth 2 (hostname_digest p) 0] ++ htons_bytes (getpid p) ++ rest) = rest).
  { intros t rest Ht. destruct t as [|a [|b [|c [|d [|e t]]]]]; try discriminate. reflexivity. }
  assert (G : forall t, length t = 4%nat ->
     be_value (skipn 9 (t ++ [nth 0 (hostname_digest p) 0; nth 1 (hostname_digest p) 0;
                           nth 2 (hostname_digest p) 0] ++ htons_bytes (getpid p) ++
                        skipn 1 (htonl_bytes (next_inc sz inc)))) = next_inc sz inc mod 2 ^ 24).
  { intros t Ht. rewrite E by assumption.
    unfold htonl_bytes, be_bytes, be_value. cbn [le_bytes rev app skipn le_value].
    set (v := next_inc sz inc).
    change (2 ^ 32) with 4294967296. change (2 ^ 24) with 16777216.
    pose proof (Z.mod_pos_bound v 4294967296 ltac:(lia)).
    Z.div_mod_to_equations. lia. }
  destruct arg; apply G; apply L.
Qed.

Lemma host_pid_field_generate sz p arg inc :
  host_pid_field (fst (objectid_generate sz p arg inc))
  = [nth 0 (hostname_digest p) 0; nth 1 (hostname_digest p) 0;
     nth 2 (hostname_digest p) 0] ++ htons_bytes (getpid p).
Proof.
  unfold objectid_generate, host_pid_field. cbn [fst].
  destruct arg; reflexivity.
Qed.

(** On a host whose [unsigned int] has four bytes, two ids generated one
    after the other by one process agree on bytes 4..8 and the counter of
    the second is the counter of the first plus one modulo 2^24. *)
Lemma objectid_consecutive_uint32 p1 p2 arg1 arg2 inc :
  getpid p1 = getpid p2 ->
  hostname_digest p1 = hostname_digest p2 ->
  let '(oid1, inc1) := objectid_generate 4 p1 arg1 inc in
  let '(oid2, inc2) := objectid_generate 4 p2 arg2 inc1 in
  host_pid_field oid1 = host_pid_field oid2 /\
  counter_field oid2 = (counter_field oid1 + 1) mod 2 ^ 24.
Proof.
  intros Hp Hd.
  destruct (objectid_generate 4 p1 arg1 inc) as [oid1 inc1] eqn:E1.
  destruct (objectid_generate 4 p2 arg2 inc1) as [oid2 inc2] eqn:E2.
  pose proof (counter_field_generate 4 p1 arg1 inc) as C1.
  pose proof (counter_field_generate 4 p2 arg2 inc1) as C2.
  pose proof (host_pid_field_generate 4 p1 arg1 inc) as H1.
  pose proof (host_pid_field_generate 4 p2 arg2 inc1) as H2.
  rewrite E1 in C1, H1. rewrite E2 in C2, H2. cbn [fst] in *.
  split.
  - rewrite H1, H2, Hp, Hd. reflexivity.
  - rewrite C1, C2.
    assert (inc1 = next_inc 4 inc) by (unfold objectid_generate in E1; now inversion E1).
    subst inc1. unfold next_inc. cbn [Z.eqb Pos.eqb].
    change (2 ^ 32) with 4294967296. change (2 ^ 24) with 16777216.
    Z.div_mod_to_equations. lia.
Qed.

(** C9. The claim: two ids generated one after the other by one process
    agree on bytes 4..8 and the big-endian counter in bytes 9..11 of the
    second is that of the first plus 1 modulo 2^24, whatever the size of
    the host's [unsigned int]. The code, on a host whose [unsigned int]
    has eight bytes: from the counter value 16777213 the first id carries
    the counter 16777214 (0xFFFFFE) and the second carries 0, not
    16777215; the [else] branch reduces modulo 0xFFFFFF where 2^24 is
    0x1000000. *)
Theorem objectid_counter_wide_unsigned_int :
  forall p arg1 arg2,
  let '(oid1, inc1) := objectid_generate 8 p arg1 16777213 in
  let '(oid2, inc2) := objectid_generate 8 p arg2 inc1 in
  counter_field oid1 = 16777214 /\
  counter_field oid2 = 0 /\
  counter_field oid2 <> (counter_field oid1 + 1) mod 2 ^ 24.
Proof.
  intros p arg1 arg2.
  destruct (objectid_generate 8 p arg1 16777213) as [oid1 inc1] eqn:E1.
  destruct (objectid_generate 8 p arg2 inc1) as [oid2 inc2] eqn:E2.
  pose proof (counter_field_generate 8 p arg1 16777213) as C1.
  pose proof (counter_field_generate 8 p arg2 inc1) as C2.
  rewrite E1 in C1. rewrite E2 in C2. cbn [fst] in *.
  assert (inc1 = next_inc 8 16777213) by (unfold objectid_generate in E1; now inversion E1).
  subst inc1. rewrite C1, C2. vm_compute. repeat split; congruence.
Qed.
End ObjectIdFacts.

(** ** The decoder: reading the input *)

Module DecoderFacts.
Import Decoder BytesFacts Spec.

Lemma skipn_app_length {A} (pre x : list A) n :
  n = length pre -> skipn n (pre ++ x) = x.
Proof. intros ->. induction pre; simpl; auto. Qed.

Lemma firstn_app_length {A} (x post : list A) n :
  n = length x -> firstn n (x ++ post) = x.
Proof. intros ->. induction x; simpl; f_equal; auto. Qed.

Lemma andb_intro_Z (P Q : bool) : P = true -> Q = true -> P && Q = true.
Proof. intros -> ->. reflexivity. Qed.

Ltac list_eq := repeat rewrite <- app_assoc; cbn [app]; reflexivity.
Ltac len_simpl :=
  repeat (rewrite ?length_app, ?le_bytes_length, ?length_rev, ?repeat_length
          in *; cbn [length] in * ).
Ltac int_consts :=
  unfold INT_MIN, INT_MAX, LLONG_MIN, LLONG_MAX in *;
  change (2 ^ 31) with 2147483648 in *;
  change (2 ^ 32) with 4294967296 in *;
  change (2 ^ 63) with 9223372036854775808 in *;
  change (2 ^ 64) with 18446744073709551616 in *.
Ltac len_lia := len_simpl; int_consts; lia.

Section Reads.
Variables (mem pre post : bytes).

Lemma rd_bytes_at bs a n :
  mem = pre ++ bs ++ post ->
  a = Z.of_nat (length pre) -> n = length bs ->
  rd_bytes mem a n = Ok bs.
Proof.
  intros -> -> ->. unfold rd_bytes, mem_len.
  rewrite andb_intro_Z by (apply Z.leb_le; len_lia).
  rewrite Nat2Z.id, skipn_app_length, firstn_app_length; auto.
Qed.

Lemma rd_at b a :
  mem = pre ++ b :: post ->
  a = Z.of_nat (length pre) -> rd mem a = Ok b.
Proof.
  intros -> ->. unfold rd, mem_len.
  rewrite andb_intro_Z by ((apply Z.leb_le || apply Z.ltb_lt); len_lia).
  rewrite Nat2Z.id, app_nth2, Nat.sub_diag; auto.
Qed.

Lemma find_nul_at s r :
  no_nul s -> find_nul (s ++ 0 :: r) = Some (Z.of_nat (length s)).
Proof.
  induction 1 as [|b s Hb Hs IH]; cbn [app find_nul length].
  - reflexivity.
  - destruct (Z.eqb_spec b 0); [contradiction|]. rewrite IH. f_equal. lia.
Qed.

Lemma strlen_at s a :
  mem = pre ++ s ++ 0 :: post ->
  a = Z.of_nat (length pre) -> no_nul s -> Z.of_nat (length s) <= INT_MAX ->
  strlen mem a = Ok (Z.of_nat (length s)).
Proof.
  intros -> -> Hs Hl. unfold strlen, mem_len.
  rewrite andb_intro_Z by (apply Z.leb_le; len_lia).
  rewrite Nat2Z.id, skipn_app_length, find_nul_at by auto.
  unfold int_of, in_int.
  rewrite andb_intro_Z by (apply Z.leb_le; len_lia). reflexivity.
Qed.

Lemma str_new_at bs a n :
  mem = pre ++ bs ++ post ->
  a = Z.of_nat (length pre) -> n = Z.of_nat (length bs) ->
  str_new mem a n = Ok bs.
Proof.
  intros Hm Ha ->. unfold str_new.
  destruct (Z.ltb_spec (Z.of_nat (length bs)) 0); [lia|].
  eapply rd_bytes_at; eauto. now rewrite Nat2Z.id.
Qed.

(** A read that extends past the end of the input. *)
Lemma rd_bytes_past a n :
  Z.of_nat (length mem) < a + Z.of_nat n ->
  rd_bytes mem a n = Undefined (OutOfBounds a).
Proof.
  intros Hn. unfold rd_bytes, mem_len.
  replace (a + Z.of_nat n <=? Z.of_nat (length mem))
    with false by (symmetry; apply Z.leb_gt; lia).
  now rewrite andb_false_r.
Qed.

Lemma rd_past a :
  Z.of_nat (length mem) <= a -> rd mem a = Undefined (OutOfBounds a).
Proof.
  intros H. unfold rd, mem_len.
  replace (a <? Z.of_nat (length mem)) with false
    by (symmetry; apply Z.ltb_ge; lia).
  now rewrite andb_false_r.
Qed.

End Reads.

Lemma add_int_ok a b : INT_MIN <= a + b <= INT_MAX -> add_int a b = Ok (a + b).
Proof.
  intros H. unfold add_int, int_of, in_int.
  replace ((INT_MIN <=? a + b) && (a + b <=? INT_MAX)) with true; auto.
  symmetry; apply andb_true_intro; split; apply Z.leb_le; lia.
Qed.

Lemma sub_int_ok a b : INT_MIN <= a - b <= INT_MAX -> sub_int a b = Ok (a - b).
Proof.
  intros H. unfold sub_int, int_of, in_int.
  replace ((INT_MIN <=? a - b) && (a - b <=? INT_MAX)) with true; auto.
  symmetry; apply andb_true_intro; split; apply Z.leb_le; lia.
Qed.

Lemma get_value_unknown host mem fuel opts buffer position t :
  data_model_tag t = false -> t <> 6 ->
  get_value host mem (S fuel) opts buffer position t = Raised (unknown_type t).
Proof.
  unfold data_model_tag. intros H H6.
  repeat (apply orb_false_elim in H; destruct H as [H ?]).
  cbn [get_value].
  repeat match goal with
  | |- context [?x =? ?y] =>
      destruct (Z.eqb_spec x y); [subst; cbn in *; try discriminate; try lia|]
  end.
  cbn [orb]. reflexivity.
Qed.

Lemma to_signed_32_small v : 0 <= v <= INT_MAX -> to_signed 32 (v mod 2 ^ 32) = v.
Proof.
  intros H. apply to_signed_32. unfold in_int.
  apply andb_intro_Z; apply Z.leb_le; int_consts; lia.
Qed.

(** The first element of a frame: [hash_loop] reads its tag and its name
    and calls [get_value]. *)
Lemma method_deserialize_first host fuel prefix t key rest opt :
  length prefix = 4%nat -> no_nul key ->
  Z.of_nat (length key + length rest) < INT_MAX - 8 ->
  exists opts,
  method_deserialize host (S fuel) (prefix ++ t :: key ++ 0 :: rest) opt
  = obind (get_value host (prefix ++ t :: key ++ 0 :: rest) fuel opts 4
             (Z.of_nat (length key) + 2) t)
      (fun '(value, position) =>
         hash_loop host (prefix ++ t :: key ++ 0 :: rest) fuel opts 4
           (Z.of_nat (length key + length rest) + 1) position
           (ordered_hash_set [] key value)).
Proof.
  intros Hp Hk Hl. eexists.
  unfold method_deserialize, elements_to_hash.
  set (mem := prefix ++ t :: key ++ 0 :: rest).
  assert (Hlen : Z.of_nat (length mem) = Z.of_nat (length key + length rest) + 6).
  { unfold mem. len_lia. }
  rewrite Hlen, to_signed_32_small by (int_consts; lia).
  rewrite sub_int_ok by (int_consts; lia).
  cbn [obind hash_loop].
  replace (0 <? Z.of_nat (length key + length rest) + 6 - 5) with true
    by (symmetry; apply Z.ltb_lt; lia).
  rewrite (rd_at mem prefix (key ++ 0 :: rest) t) by (try reflexivity; lia).
  cbn [obind]. rewrite add_int_ok by (int_consts; lia). cbn [obind].
  rewrite (strlen_at mem (prefix ++ [t]) rest key)
    by (try (unfold mem; list_eq); auto; len_lia).
  cbn [obind].
  rewrite (str_new_at mem (prefix ++ [t]) (0 :: rest) key)
    by (try (unfold mem; list_eq); auto; len_lia).
  cbn [obind]. rewrite add_int_ok by (int_consts; lia). cbn [obind].
  rewrite add_int_ok by (int_consts; lia). cbn [obind].
  replace (0 + 1 + (Z.of_nat (length key) + 1)) with (Z.of_nat (length key) + 2) by lia.
  replace (Z.of_nat (length key + length rest) + 6 - 5)
    with (Z.of_nat (length key + length rest) + 1) by lia.
  reflexivity.
Qed.

Lemma fixed_width_cases t w :
  fixed_width t = Some w ->
  (t = 1 /\ w = 8) \/ (t = 7 /\ w = 12) \/ (t = 8 /\ w = 1) \/ (t = 9 /\ w = 8)
  \/ (t = 16 /\ w = 4) \/ (t = 17 /\ w = 8) \/ (t = 18 /\ w = 8).
Proof.
  unfold fixed_width.
  repeat match goal with
  | |- context [?x =? ?y] => destruct (Z.eqb_spec x y)
  end; intros H; inversion H; subst; tauto.
Qed.

Lemma get_value_truncated host mem fuel opts buffer position t w :
  fixed_width t = Some w ->
  0 <= position <= INT_MAX - 12 ->
  Z.of_nat (length mem) < buffer + position + w ->
  exists a, get_value host mem (S fuel) opts buffer position t
            = Undefined (OutOfBounds a)
            /\ buffer + position <= a /\ Z.of_nat (length mem) < a + w.
Proof.
  intros Hw Hp Hl. apply fixed_width_cases in Hw.
  destruct Hw as [[-> ->]|[[-> ->]|[[-> ->]|[[-> ->]|[[-> ->]|[[-> ->]|[-> ->]]]]]]];
    cbn [get_value Z.eqb Pos.eqb orb];
    unfold read_int, read_uint, read_ll.
  - rewrite rd_bytes_past by (simpl; lia). cbn [obind]. eexists; repeat split; try reflexivity; lia.
  - rewrite rd_bytes_past by (simpl; lia). cbn [obind]. eexists; repeat split; try reflexivity; lia.
  - rewrite rd_past by lia. cbn [obind]. eexists; repeat split; try reflexivity; lia.
  - rewrite rd_bytes_past by (simpl; lia). cbn [obind]. eexists; repeat split; try reflexivity; lia.
  - rewrite rd_bytes_past by (simpl; lia). cbn [obind]. eexists; repeat split; try reflexivity; lia.
  - destruct (rd_bytes mem (buffer + position) 4) eqn:E; cbn [obind];
      try (unfold rd_bytes in E;
           destruct ((0 <=? buffer + position) && (buffer + position + Z.of_nat 4 <=? mem_len mem)) eqn:C;
           [discriminate | inversion E; subst; eexists; repeat split; try reflexivity; lia]).
    rewrite rd_bytes_past by (simpl; lia). cbn [obind].
    eexists; repeat split; try reflexivity; lia.
  - rewrite rd_bytes_past by (simpl; lia). cbn [obind]. eexists; repeat split; try reflexivity; lia.
Qed.


(** C8, as the specification states it, fails on a frame whose only
    element has the tag 0x06, which is not in the Data Model table: the
    decoder returns [nil] for it ([case 6]) and raises nothing. *)
Lemma tag_0x06_decodes_to_nil :
  data_model_tag 6 = false /\
  method_deserialize Host.ruby_regex_host 2 [8; 0; 0; 0; 6; 97; 0; 0] None
  = Ok (VHash OrderedHash [(KStr [97], VNil)]).
Proof. split; reflexivity. Qed.

(** C8, amended. For every tag that is neither in the Data Model table
    nor 0x06, [get_value] raises [TypeError] with a message naming the
    tag, wherever it is called, and so does [deserialize] on a frame
    whose first element has such a tag; for the tag 0x06 [get_value]
    returns [nil] and consumes nothing. *)
Theorem unknown_tag_raises_TypeError :
  forall host t,
    data_model_tag t = false -> t <> 6 ->
    (forall mem fuel opts buffer position,
        get_value host mem (S fuel) opts buffer position t
        = Raised (unknown_type t)) /\
    (forall fuel prefix key rest opt,
        length prefix = 4%nat -> no_nul key ->
        Z.of_nat (length key + length rest) < INT_MAX - 8 ->
        method_deserialize host (S (S fuel)) (prefix ++ t :: key ++ 0 :: rest) opt
        = Raised (unknown_type t)) /\
    exn_cls (unknown_type t) = TypeError /\
    (forall mem fuel opts buffer position,
        get_value host mem (S fuel) opts buffer position 6 = Ok (VNil, position)).
Proof.
  intros host t Ht H6. repeat split.
  - intros. now apply get_value_unknown.
  - intros fuel prefix key rest opt Hp Hk Hl.
    destruct (method_deserialize_first host (S fuel) prefix t key rest opt Hp Hk Hl)
      as [opts ->].
    now rewrite get_value_unknown.
Qed.

Lemma unknown_tag_raises_TypeError_witness :
  method_deserialize Host.ruby_regex_host 2 [8; 0; 0; 0; 19; 97; 0; 0] None
  = Raised (unknown_type 19).
Proof.
  refine (proj1 (proj2 (unknown_tag_raises_TypeError Host.ruby_regex_host 19 _ _))
            0%nat [8; 0; 0; 0] [97] [] None _ _ _).
  - reflexivity.
  - discriminate.
  - reflexivity.
  - repeat constructor; discriminate.
  - vm_compute; reflexivity.
Defined.


End DecoderFacts.

(** ** The encoder: writes *)

Module EncoderFacts.
Import Encoder BytesFacts DecoderFacts Spec.
Local Open Scope enc_scope.

Lemma appended_appended b x y : appended (appended b x) y = appended b (x ++ y).
Proof. unfold appended, with_data; cbn. now rewrite app_assoc. Qed.

Lemma appended_nil b : appended b [] = b.
Proof. destruct b; unfold appended, with_data; cbn. now rewrite app_nil_r. Qed.

Lemma position_appended b x :
  bson_buffer_get_position (appended b x)
  = bson_buffer_get_position b + Z.of_nat (length x).
Proof. unfold bson_buffer_get_position, appended; cbn. rewrite length_app. lia. Qed.

Lemma room_appended b x : room (appended b x) = room b.
Proof. reflexivity. Qed.

Lemma max_size_appended b x : max_size (appended b x) = max_size b.
Proof. reflexivity. Qed.

Lemma position_nonneg b : 0 <= bson_buffer_get_position b.
Proof. unfold bson_buffer_get_position. lia. Qed.

Lemma fits_appended b x n :
  fits (appended b x) n <-> fits b (Z.of_nat (length x) + n).
Proof. unfold fits. rewrite position_appended, room_appended. lia. Qed.

Lemma bind_ok {A B} (c : enc A) (k : A -> enc B) b a b' :
  c b = (Ok a, b') -> bind c k b = k a b'.
Proof. unfold bind. now intros ->. Qed.

Lemma bind_raised {A B} (c : enc A) (k : A -> enc B) b e b' :
  c b = (Raised e, b') -> bind c k b = (Raised e, b').
Proof. unfold bind. now intros ->. Qed.

Lemma bind_ret {A B} (a : A) (k : A -> enc B) b : bind (ret a) k b = k a b.
Proof. reflexivity. Qed.

Lemma SAFE_WRITE_ok d size b :
  size = Z.of_nat (length d) -> fits b size ->
  SAFE_WRITE d size b = (Ok tt, appended b d).
Proof.
  intros -> [H _]. unfold SAFE_WRITE, bind, call, bson_buffer_write.
  apply Z.leb_le in H. rewrite H. cbn.
  rewrite Nat2Z.id, firstn_all. reflexivity.
Qed.

Lemma RSTRING_LENINT_small s :
  Z.of_nat (length s) <= INT_MAX -> RSTRING_LENINT s = Z.of_nat (length s).
Proof. intros. unfold RSTRING_LENINT. apply to_signed_32_small. lia. Qed.

Lemma write_utf8_ok s allow_null b :
  validate_utf8_encoding s allow_null = VALID ->
  fits b (Z.of_nat (length s)) ->
  write_utf8 s allow_null b = (Ok tt, appended b s).
Proof.
  intros Hv Hf. unfold write_utf8. rewrite Hv.
  pose proof (position_nonneg b). destruct Hf as [Hf1 Hf2].
  rewrite RSTRING_LENINT_small by lia.
  apply SAFE_WRITE_ok; [reflexivity | split; assumption].
Qed.

Lemma write_name_and_type_ok name type b :
  validate_utf8_encoding name false = VALID ->
  0 <= type < 256 ->
  fits b (Z.of_nat (length name) + 2) ->
  write_name_and_type name type b = (Ok tt, appended b (type :: name ++ [0])).
Proof.
  intros Hv Ht Hf. unfold write_name_and_type.
  rewrite (bind_ok _ _ _ tt (appended b [type mod 256]))
    by (apply SAFE_WRITE_ok; [reflexivity | destruct Hf; split; cbn [length]; lia]).
  rewrite (bind_ok _ _ _ tt (appended (appended b [type mod 256]) name))
    by (apply write_utf8_ok; [assumption | apply fits_appended; destruct Hf; split; cbn [length]; lia]).
  unfold zero. rewrite SAFE_WRITE_ok; [| reflexivity |].
  - rewrite !appended_appended, Z.mod_small by lia. reflexivity.
  - rewrite !fits_appended. destruct Hf; split; cbn [length]; lia.
Qed.

Lemma free_raise {A} c msg b :
  (free_buffer ;; @rb_raise A c msg) b = (Raised (Exn c msg), snd (bson_buffer_free b)).
Proof. reflexivity. Qed.

Lemma bytes_eqb_eq a b : bytes_eqb a b = true <-> a = b.
Proof.
  revert b; induction a as [|x a IH]; destruct b as [|y b]; cbn; try easy.
  rewrite andb_true_iff, Z.eqb_eq, IH. split.
  - now intros [-> ->].
  - intros E; inversion E; auto.
Qed.

Lemma existsb_dot key : existsb (fun c => c =? 46) key = true <-> In 46 key.
Proof.
  rewrite existsb_exists. split.
  - intros (x & Hx & E). apply Z.eqb_eq in E. now subst.
  - intros H. exists 46. split; auto.
Qed.

Lemma suppress_test allow_id key :
  not_suppressed allow_id key ->
  (allow_id =? 0) && bytes_eqb (lit "_id") (cstr key) = false.
Proof.
  intros Hs. destruct (Z.eqb_spec allow_id 0) as [E|E]; [|reflexivity].
  cbn [andb]. destruct (bytes_eqb (lit "_id") (cstr key)) eqn:B; [|reflexivity].
  apply bytes_eqb_eq in B. symmetry in B. now apply Hs in B.
Qed.

(** [allow_id] only decides whether an [_id] element is suppressed. *)
Lemma allow_id_irrelevant rc key value check_keys allow_id :
  not_suppressed allow_id key ->
  write_element rc (KStr key) value check_keys allow_id
  = write_element rc (KStr key) value check_keys 1.
Proof.
  intros Hs. apply suppress_test in Hs.
  destruct value; cbn [write_element]; rewrite Hs; reflexivity.
Qed.

(** Past the checks on the key, [check_keys] is not used for such a
    value. *)
Lemma check_keys_irrelevant rc key value check_keys allow_id :
  key_passes check_keys key -> passes_check_keys_on value = false ->
  write_element rc (KStr key) value check_keys allow_id
  = write_element rc (KStr key) value false allow_id.
Proof.
  intros Hk Hv.
  destruct value; try discriminate; cbn [write_element];
    destruct ((allow_id =? 0) && bytes_eqb (lit "_id") (cstr key)); try reflexivity;
    (destruct check_keys; [|reflexivity]);
    destruct (Hk eq_refl) as [H1 H2];
    (destruct key as [|k0 key']; cbn [hd] in H1;
      [| destruct (Z.eqb_spec k0 36); [contradiction|]]);
    (destruct (existsb (fun c => c =? 46) _) eqn:X;
      [apply existsb_dot in X; contradiction|]);
    reflexivity.
Qed.


Lemma fits_shrink b n k : fits b n -> k <= n -> fits b k.
Proof. unfold fits. lia. Qed.

Lemma written_tag_appended b t rest :
  written_tag b (Ok tt, appended b (t :: rest)) = Some t.
Proof.
  unfold written_tag, appended; cbn.
  rewrite nth_error_app2, Nat.sub_diag by lia. reflexivity.
Qed.

Ltac enc_simpl := repeat (progress (lazy beta iota) || rewrite bind_ret).

Lemma gtb_false_intro n m : n <= m -> (n >? m) = false.
Proof. intros. rewrite Z.gtb_ltb. apply Z.ltb_ge. lia. Qed.

(** The three ways of an integer element. *)
Lemma write_element_int rc key n check_keys allow_id b :
  validate_utf8_encoding key false = VALID ->
  key_passes check_keys key -> not_suppressed allow_id key ->
  let r := write_element rc (KStr key) (VInt n) check_keys allow_id b in
  (INT_MIN <= n <= INT_MAX ->
   fits b (Z.of_nat (length key) + 6) ->
   r = (Ok tt, appended b (16 :: key ++ 0 :: le_bytes 4 n))) /\
  ((n < INT_MIN \/ INT_MAX < n) /\ LLONG_MIN <= n <= LLONG_MAX ->
   fits b (Z.of_nat (length key) + 10) ->
   r = (Ok tt, appended b (18 :: key ++ 0 :: le_bytes 8 n))) /\
  (n < LLONG_MIN \/ LLONG_MAX < n ->
   r = (Raised (Exn RangeError "MongoDB can only handle 8-byte ints"),
        snd (bson_buffer_free b))).
Proof.
  intros Hv Hk Hs r. subst r.
  rewrite allow_id_irrelevant, check_keys_irrelevant by auto.
  cbn [write_element Z.eqb andb].
  change (to_signed 64 (-9223372036854775808 mod 2 ^ 64)) with (-9223372036854775808).
  assert (W : forall t, 0 <= t < 256 -> fits b (Z.of_nat (length key) + 2) ->
            write_name_and_type key t b = (Ok tt, appended b (t :: key ++ [0]))).
  { intros. apply write_name_and_type_ok; auto. }
  unfold is_fixnum, NUM2LL. int_consts.
  change (2 ^ 62) with 4611686018427387904.
  repeat split; intros H; [intros Hf|intros Hf|].
  - rewrite andb_intro_Z by ((apply Z.leb_le || apply Z.ltb_lt); lia).
    enc_simpl.
    rewrite andb_intro_Z by (apply Z.leb_le; lia).
    enc_simpl.
    replace ((n >? 2147483647) || (n <? -2147483648)) with false
      by (symmetry; apply orb_false_intro; [apply gtb_false_intro | apply Z.ltb_ge]; lia).
    enc_simpl.
    rewrite (bind_ok _ _ _ _ _ (W 16 ltac:(lia) ltac:(destruct Hf; split; lia))).
    rewrite SAFE_WRITE_ok; [| now rewrite le_bytes_length |].
    + rewrite appended_appended. do 2 f_equal. cbn [app]. now rewrite <- app_assoc.
    + apply fits_appended. destruct Hf; split; len_lia.
  - assert (C : (n >? 2147483647) || (n <? -2147483648) = true).
    { apply orb_true_iff. rewrite Z.gtb_ltb, !Z.ltb_lt. lia. }
    assert (L : (Z.opp 9223372036854775808 <=? n) && (n <=? 9223372036854775808 - 1) = true)
      by (apply andb_intro_Z; apply Z.leb_le; lia).
    assert (G : (n >? 9223372036854775807) || (n <? -9223372036854775808) = false)
      by (apply orb_false_intro; [apply gtb_false_intro | apply Z.ltb_ge]; lia).
    destruct ((- (4611686018427387904) <=? n) && (n <? 4611686018427387904));
      rewrite ?G; enc_simpl; rewrite L; enc_simpl; rewrite C; enc_simpl;
      rewrite (bind_ok _ _ _ _ _ (W 18 ltac:(lia) ltac:(destruct Hf; split; lia)));
      (rewrite SAFE_WRITE_ok; [| now rewrite le_bytes_length |];
       [rewrite appended_appended; do 2 f_equal; cbn [app]; now rewrite <- app_assoc
       | apply fits_appended; destruct Hf; split; len_lia]).
  - replace ((- (4611686018427387904) <=? n) && (n <? 4611686018427387904)) with false
      by (symmetry; apply andb_false_iff; rewrite Z.leb_gt, Z.ltb_ge; lia).
    replace ((n >? 9223372036854775807) || (n <? -9223372036854775808)) with true
      by (symmetry; apply orb_true_iff; rewrite Z.gtb_ltb, !Z.ltb_lt; lia).
    reflexivity.
Qed.

(** [write_element] on an integer under a key that is written, with room
    in the buffer: the tag is 0x10 if and only if [n] lies in
    [-2^31, 2^31 - 1], 0x12 if and only if it lies outside that range and
    in [-2^63, 2^63 - 1], and [RangeError] is raised if and only if it
    lies outside [-2^63, 2^63 - 1]; the payload is the little-endian
    image of [n] on 4 or 8 bytes, and the buffer is freed before the
    raise. *)
Lemma write_element_integer :
  forall rc key n check_keys allow_id b,
    validate_utf8_encoding key false = VALID ->
    key_passes check_keys key -> not_suppressed allow_id key ->
    fits b (Z.of_nat (length key) + 10) ->
    let r := write_element rc (KStr key) (VInt n) check_keys allow_id b in
    (written_tag b r = Some 16 <-> - 2 ^ 31 <= n <= 2 ^ 31 - 1) /\
    (written_tag b r = Some 18 <->
       (n < - 2 ^ 31 \/ 2 ^ 31 - 1 < n) /\ - 2 ^ 63 <= n <= 2 ^ 63 - 1) /\
    ((exists msg b', r = (Raised (Exn RangeError msg), b')) <->
       (n < - 2 ^ 63 \/ 2 ^ 63 - 1 < n)) /\
    (- 2 ^ 31 <= n <= 2 ^ 31 - 1 ->
       r = (Ok tt, appended b (16 :: key ++ 0 :: le_bytes 4 n))) /\
    ((n < - 2 ^ 31 \/ 2 ^ 31 - 1 < n) /\ - 2 ^ 63 <= n <= 2 ^ 63 - 1 ->
       r = (Ok tt, appended b (18 :: key ++ 0 :: le_bytes 8 n))) /\
    (n < - 2 ^ 63 \/ 2 ^ 63 - 1 < n ->
       r = (Raised (Exn RangeError "MongoDB can only handle 8-byte ints"),
            snd (bson_buffer_free b))).
Proof.
  intros rc key n check_keys allow_id b Hv Hk Hs Hf r.
  destruct (write_element_int rc key n check_keys allow_id b Hv Hk Hs)
    as (H32' & H64' & Hout).
  fold r in H32', H64', Hout.
  assert (H32 := fun H => H32' H (fits_shrink b (Z.of_nat (length key) + 10)
                                     (Z.of_nat (length key) + 6) Hf ltac:(lia))).
  assert (H64 := fun H => H64' H Hf). clear H32' H64'.
  unfold INT_MIN, INT_MAX, LLONG_MIN, LLONG_MAX in *.
  assert (D : (- 2 ^ 31 <= n <= 2 ^ 31 - 1)
              \/ ((n < - 2 ^ 31 \/ 2 ^ 31 - 1 < n) /\ - 2 ^ 63 <= n <= 2 ^ 63 - 1)
              \/ (n < - 2 ^ 63 \/ 2 ^ 63 - 1 < n)) by (int_consts; lia).
  destruct D as [D|[D|D]];
    [pose proof (H32 D) as E | pose proof (H64 D) as E | pose proof (Hout D) as E];
    rewrite E; rewrite ?written_tag_appended; clear H32 H64 Hout E;
    int_consts;
    repeat split; intros;
    try lia; try discriminate; try reflexivity;
    try (match goal with
         | H : exists _, _ |- _ => destruct H as (? & ? & ?); discriminate
         end);
    eauto.
Qed.


(** A symbol key is written under its name. *)
Lemma write_element_symbol_key rc name value check_keys allow_id :
  write_element rc (KSym name) value check_keys allow_id
  = write_element rc (KStr (cstr name)) value check_keys allow_id.
Proof. destruct value; reflexivity. Qed.

(** With [check_keys], an element that is not a suppressed [_id] and whose
    key begins with '$' or contains '.' is refused, whatever its value. *)
Lemma write_element_rejects_key rc key value allow_id b :
  not_suppressed allow_id key ->
  (exists rest, key = 36 :: rest) \/ In 46 key ->
  exists msg,
    write_element rc (KStr key) value true allow_id b
    = (Raised (Exn InvalidKeyName msg), snd (bson_buffer_free b)).
Proof.
  intros Hs Hbad. apply suppress_test in Hs.
  assert (C : exists msg,
    ((match key with
      | c :: _ =>
          if c =? 36 then
            free_buffer ;; rb_raise InvalidKeyName
                  ("key " ++ text (cstr key) ++ " must not start with '$'")%string
          else ret tt
      | [] => ret tt
      end) ;;
     (if existsb (fun c => c =? 46) key then
        free_buffer ;; rb_raise InvalidKeyName
              ("key " ++ text (cstr key) ++ " must not contain '.'")%string
      else ret tt)) b
    = (Raised (Exn InvalidKeyName msg), snd (bson_buffer_free b))).
  { destruct Hbad as [[rest ->]|Hdot].
    - eexists. reflexivity.
    - destruct key as [|c key']; [destruct Hdot|].
      destruct (Z.eqb_spec c 36) as [->|Hc].
      + eexists. reflexivity.
      + apply existsb_dot in Hdot. eexists.
        unfold bind at 1. cbn [ret]. rewrite Hdot. reflexivity. }
  destruct C as [msg C]. exists msg.
  destruct value; cbn [write_element]; rewrite Hs;
    apply bind_raised; exact C.
Qed.


Lemma save_space_ok size b :
  0 <= size -> fits b size ->
  save_space size b = (Ok (bson_buffer_get_position b),
                       appended b (repeat 0 (Z.to_nat size))).
Proof.
  intros Hs [H _]. unfold save_space, bind, call, bson_buffer_save_space.
  apply Z.leb_le in H. rewrite H.
  pose proof (position_nonneg b).
  destruct (Z.eqb_spec (bson_buffer_get_position b) (-1)); [lia|]. reflexivity.
Qed.

Lemma get_position_eq b : get_position b = (Ok (bson_buffer_get_position b), b).
Proof. reflexivity. Qed.

Lemma FIX2INT_ok v b : in_int v = true -> FIX2INT v b = (Ok v, b).
Proof. unfold FIX2INT. now intros ->. Qed.

Lemma fits_new avail n :
  0 <= n <= avail -> n <= INT_MAX -> fits (bson_buffer_new avail) n.
Proof.
  intros. unfold fits, bson_buffer_new, bson_buffer_get_position.
  cbn [data room length Z.of_nat]. int_consts. lia.
Qed.

(** A top-level argument that is not a hash, with [move_id] off: the
    class test of [write_doc] refuses it after freeing the buffer. *)
Lemma serialize_non_hash_without_move_id rc avail doc check_keys max_size :
  is_hash doc = false -> 4 <= avail -> in_int max_size = true ->
  exists b,
    method_serialize rc (Some avail) doc check_keys false max_size
    = (Raised (Exn InvalidDocument
                 "BSON.serialize takes a Hash but got another object"), Some b)
    /\ freed b = true.
Proof.
  intros Hd Hr Hm. unfold method_serialize.
  rewrite (bind_ok _ _ _ _ _ (FIX2INT_ok _ _ Hm)).
  rewrite (bind_ok _ _ _ tt (bson_buffer_set_max_size (bson_buffer_new avail) max_size))
    by reflexivity.
  set (b0 := bson_buffer_set_max_size (bson_buffer_new avail) max_size).
  assert (F : fits b0 4) by (apply (fits_new avail 4); int_consts; lia).
  unfold write_doc, write_doc_with.
  erewrite bind_raised; [eexists; split; [reflexivity|]|].
  2:{ rewrite (bind_ok _ _ _ _ _ (get_position_eq b0)).
      rewrite (bind_ok _ _ _ _ _ (save_space_ok 4 b0 ltac:(lia) F)).
      rewrite bind_ret.
      unfold classname_comma_Hash_is_null.
      destruct doc; try discriminate; reflexivity. }
  reflexivity.
Qed.

(** C10. The claim: a top-level argument that is neither an ordered hash
    nor a kind of [Hash] makes [serialize] raise [InvalidDocument]. The
    code, with [move_id] on: [write_doc] sends [has_key?] to the argument
    before it looks at its class, so that the host raises [NoMethodError]
    for an object without that method; the buffer, with its four reserved
    bytes, is not freed. *)
Theorem serialize_non_hash_with_move_id :
  forall rc avail doc check_keys max_size,
    is_hash doc = false -> 4 <= avail -> in_int max_size = true ->
    exists b,
      method_serialize rc (Some avail) doc check_keys true max_size
      = (Raised (Exn NoMethodError "undefined method has_key?"), Some b)
      /\ freed b = false /\ data b = [0; 0; 0; 0].
Proof.
  intros rc avail doc check_keys max_size Hd Hr Hm. unfold method_serialize.
  rewrite (bind_ok _ _ _ _ _ (FIX2INT_ok _ _ Hm)).
  rewrite (bind_ok _ _ _ tt (bson_buffer_set_max_size (bson_buffer_new avail) max_size))
    by reflexivity.
  set (b0 := bson_buffer_set_max_size (bson_buffer_new avail) max_size).
  assert (F : fits b0 4) by (apply (fits_new avail 4); int_consts; lia).
  unfold write_doc, write_doc_with.
  erewrite bind_raised; [eexists; split; [reflexivity|]|].
  2:{ rewrite (bind_ok _ _ _ _ _ (get_position_eq b0)).
      rewrite (bind_ok _ _ _ _ _ (save_space_ok 4 b0 ltac:(lia) F)).
      destruct doc; try discriminate; reflexivity. }
  split; reflexivity.
Qed.

Lemma serialize_non_hash_with_move_id_witness :
  exists b,
    method_serialize Host.ruby_consts (Some 4096) (VInt 5) false true 4194304
    = (Raised (Exn NoMethodError "undefined method has_key?"), Some b)
    /\ freed b = false /\ data b = [0; 0; 0; 0].
Proof.
  refine (serialize_non_hash_with_move_id Host.ruby_consts 4096 (VInt 5) false
            4194304 _ _ _).
  - reflexivity.
  - vm_compute; discriminate.
  - reflexivity.
Defined.


(** ** The [_id] element under [move_id] *)

Lemma write_element_suppressed rc key value check_keys :
  bytes_eqb (lit "_id") (cstr key) = true ->
  write_element rc (KStr key) value check_keys 0 = ret tt.
Proof. intros H. destruct value; cbn [write_element Z.eqb andb]; now rewrite H. Qed.

Lemma write_element_other_key rc cls value check_keys a1 a2 :
  write_element rc (KOther cls) value check_keys a1
  = write_element rc (KOther cls) value check_keys a2.
Proof. destruct value; reflexivity. Qed.

Lemma write_element_without_id_eq rc k value check_keys b :
  write_element rc k value check_keys 0 b
  = if id_key k then (Ok tt, b) else write_element rc k value check_keys 1 b.
Proof.
  destruct k as [s|name|cls]; cbn [id_key].
  - destruct (bytes_eqb (lit "_id") (cstr s)) eqn:E.
    + now rewrite write_element_suppressed.
    + rewrite allow_id_irrelevant; [reflexivity|].
      intros _ C. rewrite C in E. discriminate.
  - rewrite !write_element_symbol_key.
    destruct (bytes_eqb (lit "_id") (cstr (cstr name))) eqn:E.
    + now rewrite write_element_suppressed.
    + rewrite allow_id_irrelevant; [reflexivity|].
      intros _ C. rewrite C in E. discriminate.
  - now rewrite (write_element_other_key rc cls value check_keys 0 1).
Qed.

Lemma bind_ext {A B} (c : enc A) (k1 k2 : A -> enc B) b :
  (forall a b', k1 a b' = k2 a b') -> bind c k1 b = bind c k2 b.
Proof. intros H. unfold bind. destruct (c b) as [[a| | |] b']; auto. Qed.

Lemma bind_cong {A B} (c1 c2 : enc A) (k : A -> enc B) b :
  c1 b = c2 b -> bind c1 k b = bind c2 k b.
Proof. unfold bind. now intros ->. Qed.

Lemma bind_assoc {A B C} (c : enc A) (f : A -> enc B) (g : B -> enc C) b :
  bind (bind c f) g b = bind c (fun a => bind (f a) g) b.
Proof. unfold bind. destruct (c b) as [[a| | |] b']; auto. Qed.

(** The loop of [write_doc] with [_id] suppressed writes what the loop
    with [_id] allowed writes for the entries that are not [_id]. *)
Lemma each_entry_without_id rc check_keys es b :
  each_entry (fun k v => write_element rc k v check_keys 0) es b
  = each_entry (fun k v => write_element rc k v check_keys 1)
      (filter (fun e => negb (id_key (fst e))) es) b.
Proof.
  revert b. induction es as [|[k w] es IH]; intros b; [reflexivity|].
  cbn [each_entry filter fst].
  destruct (id_key k) eqn:E; cbn [negb each_entry].
  - unfold bind. rewrite write_element_without_id_eq, E. apply IH.
  - erewrite bind_cong by (rewrite write_element_without_id_eq, E; reflexivity).
    apply bind_ext. intros _ b'. apply IH.
Qed.

Lemma with_entry_found {A} es key (found : value -> A) missing v :
  with_entry es key Some None = Some v ->
  with_entry es key found missing = found v.
Proof.
  induction es as [|[k w] es IH]; cbn [with_entry]; [discriminate|].
  destruct (rkey_eqb k key); [now intros [= ->] | exact IH].
Qed.

Lemma write_doc_move_id rc c es v check_keys b :
  with_entry es id_str Some None = Some v ->
  write_doc rc (VHash c es) check_keys true b
  = write_doc rc (VHash c ((id_str, v) :: filter (fun e => negb (id_key (fst e))) es))
      check_keys false b.
Proof.
  intros Hv. unfold write_doc, write_doc_with, classname_comma_Hash_is_null.
  rewrite (with_entry_found es id_str _ _ v Hv).
  apply bind_ext. intros start_position b1.
  apply bind_ext. intros length_location b2.
  etransitivity; [apply bind_assoc|].
  rewrite bind_ret.
  destruct c; cbn [each_entry];
    (symmetry; etransitivity; [apply bind_assoc|]; symmetry);
    apply bind_ext; intros [] b3; cbv beta; rewrite bind_ret;
    apply bind_cong, each_entry_without_id.
Qed.

(** C3, as the specification states it, fails on the hash
    [{"_id" => 1, :_id => 2}] with [move_id] on: one [_id] element is
    written, with the value 1 stored under the string key, where the
    claim asks for the value 2 stored under the symbol; with [move_id]
    off both entries are written, one after the other. *)
Lemma both_ids_move_id_keeps_string_value :
  let d := VHash PlainHash [(KStr (lit "_id"), VInt 1); (KSym (lit "_id"), VInt 2)] in
  fst (method_serialize Host.ruby_consts (Some 4096) d false true 4194304)
  = Ok [14; 0; 0; 0; 16; 95; 105; 100; 0; 1; 0; 0; 0; 0]
  /\ fst (method_serialize Host.ruby_consts (Some 4096)
            (VHash PlainHash [(KStr (lit "_id"), VInt 2)]) false true 4194304)
     = Ok [14; 0; 0; 0; 16; 95; 105; 100; 0; 2; 0; 0; 0; 0]
  /\ fst (method_serialize Host.ruby_consts (Some 4096) d false false 4194304)
     = Ok [23; 0; 0; 0; 16; 95; 105; 100; 0; 1; 0; 0; 0;
           16; 95; 105; 100; 0; 2; 0; 0; 0; 0].
Proof. repeat split; reflexivity. Qed.

End EncoderFacts.

(** ** Regular expressions *)

Module RegexFacts.
Import Encoder BytesFacts DecoderFacts EncoderFacts Spec.
Local Open Scope enc_scope.

Lemma bind_ok_inv {A B} (c : enc A) (k : A -> enc B) b x b' :
  bind c k b = (Ok x, b') ->
  exists a b1, c b = (Ok a, b1) /\ k a b1 = (Ok x, b').
Proof.
  unfold bind. destruct (c b) as [[a| | |] b1]; try discriminate. eauto.
Qed.

Lemma SAFE_WRITE_inv d size b b' :
  size = Z.of_nat (length d) ->
  SAFE_WRITE d size b = (Ok tt, b') -> b' = appended b d.
Proof.
  intros ->. unfold SAFE_WRITE, bind, call, bson_buffer_write.
  destruct (_ <=? _); cbn; [|discriminate].
  rewrite Nat2Z.id, firstn_all. now intros [= <-].
Qed.

Lemma write_utf8_inv s allow_null b b' :
  Z.of_nat (length s) <= INT_MAX ->
  write_utf8 s allow_null b = (Ok tt, b') -> b' = appended b s.
Proof.
  intros Hl. unfold write_utf8.
  destruct (validate_utf8_encoding s allow_null); try discriminate.
  rewrite RSTRING_LENINT_small by assumption.
  now apply SAFE_WRITE_inv.
Qed.

Lemma write_name_and_type_inv name type b b' :
  Z.of_nat (length name) <= INT_MAX -> 0 <= type < 256 ->
  write_name_and_type name type b = (Ok tt, b') ->
  b' = appended b (type :: name ++ [0]).
Proof.
  intros Hl Ht. unfold write_name_and_type. intros H.
  apply bind_ok_inv in H. destruct H as ([] & b1 & H1 & H).
  apply bind_ok_inv in H. destruct H as ([] & b2 & H2 & H3).
  apply SAFE_WRITE_inv in H1; [|reflexivity].
  apply write_utf8_inv in H2; [|assumption].
  apply SAFE_WRITE_inv in H3; [|reflexivity].
  subst. rewrite !appended_appended, Z.mod_small by lia. reflexivity.
Qed.

Lemma write_flag_inv flags bit c b b' :
  length (lit c) = 1%nat ->
  write_flag flags bit c b = (Ok tt, b') -> b' = appended b (flag flags bit c).
Proof.
  intros Hc. unfold write_flag, flag. destruct (has_flag flags bit).
  - apply SAFE_WRITE_inv. now rewrite Hc.
  - intros [= <-]. now rewrite appended_nil.
Qed.

Ltac inv_step H W b :=
  apply bind_ok_inv in H; destruct H as ([] & b & W & H).

Lemma serialize_regex_inv rc key pattern flags native b b' :
  Z.of_nat (length key) <= INT_MAX ->
  Z.of_nat (length pattern) <= INT_MAX ->
  serialize_regex rc key pattern flags None native b = (Ok tt, b') ->
  b' = appended b (11 :: key ++ 0 :: pattern ++ 0
                      :: regex_flag_bytes rc flags native ++ [0]).
Proof.
  intros Hk Hp H. unfold serialize_regex in H.
  inv_step H W1 b1. apply write_name_and_type_inv in W1; [|assumption|lia].
  inv_step H W2 b2. apply write_utf8_inv in W2; [|assumption].
  inv_step H W3 b3. apply SAFE_WRITE_inv in W3; [|reflexivity].
  inv_step H W4 b4. inv_step H W5 b5. unfold ret in W5. injection W5 as <-.
  apply SAFE_WRITE_inv in H; [|reflexivity].
  assert (F : b4 = appended b3 (regex_flag_bytes rc flags native)).
  { unfold regex_flag_bytes. clear H. destruct (native =? 1).
    - inv_step W4 F1 c1. apply SAFE_WRITE_inv in F1; [|reflexivity].
      inv_step W4 F2 c2. apply write_flag_inv in F2; [|reflexivity].
      inv_step W4 F3 c3. apply write_flag_inv in F3; [|reflexivity].
      apply write_flag_inv in W4; [|reflexivity].
      subst. now rewrite !appended_appended.
    - inv_step W4 F1 c1. apply write_flag_inv in F1; [|reflexivity].
      inv_step W4 F2 c2. apply write_flag_inv in F2; [|reflexivity].
      inv_step W4 F3 c3. apply write_flag_inv in F3; [|reflexivity].
      inv_step W4 F4 c4. apply write_flag_inv in F4; [|reflexivity].
      inv_step W4 F5 c5. apply write_flag_inv in F5; [|reflexivity].
      apply write_flag_inv in W4; [|reflexivity].
      subst. now rewrite !appended_appended. }
  subst. rewrite !appended_appended. f_equal. cbn [app].
  repeat (rewrite <- app_assoc; cbn [app]). reflexivity.
Qed.

Lemma regex_flag_bytes_props rc flags native :
  let fl := regex_flag_bytes rc flags native in
  NoDup fl /\ Forall (fun c => In c flag_letters) fl
  /\ (native <> 1 -> StronglySorted Z.lt fl)
  /\ (native = 1 -> In 109 fl).
Proof.
  unfold regex_flag_bytes, flag, flag_letters.
  destruct (Z.eqb_spec native 1) as [->|Hn].
  - destruct (has_flag flags (IGNORECASE rc)), (has_flag flags (MULTILINE rc)),
      (has_flag flags (EXTENDED rc)); cbn;
      (repeat split;
       [ repeat constructor; cbn; intuition discriminate
       | repeat constructor; cbn; tauto
       | intros C; now contradiction C
       | intros _; now left ]).
  - destruct (has_flag flags (BSONRegex_IGNORECASE rc)),
      (has_flag flags (BSONRegex_LOCALE_DEPENDENT rc)),
      (has_flag flags (BSONRegex_MULTILINE rc)),
      (has_flag flags (BSONRegex_DOTALL rc)),
      (has_flag flags (BSONRegex_UNICODE rc)),
      (has_flag flags (BSONRegex_EXTENDED rc)); cbn;
      (repeat split;
       [ repeat constructor; cbn; intuition discriminate
       | repeat constructor; cbn; tauto
       | intros _; repeat constructor
       | intros C; now contradiction Hn ]).
Qed.


(** C4, as the specification states it, fails on the native regular
    expression [/a/i], whose flags are written as "mi", which is not
    sorted, and on a [BSON::Regex] with the option IGNORECASE that
    answers "i" to [extra_options_str], whose flags are written as "ii". *)
Lemma regex_flags_unsorted_or_repeated :
  let b := bson_buffer_new 4096 in
  write_element Host.ruby_consts (KStr (lit "r")) (VRegexp (lit "a") 1 None) false 1 b
  = (Ok tt, appended b (11 :: lit "r" ++ 0 :: lit "a" ++ 0 :: lit "mi" ++ [0]))
  /\ ~ StronglySorted Z.lt (lit "mi")
  /\ write_element Host.ruby_consts (KStr (lit "r"))
       (VBSONRegex (lit "a") 1 (Some (lit "i"))) false 1 b
     = (Ok tt, appended b (11 :: lit "r" ++ 0 :: lit "a" ++ 0 :: lit "ii" ++ [0]))
  /\ ~ NoDup (lit "ii").
Proof.
  repeat split; try reflexivity.
  - intros H. inversion H as [|? ? _ F]. inversion F as [|? ? C _]. cbn in C. lia.
  - intros H. inversion H as [|? ? N _]. apply N. now left.
Qed.

(** C4, amended. For every regular expression without extra options that
    [serialize_regex] writes, the bytes between the pattern cstring and
    the closing NUL are pairwise different and drawn from
    {i, l, m, s, u, x}; for an explicit [BSON::Regex] they are in
    increasing order; for a native regular expression they hold m. *)
Theorem regex_flags_normalized :
  forall rc key pattern flags native b b',
    Z.of_nat (length key) <= INT_MAX ->
    Z.of_nat (length pattern) <= INT_MAX ->
    serialize_regex rc key pattern flags None native b = (Ok tt, b') ->
    exists fl,
      b' = appended b (11 :: key ++ 0 :: pattern ++ 0 :: fl ++ [0])
      /\ NoDup fl
      /\ Forall (fun c => In c flag_letters) fl
      /\ (native <> 1 -> StronglySorted Z.lt fl)
      /\ (native = 1 -> In 109 fl).
Proof.
  intros rc key pattern flags native b b' Hk Hp H.
  exists (regex_flag_bytes rc flags native). split.
  - now apply serialize_regex_inv.
  - apply regex_flag_bytes_props.
Qed.

Lemma regex_flags_normalized_witness :
  exists fl,
    appended (bson_buffer_new 4096)
      (11 :: lit "r" ++ 0 :: lit "a" ++ 0 :: lit "imx" ++ [0])
    = appended (bson_buffer_new 4096) (11 :: lit "r" ++ 0 :: lit "a" ++ 0 :: fl ++ [0])
    /\ NoDup fl
    /\ Forall (fun c => In c flag_letters) fl
    /\ (0 <> 1 -> StronglySorted Z.lt fl)
    /\ (0 = 1 -> In 109 fl).
Proof.
  refine (regex_flags_normalized Host.ruby_consts (lit "r") (lit "a") 37 0
            (bson_buffer_new 4096) _ _ _ _).
  - vm_compute; discriminate.
  - vm_compute; discriminate.
  - reflexivity.
Defined.

End RegexFacts.

(** ** Induction on values *)

Module ValueInd.
Import Spec.

Lemma value_ind_children (P : value -> Prop) :
  (forall v, Forall P (children v) -> P v) -> forall v, P v.
Proof.
  intros H. fix IH 1. intros v. apply H.
  destruct v; cbn [children]; try constructor.
  - revert entries. fix IHes 1. intros [|[k w] es]; cbn [map snd].
    + constructor.
    + constructor; [apply IH | apply IHes].
  - revert items. fix IHit 1. intros [|w items].
    + constructor.
    + constructor; [apply IH | apply IHit].
  - apply IH.
  - constructor; [apply IH | constructor].
  - apply IH.
  - constructor.
Qed.

End ValueInd.

(** ** Errors and the buffer *)

Module ErrorFacts.
Import Encoder BytesFacts DecoderFacts EncoderFacts RegexFacts ValueInd Spec.
Local Open Scope enc_scope.

Lemma frees_bind {A B} (c : enc A) (k : A -> enc B) :
  frees c -> (forall a, frees (k a)) -> frees (bind c k).
Proof.
  intros Hc Hk b e b'. unfold bind.
  destruct (c b) as [[a|e1| |] b1] eqn:E; try discriminate.
  - apply Hk.
  - intros [= <- <-]. eapply Hc; eauto.
Qed.

Lemma frees_ret {A} (a : A) : frees (ret a).
Proof. intros b e b'. discriminate. Qed.

Lemma frees_total {A} (c : enc A) :
  (forall b, exists a b', c b = (Ok a, b')) -> frees c.
Proof. intros H b e b' E. destruct (H b) as (a & b1 & E1). congruence. Qed.

Lemma frees_free_raise {A} cls msg : frees (free_buffer ;; @rb_raise A cls msg).
Proof. intros b e b' [= <- <-] _. reflexivity. Qed.

Lemma frees_refuse {A} msg : frees (@refuse A msg).
Proof. apply frees_free_raise. Qed.

Lemma frees_raise_other {A} cls msg :
  ~ own_check (Exn cls msg) -> frees (@rb_raise A cls msg).
Proof. intros H b e b' [= <- <-] C. contradiction. Qed.

Ltac not_own :=
  let C := fresh in
  intros C; unfold own_check in C; cbn in C;
  repeat (destruct C as [C|C]); discriminate C.

Lemma frees_SAFE_WRITE d size : frees (SAFE_WRITE d size).
Proof.
  unfold SAFE_WRITE. apply frees_bind.
  - apply frees_total. intros b. unfold call. destruct (bson_buffer_write b d size); eauto.
  - intros a. destruct (a =? 0); [apply frees_ret | apply frees_raise_other; not_own].
Qed.

Lemma frees_SAFE_WRITE_AT_POS p d size : frees (SAFE_WRITE_AT_POS p d size).
Proof.
  unfold SAFE_WRITE_AT_POS. apply frees_bind.
  - apply frees_total. intros b. unfold call.
    destruct (bson_buffer_write_at_position b p d size); eauto.
  - intros a. destruct (a =? 0); [apply frees_ret | apply frees_raise_other; not_own].
Qed.

Lemma frees_save_space size : frees (save_space size).
Proof.
  unfold save_space. apply frees_bind.
  - apply frees_total. intros b. unfold call.
    destruct (bson_buffer_save_space b size); eauto.
  - intros a. destruct (a =? -1); [apply frees_raise_other; not_own | apply frees_ret].
Qed.

Lemma frees_get_position : frees get_position.
Proof. apply frees_total. intros b. unfold get_position. eauto. Qed.

Lemma frees_get_max_size : frees get_max_size.
Proof. apply frees_total. intros b. unfold get_max_size. eauto. Qed.

Lemma frees_FIX2INT v : frees (FIX2INT v).
Proof.
  unfold FIX2INT. destruct (in_int v);
    [apply frees_ret | apply frees_raise_other; not_own].
Qed.

Lemma frees_NUM2UINT v : frees (NUM2UINT v).
Proof.
  unfold NUM2UINT. destruct (_ && _);
    [apply frees_ret | apply frees_raise_other; not_own].
Qed.

Lemma frees_NUM2LL v : frees (NUM2LL v).
Proof.
  unfold NUM2LL. destruct (_ && _);
    [apply frees_ret | apply frees_raise_other; not_own].
Qed.

Lemma frees_int_add a b : frees (int_add a b).
Proof.
  intros b0 e b'. unfold int_add, add_int, int_of.
  destruct (in_int (a + b)); discriminate.
Qed.

Lemma frees_millis_of t : frees (eval (millis_of t)).
Proof.
  intros b0 e b'. unfold eval, millis_of, round_to_long_long.
  destruct (double_mul t thousand); try discriminate.
  destruct (_ && _); discriminate.
Qed.

Lemma frees_write_utf8 s allow_null : frees (write_utf8 s allow_null).
Proof.
  unfold write_utf8. destruct (validate_utf8_encoding s allow_null).
  - apply frees_SAFE_WRITE.
  - apply frees_free_raise.
  - apply frees_free_raise.
Qed.

Create HintDb frees discriminated.
#[local] Hint Resolve frees_ret frees_free_raise frees_refuse frees_SAFE_WRITE
  frees_SAFE_WRITE_AT_POS frees_save_space frees_get_position
  frees_get_max_size frees_FIX2INT
  frees_NUM2UINT frees_NUM2LL frees_int_add frees_millis_of frees_write_utf8
  : frees.

(** Going through a computation along its binds and its tests. *)
Ltac frees_step :=
  first
    [ solve [auto with frees]
    | match goal with
      | |- frees (bind _ _) => apply frees_bind; [|intro]
      | |- frees (if ?c then _ else _) => destruct c
      | |- frees (match ?x with _ => _ end) => destruct x
      end ].

Lemma frees_write_name_and_type name type : frees (write_name_and_type name type).
Proof. unfold write_name_and_type. repeat frees_step. Qed.

#[local] Hint Resolve frees_write_name_and_type : frees.

Lemma frees_write_flag flags bit c : frees (write_flag flags bit c).
Proof. unfold write_flag. repeat frees_step. Qed.

Lemma frees_qsort_buffer p n : frees (qsort_buffer p n).
Proof. apply frees_total. intros b. unfold qsort_buffer. eauto. Qed.

#[local] Hint Resolve frees_write_flag frees_qsort_buffer : frees.

Lemma frees_serialize_regex rc key pattern flags extra native :
  frees (serialize_regex rc key pattern flags extra native).
Proof. unfold serialize_regex. repeat frees_step. Qed.

Lemma frees_write_string key s : frees (write_string key s).
Proof. unfold write_string. repeat frees_step. Qed.

Lemma frees_write_binary key d st : frees (write_binary key d st).
Proof. unfold write_binary. repeat frees_step. Qed.

Lemma frees_write_oid_bytes a i n : frees (write_oid_bytes a i n).
Proof.
  revert i. induction n; intros i; cbn [write_oid_bytes]; [auto with frees|].
  apply frees_bind; [|intros; apply IHn].
  destruct (nth_error a i); [repeat frees_step|].
  apply frees_raise_other; not_own.
Qed.

#[local] Hint Resolve frees_serialize_regex frees_write_string frees_write_binary
  frees_write_oid_bytes : frees.

Lemma frees_each_entry (f : rkey -> value -> enc unit) es :
  Forall (fun e => forall k, frees (f k (snd e))) es -> frees (each_entry f es).
Proof.
  induction 1 as [|[k w] es H _ IH]; cbn [each_entry]; [auto with frees|].
  apply frees_bind; [apply H | intros; apply IH].
Qed.

Lemma frees_each_item (f : Z -> value -> enc unit) items :
  Forall (fun v => forall i, frees (f i v)) items ->
  forall i, frees (each_item f i items).
Proof.
  induction 1 as [|w items H _ IH]; intros i; cbn [each_item]; [auto with frees|].
  apply frees_bind; [apply H | intros; apply IH].
Qed.

Lemma frees_with_entry es key (found : value -> enc unit) missing :
  Forall (fun e => frees (found (snd e))) es -> frees missing ->
  frees (with_entry es key found missing).
Proof.
  intros H Hm. induction H as [|[k w] es H _ IH]; cbn [with_entry]; [assumption|].
  destruct (rkey_eqb k key); auto.
Qed.

Lemma frees_write_doc_with (we : rkey -> value -> bool -> Z -> enc unit) hash ck mv :
  Forall (fun v => forall k c a, frees (we k v c a)) (children hash) ->
  frees (write_doc_with we hash ck mv).
Proof.
  intros H. unfold write_doc_with, classname_comma_Hash_is_null.
  assert (He : forall c es a, hash = VHash c es ->
            frees (each_entry (fun key value => we key value ck a) es)).
  { intros c es a ->. apply frees_each_entry. cbn [children] in H.
    apply Forall_map in H. eapply Forall_impl; [|exact H]. cbn. auto. }
  apply frees_bind; [auto with frees|intros start].
  apply frees_bind; [auto with frees|intros loc].
  apply frees_bind.
  { destruct mv; [|auto with frees].
    apply frees_bind; [|auto with frees].
    destruct hash; try (apply frees_raise_other; not_own).
    cbn [children] in H. apply Forall_map in H.
    apply frees_with_entry; [eapply Forall_impl; [|exact H]; cbn; auto|].
    apply frees_with_entry; [eapply Forall_impl; [|exact H]; cbn; auto|].
    auto with frees. }
  intros a.
  assert (E : (if mv then hash else if false then
                 match hash with
                 | VHash c es =>
                     if has_key es id_str && has_key es id_sym
                     then VHash c (coalesce_id es) else hash
                 | _ => hash
                 end else hash) = hash) by (now destruct mv).
  cbv zeta. rewrite E.
  apply frees_bind.
  { destruct hash as [| | | | |[] es| | | | | | | | | | | | | | | | | |];
      eauto with frees. }
  intros. repeat frees_step.
Qed.

Lemma frees_other_key rc cls v check_keys allow_id :
  frees (write_element rc (KOther cls) v check_keys allow_id).
Proof. destruct v; apply frees_free_raise. Qed.

Lemma frees_write_both rc v :
  (forall key check_keys allow_id,
      frees (write_element rc key v check_keys allow_id))
  /\ (forall check_keys move_id, frees (write_doc rc v check_keys move_id)).
Proof.
  induction v as [v IH] using value_ind_children.
  assert (D : forall check_keys move_id, frees (write_doc rc v check_keys move_id)).
  { intros. apply frees_write_doc_with.
    eapply Forall_impl; [|exact IH]. cbn. intros w [Hw _]. auto. }
  split; [|exact D].
  assert (S : forall key check_keys allow_id,
             frees (write_element rc (KStr key) v check_keys allow_id)).
  { intros key check_keys allow_id.
    destruct v; cbn [write_element];
      try (repeat frees_step; fail).
    - (* VHash *)
      repeat frees_step. apply D.
    - (* VArray *)
      cbn [children] in IH.
      repeat frees_step.
      apply frees_each_item.
      eapply Forall_impl; [|exact IH]. cbn. intros w [Hw _] i. apply Hw.
    - (* VDBRef *)
      cbn [children] in IH.
      pose proof (Forall_inv IH) as [H1 _].
      pose proof (Forall_inv (Forall_inv_tail IH)) as [H2 _].
      repeat frees_step.
    - (* VCode *)
      cbn [children] in IH. pose proof (Forall_inv IH) as [_ H1].
      repeat frees_step; try apply H1. }
  intros [key|name|cls] check_keys allow_id.
  - apply S.
  - rewrite write_element_symbol_key. apply S.
  - apply frees_other_key.
Qed.


(** *** The size cap *)

Section Cap.

(** Two runs of the encoder that differ in the cap only: [M] in the
    first, a smaller [m] in the second. *)
Variables M m : Z.
Hypothesis m_le_M : m <= M.

Local Abbreviation same_but_cap := (Spec.same_but_cap M m).
Local Abbreviation sim := (Spec.sim M m).

Lemma sim_bind {A B} (c : enc A) (k : A -> enc B) :
  sim c -> (forall a, sim (k a)) -> sim (bind c k).
Proof.
  intros Hc Hk b1 b2 R. unfold bind.
  destruct (Hc b1 b2 R) as [[E F]|[E R']].
  - left. destruct (c b2) as [r2 b2']. cbn in E, F. subst r2. auto.
  - destruct (c b1) as [r1 b1'], (c b2) as [r2 b2']. cbn in E, R'. subst r2.
    destruct r1 as [a|e| |]; [apply Hk; exact R'| | |]; right; auto.
Qed.

(** A step that reads the bytes and the room only and leaves the cap. *)
Lemma sim_same {A} (c : enc A) :
  (forall b1 b2, same_but_cap b1 b2 ->
     fst (c b1) = fst (c b2) /\ same_but_cap (snd (c b1)) (snd (c b2))) ->
  sim c.
Proof. intros H b1 b2 R. right. now apply H. Qed.

Lemma sim_ret {A} (a : A) : sim (ret a).
Proof. apply sim_same. intros b1 b2 R. now split. Qed.

Lemma sim_rb_raise {A} cls msg : sim (@rb_raise A cls msg).
Proof. apply sim_same. intros b1 b2 R. now split. Qed.

Lemma sim_undefined {A} u : sim (fun b => (@Undefined A u, b)).
Proof. apply sim_same. intros b1 b2 R. now split. Qed.

Lemma sim_int_add a b : sim (int_add a b).
Proof. apply sim_same. intros b1 b2 R. now split. Qed.

Lemma sim_eval {A} (c : outcome A) : sim (eval c).
Proof. apply sim_same. intros b1 b2 R. now split. Qed.

Lemma sim_get_position : sim get_position.
Proof.
  apply sim_same. intros b1 b2 R. split; [|exact R].
  unfold get_position, bson_buffer_get_position; cbn.
  destruct R as (-> & _). reflexivity.
Qed.

Lemma sim_free_buffer : sim free_buffer.
Proof.
  apply sim_same. intros b1 b2 (D & R & F & M1 & M2).
  unfold free_buffer, bind, call, bson_buffer_free, Spec.same_but_cap; cbn.
  repeat split; auto.
Qed.

Lemma sim_SAFE_WRITE d size : sim (SAFE_WRITE d size).
Proof.
  apply sim_same. intros b1 b2 (D & R & F & M1 & M2).
  unfold SAFE_WRITE, bind, call, bson_buffer_write, bson_buffer_get_position.
  rewrite D, R. destruct (_ <=? _); cbn; unfold Spec.same_but_cap; cbn;
    rewrite ?D; repeat split; auto.
Qed.

Lemma sim_save_space size : sim (save_space size).
Proof.
  apply sim_same. intros b1 b2 (D & R & F & M1 & M2).
  unfold save_space, bind, call, bson_buffer_save_space, bson_buffer_get_position.
  rewrite D, R. destruct (_ <=? _); cbn.
  - destruct (_ =? -1); cbn; unfold Spec.same_but_cap; cbn; rewrite ?D;
      repeat split; auto.
  - unfold Spec.same_but_cap; repeat split; auto.
Qed.

Lemma sim_SAFE_WRITE_AT_POS p d size : sim (SAFE_WRITE_AT_POS p d size).
Proof.
  apply sim_same. intros b1 b2 (D & R & F & M1 & M2).
  unfold SAFE_WRITE_AT_POS, bind, call, bson_buffer_write_at_position,
    bson_buffer_get_position.
  rewrite D. destruct (_ && _); cbn; unfold Spec.same_but_cap; cbn;
    rewrite ?D; repeat split; auto.
Qed.

Lemma sim_qsort_buffer p n : sim (qsort_buffer p n).
Proof.
  apply sim_same. intros b1 b2 (D & R & F & M1 & M2).
  unfold qsort_buffer, Spec.same_but_cap; cbn. rewrite D. repeat split; auto.
Qed.

Lemma sim_FIX2INT v : sim (FIX2INT v).
Proof. unfold FIX2INT. destruct (in_int v); [apply sim_ret | apply sim_rb_raise]. Qed.

Lemma sim_NUM2UINT v : sim (NUM2UINT v).
Proof. unfold NUM2UINT. destruct (_ && _); [apply sim_ret | apply sim_rb_raise]. Qed.

Lemma sim_NUM2LL v : sim (NUM2LL v).
Proof. unfold NUM2LL. destruct (_ && _); [apply sim_ret | apply sim_rb_raise]. Qed.

(** The test of the cap, and what follows it. *)
Lemma sim_cap_check {A} len (k : enc A) :
  sim k ->
  sim (max_size <- get_max_size ;;
       (if len >? max_size then
          free_buffer ;;
          rb_raise InvalidDocument
            "Document too large: This BSON document is limited to max_size bytes."
        else ret tt) ;;
       k).
Proof.
  intros Hk b1 b2 R. pose proof R as (D & Rm & F & M1 & M2).
  cbv [bind get_max_size bson_buffer_get_max_size].
  rewrite M1, M2.
  destruct (Z.gtb_spec len m) as [Gm|Gm].
  - left. split; reflexivity.
  - destruct (Z.gtb_spec len M); [lia|].
    cbv [ret]. apply Hk, R.
Qed.

Create HintDb sim discriminated.
Hint Resolve sim_ret sim_rb_raise sim_undefined sim_int_add sim_eval
  sim_get_position
  sim_free_buffer sim_SAFE_WRITE sim_save_space sim_SAFE_WRITE_AT_POS
  sim_qsort_buffer sim_FIX2INT sim_NUM2UINT sim_NUM2LL : sim.

Ltac sim_step :=
  first
    [ solve [auto with sim]
    | match goal with
      | |- sim (bind get_max_size _) => apply sim_cap_check
      | |- sim (bind _ _) => apply sim_bind; [|intro]
      | |- sim (if ?c then _ else _) => destruct c
      | |- sim (match ?x with _ => _ end) => destruct x
      end ].

Lemma sim_refuse {A} msg : sim (@refuse A msg).
Proof. unfold refuse. repeat sim_step. Qed.

Lemma sim_write_utf8 s allow_null : sim (write_utf8 s allow_null).
Proof. unfold write_utf8. repeat sim_step. Qed.

Hint Resolve sim_refuse sim_write_utf8 : sim.

Lemma sim_write_name_and_type name type : sim (write_name_and_type name type).
Proof. unfold write_name_and_type. repeat sim_step. Qed.

Lemma sim_write_flag flags bit c : sim (write_flag flags bit c).
Proof. unfold write_flag. repeat sim_step. Qed.

Hint Resolve sim_write_name_and_type sim_write_flag : sim.

Lemma sim_serialize_regex rc key pattern flags extra native :
  sim (serialize_regex rc key pattern flags extra native).
Proof. unfold serialize_regex. repeat sim_step. Qed.

Lemma sim_write_string key s : sim (write_string key s).
Proof. unfold write_string. repeat sim_step. Qed.

Lemma sim_write_binary key d st : sim (write_binary key d st).
Proof. unfold write_binary. repeat sim_step. Qed.

Lemma sim_write_oid_bytes a i n : sim (write_oid_bytes a i n).
Proof.
  revert i. induction n; intros i; cbn [write_oid_bytes]; [auto with sim|].
  apply sim_bind; [|intro; apply IHn].
  destruct (nth_error a i); repeat sim_step.
Qed.

Hint Resolve sim_serialize_regex sim_write_string sim_write_binary
  sim_write_oid_bytes : sim.

Lemma sim_each_entry (f : rkey -> value -> enc unit) es :
  Forall (fun e => forall k, sim (f k (snd e))) es -> sim (each_entry f es).
Proof.
  induction 1 as [|[k w] es H _ IH]; cbn [each_entry]; [auto with sim|].
  apply sim_bind; [apply H | intro; apply IH].
Qed.

Lemma sim_each_item (f : Z -> value -> enc unit) items :
  Forall (fun v => forall i, sim (f i v)) items ->
  forall i, sim (each_item f i items).
Proof.
  induction 1 as [|w items H _ IH]; intros i; cbn [each_item]; [auto with sim|].
  apply sim_bind; [apply H | intro; apply IH].
Qed.

Lemma sim_with_entry es key (found : value -> enc unit) missing :
  Forall (fun e => sim (found (snd e))) es -> sim missing ->
  sim (with_entry es key found missing).
Proof.
  intros H Hm. induction H as [|[k w] es H _ IH]; cbn [with_entry]; [assumption|].
  destruct (rkey_eqb k key); auto.
Qed.

Lemma sim_write_doc_with (we : rkey -> value -> bool -> Z -> enc unit) hash ck mv :
  Forall (fun v => forall k c a, sim (we k v c a)) (children hash) ->
  sim (write_doc_with we hash ck mv).
Proof.
  intros H. unfold write_doc_with, classname_comma_Hash_is_null.
  assert (He : forall c es a, hash = VHash c es ->
            sim (each_entry (fun key value => we key value ck a) es)).
  { intros c es a ->. apply sim_each_entry. cbn [children] in H.
    apply Forall_map in H. eapply Forall_impl; [|exact H]. cbn. auto. }
  apply sim_bind; [auto with sim|intros start].
  apply sim_bind; [auto with sim|intros loc].
  apply sim_bind.
  { destruct mv; [|auto with sim].
    apply sim_bind; [|auto with sim].
    destruct hash; try apply sim_rb_raise.
    cbn [children] in H. apply Forall_map in H.
    apply sim_with_entry; [eapply Forall_impl; [|exact H]; cbn; auto|].
    apply sim_with_entry; [eapply Forall_impl; [|exact H]; cbn; auto|].
    auto with sim. }
  intros a.
  assert (E : (if mv then hash else if false then
                 match hash with
                 | VHash c es =>
                     if has_key es id_str && has_key es id_sym
                     then VHash c (coalesce_id es) else hash
                 | _ => hash
                 end else hash) = hash) by (now destruct mv).
  cbv zeta. rewrite E.
  apply sim_bind.
  { destruct hash as [| | | | |[] es| | | | | | | | | | | | | | | | | |];
      eauto with sim; repeat sim_step. }
  intros. repeat sim_step.
Qed.

Lemma sim_other_key rc cls v check_keys allow_id :
  sim (write_element rc (KOther cls) v check_keys allow_id).
Proof. destruct v; cbn [write_element]; repeat sim_step. Qed.

Lemma sim_write_both rc v :
  (forall key check_keys allow_id,
      sim (write_element rc key v check_keys allow_id))
  /\ (forall check_keys move_id, sim (write_doc rc v check_keys move_id)).
Proof.
  induction v as [v IH] using value_ind_children.
  assert (D : forall check_keys move_id, sim (write_doc rc v check_keys move_id)).
  { intros. apply sim_write_doc_with.
    eapply Forall_impl; [|exact IH]. cbn. intros w [Hw _]. auto. }
  split; [|exact D].
  assert (S : forall key check_keys allow_id,
             sim (write_element rc (KStr key) v check_keys allow_id)).
  { intros key check_keys allow_id.
    destruct v; cbn [write_element];
      try (repeat sim_step; fail).
    - (* VHash *)
      repeat sim_step. apply D.
    - (* VArray *)
      cbn [children] in IH.
      repeat sim_step.
      apply sim_each_item.
      eapply Forall_impl; [|exact IH]. cbn. intros w [Hw _] i. apply Hw.
    - (* VDBRef *)
      cbn [children] in IH.
      pose proof (Forall_inv IH) as [H1 _].
      pose proof (Forall_inv (Forall_inv_tail IH)) as [H2 _].
      repeat sim_step.
    - (* VCode *)
      cbn [children] in IH. pose proof (Forall_inv IH) as [_ H1].
      repeat sim_step; try apply H1. }
  intros [key|name|cls] check_keys allow_id.
  - apply S.
  - rewrite write_element_symbol_key. apply S.
  - apply sim_other_key.
Qed.

End Cap.


Lemma SAFE_WRITE_shape d size b b' :
  SAFE_WRITE d size b = (Ok tt, b') ->
  max_size b' = max_size b /\ freed b' = freed b.
Proof.
  unfold SAFE_WRITE, bind, call, bson_buffer_write.
  destruct (_ <=? _); cbn; [|discriminate]. now intros [= <-].
Qed.

Lemma SAFE_WRITE_AT_POS_shape p d b b' :
  length d = 4%nat ->
  SAFE_WRITE_AT_POS p d 4 b = (Ok tt, b') ->
  bson_buffer_get_position b' = bson_buffer_get_position b
  /\ max_size b' = max_size b.
Proof.
  intros Hd. unfold SAFE_WRITE_AT_POS, bind, call, bson_buffer_write_at_position.
  destruct (_ && _) eqn:C; [|discriminate]. cbn [Z.eqb ret]. intros [= <-].
  apply andb_prop in C. destruct C as [C1 C2].
  apply Z.leb_le in C1, C2. unfold bson_buffer_get_position, with_data in *.
  cbn [data max_size].
  split; [|reflexivity].
  destruct d as [|x0 [|x1 [|x2 [|x3 [|]]]]]; try discriminate.
  rewrite !length_app, !length_firstn, length_skipn. cbn [length]. lia.
Qed.

(** When [write_doc] returns, what it wrote is within the cap. *)
Lemma write_doc_ok_bounded rc doc check_keys move_id b b' :
  write_doc rc doc check_keys move_id b = (Ok tt, b') ->
  bson_buffer_get_position b' - bson_buffer_get_position b <= max_size b'.
Proof.
  unfold write_doc, write_doc_with. intros H.
  apply bind_ok_inv in H. destruct H as (start & b1 & H1 & H).
  unfold get_position in H1. injection H1 as <- <-.
  apply bind_ok_inv in H. destruct H as (loc & b2 & _ & H).
  apply bind_ok_inv in H. destruct H as (a & b3 & _ & H).
  cbv zeta in H.
  apply bind_ok_inv in H. destruct H as ([] & b4 & _ & H).
  apply bind_ok_inv in H. destruct H as ([] & b5 & _ & H).
  apply bind_ok_inv in H. destruct H as (position & b6 & H6 & H).
  unfold get_position in H6. injection H6 as <- <-.
  apply bind_ok_inv in H. destruct H as (ms & b7 & H7 & H).
  unfold get_max_size in H7. injection H7 as <- <-.
  apply bind_ok_inv in H. destruct H as ([] & b8 & H8 & H).
  destruct (Z.gtb_spec (bson_buffer_get_position b5 - bson_buffer_get_position b)
              (bson_buffer_get_max_size b5)) as [G|G]; [discriminate|].
  unfold ret in H8. injection H8 as <-.
  apply SAFE_WRITE_AT_POS_shape in H; [|apply le_bytes_length].
  destruct H as [-> ->]. exact G.
Qed.

Lemma same_but_cap_new avail M m :
  same_but_cap M m (bson_buffer_set_max_size (bson_buffer_new avail) M)
    (bson_buffer_set_max_size (bson_buffer_new avail) m).
Proof. unfold Spec.same_but_cap; cbn. auto. Qed.

Lemma FIX2INT_inv v b x b' : FIX2INT v b = (Ok x, b') -> in_int v = true /\ x = v /\ b' = b.
Proof.
  unfold FIX2INT. destruct (in_int v); [|discriminate].
  unfold ret. now intros [= <- <-].
Qed.

(** What [method_serialize] does around [write_doc]. *)
Lemma method_serialize_eq rc avail doc check_keys move_id max_size :
  in_int max_size = true ->
  method_serialize rc (Some avail) doc check_keys move_id max_size
  = match write_doc rc doc check_keys move_id
            (bson_buffer_set_max_size (bson_buffer_new avail) max_size) with
    | (Ok _, b) => (Ok (data b), Some (snd (bson_buffer_free b)))
    | (Raised e, b) => (Raised e, Some b)
    | (Undefined u, b) => (Undefined u, Some b)
    | (OutOfFuel, b) => (OutOfFuel, Some b)
    end.
Proof.
  intros Hm. unfold method_serialize.
  rewrite (bind_ok _ _ _ _ _ (FIX2INT_ok _ _ Hm)).
  rewrite (bind_ok _ _ _ tt (bson_buffer_set_max_size (bson_buffer_new avail) max_size))
    by reflexivity.
  unfold bind at 1.
  destruct (write_doc rc doc check_keys move_id _) as [[[]|e|u|] b]; try reflexivity.
  cbn. unfold bson_buffer_get_position, bson_buffer_get_buffer.
  now rewrite Nat2Z.id, firstn_all.
Qed.

Lemma serialize_over_the_cap rc avail doc check_keys move_id M m bytes b1 :
  in_int m = true ->
  method_serialize rc (Some avail) doc check_keys move_id M = (Ok bytes, b1) ->
  m < Z.of_nat (length bytes) ->
  exists b2,
    method_serialize rc (Some avail) doc check_keys move_id m
    = (Raised too_large, Some b2) /\ freed b2 = true.
Proof.
  intros Hm H1 Hlen.
  assert (HM : in_int M = true).
  { unfold method_serialize in H1.
    destruct (FIX2INT M (bson_buffer_new avail)) as [r b] eqn:E.
    unfold bind at 1 in H1. rewrite E in H1.
    destruct r; try (destruct b; discriminate H1).
    now apply FIX2INT_inv in E. }
  rewrite method_serialize_eq in H1 by assumption.
  rewrite method_serialize_eq by assumption.
  set (bM := bson_buffer_set_max_size (bson_buffer_new avail) M) in *.
  set (bm := bson_buffer_set_max_size (bson_buffer_new avail) m).
  destruct (write_doc rc doc check_keys move_id bM) as [[[]| | |] bM'] eqn:EM;
    try discriminate.
  injection H1 as <- <-.
  pose proof (write_doc_ok_bounded _ _ _ _ _ _ EM) as BM.
  assert (MM : max_size bM' = M).
  { destruct (proj2 (sim_write_both M M (Z.le_refl M) rc doc) check_keys move_id bM bM
                (same_but_cap_new avail M M)) as [[E _]|[_ R]].
    - fold bM in E. rewrite EM in E. discriminate.
    - fold bM in R. rewrite EM in R. apply R. }
  assert (LM : m <= M).
  { rewrite MM in BM. unfold bson_buffer_get_position in BM. cbn in BM. lia. }
  destruct (proj2 (sim_write_both M m LM rc doc) check_keys move_id bM bm
              (same_but_cap_new avail M m)) as [[E F]|[E R]].
  - fold bm in E, F.
    destruct (write_doc rc doc check_keys move_id bm) as [r bm'].
    cbn in E, F. subst r. eauto.
  - fold bM bm in E, R. rewrite EM in E, R.
    destruct (write_doc rc doc check_keys move_id bm) as [r bm'] eqn:Em.
    cbn in E, R. subst r.
    pose proof (write_doc_ok_bounded _ _ _ _ _ _ Em) as Bm.
    destruct R as (D & _ & _ & _ & Mm).
    rewrite Mm in Bm. unfold bson_buffer_get_position in Bm. cbn in Bm.
    rewrite <- D in Bm. lia.
Qed.


Lemma frees_method_serialize rc avail doc check_keys move_id max_size e b :
  method_serialize rc (Some avail) doc check_keys move_id max_size
  = (Raised e, Some b) ->
  own_check e -> freed b = true.
Proof.
  unfold method_serialize. intros H Ho.
  match type of H with
  | (let (_, _) := ?run ?b0 in _) = _ =>
      assert (F : frees run); [|destruct (run b0) as [r b1] eqn:E]
  end.
  - apply frees_bind; [auto with frees|intro].
    apply frees_bind; [apply frees_total; eauto|intro].
    apply frees_bind; [apply frees_write_both|intro].
    apply frees_bind; [apply frees_total; eauto|intro].
    apply frees_bind; [apply frees_total; unfold call; cbn; eauto|intro].
    destruct (negb _); [apply frees_raise_other; not_own | auto with frees].
  - injection H as -> <-. eapply F; eauto.
Qed.

Lemma method_serialize_ok_frees rc heap doc check_keys move_id max_size bytes b :
  method_serialize rc heap doc check_keys move_id max_size = (Ok bytes, b) ->
  exists b', b = Some b' /\ freed b' = true.
Proof.
  unfold method_serialize. destruct heap as [avail|]; [|discriminate].
  intros H.
  match type of H with
  | (let (_, _) := ?run ?b0 in _) = _ => destruct (run b0) as [r b1] eqn:E
  end.
  injection H as -> <-. eexists; split; [reflexivity|].
  apply bind_ok_inv in E. destruct E as (m & c1 & _ & E).
  apply bind_ok_inv in E. destruct E as ([] & c2 & _ & E).
  apply bind_ok_inv in E. destruct E as ([] & c3 & _ & E).
  apply bind_ok_inv in E. destruct E as (res & c4 & _ & E).
  apply bind_ok_inv in E. destruct E as (st & c5 & E5 & E).
  unfold call, bson_buffer_free in E5. injection E5 as <- <-.
  cbn in E. injection E as _ <-. reflexivity.
Qed.

(** C6, as the specification states it, fails where an error is raised
    without the buffer being freed: when the buffer module reports that it
    cannot grow (here the allocator has 3 bytes for a reservation of 4),
    [NoMemError] is raised by the encoder's macros, which do not free; and
    when a conversion of the host refuses a value (here a Timestamp whose
    seconds do not fit 32 bits), [RangeError] leaves [serialize] with the
    buffer as it is. *)
Lemma error_without_release :
  (exists b,
     method_serialize Host.ruby_consts (Some 3) (VHash PlainHash []) false false 4194304
     = (Raised (Exn NoMemError "failed to allocate memory in buffer.c"), Some b)
     /\ freed b = false)
  /\ (exists b,
        method_serialize Host.ruby_consts (Some 4096)
          (VHash PlainHash [(KStr (lit "t"), VTimestamp 4294967296 0)])
          false false 4194304
        = (Raised (Exn RangeError "integer out of the range of unsigned int"), Some b)
        /\ freed b = false).
Proof. split; eexists; split; reflexivity. Qed.

(** C6, amended. A document whose encoding (obtained under some cap [M])
    is longer than the cap [m] of the call makes [serialize] raise
    [InvalidDocument]; and whenever [serialize] raises from one of its own
    checks (size cap, key errors, encoding errors, unsupported variants,
    integers outside int64) the buffer has been freed and no bytes are
    returned; when it returns bytes the buffer has been freed as well. *)
Theorem size_cap_and_buffer_release :
  forall rc avail doc check_keys move_id,
    (forall M m bytes b1,
        in_int m = true ->
        method_serialize rc (Some avail) doc check_keys move_id M = (Ok bytes, b1) ->
        m < Z.of_nat (length bytes) ->
        exists b2,
          method_serialize rc (Some avail) doc check_keys move_id m
          = (Raised too_large, Some b2)
          /\ freed b2 = true /\ exn_cls too_large = InvalidDocument)
    /\ (forall max_size e b,
           method_serialize rc (Some avail) doc check_keys move_id max_size
           = (Raised e, Some b) ->
           own_check e -> freed b = true)
    /\ (forall max_size bytes b,
           method_serialize rc (Some avail) doc check_keys move_id max_size
           = (Ok bytes, b) ->
           exists b', b = Some b' /\ freed b' = true).
Proof.
  intros rc avail doc check_keys move_id. repeat split.
  - intros M m bytes b1 Hm H Hl.
    destruct (serialize_over_the_cap rc avail doc check_keys move_id M m bytes b1
                Hm H Hl) as (b2 & E & F).
    exists b2. auto.
  - intros. eapply frees_method_serialize; eauto.
  - intros. eapply method_serialize_ok_frees; eauto.
Qed.

Lemma size_cap_and_buffer_release_witness :
  exists b2,
    method_serialize Host.ruby_consts (Some 4096)
      (VHash PlainHash [(KStr (lit "hello"), VString (lit "world"))]) false false 10
    = (Raised too_large, Some b2)
    /\ freed b2 = true /\ exn_cls too_large = InvalidDocument.
Proof.
  refine (proj1 (size_cap_and_buffer_release Host.ruby_consts 4096
                   (VHash PlainHash [(KStr (lit "hello"), VString (lit "world"))])
                   false false)
            4194304 10
            [22; 0; 0; 0; 2; 104; 101; 108; 108; 111; 0; 6; 0; 0; 0;
             119; 111; 114; 108; 100; 0; 0]
            (Some {| data := []; max_size := 4194304; room := 4096; freed := true |})
            _ _ _).
  - reflexivity.
  - reflexivity.
  - vm_compute; reflexivity.
Defined.

End ErrorFacts.

(** ** The wire format of the values that round-trip *)

Module Wire.
Import Encoder BytesFacts DecoderFacts EncoderFacts ValueInd Spec.

Lemma payload_hash c es : payload (VHash c es) = frame (elements es).
Proof. reflexivity. Qed.

Lemma payload_array items : payload (VArray items) = frame (items_from 0 items).
Proof. reflexivity. Qed.

Lemma as_ordered_hash c es :
  as_ordered (VHash c es) = VHash OrderedHash (entries_as_ordered es).
Proof.
  cbn [as_ordered]. f_equal. induction es as [|[k w] es IH]; [reflexivity|].
  cbn [entries_as_ordered map fst snd]. f_equal. exact IH.
Qed.


(** *** Keys and strings *)

Lemma validate_no_nul_aux n :
  forall s, (length s <= n)%nat ->
            validate_utf8_encoding s false = VALID -> no_nul s.
Proof.
  induction n as [|n IH]; intros s Hl Hv.
  - destruct s; [constructor | cbn in Hl; lia].
  - destruct s as [|b r]; [constructor|].
    cbn [length] in Hl. cbn [validate_utf8_encoding] in Hv.
    unfold between, tail_byte in Hv.
    destruct (Z.ltb_spec b 128).
    + destruct (Z.eqb_spec b 0); [discriminate|].
      constructor; [assumption | apply IH; [lia | exact Hv]].
    + destruct ((194 <=? b) && (b <=? 223)).
      { destruct r as [|t1 r1]; [discriminate|].
        destruct ((128 <=? t1) && (t1 <=? 191)) eqn:T1; [|discriminate].
        apply andb_prop in T1. destruct T1 as [T1 _]. apply Z.leb_le in T1.
        cbn [length] in Hl.
        repeat (constructor; [lia|]). apply IH; [lia | exact Hv]. }
      destruct ((224 <=? b) && (b <=? 239)).
      { destruct r as [|t1 [|t2 r2]]; try discriminate.
        destruct ((if b =? 224 then (160 <=? t1) && (t1 <=? 191)
                   else if b =? 237 then (128 <=? t1) && (t1 <=? 159)
                   else (128 <=? t1) && (t1 <=? 191))) eqn:T1;
          [|discriminate].
        destruct ((128 <=? t2) && (t2 <=? 191)) eqn:T2; [|discriminate].
        assert (128 <= t1).
        { destruct (b =? 224); [|destruct (b =? 237)];
            apply andb_prop in T1; destruct T1 as [T1 _];
            apply Z.leb_le in T1; lia. }
        apply andb_prop in T2. destruct T2 as [T2 _]. apply Z.leb_le in T2.
        cbn [length] in Hl. cbn [andb] in Hv.
        repeat (constructor; [lia|]). apply IH; [lia | exact Hv]. }
      destruct ((240 <=? b) && (b <=? 244)); [|discriminate].
      destruct r as [|t1 [|t2 [|t3 r3]]]; try discriminate.
      destruct ((if b =? 240 then (144 <=? t1) && (t1 <=? 191)
                 else if b =? 244 then (128 <=? t1) && (t1 <=? 143)
                 else (128 <=? t1) && (t1 <=? 191))) eqn:T1;
        [|discriminate].
      destruct ((128 <=? t2) && (t2 <=? 191)) eqn:T2; [|discriminate].
      destruct ((128 <=? t3) && (t3 <=? 191)) eqn:T3; [|discriminate].
      assert (128 <= t1).
      { destruct (b =? 240); [|destruct (b =? 244)];
          apply andb_prop in T1; destruct T1 as [T1 _];
          apply Z.leb_le in T1; lia. }
      apply andb_prop in T2. destruct T2 as [T2 _]. apply Z.leb_le in T2.
      apply andb_prop in T3. destruct T3 as [T3 _]. apply Z.leb_le in T3.
      cbn [length] in Hl. cbn [andb] in Hv.
      repeat (constructor; [lia|]). apply IH; [lia | exact Hv].
Qed.

(** A key that the validator accepts holds no NUL. *)
Lemma validate_no_nul s :
  validate_utf8_encoding s false = VALID -> no_nul s.
Proof. apply (validate_no_nul_aux (length s)). lia. Qed.

Lemma validate_ascii s allow_null :
  ascii_text s -> validate_utf8_encoding s allow_null = VALID.
Proof.
  induction 1 as [|b r Hb _ IH]; [reflexivity|].
  cbn [validate_utf8_encoding].
  destruct (Z.ltb_spec b 128); [|lia].
  destruct (Z.eqb_spec b 0); [lia|]. exact IH.
Qed.

Lemma digits_ascii fuel : forall n acc,
  0 <= n -> ascii_text acc -> ascii_text (digits fuel n acc).
Proof.
  induction fuel as [|fuel IH]; intros n acc Hn Ha; cbn [digits]; [assumption|].
  assert (ascii_text ((48 + n mod 10) :: acc)).
  { constructor; [|assumption]. pose proof (Z.mod_pos_bound n 10 ltac:(lia)). lia. }
  destruct (n <? 10); [assumption|].
  apply IH; [|assumption]. apply Z.div_pos; lia.
Qed.

Lemma printf_d_ascii i : 0 <= i -> ascii_text (printf_d i).
Proof.
  intros Hi. unfold printf_d. destruct (Z.ltb_spec i 0); [lia|].
  apply digits_ascii; [assumption | constructor].
Qed.

Lemma ascii_no_nul s : ascii_text s -> no_nul s.
Proof. apply Forall_impl. intros; lia. Qed.

Lemma digits_length fuel : forall n acc,
  (length (digits fuel n acc) <= fuel + length acc)%nat.
Proof.
  induction fuel as [|fuel IH]; intros n acc; cbn [digits]; [lia|].
  destruct (n <? 10); cbn [length]; [lia|].
  specialize (IH (n / 10) ((48 + n mod 10) :: acc)). cbn [length] in IH. lia.
Qed.

Lemma printf_d_length i : 0 <= i -> (length (printf_d i) <= 10)%nat.
Proof.
  intros Hi. unfold printf_d. destruct (Z.ltb_spec i 0); [lia|].
  pose proof (digits_length 10 i []). cbn [length] in *. lia.
Qed.


(** *** The encoder writes the wire format *)

Local Open Scope enc_scope.

Ltac fits_tac Hf :=
  rewrite ?fits_appended; eapply fits_shrink; [exact Hf | len_lia].

(** The patch of a reserved slot of four bytes. *)
Lemma SAFE_WRITE_AT_POS_ok b slot d rest :
  length slot = 4%nat -> length d = 4%nat ->
  SAFE_WRITE_AT_POS (bson_buffer_get_position b) d 4 (appended b (slot ++ rest))
  = (Ok tt, appended b (d ++ rest)).
Proof.
  intros Hs Hd.
  unfold SAFE_WRITE_AT_POS, bind, call, bson_buffer_write_at_position.
  rewrite position_appended.
  rewrite andb_intro_Z by (apply Z.leb_le; pose proof (position_nonneg b); len_lia).
  cbn [Z.eqb]. unfold ret, appended, with_data, bson_buffer_get_position.
  cbn [data max_size room freed].
  rewrite Nat2Z.id, firstn_app_length by reflexivity.
  replace (Z.to_nat (Z.of_nat (length (data b)) + 4))
    with (length (data b) + 4)%nat by lia.
  rewrite (firstn_all2 (n:=Z.to_nat 4)) by (rewrite Hd; cbn; lia).
  rewrite (app_assoc (data b) slot rest), skipn_app_length
    by (now rewrite length_app, Hs).
  reflexivity.
Qed.

Lemma int_add_ok a b buf :
  INT_MIN <= a + b <= INT_MAX -> int_add a b buf = (Ok (a + b), buf).
Proof. intros H. unfold int_add. now rewrite add_int_ok. Qed.

Ltac list_norm := repeat (progress (repeat rewrite <- app_assoc; cbn [app])).
Ltac same_bytes := rewrite ?appended_appended; do 2 f_equal; list_norm; reflexivity.

Ltac wstep L :=
  erewrite bind_ok; [|apply L].

Lemma write_string_ok key s b :
  validate_utf8_encoding key false = VALID ->
  validate_utf8_encoding s true = VALID ->
  fits b (Z.of_nat (length (element key (VString s)))) ->
  write_string key s b = (Ok tt, appended b (element key (VString s))).
Proof.
  intros Hk Hs Hf. unfold element in *. cbn [payload tag_of] in *.
  pose proof (position_nonneg b) as Hp. pose proof Hf as [Hf1 Hf2].
  assert (Hl : Z.of_nat (length s) + Z.of_nat (length key) + 7 <= INT_MAX)
    by len_lia.
  unfold write_string.
  wstep write_name_and_type_ok; [|assumption|lia|fits_tac Hf].
  rewrite RSTRING_LENINT_small by lia.
  wstep int_add_ok; [|int_consts; lia].
  wstep SAFE_WRITE_ok; [|now rewrite le_bytes_length|fits_tac Hf].
  wstep write_utf8_ok; [|assumption|fits_tac Hf].
  unfold zero. rewrite SAFE_WRITE_ok; [|reflexivity|fits_tac Hf].
  same_bytes.
Qed.


Lemma each_entry_ok rc es : forall b,
  Forall (fun e => writes_ok rc (snd e)) es ->
  Forall (fun e => exists s, fst e = KStr s
                             /\ validate_utf8_encoding s false = VALID) es ->
  fits b (Z.of_nat (length (elements es))) ->
  Z.of_nat (length (elements es)) <= max_size b ->
  each_entry (fun key value => write_element rc key value false 1) es b
  = (Ok tt, appended b (elements es)).
Proof.
  induction es as [|[k w] es IH]; intros b Hw Hk Hf Hm.
  - cbn. now rewrite appended_nil.
  - cbn [each_entry elements] in *.
    pose proof (Forall_inv Hw) as Hw1. pose proof (Forall_inv_tail Hw) as Hw2.
    pose proof (Forall_inv Hk) as (s & Hs & Hv).
    pose proof (Forall_inv_tail Hk) as Hk2.
    cbn [fst snd] in *. subst k. cbn [key_bytes] in *.
    wstep Hw1; [|assumption|fits_tac Hf|len_lia].
    rewrite IH; [same_bytes|assumption|assumption|fits_tac Hf|].
    rewrite max_size_appended. len_lia.
Qed.

Lemma each_item_ok rc items : forall i b,
  0 <= i ->
  Forall (writes_ok rc) items ->
  fits b (Z.of_nat (length (items_from i items))) ->
  Z.of_nat (length (items_from i items)) <= max_size b ->
  each_item (fun i item => write_element rc (KStr (INT2STRING i)) item false 1)
    i items b
  = (Ok tt, appended b (items_from i items)).
Proof.
  induction items as [|w items IH]; intros i b Hi Hw Hf Hm.
  - cbn. now rewrite appended_nil.
  - cbn [each_item items_from] in *.
    pose proof (Forall_inv Hw) as Hw1. pose proof (Forall_inv_tail Hw) as Hw2.
    unfold INT2STRING.
    wstep Hw1; [|apply validate_ascii, printf_d_ascii; lia|fits_tac Hf|len_lia].
    rewrite IH; [same_bytes|lia|assumption|fits_tac Hf|].
    rewrite max_size_appended. len_lia.
Qed.

Lemma get_max_size_eq b : get_max_size b = (Ok (max_size b), b).
Proof. reflexivity. Qed.

(** [write_doc] writes the frame of a hash whose values it can write. *)
Lemma write_doc_ok rc c es b :
  Forall (fun e => writes_ok rc (snd e)) es ->
  Forall (fun e => exists s, fst e = KStr s
                             /\ validate_utf8_encoding s false = VALID) es ->
  fits b (Z.of_nat (length (frame (elements es)))) ->
  Z.of_nat (length (frame (elements es))) <= max_size b ->
  write_doc rc (VHash c es) false false b
  = (Ok tt, appended b (frame (elements es))).
Proof.
  intros Hw Hk Hf Hm. unfold frame in *.
  unfold write_doc, write_doc_with, classname_comma_Hash_is_null.
  pose proof (position_nonneg b) as Hp. pose proof Hf as [Hf1 Hf2].
  wstep get_position_eq.
  wstep save_space_ok; [|lia|fits_tac Hf].
  rewrite bind_ret. cbv zeta. lazy beta iota.
  assert (E : (match c with
               | PlainHash | _ =>
                   each_entry (fun key value => write_element rc key value false 1) es
               end) = each_entry (fun key value => write_element rc key value false 1) es)
    by (now destruct c).
  rewrite E. clear E.
  wstep each_entry_ok; [|assumption|assumption|fits_tac Hf|
                         rewrite max_size_appended; len_lia].
  unfold zero. wstep SAFE_WRITE_ok; [|reflexivity|fits_tac Hf].
  wstep get_position_eq.
  wstep get_max_size_eq.
  rewrite !appended_appended, position_appended, max_size_appended.
  rewrite gtb_false_intro by len_lia.
  rewrite bind_ret.
  change (Z.to_nat 4) with 4%nat.
  rewrite SAFE_WRITE_AT_POS_ok by (reflexivity || apply le_bytes_length).
  do 4 f_equal. len_lia.
Qed.


Lemma NUM2UINT_ok v b : 0 <= v < 2 ^ 32 -> NUM2UINT v b = (Ok v, b).
Proof.
  intros H. unfold NUM2UINT.
  rewrite andb_intro_Z by ((apply Z.leb_le || apply Z.ltb_lt); int_consts; lia).
  now rewrite Z.mod_small by lia.
Qed.

Lemma skipn_nth_error_cons {A} (l : list A) : forall i x,
  nth_error l i = Some x -> skipn i l = x :: skipn (S i) l.
Proof.
  induction l as [|a l IH]; intros [|i] x E; try discriminate.
  - now injection E as ->.
  - cbn [nth_error] in E. cbn [skipn]. rewrite (IH i x E). reflexivity.
Qed.

Lemma write_oid_bytes_ok o : forall i n b,
  (i + n <= length o)%nat -> Forall is_byte o ->
  fits b (Z.of_nat n) ->
  write_oid_bytes o i n b = (Ok tt, appended b (firstn n (skipn i o))).
Proof.
  intros i n. revert i. induction n as [|n IH]; intros i b Hl Ho Hf.
  - cbn. now rewrite appended_nil.
  - cbn [write_oid_bytes].
    destruct (nth_error o i) as [x|] eqn:E;
      [|apply nth_error_None in E; lia].
    assert (Hx : is_byte x).
    { eapply Forall_forall; [exact Ho|]. eapply nth_error_In; eauto. }
    unfold is_byte in Hx.
    rewrite (bind_ok _ _ _ tt (appended b [x])).
    2:{ wstep FIX2INT_ok;
          [|unfold in_int; apply andb_intro_Z; apply Z.leb_le; int_consts; lia].
        rewrite Z.mod_small by lia.
        apply SAFE_WRITE_ok; [reflexivity|fits_tac Hf]. }
    rewrite IH; [|lia|assumption|fits_tac Hf].
    rewrite appended_appended. do 2 f_equal.
    rewrite (skipn_nth_error_cons o i x E). reflexivity.
Qed.


Lemma to_signed_8_byte st :
  0 <= st < 256 ->
  (to_signed 8 (st mod 256) =? 2) = (st =? 2)
  /\ to_signed 8 (st mod 256) mod 256 = st.
Proof.
  intros H. rewrite Z.mod_small by lia. unfold to_signed.
  change (2 ^ (8 - 1)) with 128. change (2 ^ 8) with 256.
  destruct (Z.ltb_spec st 128).
  - split; [reflexivity | apply Z.mod_small; lia].
  - split.
    + destruct (Z.eqb_spec (st - 256) 2), (Z.eqb_spec st 2); try lia; reflexivity.
    + rewrite <- (Z.mod_small st 256) at 2 by lia.
      replace (st - 256) with (st + (-1) * 256) by lia.
      apply Z.mod_add. lia.
Qed.

Lemma write_binary_ok key d st b :
  validate_utf8_encoding key false = VALID ->
  0 <= st < 256 ->
  fits b (Z.of_nat (length (element key (VBinary d st)))) ->
  write_binary key d (to_signed 8 (st mod 256)) b
  = (Ok tt, appended b (element key (VBinary d st))).
Proof.
  intros Hk Hst Hf. unfold element in *. cbn [payload tag_of] in *.
  destruct (to_signed_8_byte st Hst) as [E1 E2].
  pose proof (position_nonneg b) as Hp. pose proof Hf as [Hf1 Hf2].
  unfold write_binary. rewrite E1, E2.
  destruct (Z.eqb_spec st 2) as [->|Hne]; cbn [negb].
  - assert (Hl : Z.of_nat (length d) + Z.of_nat (length key) + 11 <= INT_MAX)
      by len_lia.
    rewrite RSTRING_LENINT_small by lia.
    wstep write_name_and_type_ok; [|assumption|lia|fits_tac Hf].
    rewrite (bind_ok _ _ _ tt
               (appended (appended b (5 :: key ++ [0]))
                  (le_bytes 4 (Z.of_nat (length d) + 4) ++ [2]))).
    2:{ wstep int_add_ok; [|int_consts; lia].
        wstep SAFE_WRITE_ok; [|now rewrite le_bytes_length|fits_tac Hf].
        rewrite SAFE_WRITE_ok; [|reflexivity|fits_tac Hf].
        now rewrite appended_appended. }
    wstep SAFE_WRITE_ok; [|now rewrite le_bytes_length|fits_tac Hf].
    rewrite bind_ret.
    rewrite SAFE_WRITE_ok; [|reflexivity|fits_tac Hf].
    same_bytes.
  - assert (Hl : Z.of_nat (length d) + Z.of_nat (length key) + 7 <= INT_MAX)
      by len_lia.
    rewrite RSTRING_LENINT_small by lia.
    wstep write_name_and_type_ok; [|assumption|lia|fits_tac Hf].
    rewrite bind_ret.
    wstep SAFE_WRITE_ok; [|now rewrite le_bytes_length|fits_tac Hf].
    wstep SAFE_WRITE_ok; [|reflexivity|fits_tac Hf].
    rewrite SAFE_WRITE_ok; [|reflexivity|fits_tac Hf].
    same_bytes.
Qed.

(** The encoder writes the wire format of every value of the round
    trip. *)
Lemma rt_writes_ok rc v : rt v -> writes_ok rc v.
Proof.
  induction v as [v IH] using value_ind_children.
  intros Hrt key b Hk Hf Hm.
  pose proof (position_nonneg b) as Hp. pose proof Hf as [Hf1 Hf2].
  assert (W : forall t, 0 <= t < 256 ->
            write_name_and_type key t b = (Ok tt, appended b (t :: key ++ [0]))).
  { intros. apply write_name_and_type_ok; auto.
    eapply fits_shrink; [exact Hf|]. unfold element. len_lia. }
  inversion Hrt; subst; unfold element in *; cbn [payload tag_of] in *.
  - (* VInt *)
    destruct (write_element_int rc key n false 1 b Hk) as (H32 & H64 & _).
    + intros C; discriminate C.
    + intros C; discriminate C.
    + destruct (in_int n) eqn:E.
      * apply H32; [|eapply fits_shrink; [exact Hf|len_lia]].
        unfold in_int in E. apply andb_prop in E.
        destruct E as [E1 E2]. apply Z.leb_le in E1, E2. lia.
      * apply H64; [|eapply fits_shrink; [exact Hf|len_lia]].
        split; [|assumption].
        unfold in_int in E. apply andb_false_iff in E.
        rewrite !Z.leb_gt in E. lia.
  - (* VTrue *)
    cbn [write_element Z.eqb andb]. rewrite bind_ret.
    wstep W; [|lia].
    unfold one. rewrite SAFE_WRITE_ok; [same_bytes|reflexivity|fits_tac Hf].
  - (* VFalse *)
    cbn [write_element Z.eqb andb]. rewrite bind_ret.
    wstep W; [|lia].
    unfold zero. rewrite SAFE_WRITE_ok; [same_bytes|reflexivity|fits_tac Hf].
  - (* VNil *)
    cbn [write_element Z.eqb andb]. rewrite bind_ret.
    rewrite W by lia. same_bytes.
  - (* VFloat *)
    cbn [write_element Z.eqb andb]. rewrite bind_ret.
    wstep W; [|lia].
    rewrite SAFE_WRITE_ok; [same_bytes|now rewrite le_bytes_length|fits_tac Hf].
  - (* VHash *)
    cbn [write_element Z.eqb andb]. rewrite bind_ret.
    wstep W; [|lia].
    fold (write_doc rc (VHash c es) false false).
    change ((fix elements (es0 : list (rkey * value)) : bytes :=
               match es0 with
               | [] => []
               | (k, w) :: r => (tag_of w :: key_bytes k ++ 0 :: payload w) ++ elements r
               end) es) with (elements es) in *.
    rewrite write_doc_ok; [same_bytes| | |fits_tac Hf|rewrite max_size_appended; len_lia].
    + cbn [children] in IH. apply Forall_map in IH.
      rewrite Forall_forall in *. intros e He. apply IH; auto.
    + match goal with HK : keys_ok es |- _ => apply HK end.
  - (* VArray *)
    cbn [write_element Z.eqb andb]. rewrite bind_ret.
    change ((fix items_from (i : Z) (items0 : list value) : bytes :=
               match items0 with
               | [] => []
               | w :: r => (tag_of w :: printf_d i ++ 0 :: payload w)
                           ++ items_from (i + 1) r
               end) 0 items) with (items_from 0 items) in *.
    unfold frame in *.
    wstep W; [|lia].
    wstep get_position_eq.
    wstep save_space_ok; [|lia|fits_tac Hf].
    wstep each_item_ok; [|lia| |fits_tac Hf|rewrite !max_size_appended; len_lia].
    2:{ cbn [children] in IH. rewrite Forall_forall in *. intros w Hw.
        apply IH; auto. }
    unfold zero. wstep SAFE_WRITE_ok; [|reflexivity|fits_tac Hf].
    wstep get_position_eq.
    rewrite !appended_appended, !position_appended.
    change (Z.to_nat 4) with 4%nat.
    match goal with
    | |- SAFE_WRITE_AT_POS _ (le_bytes 4 ?A) _ _ = _ =>
        replace A with (Z.of_nat (length (items_from 0 items)) + 5) by len_lia
    end.
    rewrite <- (appended_appended b (4 :: key ++ [0])).
    rewrite <- (position_appended b (4 :: key ++ [0])).
    rewrite SAFE_WRITE_AT_POS_ok by (reflexivity || apply le_bytes_length).
    same_bytes.
  - (* VString *)
    cbn [write_element Z.eqb andb]. rewrite bind_ret.
    apply write_string_ok; assumption.
  - (* VBinary *)
    cbn [write_element Z.eqb andb]. rewrite bind_ret.
    wstep FIX2INT_ok;
      [|unfold in_int; apply andb_intro_Z; apply Z.leb_le; int_consts; lia].
    apply write_binary_ok; assumption.
  - (* VObjectId *)
    cbn [write_element Z.eqb andb]. rewrite bind_ret.
    wstep W; [|lia].
    rewrite write_oid_bytes_ok; [|lia|assumption|fits_tac Hf].
    rewrite skipn_O, firstn_all2 by lia. same_bytes.
  - (* VMaxKey *)
    cbn [write_element Z.eqb andb]. rewrite bind_ret.
    rewrite W by lia. same_bytes.
  - (* VMinKey *)
    cbn [write_element Z.eqb andb]. rewrite bind_ret.
    rewrite W by lia. same_bytes.
  - (* VTimestamp *)
    cbn [write_element Z.eqb andb]. rewrite bind_ret.
    wstep W; [|lia].
    wstep NUM2UINT_ok; [|assumption].
    wstep NUM2UINT_ok; [|assumption].
    wstep SAFE_WRITE_ok; [|now rewrite le_bytes_length|fits_tac Hf].
    rewrite SAFE_WRITE_ok; [same_bytes|now rewrite le_bytes_length|fits_tac Hf].
Qed.

End Wire.

(** ** The decoder reads the wire format *)

Module RoundTrip.
Import Encoder Decoder BytesFacts DecoderFacts EncoderFacts ValueInd ErrorFacts Wire Spec.

Lemma need_hash c es : need (VHash c es) = S (need_entries es).
Proof. reflexivity. Qed.

Lemma need_array items : need (VArray items) = S (need_items items).
Proof. reflexivity. Qed.

Lemma tag_of_not_dollar v : tag_of v <> 36.
Proof. destruct v; cbn; try discriminate. destruct (in_int n); discriminate. Qed.

Ltac mem_eq := subst; list_norm; reflexivity.

Section Reading.
Variables (host : regex_host) (opts : deserialize_opts).

Local Abbreviation reads_ok := (Spec.reads_ok host opts).

Lemma read_int_at mem pre post v a :
  mem = pre ++ le_bytes 4 v ++ post -> a = Z.of_nat (length pre) ->
  in_int v = true -> read_int mem a = Ok v.
Proof.
  intros Hm Ha Hv. unfold read_int.
  rewrite (rd_bytes_at mem pre post (le_bytes 4 v) a 4 Hm Ha)
    by (now rewrite le_bytes_length).
  cbn [obind]. rewrite le_value_le_bytes.
  change (256 ^ Z.of_nat 4) with (2 ^ 32). now rewrite to_signed_32.
Qed.

Lemma read_uint_at mem pre post v a :
  mem = pre ++ le_bytes 4 v ++ post -> a = Z.of_nat (length pre) ->
  0 <= v < 2 ^ 32 -> read_uint mem a = Ok v.
Proof.
  intros Hm Ha Hv. unfold read_uint.
  rewrite (rd_bytes_at mem pre post (le_bytes 4 v) a 4 Hm Ha)
    by (now rewrite le_bytes_length).
  cbn [obind]. rewrite le_value_le_bytes.
  change (256 ^ Z.of_nat 4) with (2 ^ 32). now rewrite Z.mod_small.
Qed.

Lemma read_ll_at mem pre post v a :
  mem = pre ++ le_bytes 8 v ++ post -> a = Z.of_nat (length pre) ->
  LLONG_MIN <= v <= LLONG_MAX -> read_ll mem a = Ok v.
Proof.
  intros Hm Ha Hv. unfold read_ll.
  rewrite (rd_bytes_at mem pre post (le_bytes 8 v) a 8 Hm Ha)
    by (now rewrite le_bytes_length).
  cbn [obind]. rewrite le_value_le_bytes.
  change (256 ^ Z.of_nat 8) with (2 ^ 64). now rewrite to_signed_64.
Qed.

(** [strcmp] against a literal, on a NUL-terminated string of the input *)
Lemma strcmp_eq_at mem l : forall pre s rest a,
  mem = pre ++ s ++ 0 :: rest -> a = Z.of_nat (length pre) ->
  no_nul s -> no_nul l ->
  strcmp_eq mem a l = Ok (bytes_eqb s l).
Proof.
  induction l as [|c l IH]; intros pre s rest a Hm Ha Hs Hl.
  - cbn [strcmp_eq]. destruct s as [|x s].
    + rewrite (rd_at mem pre rest 0 a Hm Ha). reflexivity.
    + rewrite (rd_at mem pre (s ++ 0 :: rest) x a Hm Ha). cbn [obind bytes_eqb].
      pose proof (Forall_inv Hs) as Hx. cbn in Hx.
      destruct (Z.eqb_spec x 0); [contradiction|reflexivity].
  - cbn [strcmp_eq]. pose proof (Forall_inv Hl) as Hc. cbn in Hc.
    pose proof (Forall_inv_tail Hl) as Hl'.
    destruct s as [|x s].
    + rewrite (rd_at mem pre rest 0 a Hm Ha).
      cbn [obind bytes_eqb].
      destruct (Z.eqb_spec 0 c); [congruence|reflexivity].
    + rewrite (rd_at mem pre (s ++ 0 :: rest) x a Hm Ha).
      cbn [obind bytes_eqb]. pose proof (Forall_inv_tail Hs) as Hs'.
      destruct (Z.eqb_spec x c); [|reflexivity]. cbn [andb].
      apply (IH (pre ++ [x]) s rest); auto; [subst mem; list_eq | len_lia].
Qed.

Lemma strcmp_eq_differs mem pre t rest a c l :
  mem = pre ++ t :: rest -> a = Z.of_nat (length pre) -> t <> c ->
  strcmp_eq mem a (c :: l) = Ok false.
Proof.
  intros Hm Ha Ht. cbn [strcmp_eq].
  rewrite (rd_at mem pre rest t a Hm Ha). cbn [obind].
  destruct (Z.eqb_spec t c); [contradiction|reflexivity].
Qed.

Lemma ordered_hash_set_fresh acc name v :
  Forall (fun e => fst e <> KStr name) acc ->
  ordered_hash_set acc name v = acc ++ [(KStr name, v)].
Proof.
  induction 1 as [|[k w] acc Hk _ IH]; [reflexivity|].
  cbn [ordered_hash_set app fst] in *.
  destruct k as [s|s|s]; try (now rewrite IH).
  destruct (bytes_eqb s name) eqn:E.
  - apply bytes_eqb_eq in E. congruence.
  - now rewrite IH.
Qed.


(** The equations of the two loops and of the two cases of [get_value]
    that run them. *)
Lemma hash_loop_eq mem fuel buffer max position hash :
  hash_loop host mem (S fuel) opts buffer max position hash =
  if position <? max then
    (type <- rd mem (buffer + position) ;;
     position <- add_int position 1 ;;
     name_length <- strlen mem (buffer + position) ;;
     name <- str_new mem (buffer + position) name_length ;;
     k <- add_int name_length 1 ;;
     position <- add_int position k ;;
     ' (value, position) <- get_value host mem fuel opts buffer position type ;;
     hash_loop host mem fuel opts buffer max position
       (ordered_hash_set hash name value))%outcome
  else Ok (VHash OrderedHash hash).
Proof. reflexivity. Qed.

Lemma array_loop_eq mem fuel buffer end_ position items :
  array_loop host mem (S fuel) opts buffer end_ position items =
  if position <? end_ then
    (type <- rd mem (buffer + position) ;;
     position <- add_int position 1 ;;
     key_size <- strlen mem (buffer + position) ;;
     k <- add_int key_size 1 ;;
     position <- add_int position k ;;
     ' (to_append, position) <- get_value host mem fuel opts buffer position type ;;
     array_loop host mem fuel opts buffer end_ position (items ++ [to_append]))%outcome
  else Ok (items, position).
Proof. reflexivity. Qed.

Lemma get_value_hash_eq mem fuel buffer position :
  get_value host mem (S fuel) opts buffer position 3 =
  (size <- read_int mem (buffer + position) ;;
   is_ref <- strcmp_eq mem (buffer + position + 5) (lit "$ref") ;;
   value <-
     (if is_ref : bool then
        offset <- add_int position 10 ;;
        n <- read_int mem (buffer + offset) ;;
        collection_length <- sub_int n 1 ;;
        offset <- add_int offset 4 ;;
        ns <- str_new mem (buffer + offset) collection_length ;;
        k <- add_int collection_length 1 ;;
        offset <- add_int offset k ;;
        id_type <- rd mem (buffer + offset) ;;
        offset <- add_int offset 5 ;;
        ' (oid, _) <- get_value host mem fuel opts buffer offset id_type ;;
        Ok (VDBRef (VString ns) oid)
      else
        max <- sub_int size 5 ;;
        hash_loop host mem fuel opts (buffer + position + 4) max 0 []) ;;
   position <- add_int position size ;;
   Ok (value, position))%outcome.
Proof. reflexivity. Qed.

Lemma get_value_array_eq mem fuel buffer position :
  get_value host mem (S fuel) opts buffer position 4 =
  (size <- read_int mem (buffer + position) ;;
   e <- add_int position size ;;
   end_ <- sub_int e 1 ;;
   position <- add_int position 4 ;;
   ' (items, position) <- array_loop host mem fuel opts buffer end_ position [] ;;
   position <- add_int position 1 ;;
   Ok (VArray items, position))%outcome.
Proof. reflexivity. Qed.


Lemma post_ok_elements es post : post_ok post -> post_ok (elements es ++ post).
Proof.
  intros H. destruct es as [|[k w] es]; [exact H|].
  cbn [elements]. unfold element. cbn [app]. eexists _, _. split; [reflexivity|].
  apply tag_of_not_dollar.
Qed.

Lemma post_ok_items i items post :
  post_ok post -> post_ok (items_from i items ++ post).
Proof.
  intros H. destruct items as [|w items]; [exact H|].
  cbn [items_from]. unfold element. cbn [app]. eexists _, _. split; [reflexivity|].
  apply tag_of_not_dollar.
Qed.

Lemma ltb_true_intro a b : a < b -> (a <? b) = true.
Proof. apply Z.ltb_lt. Qed.

Lemma ltb_false_intro a b : b <= a -> (a <? b) = false.
Proof. apply Z.ltb_ge. Qed.

Lemma hash_loop_ok es : forall fuel mem pre post buffer position acc,
  Forall (fun e => reads_ok (snd e)) es ->
  Forall (fun e => exists s, fst e = KStr s /\ no_nul s) es ->
  NoDup (map fst es) ->
  Forall (fun e => ~ In (fst e) (map fst acc)) es ->
  (need_entries es <= fuel)%nat ->
  mem = pre ++ elements es ++ post ->
  buffer + position = Z.of_nat (length pre) ->
  0 <= position ->
  position + Z.of_nat (length (elements es)) <= INT_MAX ->
  post_ok post ->
  hash_loop host mem fuel opts buffer
    (position + Z.of_nat (length (elements es))) position acc
  = Ok (VHash OrderedHash (acc ++ entries_as_ordered es)).
Proof.
  induction es as [|[k w] es IH];
    intros fuel mem pre post buffer position acc Hr Hk Hn Ha Hf Hm Hb Hp Hl Hpost.
  - destruct fuel as [|fuel]; [cbn in Hf; lia|].
    rewrite hash_loop_eq. cbn [elements length].
    rewrite ltb_false_intro by lia.
    cbn [entries_as_ordered map]. now rewrite app_nil_r.
  - destruct fuel as [|fuel]; [cbn in Hf; lia|].
    cbn [need_entries] in Hf.
    pose proof (Forall_inv Hk) as (s & Hs & Hnul). cbn [fst] in Hs. subst k.
    pose proof (Forall_inv Hr) as Hw. cbn [snd] in Hw.
    cbn [elements key_bytes] in *. unfold element in *.
    assert (Ls : Z.of_nat (length s) <= INT_MAX) by len_lia.
    rewrite hash_loop_eq.
    rewrite ltb_true_intro by len_lia.
    rewrite (rd_at mem pre
               ((s ++ 0 :: payload w) ++ elements es ++ post) (tag_of w))
      by (assumption || (mem_eq)).
    cbn [obind]. rewrite add_int_ok by (int_consts; len_lia). cbn [obind].
    rewrite (strlen_at mem (pre ++ [tag_of w]) (payload w ++ elements es ++ post) s)
      by (assumption || (mem_eq) || len_lia).
    cbn [obind].
    rewrite (str_new_at mem (pre ++ [tag_of w])
               (0 :: payload w ++ elements es ++ post) s)
      by (reflexivity || (mem_eq) || len_lia).
    cbn [obind]. rewrite add_int_ok by (int_consts; len_lia). cbn [obind].
    rewrite add_int_ok by (int_consts; len_lia). cbn [obind].
    rewrite (Hw fuel mem (pre ++ tag_of w :: s ++ [0]) (elements es ++ post)
               buffer (position + 1 + (Z.of_nat (length s) + 1)));
      [|lia|mem_eq|len_lia|lia|len_lia|now apply post_ok_elements].
    cbn [obind].
    rewrite ordered_hash_set_fresh.
    2:{ pose proof (Forall_inv Ha) as Hfresh. cbn [fst] in Hfresh.
        apply Forall_forall. intros e He C. apply Hfresh.
        rewrite <- C. now apply in_map. }
    match goal with
    | |- hash_loop _ _ _ _ _ ?M ?P _ = _ =>
        replace M with (P + Z.of_nat (length (elements es))) by len_lia
    end.
    rewrite (IH fuel mem (pre ++ tag_of w :: s ++ 0 :: payload w) post);
      [| exact (Forall_inv_tail Hr) | exact (Forall_inv_tail Hk)
       | now inversion Hn | | lia | mem_eq | len_lia | lia
       | len_lia | assumption].
    + cbn [entries_as_ordered map fst snd]. now rewrite <- app_assoc.
    + apply Forall_forall. intros e He C.
      rewrite map_app in C. apply in_app_or in C. destruct C as [C|C].
      * pose proof (Forall_inv_tail Ha) as Hfresh.
        rewrite Forall_forall in Hfresh. now apply (Hfresh e He).
      * cbn in C. destruct C as [C|[]]. inversion Hn as [|? ? Hnotin _]; subst.
        apply Hnotin. rewrite C. now apply in_map.
Qed.

Lemma array_loop_ok items : forall fuel mem pre post buffer position acc i,
  Forall reads_ok items ->
  0 <= i ->
  (need_items items <= fuel)%nat ->
  mem = pre ++ items_from i items ++ post ->
  buffer + position = Z.of_nat (length pre) ->
  0 <= position ->
  position + Z.of_nat (length (items_from i items)) <= INT_MAX ->
  post_ok post ->
  array_loop host mem fuel opts buffer
    (position + Z.of_nat (length (items_from i items))) position acc
  = Ok (acc ++ map as_ordered items,
        position + Z.of_nat (length (items_from i items))).
Proof.
  induction items as [|w items IH];
    intros fuel mem pre post buffer position acc i Hr Hi Hf Hm Hb Hp Hl Hpost.
  - destruct fuel as [|fuel]; [cbn in Hf; lia|].
    rewrite array_loop_eq. cbn [items_from length map].
    rewrite ltb_false_intro by lia.
    rewrite app_nil_r. do 2 f_equal. lia.
  - destruct fuel as [|fuel]; [cbn in Hf; lia|].
    cbn [need_items] in Hf.
    pose proof (Forall_inv Hr) as Hw.
    pose proof (ascii_no_nul _ (printf_d_ascii i Hi)) as Hnul.
    cbn [items_from] in *. unfold element in *.
    set (s := printf_d i) in *.
    assert (Ls : Z.of_nat (length s) <= INT_MAX) by len_lia.
    rewrite array_loop_eq.
    rewrite ltb_true_intro by len_lia.
    rewrite (rd_at mem pre
               ((s ++ 0 :: payload w) ++ items_from (i + 1) items ++ post)
               (tag_of w))
      by (assumption || mem_eq).
    cbn [obind]. rewrite add_int_ok by (int_consts; len_lia). cbn [obind].
    rewrite (strlen_at mem (pre ++ [tag_of w])
               (payload w ++ items_from (i + 1) items ++ post) s)
      by (assumption || mem_eq || len_lia).
    cbn [obind]. rewrite add_int_ok by (int_consts; len_lia). cbn [obind].
    rewrite add_int_ok by (int_consts; len_lia). cbn [obind].
    rewrite (Hw fuel mem (pre ++ tag_of w :: s ++ [0])
               (items_from (i + 1) items ++ post)
               buffer (position + 1 + (Z.of_nat (length s) + 1)));
      [|lia|mem_eq|len_lia|lia|len_lia|now apply post_ok_items].
    cbn [obind].
    match goal with
    | |- array_loop _ _ _ _ _ ?M ?P _ = _ =>
        replace M with (P + Z.of_nat (length (items_from (i + 1) items)))
          by len_lia
    end.
    rewrite (IH fuel mem (pre ++ tag_of w :: s ++ 0 :: payload w) post);
      [| exact (Forall_inv_tail Hr) | lia | lia | mem_eq | len_lia | lia
       | len_lia | assumption].
    cbn [map]. rewrite <- app_assoc. cbn [app]. do 2 f_equal; len_lia.
Qed.

Lemma no_nul_ref : no_nul (lit "$ref").
Proof. repeat constructor; discriminate. Qed.

Lemma bytes_eqb_differs s l : s <> l -> bytes_eqb s l = false.
Proof.
  intros H. destruct (bytes_eqb s l) eqn:E; [|reflexivity].
  apply bytes_eqb_eq in E. contradiction.
Qed.

Ltac rstep L := rewrite L; cbn [obind].
Ltac arith :=
  repeat (rewrite ?add_int_ok, ?sub_int_ok by (int_consts; len_lia);
          progress cbn [obind]).
Ltac done_at := cbn [as_ordered]; do 2 f_equal; len_lia.

Lemma in_int_intro v : INT_MIN <= v <= INT_MAX -> in_int v = true.
Proof. intros H. unfold in_int. apply andb_intro_Z; apply Z.leb_le; lia. Qed.

Lemma rt_reads_ok v : rt v -> reads_ok v.
Proof.
  induction v as [v IH] using value_ind_children.
  intros Hrt fuel mem pre post buffer position Hf Hm Hb Hp Hl Hpost.
  destruct fuel as [|fuel]; [destruct v; cbn in Hf; lia|].
  inversion Hrt; subst v; rewrite ?payload_hash, ?payload_array in *;
    cbn [payload tag_of] in *.
  - (* VInt *)
    destruct (in_int n) eqn:E; cbn [get_value Z.eqb Pos.eqb orb].
    + rewrite (read_int_at mem pre post n) by (assumption || mem_eq).
      cbn [obind]. arith. done_at.
    + rewrite (read_ll_at mem pre post n) by (assumption || mem_eq).
      cbn [obind]. arith. done_at.
  - (* VTrue *)
    cbn [get_value Z.eqb Pos.eqb orb].
    rewrite (rd_at mem pre post 1) by (assumption || mem_eq).
    cbn [obind]. arith. cbn [Z.eqb]. done_at.
  - (* VFalse *)
    cbn [get_value Z.eqb Pos.eqb orb].
    rewrite (rd_at mem pre post 0) by (assumption || mem_eq).
    cbn [obind]. arith. cbn [Z.eqb]. done_at.
  - (* VNil *)
    cbn [get_value Z.eqb Pos.eqb orb]. done_at.
  - (* VFloat *)
    cbn [get_value Z.eqb Pos.eqb orb].
    rewrite (rd_bytes_at mem pre post (le_bytes 8 d))
      by (assumption || mem_eq || now rewrite le_bytes_length).
    cbn [obind]. arith. rewrite le_value_le_bytes.
    change (256 ^ Z.of_nat 8) with (2 ^ 64). rewrite Z.mod_small by assumption.
    done_at.
  - (* VHash *)
    match goal with H : keys_ok _ |- _ => rename H into Hkeys end.
    match goal with H : not_a_reference _ |- _ => rename H into Hnref end.
    rewrite get_value_hash_eq. unfold frame in *.
    rewrite (read_int_at mem pre ((elements es ++ [0]) ++ post)
               (Z.of_nat (length (elements es)) + 5))
      by (assumption || mem_eq || (apply in_int_intro; len_lia)).
    cbn [obind].
    assert (R : strcmp_eq mem (buffer + position + 5) (lit "$ref") = Ok false).
    { destruct es as [|[k w] es'].
      - destruct Hpost as (t & r & -> & Ht).
        apply (strcmp_eq_differs mem
                 (pre ++ le_bytes 4 (Z.of_nat (length (elements [])) + 5) ++ [0])
                 t r); [mem_eq | len_lia | exact Ht].
      - destruct Hkeys as [HK _].
        pose proof (Forall_inv HK) as (s & Hs & Hv). cbn [fst] in Hs. subst k.
        cbn [elements key_bytes] in *. unfold element in *.
        rewrite (strcmp_eq_at mem (lit "$ref")
                   (pre ++ le_bytes 4 (Z.of_nat (length
                      ((tag_of w :: s ++ 0 :: payload w) ++ elements es')) + 5)
                    ++ [tag_of w]) s
                   (payload w ++ elements es' ++ [0] ++ post));
          [| mem_eq | len_lia | now apply validate_no_nul | apply no_nul_ref].
        f_equal. apply bytes_eqb_differs.
        exact Hnref. }
    rewrite R. cbn [obind]. arith.
    replace (Z.of_nat (length (elements es)) + 5 - 5)
      with (0 + Z.of_nat (length (elements es))) by lia.
    destruct Hkeys as [HK HD].
    rewrite (hash_loop_ok es fuel mem
               (pre ++ le_bytes 4 (Z.of_nat (length (elements es)) + 5))
               (0 :: post)).
    + cbn [obind app]. arith. rewrite as_ordered_hash. done_at.
    + cbn [children] in IH. apply Forall_map in IH.
      rewrite Forall_forall in *. intros e He. apply IH; auto.
    + eapply Forall_impl; [|exact HK]. cbn beta.
      intros e (s & Hs & Hv). exists s. split; [assumption|].
      now apply validate_no_nul.
    + rewrite <- map_map in HD. now apply NoDup_map_inv in HD.
    + apply Forall_forall. intros e _ [].
    + rewrite need_hash in Hf. lia.
    + mem_eq.
    + len_lia.
    + lia.
    + len_lia.
    + eexists _, _. split; [reflexivity|discriminate].
  - (* VArray *)
    rewrite get_value_array_eq. unfold frame in *.
    rewrite (read_int_at mem pre ((items_from 0 items ++ [0]) ++ post)
               (Z.of_nat (length (items_from 0 items)) + 5))
      by (assumption || mem_eq || (apply in_int_intro; len_lia)).
    cbn [obind]. arith.
    match goal with
    | |- context [array_loop _ _ _ _ _ ?M ?P _] =>
        replace M with (P + Z.of_nat (length (items_from 0 items))) by lia
    end.
    rewrite (array_loop_ok items fuel mem
               (pre ++ le_bytes 4 (Z.of_nat (length (items_from 0 items)) + 5))
               (0 :: post)).
    + cbn [obind app]. arith. done_at.
    + cbn [children] in IH. rewrite Forall_forall in *. intros w Hw.
      apply IH; auto.
    + lia.
    + rewrite need_array in Hf. lia.
    + mem_eq.
    + len_lia.
    + lia.
    + len_lia.
    + eexists _, _. split; [reflexivity|discriminate].
  - (* VString *)
    cbn [get_value Z.eqb Pos.eqb orb].
    rewrite (read_int_at mem pre ((s ++ [0]) ++ post) (Z.of_nat (length s) + 1))
      by (assumption || mem_eq || (apply in_int_intro; len_lia)).
    cbn [obind]. arith.
    rewrite (str_new_at mem (pre ++ le_bytes 4 (Z.of_nat (length s) + 1))
               ([0] ++ post) s)
      by (mem_eq || len_lia).
    cbn [obind]. arith. done_at.
  - (* VBinary *)
    cbn [get_value Z.eqb Pos.eqb orb].
    destruct (Z.eqb_spec subtype 2) as [->|Hs].
    + rewrite (read_int_at mem pre
                 (([2] ++ le_bytes 4 (Z.of_nat (length d)) ++ d) ++ post)
                 (Z.of_nat (length d) + 4))
        by (assumption || mem_eq || (apply in_int_intro; len_lia)).
      cbn [obind].
      rewrite (rd_at mem (pre ++ le_bytes 4 (Z.of_nat (length d) + 4))
                 ((le_bytes 4 (Z.of_nat (length d)) ++ d) ++ post) 2)
        by (mem_eq || len_lia).
      cbn [obind Z.eqb Pos.eqb]. arith.
      rewrite (str_new_at mem
                 (pre ++ le_bytes 4 (Z.of_nat (length d) + 4) ++ [2]
                  ++ le_bytes 4 (Z.of_nat (length d))) post d)
        by (mem_eq || len_lia).
      cbn [obind]. arith. done_at.
    + rewrite (read_int_at mem pre (([subtype] ++ d) ++ post)
                 (Z.of_nat (length d)))
        by (assumption || mem_eq || (apply in_int_intro; len_lia)).
      cbn [obind].
      rewrite (rd_at mem (pre ++ le_bytes 4 (Z.of_nat (length d)))
                 (d ++ post) subtype)
        by (mem_eq || len_lia).
      cbn [obind]. destruct (Z.eqb_spec subtype 2); [contradiction|].
      rewrite (str_new_at mem
                 (pre ++ le_bytes 4 (Z.of_nat (length d)) ++ [subtype]) post d)
        by (mem_eq || len_lia).
      cbn [obind]. arith. done_at.
  - (* VObjectId *)
    cbn [get_value Z.eqb Pos.eqb orb].
    rewrite (rd_bytes_at mem pre post o) by (assumption || mem_eq || auto).
    cbn [obind]. arith. done_at.
  - (* VMaxKey *)
    cbn [get_value Z.eqb Pos.eqb orb]. done_at.
  - (* VMinKey *)
    cbn [get_value Z.eqb Pos.eqb orb]. done_at.
  - (* VTimestamp *)
    cbn [get_value Z.eqb Pos.eqb orb].
    rewrite (read_uint_at mem pre (le_bytes 4 s ++ post) i)
      by (assumption || mem_eq).
    cbn [obind].
    rewrite (read_uint_at mem (pre ++ le_bytes 4 i) post s)
      by (assumption || mem_eq || len_lia).
    cbn [obind]. arith. done_at.
Qed.

End Reading.

(** *** Serialize, then deserialize *)

Lemma serialize_rt rc avail c es :
  rt_doc es ->
  Z.of_nat (length (frame (elements es))) <= 4194304 ->
  Z.of_nat (length (frame (elements es))) <= avail ->
  fst (method_serialize rc (Some avail) (VHash c es) false false 4194304)
  = Ok (frame (elements es)).
Proof.
  intros [[HK _] Hv] Hcap Hroom.
  rewrite method_serialize_eq by reflexivity.
  rewrite write_doc_ok.
  - reflexivity.
  - eapply Forall_impl; [|exact Hv]. intros e. apply rt_writes_ok.
  - exact HK.
  - unfold fits, bson_buffer_set_max_size, bson_buffer_new,
      bson_buffer_get_position.
    cbn [data room length Z.of_nat]. int_consts. lia.
  - cbn [bson_buffer_set_max_size max_size]. exact Hcap.
Qed.

Lemma deserialize_rt host es opt fuel :
  rt_doc es ->
  Z.of_nat (length (frame (elements es))) <= INT_MAX ->
  (need_entries es <= fuel)%nat ->
  method_deserialize host fuel (frame (elements es)) opt
  = Ok (VHash OrderedHash (entries_as_ordered es)).
Proof.
  intros [[HK HD] Hv] Hl Hf. unfold method_deserialize, elements_to_hash.
  rewrite to_signed_32_small by lia.
  unfold frame in *. rewrite sub_int_ok by len_lia. cbn [obind].
  match goal with
  | |- hash_loop _ _ _ _ _ ?M _ _ = _ =>
      replace M with (0 + Z.of_nat (length (elements es))) by len_lia
  end.
  rewrite (hash_loop_ok host _ es fuel _
             (le_bytes 4 (Z.of_nat (length (elements es)) + 5)) [0]).
  - reflexivity.
  - eapply Forall_impl; [|exact Hv]. intros e. apply rt_reads_ok.
  - eapply Forall_impl; [|exact HK]. cbn beta.
    intros e (s & Hs & Hval). exists s. split; [assumption|].
    now apply validate_no_nul.
  - rewrite <- map_map in HD. now apply NoDup_map_inv in HD.
  - apply Forall_forall. intros e _ [].
  - exact Hf.
  - reflexivity.
  - len_lia.
  - lia.
  - len_lia.
  - eexists _, _. split; [reflexivity|discriminate].
Qed.

Lemma rt_in_subset v : rt v -> in_subset v = true.
Proof.
  induction v as [v IH] using value_ind_children.
  intros Hrt. inversion Hrt; subst v; try reflexivity.
  - cbn [in_subset children] in *. apply Forall_map in IH.
    match goal with H : Forall (fun e => rt (snd e)) _ |- _ => rename H into Hv end.
    match goal with H : keys_ok _ |- _ => clear H end.
    match goal with H : not_a_reference _ |- _ => clear H end.
    clear Hrt. induction es as [|[k w] es IHes]; [reflexivity|].
    pose proof (Forall_inv IH (Forall_inv Hv)) as E. cbn [snd] in E.
    rewrite E. cbn [andb]. apply IHes; eapply Forall_inv_tail; eassumption.
  - cbn [in_subset children] in *.
    match goal with H : Forall rt _ |- _ => rename H into Hv end.
    clear Hrt. induction items as [|w items IHitems]; [reflexivity|].
    pose proof (Forall_inv IH (Forall_inv Hv)) as E.
    rewrite E. cbn [andb]. apply IHitems; eapply Forall_inv_tail; eassumption.
Qed.


End RoundTrip.

(** ** Key validation *)

Module KeyFacts.
Import Encoder BytesFacts DecoderFacts EncoderFacts RegexFacts ErrorFacts Wire Spec.
Local Open Scope enc_scope.

Lemma write_element_rejects rc k key value allow_id b :
  name_of k = Some key -> bad_key key -> not_suppressed allow_id key ->
  exists msg,
    write_element rc k value true allow_id b
    = (Raised (Exn InvalidKeyName msg), snd (bson_buffer_free b)).
Proof.
  intros Hk Hbad Hs. destruct k as [s|name|x]; cbn [name_of] in Hk;
    [| |discriminate]; injection Hk as <-.
  - now apply write_element_rejects_key.
  - rewrite write_element_symbol_key. now apply write_element_rejects_key.
Qed.

(** The loop over the entries stops at the first one that raises. *)
Lemma each_entry_stops f pre k v post e b2 : forall b0 b1,
  each_entry f pre b0 = (Ok tt, b1) -> f k v b1 = (Raised e, b2) ->
  each_entry f (pre ++ (k, v) :: post) b0 = (Raised e, b2).
Proof.
  induction pre as [|[k0 v0] pre IH]; intros b0 b1 Hpre Hbad.
  - cbn in Hpre. injection Hpre as <-. cbn [app each_entry].
    now apply bind_raised.
  - cbn [app each_entry] in *.
    apply bind_ok_inv in Hpre. destruct Hpre as ([] & b' & H0 & Hrest).
    rewrite (bind_ok _ _ _ _ _ H0). eapply IH; eauto.
Qed.

Lemma freed_free b : freed (snd (bson_buffer_free b)) = true.
Proof. reflexivity. Qed.

(** At the top level: the entries before the refused key are written, the
    call fails at that key. *)
Lemma serialize_rejects rc avail c pre k key v post max_size bytes :
  name_of k = Some key -> bad_key key ->
  fst (method_serialize rc (Some avail) (VHash c pre) true false max_size)
  = Ok bytes ->
  exists msg b,
    method_serialize rc (Some avail) (VHash c (pre ++ (k, v) :: post))
      true false max_size
    = (Raised (Exn InvalidKeyName msg), Some b) /\ freed b = true.
Proof.
  intros Hk Hbad Hpre.
  destruct (in_int max_size) eqn:E.
  2:{ unfold method_serialize, FIX2INT in Hpre. rewrite E in Hpre.
      discriminate Hpre. }
  rewrite method_serialize_eq in * by assumption.
  set (b0 := bson_buffer_set_max_size (bson_buffer_new avail) max_size) in *.
  destruct (write_doc rc (VHash c pre) true false b0) as [[[]| | |] b1] eqn:W;
    try discriminate Hpre.
  clear Hpre. unfold write_doc, write_doc_with in *.
  apply bind_ok_inv in W. destruct W as (p0 & b' & H0 & W).
  rewrite (bind_ok _ _ _ _ _ H0).
  apply bind_ok_inv in W. destruct W as (l0 & b'' & H1 & W).
  rewrite (bind_ok _ _ _ _ _ H1).
  rewrite bind_ret in *. unfold classname_comma_Hash_is_null in *.
  apply bind_ok_inv in W. destruct W as ([] & b3 & H2 & _).
  destruct (write_element_rejects rc k key v 1 b3 Hk Hbad) as (msg & R).
  { intros C; discriminate C. }
  exists msg, (snd (bson_buffer_free b3)).
  split; [|apply freed_free].
  erewrite bind_raised; [reflexivity|].
  destruct c; eapply each_entry_stops; eauto.
Qed.

Ltac fit Hf := unfold element; cbn [payload tag_of]; fits_tac Hf.

(** A [DBRef] of a string and an ObjectId, under [check_keys]: the
    element holds the document with the keys ["$ref"] and ["$id"]. *)
Lemma write_element_dbref rc key s o allow_id b :
  validate_utf8_encoding key false = VALID ->
  key_passes true key -> not_suppressed allow_id key ->
  validate_utf8_encoding s true = VALID ->
  length o = 12%nat -> Forall is_byte o ->
  fits b (Z.of_nat (length (3 :: key ++ 0 :: dbref_document s o))) ->
  write_element rc (KStr key) (VDBRef (VString s) (VObjectId o)) true allow_id b
  = (Ok tt, appended b (3 :: key ++ 0 :: dbref_document s o)).
Proof.
  intros Hk Hpass Hs Hv Hlen Ho Hf.
  rewrite allow_id_irrelevant by assumption.
  rewrite check_keys_irrelevant by (assumption || reflexivity).
  pose proof (position_nonneg b) as Hp.
  unfold dbref_document, frame, element in *. cbn [payload tag_of] in *.
  cbn [write_element Z.eqb andb]. rewrite bind_ret.
  wstep write_name_and_type_ok; [|assumption|lia|fit Hf].
  wstep get_position_eq.
  wstep save_space_ok; [|lia|fit Hf].
  erewrite bind_ok.
  2:{ rewrite bind_ret.
      apply (write_string_ok (lit "$ref") s); [reflexivity|assumption|].
      fit Hf. }
  erewrite bind_ok.
  2:{ rewrite bind_ret.
      wstep write_name_and_type_ok; [|reflexivity|lia|fit Hf].
      apply write_oid_bytes_ok; [lia|assumption|fit Hf]. }
  rewrite skipn_O, firstn_all2 by lia.
  unfold zero. wstep SAFE_WRITE_ok; [|reflexivity|fit Hf].
  wstep get_position_eq.
  unfold element. cbn [payload tag_of].
  rewrite !appended_appended, !position_appended.
  change (Z.to_nat 4) with 4%nat.
  match goal with
  | |- SAFE_WRITE_AT_POS _ (le_bytes 4 ?A) _ _ = _ =>
      match goal with
      | |- _ = (_, appended _ (_ :: _ ++ _ :: le_bytes 4 ?L ++ _)) =>
          replace A with L by len_lia
      end
  end.
  rewrite <- (appended_appended b (3 :: key ++ [0])).
  rewrite <- (position_appended b (3 :: key ++ [0])).
  rewrite SAFE_WRITE_AT_POS_ok by (reflexivity || apply le_bytes_length).
  same_bytes.
Qed.

(** C7, as the specification states it, fails on a document that holds
    code with a scope: [write_element] writes the scope with
    [write_doc(buffer, scope, Qfalse, Qfalse)], so that with
    [check_keys = true] the key ["$a"] of the scope is written and
    nothing is raised. *)
Lemma code_scope_keys_are_not_checked :
  bad_key (lit "$a") /\
  fst (method_serialize Host.ruby_consts (Some 4096) code_with_dollar_scope
         true false 4194304)
  = Ok [31; 0; 0; 0; 15; 99; 0; 23; 0; 0; 0; 2; 0; 0; 0; 120; 0;
        13; 0; 0; 0; 16; 36; 97; 0; 1; 0; 0; 0; 0; 0].
Proof. split; [left; eexists; reflexivity | reflexivity]. Qed.

End KeyFacts.

(* ================================================================= *)
(** ** ObjectId strings *)

Module ObjectIdStrFacts.
Import ObjectIdGen ObjectIdStr ObjectIdStrSpec BytesFacts DecoderFacts.

Lemma as_char_small c : 0 <= c < 128 -> as_char c = c.
Proof.
  intros H. unfold as_char, to_signed. rewrite Z.mod_small by lia.
  change (2 ^ (8 - 1)) with 128. destruct (Z.ltb_spec c 128); lia.
Qed.

Lemma hex_digit_spec c : hex_digit c = true <-> is_hex c.
Proof.
  unfold hex_digit, is_hex.
  rewrite !orb_true_iff, !andb_true_iff, !Z.leb_le. tauto.
Qed.

Lemma hex_char_range d : 0 <= d < 16 -> 48 <= hex_char d <= 57 \/ 97 <= hex_char d <= 102.
Proof. intros H. unfold hex_char. destruct (Z.ltb_spec d 10); lia. Qed.

Lemma hexbyte_hex_char d : 0 <= d < 16 -> hexbyte (as_char (hex_char d)) = d.
Proof.
  intros H. pose proof (hex_char_range d H) as R.
  rewrite as_char_small by lia. unfold hexbyte, hex_char in *.
  destruct (Z.ltb_spec d 10).
  - rewrite andb_intro_Z by (apply Z.leb_le; lia). lia.
  - destruct (Z.leb_spec (87 + d) 57); [lia|]. rewrite andb_false_r.
    destruct (Z.leb_spec (87 + d) 70); [lia|]. rewrite andb_false_r.
    rewrite andb_intro_Z by (apply Z.leb_le; lia). lia.
Qed.

Lemma hexbyte_range c : 0 <= hexbyte c < 16.
Proof.
  unfold hexbyte.
  destruct (Z.leb_spec 48 c), (Z.leb_spec c 57), (Z.leb_spec 65 c),
    (Z.leb_spec c 70), (Z.leb_spec 97 c), (Z.leb_spec c 102); cbn [andb]; lia.
Qed.

Lemma hex_char_hexbyte c : is_hex c -> hex_char (hexbyte c) = lower c.
Proof.
  unfold is_hex, hex_char, hexbyte, lower. intros H.
  destruct (Z.leb_spec 48 c), (Z.leb_spec c 57), (Z.leb_spec 65 c),
    (Z.leb_spec c 70), (Z.leb_spec 97 c), (Z.leb_spec c 102); cbn [andb];
    try lia;
    match goal with |- context [?a <? 10] => destruct (Z.ltb_spec a 10) end; lia.
Qed.

(** The byte of two hexadecimal digits. *)
Lemma lor_nibbles hi lo :
  0 <= hi < 16 -> 0 <= lo < 16 -> Z.lor (Z.shiftl hi 4) lo = 16 * hi + lo.
Proof.
  intros Hh Hl. rewrite Z.shiftl_mul_pow2 by lia. change (2 ^ 4) with 16.
  pose proof (Z.add_lor_land (hi * 16) lo) as E.
  assert (L : Z.land (hi * 16) lo = 0).
  { apply Z.bits_inj'. intros n Hn. rewrite Z.land_spec, Z.bits_0.
    destruct (Z.ltb_spec n 4).
    - change 16 with (2 ^ 4). rewrite Z.mul_pow2_bits_low by lia. reflexivity.
    - rewrite (Z.bits_above_log2 lo n), andb_false_r; [reflexivity|lia|].
      destruct (Z.eq_dec lo 0) as [->|]; [cbn; lia|].
      apply Z.lt_le_trans with 4; [|lia].
      apply Z.log2_lt_pow2; [lia|]. change (2 ^ 4) with 16. lia. }
  lia.
Qed.

Lemma printf_02x_byte v :
  0 <= v < 256 -> printf_02x v = [hex_char (v / 16); hex_char (v mod 16)].
Proof.
  intros H. unfold printf_02x. cbn [hex].
  destruct (Z.ltb_spec v 16).
  - cbn [length Nat.ltb Nat.leb]. rewrite (Z.div_small v 16) by lia. reflexivity.
  - assert (v / 16 < 16) by (apply Z.div_lt_upper_bound; lia).
    destruct (Z.ltb_spec (v / 16) 16); [|lia].
    cbn [length Nat.ltb Nat.leb]. rewrite (Z.mod_small (v / 16)); [reflexivity|].
    split; [apply Z.div_pos; lia | assumption].
Qed.

Lemma hex_length fuel u acc :
  (length acc + 1 <= length (hex (S fuel) u acc))%nat.
Proof.
  revert u acc. induction fuel as [|fuel IH]; intros u acc.
  - cbn [hex]. destruct (u <? 16); cbn [length]; lia.
  - change (hex (S (S fuel)) u acc)
      with (let acc' := hex_char (u mod 16) :: acc in
            if u <? 16 then acc' else hex (S fuel) (u / 16) acc').
    cbv zeta. destruct (u <? 16); [cbn [length]; lia|].
    specialize (IH (u / 16) (hex_char (u mod 16) :: acc)).
    cbn [length] in IH. lia.
Qed.

Lemma printf_02x_length u : (2 <= length (printf_02x u))%nat.
Proof.
  unfold printf_02x. pose proof (hex_length 7 u []) as H. cbn [length] in H.
  destruct (Nat.ltb_spec (length (hex 8 u [])) 2); cbn [length]; lia.
Qed.

Lemma printf_02x_wide u : 256 <= u -> (3 <= length (printf_02x u))%nat.
Proof.
  intros H. unfold printf_02x.
  assert (L : (3 <= length (hex 8 u []))%nat).
  { change (hex 8 u [])
      with (let acc' := hex_char (u mod 16) :: [] in
            if u <? 16 then acc' else hex 7 (u / 16) acc').
    cbv zeta. destruct (Z.ltb_spec u 16); [lia|].
    change (hex 7 (u / 16) [hex_char (u mod 16)])
      with (let acc' := hex_char (u / 16 mod 16) :: [hex_char (u mod 16)] in
            if u / 16 <? 16 then acc' else hex 6 (u / 16 / 16) acc').
    cbv zeta.
    assert (16 <= u / 16) by (apply Z.div_le_lower_bound; lia).
    destruct (Z.ltb_spec (u / 16) 16); [lia|].
    pose proof (hex_length 5 (u / 16 / 16)
                  [hex_char (u / 16 mod 16); hex_char (u mod 16)]) as G.
    cbn [length] in G. lia. }
  destruct (Nat.ltb_spec (length (hex 8 u [])) 2); cbn [length]; lia.
Qed.

Lemma sprintf_args_ok l :
  Forall (fun v => INT_MIN <= v <= INT_MAX) l -> sprintf_args l = Ok l.
Proof.
  induction 1 as [|v l Hv _ IH]; [reflexivity|].
  cbn [sprintf_args]. unfold NUM2INT.
  destruct (Z.ltb_spec v INT_MIN); [lia|].
  destruct (Z.ltb_spec INT_MAX v); [lia|].
  cbn [obind]. rewrite IH. reflexivity.
Qed.

(** The digits that [sprintf] writes: two for each element at least, and
    more than that if one element is not a byte. *)
Lemma digits_written l :
  Forall (fun v => INT_MIN <= v <= INT_MAX) l ->
  (2 * length l
   <= length (concat (map (fun v => printf_02x (v mod 2 ^ 32)) l)))%nat
  /\ (~ Forall is_byte l ->
      (2 * length l
       < length (concat (map (fun v => printf_02x (v mod 2 ^ 32)) l)))%nat).
Proof.
  induction 1 as [|v l Hv _ [IH1 IH2]]; cbn [map concat length].
  - split; [lia|]. intros C. exfalso. apply C. constructor.
  - rewrite length_app.
    pose proof (printf_02x_length (v mod 2 ^ 32)) as L.
    split; [lia|]. intros C.
    destruct (Z.leb_spec 0 v) as [P|P]; [destruct (Z.ltb_spec v 256) as [Q|Q]|].
    + assert (N : ~ Forall is_byte l).
      { intros F. apply C. constructor; [split; assumption|assumption]. }
      specialize (IH2 N). lia.
    + assert (256 <= v mod 2 ^ 32).
      { rewrite Z.mod_small; [assumption|].
        unfold INT_MAX in Hv. change (2 ^ 31) with 2147483648 in Hv.
        change (2 ^ 32) with 4294967296. lia. }
      pose proof (printf_02x_wide _ H). lia.
    + assert (256 <= v mod 2 ^ 32).
      { unfold INT_MIN in Hv. change (2 ^ 31) with 2147483648 in Hv.
        change (2 ^ 32) with 4294967296.
        replace v with (v + 4294967296 + (-1) * 4294967296) by lia.
        rewrite Z.mod_add by lia. rewrite Z.mod_small by lia. lia. }
      pose proof (printf_02x_wide _ H). lia.
Qed.

Lemma bytes_in_int l :
  Forall is_byte l -> Forall (fun v => INT_MIN <= v <= INT_MAX) l.
Proof.
  apply Forall_impl. unfold is_byte, INT_MIN, INT_MAX. intros v H.
  change (2 ^ 31) with 2147483648. lia.
Qed.

(** [to_s] of twelve bytes: the two digits of each. *)
Lemma objectid_to_s_bytes data :
  (12 <= length data)%nat -> Forall is_byte (firstn 12 data) ->
  objectid_to_s data
  = Ok (concat (map (fun v => [hex_char (v / 16); hex_char (v mod 16)])
                    (firstn 12 data))).
Proof.
  intros Hl Hb. unfold objectid_to_s.
  destruct (Nat.ltb_spec (length data) 12); [lia|].
  rewrite sprintf_args_ok by now apply bytes_in_int.
  cbn [obind].
  assert (E : map (fun v => printf_02x (v mod 2 ^ 32)) (firstn 12 data)
              = map (fun v => [hex_char (v / 16); hex_char (v mod 16)])
                    (firstn 12 data)).
  { apply map_ext_in. intros v Hv.
    rewrite Forall_forall in Hb. specialize (Hb v Hv). unfold is_byte in Hb.
    rewrite Z.mod_small by (change (2 ^ 32) with 4294967296; lia).
    now apply printf_02x_byte. }
  rewrite E.
  assert (L : length (concat (map (fun v => [hex_char (v / 16); hex_char (v mod 16)])
                                  (firstn 12 data))) = 24%nat).
  { assert (F : length (firstn 12 data) = 12%nat) by (rewrite length_firstn; lia).
    revert F. generalize (firstn 12 data). intros l.
    do 13 (destruct l as [|? l]; try discriminate). reflexivity. }
  rewrite L. cbn [Z.of_nat Z.ltb Z.compare Pos.compare Pos.compare_cont].
  rewrite firstn_all2 by lia. reflexivity.
Qed.

Lemma hex_char_legal d : 0 <= d < 16 -> hex_digit (as_char (hex_char d)) = true.
Proof.
  intros H. pose proof (hex_char_range d H).
  rewrite as_char_small by lia. apply hex_digit_spec. unfold is_hex. lia.
Qed.

Lemma hex_char_is_hex d : 0 <= d < 16 -> is_hex (hex_char d).
Proof. intros H. pose proof (hex_char_range d H). unfold is_hex. lia. Qed.

Lemma byte_of_nibbles v :
  is_byte v ->
  Z.lor (Z.shiftl (hexbyte (as_char (hex_char (v / 16)))) 4)
        (hexbyte (as_char (hex_char (v mod 16)))) = v.
Proof.
  unfold is_byte. intros H.
  rewrite !hexbyte_hex_char by (Z.div_mod_to_equations; lia).
  rewrite lor_nibbles by (Z.div_mod_to_equations; lia).
  Z.div_mod_to_equations; lia.
Qed.

Ltac twelve l :=
  do 13 (destruct l as [|? l]; try discriminate).

Ltac bytes_of H :=
  repeat match type of H with
         | Forall _ (_ :: _) =>
             let B := fresh "B" in
             pose proof (Forall_inv H) as B; apply Forall_inv_tail in H
         end.

Lemma string_of_twelve_bytes data :
  length data = 12%nat -> Forall is_byte data ->
  exists s,
    objectid_to_s data = Ok s
    /\ length s = 24%nat /\ Forall is_hex s
    /\ objectid_legal (VString s) = VTrue
    /\ objectid_from_string (VString s) = inr (VObjectId data).
Proof.
  intros Hl Hb.
  rewrite objectid_to_s_bytes by (rewrite ?firstn_all2; (lia || assumption)).
  rewrite firstn_all2 by lia.
  twelve data. clear Hl. bytes_of Hb. clear Hb. unfold is_byte in *.
  cbn [map concat app].
  eexists. split; [reflexivity|]. split; [reflexivity|].
  assert (L : legal_objectid_str
                (VString
                   [hex_char (z / 16); hex_char (z mod 16);
                    hex_char (z0 / 16); hex_char (z0 mod 16);
                    hex_char (z1 / 16); hex_char (z1 mod 16);
                    hex_char (z2 / 16); hex_char (z2 mod 16);
                    hex_char (z3 / 16); hex_char (z3 mod 16);
                    hex_char (z4 / 16); hex_char (z4 mod 16);
                    hex_char (z5 / 16); hex_char (z5 mod 16);
                    hex_char (z6 / 16); hex_char (z6 mod 16);
                    hex_char (z7 / 16); hex_char (z7 mod 16);
                    hex_char (z8 / 16); hex_char (z8 mod 16);
                    hex_char (z9 / 16); hex_char (z9 mod 16);
                    hex_char (z10 / 16); hex_char (z10 mod 16)]) = true).
  { cbn [legal_objectid_str length Z.of_nat Pos.of_succ_nat Pos.succ Z.eqb
         Pos.eqb negb firstn forallb].
    rewrite !hex_char_legal by (Z.div_mod_to_equations; lia). reflexivity. }
  split; [|split].
  - repeat (constructor; [apply hex_char_is_hex; Z.div_mod_to_equations; lia|]).
    constructor.
  - unfold objectid_legal. now rewrite L.
  - unfold objectid_from_string. rewrite L. cbn [negb seq map Nat.mul Nat.add nth].
    rewrite !byte_of_nibbles by assumption. reflexivity.
Qed.

Lemma nibbles_byte c c' :
  is_byte (Z.lor (Z.shiftl (hexbyte c) 4) (hexbyte c')).
Proof.
  pose proof (hexbyte_range c). pose proof (hexbyte_range c').
  rewrite lor_nibbles by assumption. unfold is_byte. lia.
Qed.

Lemma nibbles_hi c c' :
  is_hex c ->
  hex_char (Z.lor (Z.shiftl (hexbyte c) 4) (hexbyte c') / 16) = lower c.
Proof.
  intros H. pose proof (hexbyte_range c). pose proof (hexbyte_range c').
  rewrite lor_nibbles by assumption. rewrite <- (hex_char_hexbyte c H).
  f_equal. Z.div_mod_to_equations; lia.
Qed.

Lemma nibbles_lo c c' :
  is_hex c' ->
  hex_char (Z.lor (Z.shiftl (hexbyte c) 4) (hexbyte c') mod 16) = lower c'.
Proof.
  intros H. pose proof (hexbyte_range c). pose proof (hexbyte_range c').
  rewrite lor_nibbles by assumption. rewrite <- (hex_char_hexbyte c' H).
  f_equal. Z.div_mod_to_equations; lia.
Qed.

(** A legal string: 24 hexadecimal digits. *)
Lemma legal_objectid_str_spec str :
  legal_objectid_str str = true
  <-> exists s, str = VString s /\ length s = 24%nat
                /\ Forall (fun b => is_hex (as_char b)) s.
Proof.
  split.
  - destruct str; try discriminate. cbn [legal_objectid_str].
    destruct (Z.eqb_spec (Z.of_nat (length s)) 24) as [E|E]; [|discriminate].
    cbn [negb]. intros F. exists s. split; [reflexivity|]. split; [lia|].
    rewrite firstn_all2 in F by lia.
    rewrite forallb_forall in F. apply Forall_forall. intros b Hb.
    apply hex_digit_spec. now apply F.
  - intros (s & -> & L & F). cbn [legal_objectid_str]. rewrite L.
    cbn [Z.of_nat Pos.of_succ_nat Pos.succ Z.eqb Pos.eqb negb].
    rewrite <- L, firstn_all. apply forallb_forall. intros b Hb.
    apply hex_digit_spec. rewrite Forall_forall in F. now apply F.
Qed.

Ltac twenty_four l :=
  do 25 (destruct l as [|? l]; try discriminate).

(** X2. [to_s] after [from_string]: a legal string is read as an id of
    twelve bytes whose string is the same digits in lower case. *)
Theorem from_string_then_to_s :
  forall s,
    legal_objectid_str (VString s) = true ->
    exists data,
      objectid_from_string (VString s) = inr (VObjectId data)
      /\ length data = 12%nat /\ Forall is_byte data
      /\ objectid_to_s data = Ok (map (fun b => lower (as_char b)) s).
Proof.
  intros s L. unfold objectid_from_string. rewrite L. cbn [negb].
  apply legal_objectid_str_spec in L.
  destruct L as (s' & [= <-] & Hl & Hh).
  twenty_four s. clear Hl. bytes_of Hh. clear Hh.
  cbn [seq map Nat.mul Nat.add nth].
  eexists. split; [reflexivity|]. split; [reflexivity|].
  split; [repeat (constructor; [apply nibbles_byte|]); constructor|].
  rewrite objectid_to_s_bytes;
    [| cbn [length]; lia
     | cbn [firstn]; repeat (constructor; [apply nibbles_byte|]); constructor].
  cbn [firstn map concat app].
  rewrite !nibbles_hi, !nibbles_lo by assumption. reflexivity.
Qed.

(** X1. [from_string] undoes [to_s]: the string of an id of twelve bytes has
    24 hexadecimal digits, is legal, and is read back as the id. *)
Theorem to_s_then_from_string :
  forall data,
    length data = 12%nat -> Forall is_byte data ->
    exists s,
      objectid_to_s data = Ok s
      /\ length s = 24%nat /\ Forall is_hex s
      /\ objectid_legal (VString s) = VTrue
      /\ objectid_from_string (VString s) = inr (VObjectId data).
Proof. intros data. apply string_of_twelve_bytes. Qed.

Lemma to_s_then_from_string_witness :
  exists s,
    objectid_to_s [78; 77; 102; 52; 59; 57; 184; 38; 219; 0; 0; 1] = Ok s
    /\ length s = 24%nat /\ Forall is_hex s
    /\ objectid_legal (VString s) = VTrue
    /\ objectid_from_string (VString s)
       = inr (VObjectId [78; 77; 102; 52; 59; 57; 184; 38; 219; 0; 0; 1]).
Proof.
  apply (to_s_then_from_string [78; 77; 102; 52; 59; 57; 184; 38; 219; 0; 0; 1]).
  - reflexivity.
  - repeat constructor; unfold is_byte; lia.
Defined.

Lemma from_string_then_to_s_witness :
  exists data,
    objectid_from_string (VString (lit "4E4d66343B39b826db000001"))
    = inr (VObjectId data)
    /\ length data = 12%nat /\ Forall is_byte data
    /\ objectid_to_s data
       = Ok (map (fun b => lower (as_char b)) (lit "4E4d66343B39b826db000001")).
Proof.
  apply (from_string_then_to_s (lit "4E4d66343B39b826db000001")).
  reflexivity.
Defined.

(** X3. [legal?] is false and [from_string] raises [InvalidObjectId] for
    every argument that is not a string of 24 hexadecimal digits: a
    string of another length or with another character, shown in the
    message up to its first NUL, and every object that is not a string. *)
Theorem from_string_refuses_illegal :
  forall str,
    ~ (exists s, str = VString s /\ length s = 24%nat
                 /\ Forall (fun b => is_hex (as_char b)) s) ->
    objectid_legal str = VFalse
    /\ objectid_from_string str
       = inl (match str with
              | VString s => IllegalFormat (cstr s)
              | _ => NotAString
              end).
Proof.
  intros str H.
  assert (L : legal_objectid_str str = false).
  { destruct (legal_objectid_str str) eqn:E; [|reflexivity].
    apply legal_objectid_str_spec in E. contradiction. }
  unfold objectid_legal, objectid_from_string. rewrite L. cbn [negb].
  split; [reflexivity|]. destruct str; reflexivity.
Qed.

Lemma from_string_refuses_illegal_witness :
  objectid_legal (VString (lit "4e4d66343b39b826db00000g")) = VFalse
  /\ objectid_from_string (VString (lit "4e4d66343b39b826db00000g"))
     = inl (IllegalFormat (lit "4e4d66343b39b826db00000g")).
Proof.
  apply (from_string_refuses_illegal (VString (lit "4e4d66343b39b826db00000g"))).
  intros (s & E & _ & F). injection E as <-.
  do 23 apply Forall_inv_tail in F. apply Forall_inv in F.
  rewrite as_char_small in F by lia. unfold is_hex in F. lia.
Defined.

(** X4. [to_s] of an id one of whose twelve elements is not a byte: [sprintf]
    writes more than 24 digits and runs past the end of [cstr]. *)
Theorem to_s_overruns_on_wide_elements :
  forall data,
    (12 <= length data)%nat ->
    Forall (fun v => INT_MIN <= v <= INT_MAX) (firstn 12 data) ->
    ~ Forall is_byte (firstn 12 data) ->
    objectid_to_s data = Undefined (OutOfBounds 25).
Proof.
  intros data Hl Hi Hb. unfold objectid_to_s.
  destruct (Nat.ltb_spec (length data) 12); [lia|].
  rewrite sprintf_args_ok by assumption. cbn [obind].
  destruct (digits_written (firstn 12 data) Hi) as [_ W].
  specialize (W Hb). rewrite length_firstn in W.
  destruct (Z.ltb_spec 24 (Z.of_nat (length (concat (map
              (fun v => printf_02x (v mod 2 ^ 32)) (firstn 12 data))))));
    [reflexivity|lia].
Qed.

Lemma to_s_overruns_on_wide_elements_witness :
  objectid_to_s [78; 77; 102; 52; 59; 57; 184; 38; 219; 0; 0; 256]
  = Undefined (OutOfBounds 25).
Proof.
  apply to_s_overruns_on_wide_elements.
  - cbn [length]. lia.
  - cbn [firstn]. repeat constructor; vm_compute; discriminate.
  - cbn [firstn]. intros F. do 11 apply Forall_inv_tail in F.
    apply Forall_inv in F. unfold is_byte in F. lia.
Defined.

Lemma le_bytes_bytes n : forall v, Forall is_byte (le_bytes n v).
Proof.
  induction n as [|n IH]; intros v; cbn [le_bytes]; constructor.
  - unfold is_byte. apply Z.mod_pos_bound. lia.
  - apply IH.
Qed.

Lemma be_bytes_bytes n v : Forall is_byte (be_bytes n v).
Proof. unfold be_bytes. apply Forall_rev, le_bytes_bytes. Qed.

Lemma be_bytes_length n v : length (be_bytes n v) = n.
Proof. unfold be_bytes. now rewrite length_rev, le_bytes_length. Qed.

Lemma nth_byte l i : Forall is_byte l -> is_byte (nth i l 0).
Proof.
  intros H. destruct (Nat.lt_ge_cases i (length l)) as [L|L].
  - rewrite Forall_forall in H. apply H, nth_In, L.
  - rewrite nth_overflow by assumption. unfold is_byte. lia.
Qed.

(** An id that [generate] makes: twelve bytes, the first four of which
    are the seconds in network order. *)
Lemma generated_shape sz p arg inc :
  Forall is_byte (hostname_digest p) ->
  length (fst (objectid_generate sz p arg inc)) = 12%nat
  /\ Forall is_byte (fst (objectid_generate sz p arg inc))
  /\ time_field (fst (objectid_generate sz p arg inc))
     = match arg with Some a => a | None => time_now p end mod 2 ^ 32.
Proof.
  intros Hd. unfold objectid_generate, time_field. cbn [fst].
  set (t := match arg with
            | None => htonl_bytes (time_now p)
            | Some a => htonl_bytes a
            end).
  assert (Et : t = htonl_bytes match arg with Some a => a | None => time_now p end)
    by (destruct arg; reflexivity).
  assert (Lt : length t = 4%nat)
    by (rewrite Et; apply be_bytes_length).
  assert (Li : length (skipn 1 (htonl_bytes (next_inc sz inc))) = 3%nat)
    by (rewrite length_skipn; unfold htonl_bytes; rewrite be_bytes_length; lia).
  split; [|split].
  - rewrite !length_app, Lt, Li. unfold htons_bytes. rewrite be_bytes_length.
    reflexivity.
  - apply Forall_app; split; [|apply Forall_app; split; [|apply Forall_app; split]].
    + rewrite Et. apply be_bytes_bytes.
    + repeat constructor; now apply nth_byte.
    + apply be_bytes_bytes.
    + pose proof (be_bytes_bytes 4 (next_inc sz inc mod 2 ^ 32)) as B.
      unfold htonl_bytes.
      destruct (be_bytes 4 (next_inc sz inc mod 2 ^ 32)); [constructor|].
      cbn [skipn]. now apply Forall_inv_tail in B.
  - rewrite firstn_app_length by now rewrite Lt.
    rewrite Et. unfold htonl_bytes. rewrite be_value_be_bytes.
    change (256 ^ Z.of_nat 4) with (2 ^ 32). now rewrite Z.mod_mod.
Qed.

(** X5. An id that [generate] makes is a well-formed ObjectId: twelve bytes
    whose first four are the seconds (the argument, or the clock) in
    network order; [to_s] gives its 24 digits, which [legal?] accepts and
    [from_string] reads back as the same id. *)
Theorem generated_id_has_a_legal_string :
  forall sz p arg inc,
    Forall is_byte (hostname_digest p) ->
    let oid := fst (objectid_generate sz p arg inc) in
    length oid = 12%nat /\ Forall is_byte oid
    /\ time_field oid
       = match arg with Some a => a | None => time_now p end mod 2 ^ 32
    /\ exists s,
         objectid_to_s oid = Ok s
         /\ objectid_legal (VString s) = VTrue
         /\ objectid_from_string (VString s) = inr (VObjectId oid).
Proof.
  intros sz p arg inc Hd oid.
  destruct (generated_shape sz p arg inc Hd) as (L & B & T).
  fold oid in L, B, T. repeat split; try assumption.
  destruct (string_of_twelve_bytes oid L B) as (s & S1 & _ & _ & S2 & S3).
  exists s. auto.
Qed.

Lemma generated_id_has_a_legal_string_witness :
  let oid := fst (objectid_generate 4
                    {| time_now := 1313695028; getpid := 47142;
                       hostname_digest := [59; 57; 184; 1; 2; 3; 4; 5; 6; 7;
                                           8; 9; 10; 11; 12; 13; 0] |}
                    None 0) in
  length oid = 12%nat /\ Forall is_byte oid
  /\ time_field oid = 1313695028 mod 2 ^ 32
  /\ exists s,
       objectid_to_s oid = Ok s
       /\ objectid_legal (VString s) = VTrue
       /\ objectid_from_string (VString s) = inr (VObjectId oid).
Proof.
  apply (generated_id_has_a_legal_string 4
           {| time_now := 1313695028; getpid := 47142;
              hostname_digest := [59; 57; 184; 1; 2; 3; 4; 5; 6; 7;
                                  8; 9; 10; 11; 12; 13; 0] |} None 0).
  cbn [hostname_digest]. repeat constructor; unfold is_byte; lia.
Defined.

End ObjectIdStrFacts.

(* ================================================================= *)
(** ** The decoder at the edges of its input *)

Module DecoderEdges.
Import Encoder Decoder BytesFacts DecoderFacts EncoderFacts ValueInd ErrorFacts
  Wire RoundTrip Spec.

Ltac steps :=
  repeat (rewrite ?add_int_ok, ?sub_int_ok by (int_consts; len_lia);
          progress cbn [obind]).

(** X6. A string of at most five bytes, the empty one among them, is taken
    for an empty document: the loop of [elements_to_hash] is bounded by
    the length of the string less five, and nothing is read. *)
Theorem short_input_is_an_empty_document :
  forall host fuel bson opt,
    (length bson <= 5)%nat -> (0 < fuel)%nat ->
    method_deserialize host fuel bson opt = Ok (VHash OrderedHash []).
Proof.
  intros host fuel bson opt Hl Hf.
  unfold method_deserialize, elements_to_hash.
  rewrite to_signed_32_small by (int_consts; lia).
  rewrite sub_int_ok by (int_consts; lia). cbn [obind].
  destruct fuel as [|fuel]; [lia|].
  rewrite hash_loop_eq. rewrite ltb_false_intro by lia. reflexivity.
Qed.

Lemma short_input_is_an_empty_document_witness :
  method_deserialize Host.ruby_regex_host 1 [] None = Ok (VHash OrderedHash [])
  /\ method_deserialize Host.ruby_regex_host 1 [255; 255; 255; 127; 16] None
     = Ok (VHash OrderedHash []).
Proof.
  split; apply short_input_is_an_empty_document; cbn [length]; lia.
Defined.

(** The declared length of a string. *)
Lemma get_value_string_length host mem pre post fuel opts buffer position t n :
  t = 2 \/ t = 13 ->
  mem = pre ++ le_bytes 4 n ++ post ->
  buffer + position = Z.of_nat (length pre) ->
  0 <= position <= INT_MAX - 4 ->
  INT_MIN < n <= 0 ->
  get_value host mem (S fuel) opts buffer position t
  = Raised (Exn ArgumentError "negative string size (or size too big)").
Proof.
  intros Ht Hm Hb Hp Hn.
  assert (E : get_value host mem (S fuel) opts buffer position t
              = (n <- read_int mem (buffer + position) ;;
                 value_length <- sub_int n 1 ;;
                 position <- add_int position 4 ;;
                 s <- str_new mem (buffer + position) value_length ;;
                 k <- add_int value_length 1 ;;
                 position <- add_int position k ;;
                 Ok (VString s, position))%outcome).
  { destruct Ht as [-> | ->]; reflexivity. }
  rewrite E.
  rewrite (read_int_at mem pre post n)
    by (assumption || (apply in_int_intro; int_consts; lia)).
  cbn [obind]. steps. unfold str_new.
  destruct (Z.ltb_spec (n - 1) 0); [reflexivity|lia].
Qed.

(** X7. A string element (tag 0x02, or 0x0D) whose declared length is zero or
    negative is not read: [rb_str_new] refuses the negative size with
    [ArgumentError]. This is the one length the decoder has checked for
    it. *)
Theorem string_of_negative_length_raises :
  forall host fuel prefix t key n rest opt,
    t = 2 \/ t = 13 ->
    length prefix = 4%nat -> no_nul key ->
    Z.of_nat (length key + length rest) < INT_MAX - 12 ->
    INT_MIN < n <= 0 ->
    method_deserialize host (S (S fuel))
      (prefix ++ t :: key ++ 0 :: le_bytes 4 n ++ rest) opt
    = Raised (Exn ArgumentError "negative string size (or size too big)").
Proof.
  intros host fuel prefix t key n rest opt Ht Hp Hk Hl Hn.
  destruct (method_deserialize_first host (S fuel) prefix t key
              (le_bytes 4 n ++ rest) opt Hp Hk) as (opts & E).
  { len_lia. }
  rewrite E.
  rewrite (get_value_string_length host _ (prefix ++ t :: key ++ [0]) rest
             fuel opts 4 _ t n); try assumption.
  - reflexivity.
  - list_norm. reflexivity.
  - len_lia.
  - len_lia.
Qed.

Lemma string_of_negative_length_raises_witness :
  method_deserialize Host.ruby_regex_host 2
    ([13; 0; 0; 0] ++ 2 :: [97] ++ 0 :: le_bytes 4 0 ++ [0; 0]) None
  = Raised (Exn ArgumentError "negative string size (or size too big)").
Proof.
  apply (string_of_negative_length_raises Host.ruby_regex_host 0 [13; 0; 0; 0]
           2 [97] 0 [0; 0] None).
  - left; reflexivity.
  - reflexivity.
  - repeat constructor; discriminate.
  - vm_compute. reflexivity.
  - vm_compute. split; [reflexivity|discriminate].
Defined.

(** X8. [deserialize] neither reads the declared length of the document nor
    its last byte ("we just swallow the size and end byte"): any four
    bytes before the elements, and any byte but '$' after them, give the
    document of the elements. *)
Theorem deserialize_skips_the_length_and_the_end_byte :
  forall host fuel opt prefix z es,
    length prefix = 4%nat -> z <> 36 ->
    Forall (fun e => exists s, fst e = KStr s /\ no_nul s) es ->
    NoDup (map fst es) ->
    Forall (fun e => rt (snd e)) es ->
    Z.of_nat (length (elements es)) + 5 <= INT_MAX ->
    (need_entries es <= fuel)%nat ->
    method_deserialize host fuel (prefix ++ elements es ++ [z]) opt
    = Ok (VHash OrderedHash (entries_as_ordered es)).
Proof.
  intros host fuel opt prefix z es Hp Hz Hk Hd Hv Hl Hf.
  unfold method_deserialize, elements_to_hash.
  rewrite to_signed_32_small by len_lia.
  rewrite sub_int_ok by len_lia. cbn [obind].
  match goal with
  | |- hash_loop _ _ _ _ _ ?M _ _ = _ =>
      replace M with (0 + Z.of_nat (length (elements es))) by len_lia
  end.
  rewrite (hash_loop_ok host _ es fuel _ prefix [z]).
  - reflexivity.
  - eapply Forall_impl; [|exact Hv]. intros e. apply rt_reads_ok.
  - exact Hk.
  - exact Hd.
  - apply Forall_forall. intros e _ [].
  - exact Hf.
  - reflexivity.
  - len_lia.
  - lia.
  - len_lia.
  - eexists _, _. split; [reflexivity|exact Hz].
Qed.

Lemma deserialize_skips_the_length_and_the_end_byte_witness :
  method_deserialize Host.ruby_regex_host 10
    ([255; 255; 255; 255]
     ++ elements [(KStr (lit "a"), VInt 1); (KStr (lit "b"), VString (lit "x"))]
     ++ [7]) None
  = Ok (VHash OrderedHash
          (entries_as_ordered
             [(KStr (lit "a"), VInt 1); (KStr (lit "b"), VString (lit "x"))])).
Proof.
  apply deserialize_skips_the_length_and_the_end_byte.
  - reflexivity.
  - discriminate.
  - repeat (constructor;
            [eexists; split; [reflexivity | repeat constructor; discriminate]|]).
    constructor.
  - repeat constructor; cbn; intuition discriminate.
  - repeat constructor; try reflexivity; vm_compute; discriminate.
  - vm_compute. discriminate.
  - vm_compute. lia.
Defined.

(** The loop of [case 4] over elements of any names. *)
Lemma array_loop_any_names host opts es :
  forall fuel mem pre post buffer position acc,
    Forall (fun e => reads_ok host opts (snd e)) es ->
    Forall (fun e => exists s, fst e = KStr s /\ no_nul s) es ->
    (need_entries es <= fuel)%nat ->
    mem = pre ++ elements es ++ post ->
    buffer + position = Z.of_nat (length pre) ->
    0 <= position ->
    position + Z.of_nat (length (elements es)) <= INT_MAX ->
    post_ok post ->
    array_loop host mem fuel opts buffer
      (position + Z.of_nat (length (elements es))) position acc
    = Ok (acc ++ map (fun e => as_ordered (snd e)) es,
          position + Z.of_nat (length (elements es))).
Proof.
  induction es as [|[k w] es IH];
    intros fuel mem pre post buffer position acc Hr Hk Hf Hm Hb Hp Hl Hpost.
  - destruct fuel as [|fuel]; [cbn in Hf; lia|].
    rewrite array_loop_eq. cbn [elements length map].
    rewrite ltb_false_intro by lia.
    rewrite app_nil_r. do 2 f_equal. lia.
  - destruct fuel as [|fuel]; [cbn in Hf; lia|].
    cbn [need_entries] in Hf.
    pose proof (Forall_inv Hk) as (s & Hs & Hnul). cbn [fst] in Hs. subst k.
    pose proof (Forall_inv Hr) as Hw. cbn [snd] in Hw.
    cbn [elements key_bytes] in *. unfold element in *.
    assert (Ls : Z.of_nat (length s) <= INT_MAX) by len_lia.
    rewrite array_loop_eq.
    rewrite ltb_true_intro by len_lia.
    rewrite (rd_at mem pre
               ((s ++ 0 :: payload w) ++ elements es ++ post) (tag_of w))
      by (assumption || mem_eq).
    cbn [obind]. steps.
    rewrite (strlen_at mem (pre ++ [tag_of w])
               (payload w ++ elements es ++ post) s)
      by (assumption || mem_eq || len_lia).
    cbn [obind]. steps.
    rewrite (Hw fuel mem (pre ++ tag_of w :: s ++ [0]) (elements es ++ post)
               buffer (position + 1 + (Z.of_nat (length s) + 1)));
      [|lia|mem_eq|len_lia|lia|len_lia|now apply post_ok_elements].
    cbn [obind].
    match goal with
    | |- array_loop _ _ _ _ _ ?M ?P _ = _ =>
        replace M with (P + Z.of_nat (length (elements es))) by len_lia
    end.
    rewrite (IH fuel mem (pre ++ tag_of w :: s ++ 0 :: payload w) post);
      [| exact (Forall_inv_tail Hr) | exact (Forall_inv_tail Hk) | lia
       | mem_eq | len_lia | lia | len_lia | assumption].
    cbn [map snd]. rewrite <- app_assoc. cbn [app]. do 2 f_equal; len_lia.
Qed.

(** X9. The names of the elements of an array are skipped ("they're in
    order"): whatever they are, repeated or not numbers, the array holds
    the values in the order of the wire. *)
Theorem array_element_names_are_not_read :
  forall host fuel opt key es,
    no_nul key ->
    Forall (fun e => exists s, fst e = KStr s /\ no_nul s) es ->
    Forall (fun e => rt (snd e)) es ->
    Z.of_nat (length (frame (4 :: key ++ 0 :: frame (elements es)))) <= INT_MAX ->
    (need_entries es + 3 <= fuel)%nat ->
    method_deserialize host fuel
      (frame (4 :: key ++ 0 :: frame (elements es))) opt
    = Ok (VHash OrderedHash
            [(KStr key, VArray (map (fun e => as_ordered (snd e)) es))]).
Proof.
  intros host fuel opt key es Hk Hn Hv Hl Hf.
  unfold frame in Hl.
  unfold method_deserialize, elements_to_hash.
  set (inner := frame (elements es)).
  assert (Li : Z.of_nat (length inner) = Z.of_nat (length (elements es)) + 5)
    by (unfold inner, frame; len_lia).
  set (mem := frame (4 :: key ++ 0 :: inner)).
  assert (Lm : Z.of_nat (length mem)
               = Z.of_nat (length key) + Z.of_nat (length inner) + 7)
    by (unfold mem, frame; len_lia).
  rewrite Lm, to_signed_32_small by len_lia.
  steps.
  destruct fuel as [|fuel]; [lia|].
  rewrite hash_loop_eq. rewrite ltb_true_intro by lia.
  set (lenp := le_bytes 4 (Z.of_nat (length (4 :: key ++ 0 :: inner)) + 5)).
  assert (Lp : length lenp = 4%nat) by apply le_bytes_length.
  rewrite (rd_at mem lenp (key ++ 0 :: inner ++ [0]) 4)
    by (unfold mem, frame; (mem_eq || len_lia)).
  cbn [obind]. steps.
  rewrite (strlen_at mem (lenp ++ [4]) (inner ++ [0]) key)
    by (assumption || (unfold mem, frame; mem_eq) || len_lia).
  cbn [obind].
  rewrite (str_new_at mem (lenp ++ [4]) (0 :: inner ++ [0]) key)
    by (reflexivity || (unfold mem, frame; mem_eq) || len_lia).
  cbn [obind]. steps.
  destruct fuel as [|fuel]; [lia|].
  rewrite get_value_array_eq.
  rewrite (read_int_at mem (lenp ++ 4 :: key ++ [0])
             ((elements es ++ [0]) ++ [0])
             (Z.of_nat (length (elements es)) + 5))
    by ((unfold mem, inner, frame; mem_eq) || len_lia
        || (apply in_int_intro; len_lia)).
  cbn [obind]. steps.
  match goal with
  | |- context [array_loop _ _ _ _ _ ?M ?P _] =>
      replace M with (P + Z.of_nat (length (elements es))) by lia
  end.
  rewrite (array_loop_any_names host _ es fuel mem
             (lenp ++ 4 :: key ++ 0 :: le_bytes 4 (Z.of_nat (length (elements es)) + 5))
             [0; 0]).
  - cbn [obind app]. steps.
    destruct fuel as [|fuel]; [lia|].
    rewrite hash_loop_eq. rewrite ltb_false_intro by lia. reflexivity.
  - eapply Forall_impl; [|exact Hv]. intros e. apply rt_reads_ok.
  - exact Hn.
  - lia.
  - unfold mem, inner, frame. mem_eq.
  - len_lia.
  - lia.
  - len_lia.
  - eexists _, _. split; [reflexivity|discriminate].
Qed.

Lemma array_element_names_are_not_read_witness :
  method_deserialize Host.ruby_regex_host 10
    (frame (4 :: lit "l" ++ 0
              :: frame (elements [(KStr (lit "7"), VInt 1);
                                  (KStr (lit "x"), VTrue);
                                  (KStr (lit "7"), VNil)]))) None
  = Ok (VHash OrderedHash [(KStr (lit "l"), VArray [VInt 1; VTrue; VNil])]).
Proof.
  apply (array_element_names_are_not_read Host.ruby_regex_host 10 None (lit "l")
           [(KStr (lit "7"), VInt 1); (KStr (lit "x"), VTrue);
            (KStr (lit "7"), VNil)]).
  - repeat constructor; discriminate.
  - repeat (constructor;
            [eexists; split; [reflexivity | repeat constructor; discriminate]|]).
    constructor.
  - repeat constructor; try reflexivity; vm_compute; discriminate.
  - vm_compute. discriminate.
  - vm_compute. lia.
Defined.

End DecoderEdges.

(* ================================================================= *)
(** ** The order of the entries and the first error *)

Module EncoderOrder.
Import Encoder BytesFacts DecoderFacts EncoderFacts RegexFacts ErrorFacts Spec
  EncoderSpec.
Local Open Scope enc_scope.

Lemma with_entry_missing {A} es key (found : value -> A) missing :
  with_entry es key Some None = None ->
  with_entry es key found missing = missing.
Proof.
  induction es as [|[k w] es IH]; cbn [with_entry]; [reflexivity|].
  destruct (rkey_eqb k key); [discriminate | exact IH].
Qed.

Lemma write_doc_id_first rc c es check_keys b :
  write_doc rc (VHash c es) check_keys true b
  = write_doc rc (VHash c (id_first es)) check_keys false b.
Proof.
  unfold id_first.
  destruct (with_entry es id_str Some None) as [v|] eqn:Es.
  { now apply write_doc_move_id. }
  unfold write_doc, write_doc_with, classname_comma_Hash_is_null.
  rewrite (with_entry_missing es id_str _ _ Es).
  destruct (with_entry es id_sym Some None) as [v|] eqn:Ey.
  - rewrite (with_entry_found es id_sym _ _ v Ey).
    apply bind_ext. intros start_position b1.
    apply bind_ext. intros length_location b2.
    etransitivity; [apply bind_assoc|].
    rewrite bind_ret.
    destruct c; cbn [each_entry];
      (symmetry; etransitivity; [apply bind_assoc|]; symmetry);
      apply bind_ext; intros [] b3; cbv beta; rewrite bind_ret;
      apply bind_cong, each_entry_without_id.
  - rewrite (with_entry_missing es id_sym _ _ Ey).
    apply bind_ext. intros start_position b1.
    apply bind_ext. intros length_location b2.
    etransitivity; [apply bind_assoc|].
    rewrite !bind_ret.
    destruct c; apply bind_cong, each_entry_without_id.
Qed.

Lemma without_id_all es :
  Forall (fun e => id_key (fst e) = false) es -> without_id es = es.
Proof.
  induction 1 as [|e es He _ IH]; [reflexivity|].
  cbn [without_id filter]. rewrite He. cbn [negb]. f_equal. exact IH.
Qed.

Lemma id_key_of_id_str k : rkey_eqb k id_str = true -> id_key k = true.
Proof.
  destruct k as [s|s|s]; cbn [rkey_eqb id_str id_key]; try discriminate.
  intros E. apply bytes_eqb_eq in E. subst s. reflexivity.
Qed.

Lemma id_key_of_id_sym k : rkey_eqb k id_sym = true -> id_key k = true.
Proof.
  destruct k as [s|s|s]; cbn [rkey_eqb id_sym id_key]; try discriminate.
  intros E. apply bytes_eqb_eq in E. subst s. reflexivity.
Qed.

Lemma id_first_none es :
  Forall (fun e => id_key (fst e) = false) es -> id_first es = es.
Proof.
  intros H. unfold id_first.
  assert (N : forall key, (forall k, rkey_eqb k key = true -> id_key k = true) ->
              with_entry es key Some None = None).
  { intros key Hkey. induction H as [|[k w] es He _ IH]; [reflexivity|].
    cbn [with_entry]. cbn [fst] in He.
    destruct (rkey_eqb k key) eqn:E; [|exact IH].
    apply Hkey in E. congruence. }
  rewrite (N id_str id_key_of_id_str), (N id_sym id_key_of_id_sym).
  now apply without_id_all.
Qed.

(** X10. With [move_id], [serialize] writes what it writes without it for the
    document whose first entry is the value under ["_id"] (failing that,
    the one under [:_id]) and whose other entries are those that are not
    written as [_id], in their order; for a document none of whose keys
    is [_id], [move_id] changes nothing. *)
Theorem move_id_writes_the_id_first :
  forall rc heap c es check_keys max_size,
    method_serialize rc heap (VHash c es) check_keys true max_size
    = method_serialize rc heap (VHash c (id_first es)) check_keys false max_size
    /\ (Forall (fun e => id_key (fst e) = false) es ->
        method_serialize rc heap (VHash c es) check_keys true max_size
        = method_serialize rc heap (VHash c es) check_keys false max_size).
Proof.
  intros rc heap c es check_keys max_size.
  assert (E : method_serialize rc heap (VHash c es) check_keys true max_size
              = method_serialize rc heap (VHash c (id_first es)) check_keys
                  false max_size).
  { unfold method_serialize. destruct heap as [avail|]; [|reflexivity].
    match goal with
    | |- (let (_, _) := ?X in _) = (let (_, _) := ?Y in _) =>
        assert (E : X = Y); [|rewrite E; reflexivity]
    end.
    apply bind_ext. intros m b1.
    apply bind_ext. intros [] b2.
    apply bind_cong, write_doc_id_first. }
  split; [exact E|].
  intros H. rewrite E. now rewrite id_first_none.
Qed.

Lemma move_id_writes_the_id_first_witness :
  method_serialize Host.ruby_consts (Some 4096)
    (VHash PlainHash [(KStr (lit "a"), VInt 1); (KStr (lit "b"), VNil)])
    true true 4194304
  = method_serialize Host.ruby_consts (Some 4096)
      (VHash PlainHash [(KStr (lit "a"), VInt 1); (KStr (lit "b"), VNil)])
      true false 4194304.
Proof.
  refine (proj2 (move_id_writes_the_id_first Host.ruby_consts (Some 4096)
                   PlainHash [(KStr (lit "a"), VInt 1); (KStr (lit "b"), VNil)]
                   true 4194304) _).
  repeat constructor.
Defined.

Lemma each_entry_stops_at f pre k v post e b2 : forall b0 b1,
  each_entry f pre b0 = (Ok tt, b1) -> f k v b1 = (Raised e, b2) ->
  each_entry f (pre ++ (k, v) :: post) b0 = (Raised e, b2).
Proof.
  induction pre as [|[k0 v0] pre IH]; intros b0 b1 Hpre Hbad.
  - cbn in Hpre. injection Hpre as <-. cbn [app each_entry].
    now apply bind_raised.
  - cbn [app each_entry] in *.
    apply bind_ok_inv in Hpre. destruct Hpre as ([] & b' & H0 & Hrest).
    rewrite (bind_ok _ _ _ _ _ H0). eapply IH; eauto.
Qed.

(** The entries are written in their order, and the first one that is
    refused ends the call: what follows it is not looked at. *)
Lemma serialize_stops_at rc avail c pre k v post check_keys max_size bytes e :
  fst (method_serialize rc (Some avail) (VHash c pre) check_keys false max_size)
  = Ok bytes ->
  (forall b, write_element rc k v check_keys 1 b
             = (Raised e, snd (bson_buffer_free b))) ->
  exists b,
    method_serialize rc (Some avail) (VHash c (pre ++ (k, v) :: post))
      check_keys false max_size
    = (Raised e, Some b) /\ freed b = true.
Proof.
  intros Hpre Hbad.
  destruct (in_int max_size) eqn:E.
  2:{ unfold method_serialize, FIX2INT in Hpre. rewrite E in Hpre.
      discriminate Hpre. }
  rewrite method_serialize_eq in * by assumption.
  set (b0 := bson_buffer_set_max_size (bson_buffer_new avail) max_size) in *.
  destruct (write_doc rc (VHash c pre) check_keys false b0)
    as [[[]| | |] b1] eqn:W; try discriminate Hpre.
  clear Hpre. unfold write_doc, write_doc_with in *.
  apply bind_ok_inv in W. destruct W as (p0 & b' & H0 & W).
  rewrite (bind_ok _ _ _ _ _ H0).
  apply bind_ok_inv in W. destruct W as (l0 & b'' & H1 & W).
  rewrite (bind_ok _ _ _ _ _ H1).
  rewrite bind_ret in *. unfold classname_comma_Hash_is_null in *.
  apply bind_ok_inv in W. destruct W as ([] & b3 & H2 & _).
  exists (snd (bson_buffer_free b3)).
  split; [|reflexivity].
  erewrite bind_raised; [reflexivity|].
  destruct c; eapply each_entry_stops_at; eauto.
Qed.

Lemma write_element_key_type rc cls v check_keys allow_id b :
  write_element rc (KOther cls) v check_keys allow_id b
  = (Raised (Exn TypeError "keys must be strings or symbols"),
     snd (bson_buffer_free b)).
Proof. destruct v; reflexivity. Qed.

(** X11. A key that is neither a [String] nor a [Symbol] ends [serialize] with
    [TypeError], whatever its value and whatever [check_keys] is, once
    the entries before it are written; the buffer is freed. *)
Theorem key_of_another_type_raises_TypeError :
  forall rc avail c pre cls v post check_keys max_size bytes,
    fst (method_serialize rc (Some avail) (VHash c pre) check_keys false
           max_size) = Ok bytes ->
    exists b,
      method_serialize rc (Some avail)
        (VHash c (pre ++ (KOther cls, v) :: post)) check_keys false max_size
      = (Raised (Exn TypeError "keys must be strings or symbols"), Some b)
      /\ freed b = true.
Proof.
  intros rc avail c pre cls v post check_keys max_size bytes Hpre.
  eapply serialize_stops_at; [exact Hpre|].
  intros b. apply write_element_key_type.
Qed.

Lemma key_of_another_type_raises_TypeError_witness :
  exists b,
    method_serialize Host.ruby_consts (Some 4096)
      (VHash PlainHash ([(KStr (lit "a"), VInt 1)]
                        ++ (KOther "Fixnum", VInt 2) :: [(KStr (lit "$"), VNil)]))
      true false 4194304
    = (Raised (Exn TypeError "keys must be strings or symbols"), Some b)
    /\ freed b = true.
Proof.
  eapply (key_of_another_type_raises_TypeError Host.ruby_consts 4096 PlainHash
            [(KStr (lit "a"), VInt 1)] "Fixnum" (VInt 2)
            [(KStr (lit "$"), VNil)] true 4194304).
  vm_compute. reflexivity.
Defined.

Lemma write_element_unsupported rc key v check_keys allow_id :
  unsupported v = true ->
  key_passes check_keys key -> not_suppressed allow_id key ->
  exists msg, forall b,
    write_element rc (KStr key) v check_keys allow_id b
    = (Raised (Exn InvalidDocument msg), snd (bson_buffer_free b)).
Proof.
  intros Hu Hk Hs.
  rewrite allow_id_irrelevant by assumption.
  rewrite check_keys_irrelevant
    by (assumption || (destruct v; (discriminate || reflexivity))).
  destruct v; try discriminate; cbn [write_element Z.eqb andb].
  - destruct (unsupported_date cls);
      [|destruct (String.eqb cls "Complex" || String.eqb cls "Rational"
                  || String.eqb cls "BigDecimal")];
      eexists; intros b; reflexivity.
  - destruct (unsupported_date cls); [|destruct (String.eqb cls "BigDecimal")];
      eexists; intros b; reflexivity.
  - eexists; intros b; reflexivity.
Qed.

(** X12. A value of a class the encoder has no case for (a [Date], a
    [Rational], any other object) ends [serialize] with
    [InvalidDocument] before anything of its element is written, under a
    key that passes the checks and once the entries before it are
    written; the buffer is freed. *)
Theorem value_of_another_class_raises_InvalidDocument :
  forall rc avail c pre key v post check_keys max_size bytes,
    unsupported v = true ->
    key_passes check_keys key ->
    fst (method_serialize rc (Some avail) (VHash c pre) check_keys false
           max_size) = Ok bytes ->
    exists msg b,
      method_serialize rc (Some avail)
        (VHash c (pre ++ (KStr key, v) :: post)) check_keys false max_size
      = (Raised (Exn InvalidDocument msg), Some b)
      /\ freed b = true.
Proof.
  intros rc avail c pre key v post check_keys max_size bytes Hu Hk Hpre.
  destruct (write_element_unsupported rc key v check_keys 1 Hu Hk) as (msg & W).
  { intros C; discriminate C. }
  exists msg. eapply serialize_stops_at; [exact Hpre|exact W].
Qed.

Lemma value_of_another_class_raises_InvalidDocument_witness :
  exists msg b,
    method_serialize Host.ruby_consts (Some 4096)
      (VHash PlainHash ([(KStr (lit "a"), VInt 1)]
                        ++ (KStr (lit "d"), VObject "Date") :: []))
      true false 4194304
    = (Raised (Exn InvalidDocument msg), Some b)
    /\ freed b = true.
Proof.
  eapply (value_of_another_class_raises_InvalidDocument Host.ruby_consts 4096
            PlainHash [(KStr (lit "a"), VInt 1)] (lit "d") (VObject "Date") []
            true 4194304).
  - reflexivity.
  - intros _. split; [discriminate|]. cbn. intuition discriminate.
  - vm_compute. reflexivity.
Defined.

End EncoderOrder.

(* ================================================================= *)
(** ** The cap and the frame *)

Module CapFacts.
Import Encoder BytesFacts DecoderFacts EncoderFacts RegexFacts ValueInd
  ErrorFacts Spec CapSpec.
Local Open Scope enc_scope.

Lemma stable_of {A} (c : enc A) : capless c -> grows c -> stable c.
Proof.
  intros Hc Hg b a b' E. split; [eapply Hg; eauto|].
  intros m _. rewrite Hc, E. reflexivity.
Qed.

Lemma stable_never {A} (c : enc A) :
  (forall b a b', c b <> (Ok a, b')) -> stable c.
Proof. intros H b a b' E. exfalso. eapply H; eauto. Qed.

Lemma stable_bind {A B} (c : enc A) (k : A -> enc B) :
  stable c -> (forall a, stable (k a)) -> stable (bind c k).
Proof.
  intros Hc Hk b r b' E.
  apply bind_ok_inv in E. destruct E as (a & b1 & E1 & E2).
  destruct (Hc b a b1 E1) as [G1 S1]. destruct (Hk a b1 r b' E2) as [G2 S2].
  split; [lia|]. intros m Hm.
  rewrite (bind_ok _ _ _ _ _ (S1 m ltac:(lia))). now apply S2.
Qed.

Lemma stable_ret {A} (a : A) : stable (ret a).
Proof. apply stable_of; [intros b m; reflexivity|]. intros b x b' [= _ <-]. lia. Qed.

Lemma stable_rb_raise {A} cls msg : stable (@rb_raise A cls msg).
Proof. apply stable_never. intros b a b' E. discriminate E. Qed.

Lemma stable_undefined {A} u : stable (fun b => (@Undefined A u, b)).
Proof. apply stable_never. intros b a b' E. discriminate E. Qed.

Lemma stable_free_raise {A} cls msg : stable (free_buffer ;; @rb_raise A cls msg).
Proof. apply stable_never. intros b a b' E. discriminate E. Qed.

Lemma stable_refuse {A} msg : stable (@refuse A msg).
Proof. apply stable_free_raise. Qed.

Lemma stable_int_add a b : stable (int_add a b).
Proof.
  apply stable_of; [intros x m; reflexivity|].
  intros x r x'. unfold int_add. intros [= _ <-]. lia.
Qed.

Lemma stable_eval {A} (c : outcome A) : stable (eval c).
Proof.
  apply stable_of; [intros x m; reflexivity|].
  intros x r x'. unfold eval. intros [= _ <-]. lia.
Qed.

Lemma stable_get_position : stable get_position.
Proof.
  apply stable_of; [intros b m; reflexivity|].
  intros b a b' [= _ <-]. lia.
Qed.

Lemma stable_FIX2INT v : stable (FIX2INT v).
Proof.
  apply stable_of; [intros b m; unfold FIX2INT; destruct (in_int v); reflexivity|].
  intros b a b'. unfold FIX2INT. destruct (in_int v); [|discriminate].
  intros [= _ <-]. lia.
Qed.

Lemma stable_NUM2UINT v : stable (NUM2UINT v).
Proof.
  apply stable_of; [intros b m; unfold NUM2UINT; destruct (_ && _); reflexivity|].
  intros b a b'. unfold NUM2UINT. destruct (_ && _); [|discriminate].
  intros [= _ <-]. lia.
Qed.

Lemma stable_NUM2LL v : stable (NUM2LL v).
Proof.
  apply stable_of; [intros b m; unfold NUM2LL; destruct (_ && _); reflexivity|].
  intros b a b'. unfold NUM2LL. destruct (_ && _); [|discriminate].
  intros [= _ <-]. lia.
Qed.

Lemma stable_SAFE_WRITE d size : stable (SAFE_WRITE d size).
Proof.
  apply stable_of.
  - intros b m. unfold SAFE_WRITE, bind, call, bson_buffer_write.
    change (bson_buffer_get_position (recap b m)) with (bson_buffer_get_position b).
    change (room (recap b m)) with (room b).
    destruct (_ <=? _); reflexivity.
  - intros b a b'. unfold SAFE_WRITE, bind, call, bson_buffer_write.
    destruct (_ <=? _); cbn; [|discriminate]. intros E. inversion E; subst.
    unfold bson_buffer_get_position. cbn [data with_data]. rewrite length_app. lia.
Qed.

Lemma stable_save_space size : stable (save_space size).
Proof.
  apply stable_of.
  - intros b m. unfold save_space, bind, call, bson_buffer_save_space.
    change (bson_buffer_get_position (recap b m)) with (bson_buffer_get_position b).
    change (room (recap b m)) with (room b).
    destruct (_ <=? _); cbn; [destruct (_ =? _)|]; reflexivity.
  - intros b a b'. unfold save_space, bind, call, bson_buffer_save_space.
    destruct (_ <=? _); cbn; [destruct (_ =? _)|]; try discriminate.
    intros E. inversion E; subst.
    unfold bson_buffer_get_position. cbn [data with_data]. rewrite length_app. lia.
Qed.

Lemma stable_patch p x : stable (SAFE_WRITE_AT_POS p (le_bytes 4 x) 4).
Proof.
  apply stable_of.
  - intros b m. unfold SAFE_WRITE_AT_POS, bind, call, bson_buffer_write_at_position.
    change (bson_buffer_get_position (recap b m)) with (bson_buffer_get_position b).
    destruct (_ && _); reflexivity.
  - intros b [] b' E.
    apply SAFE_WRITE_AT_POS_shape in E; [|apply le_bytes_length]. lia.
Qed.

Lemma insert_char_length c l : length (insert_char c l) = S (length l).
Proof.
  induction l as [|x l IH]; cbn [insert_char length]; [reflexivity|].
  destruct (char_le c x); cbn [length]; [reflexivity|]. now rewrite IH.
Qed.

Lemma qsort_chars_length l : length (qsort_chars l) = length l.
Proof.
  induction l as [|x l IH]; cbn [qsort_chars fold_right length]; [reflexivity|].
  rewrite insert_char_length. f_equal. exact IH.
Qed.

Lemma stable_qsort_buffer p n : stable (qsort_buffer p n).
Proof.
  apply stable_of; [intros b m; reflexivity|].
  intros b a b'. unfold qsort_buffer. intros [= _ <-].
  unfold bson_buffer_get_position. cbn [data with_data].
  rewrite !length_app, qsort_chars_length, !length_firstn, !length_skipn. lia.
Qed.

Create HintDb stable discriminated.
#[local] Hint Resolve stable_ret stable_rb_raise stable_undefined
  stable_free_raise stable_refuse stable_int_add stable_eval
  stable_get_position
  stable_FIX2INT stable_NUM2UINT stable_NUM2LL stable_SAFE_WRITE
  stable_save_space stable_patch stable_qsort_buffer : stable.

Ltac stable_step :=
  first
    [ solve [auto with stable]
    | match goal with
      | |- stable (bind _ _) => apply stable_bind; [|intro]
      | |- stable (if ?c then _ else _) => destruct c
      | |- stable (match ?x with _ => _ end) => destruct x
      end ].

Lemma stable_write_utf8 s allow_null : stable (write_utf8 s allow_null).
Proof. unfold write_utf8. repeat stable_step. Qed.

#[local] Hint Resolve stable_write_utf8 : stable.

Lemma stable_write_name_and_type name type : stable (write_name_and_type name type).
Proof. unfold write_name_and_type. repeat stable_step. Qed.

Lemma stable_write_flag flags bit c : stable (write_flag flags bit c).
Proof. unfold write_flag. repeat stable_step. Qed.

#[local] Hint Resolve stable_write_name_and_type stable_write_flag : stable.

Lemma stable_serialize_regex rc key pattern flags extra native :
  stable (serialize_regex rc key pattern flags extra native).
Proof. unfold serialize_regex. repeat stable_step. Qed.

Lemma stable_write_string key s : stable (write_string key s).
Proof. unfold write_string. repeat stable_step. Qed.

Lemma stable_write_binary key d st : stable (write_binary key d st).
Proof. unfold write_binary. repeat stable_step. Qed.

Lemma stable_write_oid_bytes a i n : stable (write_oid_bytes a i n).
Proof.
  revert i. induction n; intros i; cbn [write_oid_bytes]; [auto with stable|].
  apply stable_bind; [|intro; apply IHn].
  destruct (nth_error a i); repeat stable_step.
Qed.

#[local] Hint Resolve stable_serialize_regex stable_write_string
  stable_write_binary stable_write_oid_bytes : stable.

Lemma stable_each_entry (f : rkey -> value -> enc unit) es :
  Forall (fun e => forall k, stable (f k (snd e))) es -> stable (each_entry f es).
Proof.
  induction 1 as [|[k w] es H _ IH]; cbn [each_entry]; [auto with stable|].
  apply stable_bind; [apply H | intro; apply IH].
Qed.

Lemma stable_each_item (f : Z -> value -> enc unit) items :
  Forall (fun v => forall i, stable (f i v)) items ->
  forall i, stable (each_item f i items).
Proof.
  induction 1 as [|w items H _ IH]; intros i; cbn [each_item]; [auto with stable|].
  apply stable_bind; [apply H | intro; apply IH].
Qed.

Lemma stable_with_entry es key (found : value -> enc unit) missing :
  Forall (fun e => stable (found (snd e))) es -> stable missing ->
  stable (with_entry es key found missing).
Proof.
  intros H Hm. induction H as [|[k w] es H _ IH]; cbn [with_entry]; [assumption|].
  destruct (rkey_eqb k key); auto.
Qed.

(** A position is not negative. *)
Lemma stable_from_position {A} (k : Z -> enc A) :
  (forall p, 0 <= p -> stable (k p)) -> stable (bind get_position k).
Proof.
  intros Hk b r b' E.
  apply bind_ok_inv in E. destruct E as (a & b1 & E1 & E2).
  unfold get_position in E1. injection E1 as <- <-.
  destruct (Hk _ (position_nonneg b) b r b' E2) as [G S].
  split; [exact G|]. intros m Hm.
  rewrite (bind_ok _ _ _ _ _ (get_position_eq (recap b m))). now apply S.
Qed.

(** The end of [write_doc]: the length of the document is compared with
    the cap and written in the reserved place. What was written from
    [start] on is no longer than what the buffer holds. *)
Lemma stable_cap_check start loc :
  0 <= start ->
  stable (position <- get_position ;;
          max_size <- get_max_size ;;
          (if position - start >? max_size then
             free_buffer ;;
             rb_raise InvalidDocument
               "Document too large: This BSON document is limited to max_size bytes."
           else ret tt) ;;
          SAFE_WRITE_AT_POS loc (le_bytes 4 (position - start)) 4).
Proof.
  intros Hs b r b' E.
  cbv [bind get_position get_max_size bson_buffer_get_max_size] in E.
  destruct (Z.gtb_spec (bson_buffer_get_position b - start) (max_size b)) as [G|G];
    [discriminate E|].
  cbv [ret] in E.
  destruct (SAFE_WRITE_AT_POS loc
              (le_bytes 4 (bson_buffer_get_position b - start)) 4 b)
    as [[[]| | |] b1] eqn:P; try discriminate E.
  injection E as <- <-.
  destruct (stable_patch loc (bson_buffer_get_position b - start) b tt b1 P)
    as [Gp Sp].
  split; [exact Gp|]. intros m Hm.
  cbv [bind get_position get_max_size bson_buffer_get_max_size].
  change (bson_buffer_get_position (recap b m)) with (bson_buffer_get_position b).
  change (max_size (recap b m)) with m.
  destruct (Z.gtb_spec (bson_buffer_get_position b - start) m) as [G'|G']; [lia|].
  cbv [ret]. rewrite (Sp m Hm). reflexivity.
Qed.

(** The two loops of [write_doc]: the [_id] that [move_id] writes first,
    and the entries. *)
Lemma stable_id_part (we : rkey -> value -> bool -> Z -> enc unit) hash ck
    (mv : bool) :
  Forall (fun v => forall k c a, stable (we k v c a)) (children hash) ->
  stable (if mv then
            match hash with
            | VHash _ es =>
                with_entry es id_str
                  (fun id => we id_str id ck 1)
                  (with_entry es id_sym
                     (fun id => we id_sym id ck 1)
                     (ret tt))
            | _ => rb_raise NoMethodError "undefined method has_key?"
            end ;;
            ret 0
          else ret 1).
Proof.
  intros H. destruct mv; [|auto with stable].
  apply stable_bind; [|auto with stable].
  destruct hash; try apply stable_rb_raise.
  cbn [children] in H. apply Forall_map in H.
  apply stable_with_entry; [eapply Forall_impl; [|exact H]; cbn; auto|].
  apply stable_with_entry; [eapply Forall_impl; [|exact H]; cbn; auto|].
  auto with stable.
Qed.

Lemma stable_entries_part (we : rkey -> value -> bool -> Z -> enc unit) hash ck
    (allow_id : Z) :
  Forall (fun v => forall k c a, stable (we k v c a)) (children hash) ->
  stable (match hash with
          | VHash OrderedHash es =>
              each_entry (fun key value => we key value ck allow_id) es
          | VHash PlainHash es =>
              each_entry (fun key value => we key value ck allow_id) es
          | _ =>
              free_buffer ;;
              rb_raise InvalidDocument
                "BSON.serialize takes a Hash but got another object"
          end).
Proof.
  intros H.
  assert (He : forall c es, hash = VHash c es ->
            stable (each_entry (fun key value => we key value ck allow_id) es)).
  { intros c es ->. apply stable_each_entry. cbn [children] in H.
    apply Forall_map in H. eapply Forall_impl; [|exact H]. cbn. auto. }
  destruct hash as [| | | | |[] es| | | | | | | | | | | | | | | | | |];
    eauto with stable.
Qed.

(** The document that [write_doc] iterates over with [move_id] off: the
    test that guards the coalescing of the two [_id] never holds. *)
Lemma iterated_hash hash (mv : bool) :
  (if mv then hash else if classname_comma_Hash_is_null hash then
     match hash with
     | VHash c es =>
         if has_key es id_str && has_key es id_sym
         then VHash c (coalesce_id es) else hash
     | _ => hash
     end else hash) = hash.
Proof. now destruct mv. Qed.

Lemma stable_write_doc_with (we : rkey -> value -> bool -> Z -> enc unit) hash ck mv :
  Forall (fun v => forall k c a, stable (we k v c a)) (children hash) ->
  stable (write_doc_with we hash ck mv).
Proof.
  intros H. unfold write_doc_with.
  apply stable_from_position. intros start Hstart.
  apply stable_bind; [auto with stable|intros loc].
  apply stable_bind; [now apply stable_id_part|intros a].
  cbv zeta. rewrite iterated_hash.
  apply stable_bind; [now apply stable_entries_part|intros []].
  apply stable_bind; [auto with stable|intros []].
  now apply stable_cap_check.
Qed.

Lemma stable_other_key rc cls v check_keys allow_id :
  stable (write_element rc (KOther cls) v check_keys allow_id).
Proof. destruct v; cbn [write_element]; repeat stable_step. Qed.

Lemma stable_write_both rc v :
  (forall key check_keys allow_id,
      stable (write_element rc key v check_keys allow_id))
  /\ (forall check_keys move_id, stable (write_doc rc v check_keys move_id)).
Proof.
  induction v as [v IH] using value_ind_children.
  assert (D : forall check_keys move_id, stable (write_doc rc v check_keys move_id)).
  { intros. apply stable_write_doc_with.
    eapply Forall_impl; [|exact IH]. cbn. intros w [Hw _]. auto. }
  split; [|exact D].
  assert (S : forall key check_keys allow_id,
             stable (write_element rc (KStr key) v check_keys allow_id)).
  { intros key check_keys allow_id.
    destruct v; cbn [write_element];
      try (repeat stable_step; fail).
    - (* VHash *)
      repeat stable_step. apply D.
    - (* VArray *)
      cbn [children] in IH.
      repeat stable_step.
      apply stable_each_item.
      eapply Forall_impl; [|exact IH]. cbn. intros w [Hw _] i. apply Hw.
    - (* VDBRef *)
      cbn [children] in IH.
      pose proof (Forall_inv IH) as [H1 _].
      pose proof (Forall_inv (Forall_inv_tail IH)) as [H2 _].
      repeat stable_step.
    - (* VCode *)
      cbn [children] in IH. pose proof (Forall_inv IH) as [_ H1].
      repeat stable_step; try apply H1. }
  intros [key|name|cls] check_keys allow_id.
  - apply S.
  - rewrite write_element_symbol_key. apply S.
  - apply stable_other_key.
Qed.

Lemma recap_new avail M m :
  recap (bson_buffer_set_max_size (bson_buffer_new avail) M) m
  = bson_buffer_set_max_size (bson_buffer_new avail) m.
Proof. reflexivity. Qed.

Lemma serialize_ok_inv rc avail doc check_keys move_id max_size bytes b1 :
  method_serialize rc (Some avail) doc check_keys move_id max_size = (Ok bytes, b1) ->
  in_int max_size = true
  /\ exists b,
       write_doc rc doc check_keys move_id
         (bson_buffer_set_max_size (bson_buffer_new avail) max_size) = (Ok tt, b)
       /\ bytes = data b.
Proof.
  intros H.
  destruct (in_int max_size) eqn:E.
  2:{ unfold method_serialize, FIX2INT in H. rewrite E in H. discriminate H. }
  split; [reflexivity|].
  rewrite method_serialize_eq in H by assumption.
  destruct (write_doc rc doc check_keys move_id _) as [[[]| | |] b] eqn:W;
    try discriminate H.
  injection H as <- _. exists b. auto.
Qed.

(** X13. The cap does not change what [serialize] returns: if a document is
    serialized under one cap, it is serialized to the same bytes under
    every cap that is not below their number. *)
Theorem cap_above_the_length_changes_nothing :
  forall rc avail doc check_keys move_id M m bytes b1,
    method_serialize rc (Some avail) doc check_keys move_id M = (Ok bytes, b1) ->
    in_int m = true ->
    Z.of_nat (length bytes) <= m ->
    exists b2,
      method_serialize rc (Some avail) doc check_keys move_id m
      = (Ok bytes, Some b2) /\ freed b2 = true.
Proof.
  intros rc avail doc check_keys move_id M m bytes b1 H Hm Hl.
  apply serialize_ok_inv in H. destruct H as (_ & b & W & ->).
  destruct (proj2 (stable_write_both rc doc) check_keys move_id _ _ _ W) as [_ S].
  specialize (S m Hl). rewrite recap_new in S.
  rewrite method_serialize_eq by assumption. rewrite S.
  eexists. split; reflexivity.
Qed.

Lemma cap_above_the_length_changes_nothing_witness :
  exists b2,
    method_serialize Host.ruby_consts (Some 4096)
      (VHash PlainHash [(KStr (lit "hello"), VString (lit "world"))])
      false false 22
    = (Ok [22; 0; 0; 0; 2; 104; 101; 108; 108; 111; 0; 6; 0; 0; 0;
           119; 111; 114; 108; 100; 0; 0], Some b2)
    /\ freed b2 = true.
Proof.
  eapply (cap_above_the_length_changes_nothing Host.ruby_consts 4096
            (VHash PlainHash [(KStr (lit "hello"), VString (lit "world"))])
            false false 4194304 22).
  - vm_compute. reflexivity.
  - reflexivity.
  - cbn [length]. lia.
Defined.

Lemma save_space_inv size b loc b' :
  save_space size b = (Ok loc, b') ->
  loc = bson_buffer_get_position b
  /\ b' = appended b (repeat 0 (Z.to_nat size)).
Proof.
  unfold save_space, bind, call, bson_buffer_save_space.
  destruct (_ <=? _); cbn; [destruct (_ =? _)|]; try discriminate.
  intros E. inversion E; subst. split; reflexivity.
Qed.

Lemma patch_inv p d b b' :
  SAFE_WRITE_AT_POS p d 4 b = (Ok tt, b') ->
  data b' = firstn (Z.to_nat p) (data b) ++ firstn 4 d
            ++ skipn (Z.to_nat (p + 4)) (data b).
Proof.
  unfold SAFE_WRITE_AT_POS, bind, call, bson_buffer_write_at_position.
  destruct (_ && _); cbn [Z.eqb ret]; [|discriminate].
  intros E. inversion E; subst. reflexivity.
Qed.

(** What [write_doc] leaves in an empty buffer: a frame. *)
Lemma write_doc_frame rc doc check_keys move_id b0 b :
  data b0 = [] ->
  write_doc rc doc check_keys move_id b0 = (Ok tt, b) ->
  exists body, data b = frame body.
Proof.
  intros D0 W. unfold write_doc, write_doc_with in W.
  assert (C : Forall (fun v => forall k c a, stable (write_element rc k v c a))
                (children doc)).
  { apply Forall_forall. intros v _ k c a. apply stable_write_both. }
  apply bind_ok_inv in W. destruct W as (start & b1 & H1 & W).
  unfold get_position in H1. injection H1 as <- <-.
  apply bind_ok_inv in W. destruct W as (loc & b2 & H2 & W).
  apply save_space_inv in H2. destruct H2 as [-> ->].
  apply bind_ok_inv in W. destruct W as (allow & b3 & H3 & W).
  apply (stable_id_part _ _ _ _ C) in H3. destruct H3 as [G3 _].
  cbv zeta in W. rewrite iterated_hash in W.
  apply bind_ok_inv in W. destruct W as ([] & b4 & H4 & W).
  apply (stable_entries_part _ _ _ _ C) in H4. destruct H4 as [G4 _].
  apply bind_ok_inv in W. destruct W as ([] & b5 & H5 & W).
  apply SAFE_WRITE_inv in H5; [|reflexivity]. subst b5.
  apply bind_ok_inv in W. destruct W as (position & b6 & H6 & W).
  unfold get_position in H6. injection H6 as <- <-.
  apply bind_ok_inv in W. destruct W as (ms & b7 & H7 & W).
  unfold get_max_size in H7. injection H7 as <- <-.
  apply bind_ok_inv in W. destruct W as ([] & b8 & H8 & W).
  destruct (_ >? _); [discriminate H8|].
  unfold ret in H8. injection H8 as <-.
  apply patch_inv in W.
  rewrite position_appended in G3.
  unfold bson_buffer_get_position in *. rewrite D0 in *.
  cbn [length Z.of_nat] in W, G3.
  change (Z.to_nat 0) with 0%nat in W.
  change (Z.to_nat (0 + 4)) with 4%nat in W.
  change (Z.to_nat 4) with 4%nat in G3. cbn [repeat length] in G3.
  rewrite firstn_O, Z.sub_0_r in W. cbn [app] in W.
  rewrite firstn_all2 in W by (rewrite le_bytes_length; lia).
  unfold zero, appended, with_data in W. cbn [data] in W.
  exists (skipn 4 (data b4)). rewrite W. unfold frame. clear W.
  destruct (data b4) as [|x0 [|x1 [|x2 [|x3 rest]]]];
    cbn [length] in G3, G4; try lia.
  cbn [skipn]. f_equal. f_equal.
  rewrite !length_app. cbn [length]. lia.
Qed.

(** X14. What [serialize] returns is a frame: its first four bytes are its
    own length, least significant byte first, and its last byte is NUL;
    it has five bytes at least. *)
Theorem serialize_returns_a_frame :
  forall rc avail doc check_keys move_id cap bytes b1,
    method_serialize rc (Some avail) doc check_keys move_id cap
    = (Ok bytes, b1) ->
    (exists body, bytes = frame body)
    /\ firstn 4 bytes = le_bytes 4 (Z.of_nat (length bytes))
    /\ (5 <= length bytes)%nat
    /\ Z.of_nat (length bytes) <= cap.
Proof.
  intros rc avail doc check_keys move_id cap bytes b1 H.
  apply serialize_ok_inv in H. destruct H as (_ & b & W & ->).
  pose proof (write_doc_ok_bounded _ _ _ _ _ _ W) as B.
  destruct (write_doc_frame rc doc check_keys move_id
              (bson_buffer_set_max_size (bson_buffer_new avail) cap) b
              eq_refl W) as (body & E).
  assert (L : length (data b) = (length body + 5)%nat)
    by (rewrite E; unfold frame; rewrite !length_app, le_bytes_length;
        cbn [length]; lia).
  split; [eauto|]. split; [|split].
  - rewrite L. rewrite E at 1. unfold frame.
    rewrite firstn_app_length by now rewrite le_bytes_length.
    f_equal. lia.
  - lia.
  - assert (M : max_size b = cap).
    { pose proof (sim_write_both cap cap (Z.le_refl _) rc doc) as [_ Sd].
      specialize (Sd check_keys move_id
                    (bson_buffer_set_max_size (bson_buffer_new avail) cap)
                    (bson_buffer_set_max_size (bson_buffer_new avail) cap)
                    (same_but_cap_new avail cap cap)).
      rewrite W in Sd. cbn [fst snd] in Sd.
      destruct Sd as [[C _]|[_ (_ & _ & _ & M1 & _)]]; [discriminate C|exact M1]. }
    unfold bson_buffer_get_position in B.
    change (Z.of_nat (length (data (bson_buffer_set_max_size
              (bson_buffer_new avail) cap)))) with 0 in B.
    lia.
Qed.

Lemma serialize_returns_a_frame_witness :
  (exists body,
      [22; 0; 0; 0; 2; 104; 101; 108; 108; 111; 0; 6; 0; 0; 0;
       119; 111; 114; 108; 100; 0; 0] = frame body)
  /\ firstn 4 [22; 0; 0; 0; 2; 104; 101; 108; 108; 111; 0; 6; 0; 0; 0;
               119; 111; 114; 108; 100; 0; 0]
     = le_bytes 4 (Z.of_nat (length
         [22; 0; 0; 0; 2; 104; 101; 108; 108; 111; 0; 6; 0; 0; 0;
          119; 111; 114; 108; 100; 0; 0]))
  /\ (5 <= length [22; 0; 0; 0; 2; 104; 101; 108; 108; 111; 0; 6; 0; 0; 0;
                   119; 111; 114; 108; 100; 0; 0])%nat
  /\ Z.of_nat (length [22; 0; 0; 0; 2; 104; 101; 108; 108; 111; 0; 6; 0; 0; 0;
                       119; 111; 114; 108; 100; 0; 0]) <= 4194304.
Proof.
  eapply (serialize_returns_a_frame Host.ruby_consts 4096
            (VHash PlainHash [(KStr (lit "hello"), VString (lit "world"))])
            false false 4194304).
  vm_compute. reflexivity.
Defined.

End CapFacts.

(* ================================================================= *)
(** ** The conversions of the round trip *)

Module Conversions.
Import Encoder Decoder BytesFacts DecoderFacts EncoderFacts RegexFacts ValueInd
  ErrorFacts Wire RoundTrip Spec ConvSpec.

Lemma wire_payload_hash rc c es :
  wire_payload rc (VHash c es) = frame (wire_elements rc es).
Proof. reflexivity. Qed.

Lemma wire_payload_array rc items :
  wire_payload rc (VArray items) = frame (wire_items_from rc 0 items).
Proof. reflexivity. Qed.

Lemma decoded_hash rc host opts c es :
  decoded rc host opts (VHash c es)
  = VHash OrderedHash (entries_decoded rc host opts es).
Proof.
  cbn [decoded]. f_equal. induction es as [|[k w] es IH]; [reflexivity|].
  cbn [entries_decoded map fst snd]. f_equal. exact IH.
Qed.

Lemma wire_need_hash c es : wire_need (VHash c es) = S (wire_need_entries es).
Proof. reflexivity. Qed.

Lemma wire_need_array items :
  wire_need (VArray items) = S (wire_need_items items).
Proof. reflexivity. Qed.

(** *** What [wired] holds of each kind of value *)

Lemma names_of_keys es : keys_ok es -> names_ok es.
Proof.
  intros [HK HD]. split; [|exact HD].
  eapply Forall_impl; [|exact HK]. cbn beta.
  intros e (s & Hs & Hv). exists s. rewrite Hs. split; [reflexivity|exact Hv].
Qed.

Lemma wired_hash_inv c es :
  wired (VHash c es) ->
  names_ok es /\ not_a_reference es /\ Forall (fun e => wired (snd e)) es.
Proof.
  intros H. inversion H as [v R| | | | | | | | | |]; subst.
  - inversion R; subst. split; [now apply names_of_keys|]. split; [assumption|].
    eapply Forall_impl; [|eassumption]. intros e. apply wired_rt.
  - auto.
Qed.

Lemma wired_array_inv items : wired (VArray items) -> Forall wired items.
Proof.
  intros H. inversion H as [v R| | | | | | | | | |]; subst.
  - inversion R; subst. eapply Forall_impl; [|eassumption]. apply wired_rt.
  - assumption.
Qed.

(** A symbol for a key is written under its name. *)
Lemma write_element_sym rc name w check_keys allow_id :
  write_element rc (KSym name) w check_keys allow_id
  = write_element rc (KStr (cstr name)) w check_keys allow_id.
Proof. destruct w; reflexivity. Qed.

Lemma write_element_named rc k key w check_keys allow_id :
  name_of k = Some key ->
  key_bytes k = key
  /\ write_element rc k w check_keys allow_id
     = write_element rc (KStr key) w check_keys allow_id.
Proof.
  destruct k as [s|name|cls]; cbn [name_of key_bytes]; intros E;
    inversion E; subst; split; try reflexivity.
  apply write_element_sym.
Qed.

Lemma cstr_no_nul s : no_nul (cstr s).
Proof.
  induction s as [|b s IH]; cbn [cstr]; [constructor|].
  destruct (Z.eqb_spec b 0); [constructor|]. now constructor.
Qed.

Lemma flag_no_nul flags bit c : no_nul (lit c) -> no_nul (flag flags bit c).
Proof. intros H. unfold flag. destruct (has_flag flags bit); [exact H|constructor]. Qed.

Lemma regex_flag_bytes_no_nul rc flags native :
  no_nul (regex_flag_bytes rc flags native).
Proof.
  unfold regex_flag_bytes, no_nul.
  destruct (native =? 1);
    repeat (apply Forall_app; split);
    try (apply flag_no_nul); repeat constructor; discriminate.
Qed.

Lemma millis_of_range t millis :
  millis_of t = Ok millis -> LLONG_MIN <= millis <= LLONG_MAX.
Proof.
  unfold millis_of, round_to_long_long.
  destruct (double_mul t thousand) as [s|s| |s m e]; try discriminate.
  - intros [= <-]. int_consts. lia.
  - destruct (_ && _) eqn:E; [|discriminate]. intros [= <-].
    apply andb_prop in E. destruct E as [E1 E2].
    apply Z.leb_le in E1, E2. lia.
Qed.

(** *** The encoder writes the wire format *)

Local Open Scope enc_scope.

Ltac wfits Hf := unfold wire_element, counted, sized in *; fits_tac Hf.

Lemma each_entry_wire rc es : forall b,
  Forall (fun e => writes_wire rc (snd e)) es ->
  Forall (fun e => exists key, name_of (fst e) = Some key
                               /\ validate_utf8_encoding key false = VALID) es ->
  fits b (Z.of_nat (length (wire_elements rc es))) ->
  Z.of_nat (length (wire_elements rc es)) <= max_size b ->
  each_entry (fun key value => write_element rc key value false 1) es b
  = (Ok tt, appended b (wire_elements rc es)).
Proof.
  induction es as [|[k w] es IH]; intros b Hw Hk Hf Hm.
  - cbn. now rewrite appended_nil.
  - cbn [each_entry wire_elements] in *.
    pose proof (Forall_inv Hw) as Hw1. pose proof (Forall_inv_tail Hw) as Hw2.
    pose proof (Forall_inv Hk) as (s & Hs & Hv).
    pose proof (Forall_inv_tail Hk) as Hk2.
    cbn [fst snd] in *.
    destruct (write_element_named rc k s w false 1 Hs) as [E1 E2].
    rewrite E1 in *. rewrite E2. clear E1 E2.
    wstep Hw1; [|assumption|fits_tac Hf|len_lia].
    rewrite IH; [same_bytes|assumption|assumption|fits_tac Hf|].
    rewrite max_size_appended. len_lia.
Qed.

Lemma each_item_wire rc items : forall i b,
  0 <= i ->
  Forall (writes_wire rc) items ->
  fits b (Z.of_nat (length (wire_items_from rc i items))) ->
  Z.of_nat (length (wire_items_from rc i items)) <= max_size b ->
  each_item (fun i item => write_element rc (KStr (INT2STRING i)) item false 1)
    i items b
  = (Ok tt, appended b (wire_items_from rc i items)).
Proof.
  induction items as [|w items IH]; intros i b Hi Hw Hf Hm.
  - cbn. now rewrite appended_nil.
  - cbn [each_item wire_items_from] in *.
    pose proof (Forall_inv Hw) as Hw1. pose proof (Forall_inv_tail Hw) as Hw2.
    unfold INT2STRING.
    wstep Hw1; [|apply validate_ascii, printf_d_ascii; lia|fits_tac Hf|len_lia].
    rewrite IH; [same_bytes|lia|assumption|fits_tac Hf|].
    rewrite max_size_appended. len_lia.
Qed.

(** [write_doc] writes the frame of a hash whose values it can write. *)
Lemma write_doc_wire rc c es b :
  Forall (fun e => writes_wire rc (snd e)) es ->
  Forall (fun e => exists key, name_of (fst e) = Some key
                               /\ validate_utf8_encoding key false = VALID) es ->
  fits b (Z.of_nat (length (frame (wire_elements rc es)))) ->
  Z.of_nat (length (frame (wire_elements rc es))) <= max_size b ->
  write_doc rc (VHash c es) false false b
  = (Ok tt, appended b (frame (wire_elements rc es))).
Proof.
  intros Hw Hk Hf Hm. unfold frame in *.
  unfold write_doc, write_doc_with, classname_comma_Hash_is_null.
  pose proof (position_nonneg b) as Hp. pose proof Hf as [Hf1 Hf2].
  wstep get_position_eq.
  wstep save_space_ok; [|lia|fits_tac Hf].
  rewrite bind_ret. cbv zeta. lazy beta iota.
  assert (E : (match c with
               | PlainHash | _ =>
                   each_entry (fun key value => write_element rc key value false 1) es
               end) = each_entry (fun key value => write_element rc key value false 1) es)
    by (now destruct c).
  rewrite E. clear E.
  wstep each_entry_wire; [|assumption|assumption|fits_tac Hf|
                           rewrite max_size_appended; len_lia].
  unfold zero. wstep SAFE_WRITE_ok; [|reflexivity|fits_tac Hf].
  wstep get_position_eq.
  wstep get_max_size_eq.
  rewrite !appended_appended, position_appended, max_size_appended.
  rewrite gtb_false_intro by len_lia.
  rewrite bind_ret.
  change (Z.to_nat 4) with 4%nat.
  rewrite SAFE_WRITE_AT_POS_ok by (reflexivity || apply le_bytes_length).
  do 4 f_equal. len_lia.
Qed.

Lemma write_flag_ok flags bit c b :
  length (lit c) = 1%nat ->
  fits b (Z.of_nat (length (flag flags bit c))) ->
  write_flag flags bit c b = (Ok tt, appended b (flag flags bit c)).
Proof.
  intros Hc Hf. unfold write_flag, flag in *. destruct (has_flag flags bit).
  - rewrite Hc in Hf. apply SAFE_WRITE_ok; [now rewrite Hc | exact Hf].
  - now rewrite appended_nil.
Qed.

Lemma write_flags_ok rc flags native b :
  fits b (Z.of_nat (length (regex_flag_bytes rc flags native))) ->
  (if native =? 1 then
     SAFE_WRITE (lit "m") 1 ;;
     write_flag flags (IGNORECASE rc) "i" ;;
     write_flag flags (MULTILINE rc) "s" ;;
     write_flag flags (EXTENDED rc) "x"
   else
     write_flag flags (BSONRegex_IGNORECASE rc) "i" ;;
     write_flag flags (BSONRegex_LOCALE_DEPENDENT rc) "l" ;;
     write_flag flags (BSONRegex_MULTILINE rc) "m" ;;
     write_flag flags (BSONRegex_DOTALL rc) "s" ;;
     write_flag flags (BSONRegex_UNICODE rc) "u" ;;
     write_flag flags (BSONRegex_EXTENDED rc) "x") b
  = (Ok tt, appended b (regex_flag_bytes rc flags native)).
Proof.
  intros Hf. unfold regex_flag_bytes in *. destruct (native =? 1).
  - change (lit "m") with [109] in *.
    wstep SAFE_WRITE_ok; [|reflexivity|fits_tac Hf].
    wstep write_flag_ok; [|reflexivity|fits_tac Hf].
    wstep write_flag_ok; [|reflexivity|fits_tac Hf].
    rewrite write_flag_ok; [same_bytes|reflexivity|fits_tac Hf].
  - wstep write_flag_ok; [|reflexivity|fits_tac Hf].
    wstep write_flag_ok; [|reflexivity|fits_tac Hf].
    wstep write_flag_ok; [|reflexivity|fits_tac Hf].
    wstep write_flag_ok; [|reflexivity|fits_tac Hf].
    wstep write_flag_ok; [|reflexivity|fits_tac Hf].
    rewrite write_flag_ok; [same_bytes|reflexivity|fits_tac Hf].
Qed.

Lemma serialize_regex_wire rc key pattern flags native b :
  validate_utf8_encoding key false = VALID ->
  validate_utf8_encoding pattern false = VALID ->
  fits b (Z.of_nat (length (11 :: key ++ 0 :: pattern ++ 0
                               :: regex_flag_bytes rc flags native ++ [0]))) ->
  serialize_regex rc key pattern flags None native b
  = (Ok tt, appended b (11 :: key ++ 0 :: pattern ++ 0
                           :: regex_flag_bytes rc flags native ++ [0])).
Proof.
  intros Hk Hp Hf. unfold serialize_regex.
  pose proof (position_nonneg b) as Hpos. pose proof Hf as [Hf1 Hf2].
  wstep write_name_and_type_ok; [|assumption|lia|fits_tac Hf].
  wstep write_utf8_ok; [|assumption|fits_tac Hf].
  unfold zero. wstep SAFE_WRITE_ok; [|reflexivity|fits_tac Hf].
  wstep write_flags_ok; [|fits_tac Hf].
  rewrite bind_ret.
  rewrite SAFE_WRITE_ok; [same_bytes|reflexivity|fits_tac Hf].
Qed.

Ltac not_rt H :=
  inversion H; subst;
  try match goal with R : rt _ |- _ => now inversion R end.

(** The encoder writes the wire format of every such value. *)
Lemma wired_writes_both rc v :
  (wired v -> writes_wire rc v)
  /\ (forall c es, v = VHash c es ->
        Forall (fun e => wired (snd e)) es ->
        Forall (fun e => writes_wire rc (snd e)) es).
Proof.
  induction v as [v IH] using value_ind_children.
  assert (Hes : forall c es, v = VHash c es ->
            Forall (fun e => wired (snd e)) es ->
            Forall (fun e => writes_wire rc (snd e)) es).
  { intros c es -> Hv. cbn [children] in IH. apply Forall_map in IH.
    rewrite Forall_forall in *. intros e He. apply (IH e He). auto. }
  split; [|exact Hes].
  intros Hw key b Hk Hf Hm.
  pose proof (position_nonneg b) as Hp. pose proof Hf as [Hf1 Hf2].
  assert (W : forall t, 0 <= t < 256 ->
            write_name_and_type key t b = (Ok tt, appended b (t :: key ++ [0]))).
  { intros. apply write_name_and_type_ok; auto.
    eapply fits_shrink; [exact Hf|]. unfold wire_element. len_lia. }
  assert (L : rt v -> wire_element rc key v = element key v ->
              write_element rc (KStr key) v false 1 b
              = (Ok tt, appended b (wire_element rc key v))).
  { intros R E. rewrite E in *. now apply rt_writes_ok. }
  destruct v;
    try (apply L; [inversion Hw; subst; assumption | reflexivity]);
    clear L.
  - (* VHash *)
    destruct (wired_hash_inv _ _ Hw) as ([HK HD] & Hnref & Hv).
    unfold wire_element in *. rewrite wire_payload_hash in *.
    cbn [wire_tag tag_of] in *.
    cbn [write_element Z.eqb andb]. rewrite bind_ret.
    wstep W; [|lia].
    fold (write_doc rc (VHash c entries) false false).
    rewrite write_doc_wire;
      [same_bytes| |exact HK|fits_tac Hf|rewrite max_size_appended; len_lia].
    now apply (Hes c entries).
  - (* VArray *)
    pose proof (wired_array_inv _ Hw) as Hv.
    unfold wire_element in *. rewrite wire_payload_array in *.
    cbn [wire_tag tag_of] in *.
    cbn [write_element Z.eqb andb]. rewrite bind_ret.
    unfold frame in *.
    wstep W; [|lia].
    wstep get_position_eq.
    wstep save_space_ok; [|lia|fits_tac Hf].
    wstep each_item_wire; [|lia| |fits_tac Hf|rewrite !max_size_appended; len_lia].
    2:{ cbn [children] in IH. rewrite Forall_forall in *. intros w Hw'.
        apply (IH w Hw'). auto. }
    unfold zero. wstep SAFE_WRITE_ok; [|reflexivity|fits_tac Hf].
    wstep get_position_eq.
    rewrite !appended_appended, !position_appended.
    change (Z.to_nat 4) with 4%nat.
    match goal with
    | |- SAFE_WRITE_AT_POS _ (le_bytes 4 ?A) _ _ = _ =>
        replace A with (Z.of_nat (length (wire_items_from rc 0 items)) + 5)
          by len_lia
    end.
    rewrite <- (appended_appended b (4 :: key ++ [0])).
    rewrite <- (position_appended b (4 :: key ++ [0])).
    rewrite SAFE_WRITE_AT_POS_ok by (reflexivity || apply le_bytes_length).
    same_bytes.
  - (* VSymbol *)
    unfold wire_element, counted in *. cbn [wire_payload wire_tag] in *.
    unfold counted in *.
    cbn [write_element Z.eqb andb]. rewrite bind_ret.
    rewrite RSTRING_LENINT_small by len_lia.
    wstep int_add_ok; [|int_consts; len_lia].
    wstep W; [|lia].
    wstep SAFE_WRITE_ok; [|now rewrite le_bytes_length|fits_tac Hf].
    rewrite SAFE_WRITE_ok; [same_bytes|len_lia|fits_tac Hf].
  - (* VByteBuffer *)
    cbn [write_element Z.eqb andb]. rewrite bind_ret.
    match goal with
    | _ : wired (VByteBuffer ?d) |- _ =>
        exact (write_binary_ok key d 2 b Hk ltac:(lia) Hf)
    end.
  - (* VDBRef *)
    not_rt Hw.
    match goal with H : validate_utf8_encoding _ true = VALID |- _ =>
      rename H into Hs end.
    match goal with H : wired _ |- _ => rename H into Hoid end.
    cbn [children] in IH.
    pose proof (proj1 (Forall_inv (Forall_inv_tail IH)) Hoid) as Woid.
    pose proof (rt_writes_ok rc (VString s) (rt_string s Hs)) as Wns.
    unfold writes_ok in Wns. unfold writes_wire in Woid.
    unfold wire_element, element, frame in *.
    cbn [wire_payload wire_tag tag_of payload] in *. unfold frame in *.
    assert (Vref : validate_utf8_encoding (lit "$ref") false = VALID)
      by reflexivity.
    assert (Vid : validate_utf8_encoding (lit "$id") false = VALID)
      by reflexivity.
    cbn [write_element Z.eqb andb]. rewrite bind_ret.
    wstep W; [|lia].
    wstep get_position_eq.
    wstep save_space_ok; [|lia|fits_tac Hf].
    wstep Wns; [|exact Vref|fits_tac Hf|rewrite !max_size_appended; len_lia].
    wstep Woid; [|exact Vid|fits_tac Hf|rewrite !max_size_appended; len_lia].
    unfold zero. wstep SAFE_WRITE_ok; [|reflexivity|fits_tac Hf].
    wstep get_position_eq.
    rewrite !appended_appended, !position_appended.
    change (Z.to_nat 4) with 4%nat.
    match goal with
    | |- SAFE_WRITE_AT_POS _ (le_bytes 4 ?A) _ _ = _ =>
        match type of Hm with
        | context [le_bytes 4 ?B] => replace A with B by len_lia
        end
    end.
    rewrite <- (appended_appended b (3 :: key ++ [0])).
    rewrite <- (position_appended b (3 :: key ++ [0])).
    rewrite SAFE_WRITE_AT_POS_ok by (reflexivity || apply le_bytes_length).
    same_bytes.
  - (* VCode *)
    not_rt Hw.
    match goal with H : names_ok _ |- _ => destruct H as [HK HD] end.
    match goal with H : Forall _ es |- _ => rename H into Hv end.
    cbn [children] in IH.
    pose proof (proj2 (Forall_inv IH) c es eq_refl Hv) as Wes.
    unfold wire_element, sized in *.
    cbn [wire_payload wire_tag] in *.
    change ((fix elements (es0 : list (rkey * value)) : bytes :=
               match es0 with
               | [] => []
               | (k, w) :: r =>
                   (wire_tag w :: key_bytes k ++ 0 :: wire_payload rc w)
                   ++ elements r
               end) es) with (wire_elements rc es) in *.
    unfold sized, counted in *.
    cbn [write_element Z.eqb andb]. rewrite bind_ret.
    wstep W; [|lia].
    wstep get_position_eq.
    wstep save_space_ok; [|lia|fits_tac Hf].
    rewrite RSTRING_LENINT_small by len_lia.
    wstep int_add_ok; [|int_consts; len_lia].
    wstep SAFE_WRITE_ok; [|now rewrite le_bytes_length|fits_tac Hf].
    wstep SAFE_WRITE_ok; [|lia|fits_tac Hf].
    unfold zero. wstep SAFE_WRITE_ok; [|reflexivity|fits_tac Hf].
    fold (write_doc rc (VHash c es) false false).
    wstep write_doc_wire;
      [|exact Wes|exact HK|fits_tac Hf|rewrite !max_size_appended; len_lia].
    wstep get_position_eq.
    rewrite !appended_appended, !position_appended.
    change (Z.to_nat 4) with 4%nat.
    match goal with
    | |- SAFE_WRITE_AT_POS _ (le_bytes 4 ?A) _ _ = _ =>
        replace A with
          (Z.of_nat (length ((le_bytes 4 (Z.of_nat (length code) + 1)
                              ++ code ++ [0])
                             ++ frame (wire_elements rc es))) + 4)
          by (unfold frame; len_lia)
    end.
    rewrite <- (appended_appended b (15 :: key ++ [0])).
    rewrite <- (position_appended b (15 :: key ++ [0])).
    rewrite SAFE_WRITE_AT_POS_ok by (reflexivity || apply le_bytes_length).
    same_bytes.
  - (* VTime *)
    not_rt Hw.
    match goal with H : millis_of _ = Ok _ |- _ => rename H into Hms end.
    unfold wire_element in *. cbn [wire_payload wire_tag tag_of payload] in *.
    rewrite Hms in *.
    cbn [write_element Z.eqb andb]. rewrite bind_ret.
    erewrite bind_ok; [|unfold eval; rewrite Hms; reflexivity].
    wstep W; [|lia].
    rewrite SAFE_WRITE_ok; [same_bytes|now rewrite le_bytes_length|fits_tac Hf].
  - (* VChars *)
    not_rt Hw.
    cbn [write_element Z.eqb andb]. rewrite bind_ret.
    apply (write_string_ok key s b); assumption.
  - (* VBSONRegex *)
    not_rt Hw.
    cbn [write_element Z.eqb andb]. rewrite bind_ret.
    wstep FIX2INT_ok; [|assumption].
    apply serialize_regex_wire; assumption.
  - (* VRegexp *)
    not_rt Hw.
    cbn [write_element Z.eqb andb]. rewrite bind_ret.
    apply serialize_regex_wire; assumption.
Qed.

Lemma wired_writes rc v : wired v -> writes_wire rc v.
Proof. apply wired_writes_both. Qed.

(** *** The decoder reads the wire format *)

Lemma wire_tag_not_dollar v : wire_tag v <> 36.
Proof.
  destruct v; cbn [wire_tag]; try apply tag_of_not_dollar; discriminate.
Qed.

Lemma post_ok_wire_elements rc es post :
  post_ok post -> post_ok (wire_elements rc es ++ post).
Proof.
  intros H. destruct es as [|[k w] es]; [exact H|].
  cbn [wire_elements]. unfold wire_element. cbn [app].
  eexists _, _. split; [reflexivity|]. apply wire_tag_not_dollar.
Qed.

Lemma post_ok_wire_items rc i items post :
  post_ok post -> post_ok (wire_items_from rc i items ++ post).
Proof.
  intros H. destruct items as [|w items]; [exact H|].
  cbn [wire_items_from]. unfold wire_element. cbn [app].
  eexists _, _. split; [reflexivity|]. apply wire_tag_not_dollar.
Qed.

Lemma names_no_nul (es : list (rkey * value)) :
  Forall (fun e => exists key, name_of (fst e) = Some key
                               /\ validate_utf8_encoding key false = VALID) es ->
  Forall (fun e => no_nul (key_bytes (fst e))) es.
Proof.
  apply Forall_impl. intros [k w] (key & Hk & Hv). cbn [fst] in *.
  destruct k; cbn [name_of key_bytes] in *; inversion Hk; subst;
    now apply validate_no_nul.
Qed.

Section Reading.
Variables (rc : regex_consts) (host : regex_host) (opts : deserialize_opts).

Local Abbreviation reads_wire := (ConvSpec.reads_wire rc host opts).
Local Abbreviation decoded := (ConvSpec.decoded rc host opts).
Local Abbreviation entries_decoded := (ConvSpec.entries_decoded rc host opts).

Lemma get_value_code_eq mem fuel buffer position :
  get_value host mem (S fuel) opts buffer position 15 =
  (position <- add_int position 4 ;;
   n <- read_int mem (buffer + position) ;;
   code_length <- sub_int n 1 ;;
   position <- add_int position 4 ;;
   code <- str_new mem (buffer + position) code_length ;;
   k <- add_int code_length 1 ;;
   position <- add_int position k ;;
   scope_size <- read_int mem (buffer + position) ;;
   max <- sub_int scope_size 5 ;;
   scope <- hash_loop host mem fuel opts (buffer + position + 4) max 0 [] ;;
   position <- add_int position scope_size ;;
   Ok (VCode code scope, position))%outcome.
Proof. reflexivity. Qed.

Lemma hash_loop_wire es : forall fuel mem pre post buffer position acc,
  Forall (fun e => reads_wire (snd e)) es ->
  Forall (fun e => no_nul (key_bytes (fst e))) es ->
  NoDup (map (fun e => key_bytes (fst e)) es) ->
  Forall (fun e => ~ In (KStr (key_bytes (fst e))) (map fst acc)) es ->
  (wire_need_entries es <= fuel)%nat ->
  mem = pre ++ wire_elements rc es ++ post ->
  buffer + position = Z.of_nat (length pre) ->
  0 <= position ->
  position + Z.of_nat (length (wire_elements rc es)) <= INT_MAX ->
  post_ok post ->
  hash_loop host mem fuel opts buffer
    (position + Z.of_nat (length (wire_elements rc es))) position acc
  = Ok (VHash OrderedHash (acc ++ entries_decoded es)).
Proof.
  induction es as [|[k w] es IH];
    intros fuel mem pre post buffer position acc Hr Hk Hn Ha Hf Hm Hb Hp Hl Hpost.
  - destruct fuel as [|fuel]; [cbn in Hf; lia|].
    rewrite hash_loop_eq. cbn [wire_elements length].
    rewrite ltb_false_intro by lia.
    cbn [ConvSpec.entries_decoded map]. now rewrite app_nil_r.
  - destruct fuel as [|fuel]; [cbn in Hf; lia|].
    cbn [wire_need_entries] in Hf.
    pose proof (Forall_inv Hk) as Hnul. cbn [fst] in Hnul.
    pose proof (Forall_inv Hr) as Hw. cbn [snd] in Hw.
    cbn [wire_elements map fst] in *. unfold wire_element in *.
    set (s := key_bytes k) in *.
    assert (Ls : Z.of_nat (length s) <= INT_MAX) by len_lia.
    rewrite hash_loop_eq.
    rewrite ltb_true_intro by len_lia.
    rewrite (rd_at mem pre
               ((s ++ 0 :: wire_payload rc w) ++ wire_elements rc es ++ post)
               (wire_tag w))
      by (assumption || (mem_eq)).
    cbn [obind]. rewrite add_int_ok by (int_consts; len_lia). cbn [obind].
    rewrite (strlen_at mem (pre ++ [wire_tag w])
               (wire_payload rc w ++ wire_elements rc es ++ post) s)
      by (assumption || (mem_eq) || len_lia).
    cbn [obind].
    rewrite (str_new_at mem (pre ++ [wire_tag w])
               (0 :: wire_payload rc w ++ wire_elements rc es ++ post) s)
      by (reflexivity || (mem_eq) || len_lia).
    cbn [obind]. rewrite add_int_ok by (int_consts; len_lia). cbn [obind].
    rewrite add_int_ok by (int_consts; len_lia). cbn [obind].
    rewrite (Hw fuel mem (pre ++ wire_tag w :: s ++ [0])
               (wire_elements rc es ++ post)
               buffer (position + 1 + (Z.of_nat (length s) + 1)));
      [|lia|mem_eq|len_lia|lia|len_lia|now apply post_ok_wire_elements].
    cbn [obind].
    rewrite ordered_hash_set_fresh.
    2:{ pose proof (Forall_inv Ha) as Hfresh. cbn [fst] in Hfresh.
        apply Forall_forall. intros e He C. apply Hfresh.
        fold s. rewrite <- C. now apply in_map. }
    match goal with
    | |- hash_loop _ _ _ _ _ ?M ?P _ = _ =>
        replace M with (P + Z.of_nat (length (wire_elements rc es))) by len_lia
    end.
    rewrite (IH fuel mem (pre ++ wire_tag w :: s ++ 0 :: wire_payload rc w) post);
      [| exact (Forall_inv_tail Hr) | exact (Forall_inv_tail Hk)
       | now inversion Hn | | lia | mem_eq | len_lia | lia
       | len_lia | assumption].
    + cbn [ConvSpec.entries_decoded map fst snd]. now rewrite <- app_assoc.
    + apply Forall_forall. intros e He C.
      rewrite map_app in C. apply in_app_or in C. destruct C as [C|C].
      * pose proof (Forall_inv_tail Ha) as Hfresh.
        rewrite Forall_forall in Hfresh. now apply (Hfresh e He).
      * cbn in C. destruct C as [C|[]]. inversion Hn as [|? ? Hnotin _]; subst.
        apply Hnotin. injection C as C. fold s. rewrite C.
        now apply (in_map (fun e => key_bytes (fst e))).
Qed.

Lemma array_loop_wire items : forall fuel mem pre post buffer position acc i,
  Forall reads_wire items ->
  0 <= i ->
  (wire_need_items items <= fuel)%nat ->
  mem = pre ++ wire_items_from rc i items ++ post ->
  buffer + position = Z.of_nat (length pre) ->
  0 <= position ->
  position + Z.of_nat (length (wire_items_from rc i items)) <= INT_MAX ->
  post_ok post ->
  array_loop host mem fuel opts buffer
    (position + Z.of_nat (length (wire_items_from rc i items))) position acc
  = Ok (acc ++ map decoded items,
        position + Z.of_nat (length (wire_items_from rc i items))).
Proof.
  induction items as [|w items IH];
    intros fuel mem pre post buffer position acc i Hr Hi Hf Hm Hb Hp Hl Hpost.
  - destruct fuel as [|fuel]; [cbn in Hf; lia|].
    rewrite array_loop_eq. cbn [wire_items_from length map].
    rewrite ltb_false_intro by lia.
    rewrite app_nil_r. do 2 f_equal. lia.
  - destruct fuel as [|fuel]; [cbn in Hf; lia|].
    cbn [wire_need_items] in Hf.
    pose proof (Forall_inv Hr) as Hw.
    pose proof (ascii_no_nul _ (printf_d_ascii i Hi)) as Hnul.
    cbn [wire_items_from] in *. unfold wire_element in *.
    set (s := printf_d i) in *.
    assert (Ls : Z.of_nat (length s) <= INT_MAX) by len_lia.
    rewrite array_loop_eq.
    rewrite ltb_true_intro by len_lia.
    rewrite (rd_at mem pre
               ((s ++ 0 :: wire_payload rc w)
                ++ wire_items_from rc (i + 1) items ++ post)
               (wire_tag w))
      by (assumption || mem_eq).
    cbn [obind]. rewrite add_int_ok by (int_consts; len_lia). cbn [obind].
    rewrite (strlen_at mem (pre ++ [wire_tag w])
               (wire_payload rc w ++ wire_items_from rc (i + 1) items ++ post) s)
      by (assumption || mem_eq || len_lia).
    cbn [obind]. rewrite add_int_ok by (int_consts; len_lia). cbn [obind].
    rewrite add_int_ok by (int_consts; len_lia). cbn [obind].
    rewrite (Hw fuel mem (pre ++ wire_tag w :: s ++ [0])
               (wire_items_from rc (i + 1) items ++ post)
               buffer (position + 1 + (Z.of_nat (length s) + 1)));
      [|lia|mem_eq|len_lia|lia|len_lia|now apply post_ok_wire_items].
    cbn [obind].
    match goal with
    | |- array_loop _ _ _ _ _ ?M ?P _ = _ =>
        replace M with (P + Z.of_nat (length (wire_items_from rc (i + 1) items)))
          by len_lia
    end.
    rewrite (IH fuel mem (pre ++ wire_tag w :: s ++ 0 :: wire_payload rc w) post);
      [| exact (Forall_inv_tail Hr) | lia | lia | mem_eq | len_lia | lia
       | len_lia | assumption].
    cbn [map]. rewrite <- app_assoc. cbn [app]. do 2 f_equal; len_lia.
Qed.

End Reading.

Ltac mem_def :=
  repeat match goal with x := _ |- _ => subst x end; mem_eq.

Ltac arith :=
  repeat (rewrite ?add_int_ok, ?sub_int_ok by (int_consts; len_lia);
          progress cbn [obind]).

Section Reads.
Variables (rc : regex_consts) (host : regex_host) (opts : deserialize_opts).

Local Abbreviation reads_wire := (ConvSpec.reads_wire rc host opts).
Local Abbreviation decoded := (ConvSpec.decoded rc host opts).

(** The decoder reads the wire format of every such value. *)
Lemma wired_reads_both v :
  (wired v -> reads_wire v)
  /\ (forall c es, v = VHash c es ->
        Forall (fun e => wired (snd e)) es ->
        Forall (fun e => reads_wire (snd e)) es).
Proof.
  induction v as [v IH] using value_ind_children.
  assert (Hes : forall c es, v = VHash c es ->
            Forall (fun e => wired (snd e)) es ->
            Forall (fun e => reads_wire (snd e)) es).
  { intros c es -> Hv. cbn [children] in IH. apply Forall_map in IH.
    rewrite Forall_forall in *. intros e He. apply (IH e He). auto. }
  split; [|exact Hes].
  intros Hw fuel mem pre post buffer position Hf Hm Hb Hp Hl Hpost.
  assert (L : rt v -> wire_tag v = tag_of v -> wire_payload rc v = payload v ->
              decoded v = as_ordered v -> wire_need v = need v ->
              get_value host mem fuel opts buffer position (wire_tag v)
              = Ok (decoded v,
                    position + Z.of_nat (length (wire_payload rc v)))).
  { intros R E1 E2 E3 E4. rewrite E1, E2, E3 in *. rewrite E4 in Hf.
    now apply (rt_reads_ok host opts v R fuel mem pre post). }
  destruct v;
    try (apply L; [inversion Hw; subst; assumption | reflexivity ..]);
    clear L.
  - (* VHash *)
    destruct (wired_hash_inv _ _ Hw) as ([HK HD] & Hnref & Hv).
    rewrite wire_payload_hash in *. rewrite wire_need_hash in Hf.
    rewrite decoded_hash.
    cbn [wire_tag tag_of] in *.
    destruct fuel as [|fuel]; [lia|].
    rewrite get_value_hash_eq. unfold frame in *.
    rewrite (read_int_at mem pre ((wire_elements rc entries ++ [0]) ++ post)
               (Z.of_nat (length (wire_elements rc entries)) + 5))
      by (assumption || mem_eq || (apply in_int_intro; len_lia)).
    cbn [obind].
    assert (R : strcmp_eq mem (buffer + position + 5) (lit "$ref") = Ok false).
    { destruct entries as [|[k w] es'].
      - destruct Hpost as (t & r & -> & Ht).
        apply (strcmp_eq_differs mem
                 (pre ++ le_bytes 4 (Z.of_nat (length (wire_elements rc [])) + 5)
                  ++ [0])
                 t r); [mem_eq | len_lia | exact Ht].
      - pose proof (Forall_inv (names_no_nul _ HK)) as Hnul. cbn [fst] in Hnul.
        cbn [wire_elements] in *. unfold wire_element in *.
        rewrite (strcmp_eq_at mem (lit "$ref")
                   (pre ++ le_bytes 4 (Z.of_nat (length
                      ((wire_tag w :: key_bytes k ++ 0 :: wire_payload rc w)
                       ++ wire_elements rc es')) + 5)
                    ++ [wire_tag w]) (key_bytes k)
                   (wire_payload rc w ++ wire_elements rc es' ++ [0] ++ post));
          [| mem_eq | len_lia | assumption | apply no_nul_ref].
        f_equal. apply bytes_eqb_differs.
        exact Hnref. }
    rewrite R. cbn [obind]. arith.
    replace (Z.of_nat (length (wire_elements rc entries)) + 5 - 5)
      with (0 + Z.of_nat (length (wire_elements rc entries))) by lia.
    rewrite (hash_loop_wire rc host opts entries fuel mem
               (pre ++ le_bytes 4 (Z.of_nat (length (wire_elements rc entries)) + 5))
               (0 :: post)).
    + cbn [obind app]. arith. do 2 f_equal. len_lia.
    + now apply (Hes c entries).
    + now apply names_no_nul.
    + exact HD.
    + apply Forall_forall. intros e _ [].
    + lia.
    + mem_eq.
    + len_lia.
    + lia.
    + len_lia.
    + eexists _, _. split; [reflexivity|discriminate].
  - (* VArray *)
    pose proof (wired_array_inv _ Hw) as Hv.
    rewrite wire_payload_array in *. rewrite wire_need_array in Hf.
    cbn [wire_tag tag_of] in *.
    destruct fuel as [|fuel]; [lia|].
    rewrite get_value_array_eq. unfold frame in *.
    rewrite (read_int_at mem pre ((wire_items_from rc 0 items ++ [0]) ++ post)
               (Z.of_nat (length (wire_items_from rc 0 items)) + 5))
      by (assumption || mem_eq || (apply in_int_intro; len_lia)).
    cbn [obind]. arith.
    match goal with
    | |- context [array_loop _ _ _ _ _ ?M ?P _] =>
        replace M with (P + Z.of_nat (length (wire_items_from rc 0 items)))
          by lia
    end.
    rewrite (array_loop_wire rc host opts items fuel mem
               (pre ++ le_bytes 4 (Z.of_nat (length (wire_items_from rc 0 items)) + 5))
               (0 :: post)).
    + cbn [obind app]. arith. cbn [ConvSpec.decoded]. do 2 f_equal. len_lia.
    + cbn [children] in IH. rewrite Forall_forall in *. intros w Hw'.
      apply (IH w Hw'). auto.
    + lia.
    + lia.
    + mem_eq.
    + len_lia.
    + lia.
    + len_lia.
    + eexists _, _. split; [reflexivity|discriminate].
  - (* VSymbol *)
    destruct fuel as [|fuel]; [cbn in Hf; lia|].
    cbn [wire_payload wire_tag ConvSpec.decoded] in *. unfold counted in *.
    pose proof (cstr_no_nul name) as Hnul.
    cbn [get_value Z.eqb Pos.eqb orb].
    rewrite (read_int_at mem pre ((cstr name ++ [0]) ++ post)
               (Z.of_nat (length (cstr name)) + 1))
      by (assumption || mem_eq || (apply in_int_intro; len_lia)).
    cbn [obind].
    rewrite (strlen_at mem (pre ++ le_bytes 4 (Z.of_nat (length (cstr name)) + 1))
               post (cstr name))
      by (assumption || mem_eq || len_lia).
    cbn [obind]. rewrite Nat2Z.id.
    rewrite (rd_bytes_at mem (pre ++ le_bytes 4 (Z.of_nat (length (cstr name)) + 1))
               ([0] ++ post) (cstr name))
      by (reflexivity || mem_eq || len_lia).
    cbn [obind]. arith. do 2 f_equal. len_lia.
  - (* VByteBuffer *)
    match goal with
    | _ : wired (VByteBuffer ?d) |- _ =>
        exact (rt_reads_ok host opts (VBinary d 2) (rt_binary d 2 ltac:(lia))
                 fuel mem pre post buffer position Hf Hm Hb Hp Hl Hpost)
    end.
  - (* VDBRef *)
    revert Hm. not_rt Hw. intros Hm.
    match goal with H : validate_utf8_encoding _ true = VALID |- _ =>
      rename H into Hs end.
    match goal with H : wired ?o |- _ => rename H into Hoid; rename o into oid end.
    cbn [children] in IH.
    pose proof (proj1 (Forall_inv (Forall_inv_tail IH)) Hoid) as Roid.
    cbn [wire_need] in Hf. destruct fuel as [|fuel]; [lia|].
    cbn [wire_payload wire_tag tag_of payload ConvSpec.decoded] in *.
    change (lit "$ref") with [36; 114; 101; 102] in *.
    change (lit "$id") with [36; 105; 100] in *.
    unfold frame in *.
    set (ns := le_bytes 4 (Z.of_nat (length s) + 1) ++ s ++ [0]) in *.
    set (body := (2 :: [36; 114; 101; 102] ++ 0 :: ns)
                 ++ wire_tag oid :: [36; 105; 100] ++ 0 :: wire_payload rc oid) in *.
    assert (Lb : Z.of_nat (length body)
                 = 16 + Z.of_nat (length s) + Z.of_nat (length (wire_payload rc oid)))
      by (unfold body, ns; len_lia).
    assert (Lt : Z.of_nat (length body) + 5 + position <= INT_MAX) by len_lia.
    rewrite get_value_hash_eq.
    rewrite (read_int_at mem pre ((body ++ [0]) ++ post)
               (Z.of_nat (length body) + 5))
      by (assumption || mem_eq || (apply in_int_intro; int_consts; lia)).
    cbn [obind].
    rewrite (strcmp_eq_at mem [36; 114; 101; 102]
               (pre ++ le_bytes 4 (Z.of_nat (length body) + 5) ++ [2])
               [36; 114; 101; 102]
               (ns ++ (wire_tag oid :: [36; 105; 100] ++ 0 :: wire_payload rc oid)
                ++ [0] ++ post));
      [| mem_def | len_lia
       | repeat constructor; discriminate | repeat constructor; discriminate].
    cbn [bytes_eqb Z.eqb Pos.eqb andb obind].
    rewrite add_int_ok by (int_consts; lia). cbn [obind].
    rewrite (read_int_at mem
               (pre ++ le_bytes 4 (Z.of_nat (length body) + 5)
                ++ 2 :: [36; 114; 101; 102] ++ [0])
               ((s ++ [0])
                ++ (wire_tag oid :: [36; 105; 100] ++ 0 :: wire_payload rc oid)
                ++ [0] ++ post)
               (Z.of_nat (length s) + 1))
      by (mem_def || len_lia
          || (apply in_int_intro; int_consts; lia)).
    cbn [obind].
    rewrite sub_int_ok by (int_consts; lia). cbn [obind].
    rewrite add_int_ok by (int_consts; lia). cbn [obind].
    rewrite (str_new_at mem
               (pre ++ le_bytes 4 (Z.of_nat (length body) + 5)
                ++ 2 :: [36; 114; 101; 102] ++ [0]
                ++ le_bytes 4 (Z.of_nat (length s) + 1))
               ([0] ++ (wire_tag oid :: [36; 105; 100] ++ 0 :: wire_payload rc oid)
                ++ [0] ++ post) s)
      by (mem_def || len_lia).
    cbn [obind].
    rewrite add_int_ok by (int_consts; lia). cbn [obind].
    rewrite add_int_ok by (int_consts; lia). cbn [obind].
    rewrite (rd_at mem
               (pre ++ le_bytes 4 (Z.of_nat (length body) + 5)
                ++ 2 :: [36; 114; 101; 102] ++ [0] ++ ns)
               ([36; 105; 100] ++ 0 :: wire_payload rc oid ++ [0] ++ post)
               (wire_tag oid))
      by (mem_def || (unfold ns; len_lia)).
    cbn [obind].
    rewrite add_int_ok by (int_consts; lia). cbn [obind].
    rewrite (Roid fuel mem
               (pre ++ le_bytes 4 (Z.of_nat (length body) + 5)
                ++ 2 :: [36; 114; 101; 102] ++ [0] ++ ns
                ++ wire_tag oid :: [36; 105; 100] ++ [0])
               (0 :: post) buffer
               (position + 10 + 4 + (Z.of_nat (length s) + 1 - 1 + 1) + 5));
      [| lia | mem_def | unfold ns; len_lia | lia | lia
       | eexists _, _; split; [reflexivity|discriminate]].
    cbn [obind].
    rewrite add_int_ok by (int_consts; lia). cbn [obind].
    do 2 f_equal. len_lia.
  - (* VCode *)
    revert Hm. not_rt Hw. intros Hm.
    match goal with H : names_ok _ |- _ => destruct H as [HK HD] end.
    match goal with H : Forall _ es |- _ => rename H into Hv end.
    cbn [children] in IH.
    pose proof (proj2 (Forall_inv IH) c es eq_refl Hv) as Res.
    change (wire_need (VCode code (VHash c es)))
      with (S (wire_need_entries es)) in Hf.
    change (wire_payload rc (VCode code (VHash c es)))
      with (sized (counted code ++ frame (wire_elements rc es))) in *.
    change (decoded (VCode code (VHash c es)))
      with (VCode code (decoded (VHash c es))).
    rewrite decoded_hash.
    cbn [wire_tag] in *.
    unfold sized, counted, frame in *.
    destruct fuel as [|fuel]; [lia|].
    set (els := wire_elements rc es) in *.
    set (total := Z.of_nat
                    (length ((le_bytes 4 (Z.of_nat (length code) + 1) ++ code ++ [0])
                             ++ le_bytes 4 (Z.of_nat (length els) + 5)
                                ++ els ++ [0])) + 4) in *.
    assert (Lt : total = Z.of_nat (length code) + Z.of_nat (length els) + 14)
      by (unfold total; len_lia).
    assert (Lp : position + total <= INT_MAX) by len_lia.
    rewrite get_value_code_eq.
    rewrite add_int_ok by (int_consts; lia). cbn [obind].
    rewrite (read_int_at mem (pre ++ le_bytes 4 total)
               ((code ++ [0])
                ++ (le_bytes 4 (Z.of_nat (length els) + 5) ++ els ++ [0]) ++ post)
               (Z.of_nat (length code) + 1))
      by (mem_def || len_lia || (apply in_int_intro; int_consts; lia)).
    cbn [obind].
    rewrite sub_int_ok by (int_consts; lia). cbn [obind].
    rewrite add_int_ok by (int_consts; lia). cbn [obind].
    rewrite (str_new_at mem
               (pre ++ le_bytes 4 total ++ le_bytes 4 (Z.of_nat (length code) + 1))
               ([0] ++ (le_bytes 4 (Z.of_nat (length els) + 5) ++ els ++ [0])
                ++ post) code)
      by (mem_def || len_lia).
    cbn [obind].
    rewrite add_int_ok by (int_consts; lia). cbn [obind].
    rewrite add_int_ok by (int_consts; lia). cbn [obind].
    rewrite (read_int_at mem
               (pre ++ le_bytes 4 total ++ le_bytes 4 (Z.of_nat (length code) + 1)
                ++ code ++ [0])
               ((els ++ [0]) ++ post)
               (Z.of_nat (length els) + 5))
      by (mem_def || len_lia || (apply in_int_intro; int_consts; lia)).
    cbn [obind].
    rewrite sub_int_ok by (int_consts; lia). cbn [obind].
    replace (Z.of_nat (length els) + 5 - 5)
      with (0 + Z.of_nat (length els)) by lia.
    subst els.
    rewrite (hash_loop_wire rc host opts es fuel mem
               (pre ++ le_bytes 4 total ++ le_bytes 4 (Z.of_nat (length code) + 1)
                ++ code ++ [0]
                ++ le_bytes 4 (Z.of_nat (length (wire_elements rc es)) + 5))
               (0 :: post)).
    + cbn [obind app]. rewrite add_int_ok by (int_consts; lia).
      cbn [obind]. do 2 f_equal. len_lia.
    + exact Res.
    + now apply names_no_nul.
    + exact HD.
    + apply Forall_forall. intros e _ [].
    + lia.
    + mem_def.
    + len_lia.
    + lia.
    + int_consts. lia.
    + eexists _, _. split; [reflexivity|discriminate].
  - (* VTime *)
    revert Hm. not_rt Hw. intros Hm.
    match goal with H : millis_of _ = Ok _ |- _ => rename H into Hms end.
    destruct fuel as [|fuel]; [cbn in Hf; lia|].
    cbn [wire_payload wire_tag tag_of payload ConvSpec.decoded] in *.
    rewrite Hms in *.
    cbn [get_value Z.eqb Pos.eqb orb].
    rewrite (read_ll_at mem pre post millis)
      by (assumption || mem_eq || (eapply millis_of_range; eassumption)).
    cbn [obind]. arith. do 2 f_equal; len_lia.
  - (* VChars *)
    revert Hm. not_rt Hw. intros Hm.
    match goal with H : validate_utf8_encoding _ true = VALID |- _ =>
      rename H into Hs end.
    exact (rt_reads_ok host opts (VString s) (rt_string s Hs)
             fuel mem pre post buffer position Hf Hm Hb Hp Hl Hpost).
  - (* VBSONRegex *)
    revert Hm. not_rt Hw. intros Hm.
    destruct fuel as [|fuel]; [cbn in Hf; lia|].
    cbn [wire_payload wire_tag ConvSpec.decoded] in *.
    pose proof (regex_flag_bytes_no_nul rc options 0) as Hfl.
    set (fl := regex_flag_bytes rc options 0) in *.
    match goal with H : validate_utf8_encoding _ false = VALID |- _ =>
      apply validate_no_nul in H; rename H into Hpat end.
    cbn [get_value Z.eqb Pos.eqb orb].
    rewrite (strlen_at mem pre (fl ++ [0] ++ post) pattern)
      by (assumption || mem_eq || len_lia).
    cbn [obind].
    rewrite (str_new_at mem pre (0 :: fl ++ [0] ++ post) pattern)
      by (reflexivity || mem_eq || len_lia).
    cbn [obind]. arith.
    rewrite (strlen_at mem (pre ++ pattern ++ [0]) post fl)
      by (assumption || mem_eq || len_lia).
    cbn [obind].
    rewrite (str_new_at mem (pre ++ pattern ++ [0]) (0 :: post) fl)
      by (reflexivity || mem_eq || len_lia).
    cbn [obind]. arith. unfold regex_read. do 2 f_equal. len_lia.
  - (* VRegexp *)
    revert Hm. not_rt Hw. intros Hm.
    destruct fuel as [|fuel]; [cbn in Hf; lia|].
    cbn [wire_payload wire_tag ConvSpec.decoded] in *.
    pose proof (regex_flag_bytes_no_nul rc options 1) as Hfl.
    set (fl := regex_flag_bytes rc options 1) in *.
    match goal with H : validate_utf8_encoding _ false = VALID |- _ =>
      apply validate_no_nul in H; rename H into Hpat end.
    cbn [get_value Z.eqb Pos.eqb orb].
    rewrite (strlen_at mem pre (fl ++ [0] ++ post) src)
      by (assumption || mem_eq || len_lia).
    cbn [obind].
    rewrite (str_new_at mem pre (0 :: fl ++ [0] ++ post) src)
      by (reflexivity || mem_eq || len_lia).
    cbn [obind]. arith.
    rewrite (strlen_at mem (pre ++ src ++ [0]) post fl)
      by (assumption || mem_eq || len_lia).
    cbn [obind].
    rewrite (str_new_at mem (pre ++ src ++ [0]) (0 :: post) fl)
      by (reflexivity || mem_eq || len_lia).
    cbn [obind]. arith. unfold regex_read. do 2 f_equal. len_lia.
Qed.

Lemma wired_reads v : wired v -> reads_wire v.
Proof. apply wired_reads_both. Qed.

End Reads.

(** *** Serialize, then deserialize *)

Lemma serialize_wired rc avail c es :
  wired_doc es ->
  Z.of_nat (length (frame (wire_elements rc es))) <= 4194304 ->
  Z.of_nat (length (frame (wire_elements rc es))) <= avail ->
  fst (method_serialize rc (Some avail) (VHash c es) false false 4194304)
  = Ok (frame (wire_elements rc es)).
Proof.
  intros [[HK _] Hv] Hcap Hroom.
  rewrite method_serialize_eq by reflexivity.
  rewrite write_doc_wire.
  - reflexivity.
  - eapply Forall_impl; [|exact Hv]. intros e. apply wired_writes.
  - exact HK.
  - unfold fits, bson_buffer_set_max_size, bson_buffer_new,
      bson_buffer_get_position.
    cbn [data room length Z.of_nat]. int_consts. lia.
  - cbn [bson_buffer_set_max_size max_size]. exact Hcap.
Qed.

Lemma deserialize_wired rc host es opt fuel :
  wired_doc es ->
  Z.of_nat (length (frame (wire_elements rc es))) <= INT_MAX ->
  (wire_need_entries es <= fuel)%nat ->
  method_deserialize host fuel (frame (wire_elements rc es)) opt
  = Ok (VHash OrderedHash (entries_decoded rc host (opts_of opt) es)).
Proof.
  intros [[HK HD] Hv] Hl Hf. unfold method_deserialize, elements_to_hash.
  fold (opts_of opt).
  rewrite to_signed_32_small by lia.
  unfold frame in *. rewrite sub_int_ok by len_lia. cbn [obind].
  match goal with
  | |- hash_loop _ _ _ _ _ ?M _ _ = _ =>
      replace M with (0 + Z.of_nat (length (wire_elements rc es))) by len_lia
  end.
  rewrite (hash_loop_wire rc host (opts_of opt) es fuel _
             (le_bytes 4 (Z.of_nat (length (wire_elements rc es)) + 5)) [0]).
  - reflexivity.
  - eapply Forall_impl; [|exact Hv]. intros e. apply wired_reads.
  - now apply names_no_nul.
  - exact HD.
  - apply Forall_forall. intros e _ [].
  - exact Hf.
  - reflexivity.
  - len_lia.
  - lia.
  - len_lia.
  - eexists _, _. split; [reflexivity|discriminate].
Qed.


Lemma converted_entries_wired : wired_doc converted_entries.
Proof.
  assert (K : forall k s, name_of k = Some s -> ascii_text s ->
            exists key, name_of k = Some key
                        /\ validate_utf8_encoding key false = VALID).
  { intros k s E Hs. exists s. split; [exact E | now apply validate_ascii]. }
  assert (A : forall s, ascii_text s -> validate_utf8_encoding s true = VALID).
  { intros s Hs. now apply validate_ascii. }
  split; [split|].
  - repeat (constructor;
            [eapply K; [reflexivity | repeat constructor; lia]|]).
    constructor.
  - repeat (constructor; [cbn; intuition discriminate|]). constructor.
  - constructor; [apply wired_rt, rt_int; cbn; int_consts; lia|].
    constructor; [apply wired_symbol|].
    constructor; [apply wired_byte_buffer|].
    constructor.
    { apply wired_dbref; [apply A; repeat constructor; lia|].
      apply wired_rt, rt_oid; [reflexivity|].
      repeat constructor; unfold is_byte; lia. }
    constructor.
    { apply wired_code.
      - split.
        + constructor; [|constructor].
          eapply K; [reflexivity | repeat constructor; lia].
        + repeat (constructor; [cbn; intuition discriminate|]). constructor.
      - constructor; [|constructor]. cbn [snd].
        apply wired_array. repeat constructor. }
    constructor; [apply wired_regexp, validate_ascii; repeat constructor; lia|].
    constructor; [|constructor].
    apply (wired_time _ 1500). reflexivity.
Defined.


End Conversions.

(** ** The round trip with [Time]s *)

Module TimeFacts.
Import Encoder Decoder BytesFacts DecoderFacts EncoderFacts RegexFacts ValueInd
  ErrorFacts Wire RoundTrip Spec ConvSpec Conversions TimeSpec.

Lemma dated_hash_inv c es :
  dated (VHash c es) ->
  keys_ok es /\ not_a_reference es /\ Forall (fun e => dated (snd e)) es.
Proof.
  intros H. inversion H as [v R| | |]; subst.
  - inversion R; subst. split; [assumption|]. split; [assumption|].
    eapply Forall_impl; [|eassumption]. intros e. apply dated_rt.
  - auto.
Qed.

Lemma dated_array_inv items : dated (VArray items) -> Forall dated items.
Proof.
  intros H. inversion H as [v R| | |]; subst.
  - inversion R; subst. eapply Forall_impl; [|eassumption]. apply dated_rt.
  - assumption.
Qed.

Lemma read_back_hash host c es :
  read_back host (VHash c es)
  = VHash OrderedHash (map (fun e => (fst e, read_back host (snd e))) es).
Proof.
  cbn [read_back]. f_equal. induction es as [|[k w] es IH]; [reflexivity|].
  cbn [map fst snd]. f_equal. exact IH.
Qed.

(** Without a [Time], what is read back is the value with ordered
    hashes. *)
Lemma read_back_rt host v : rt v -> read_back host v = as_ordered v.
Proof.
  induction v as [v IH] using value_ind_children. intros R.
  destruct v; try reflexivity; try (now inversion R).
  - inversion R as [| | | | |c' es' HK HN Hv| | | | | | |]; subst.
    rewrite read_back_hash, as_ordered_hash. f_equal.
    cbn [children] in IH. apply Forall_map in IH.
    unfold entries_as_ordered. apply map_ext_in. intros e He. f_equal.
    rewrite Forall_forall in IH, Hv. now apply IH; [|apply Hv].
  - inversion R as [| | | | | |items' Hv| | | | | |]; subst.
    cbn [read_back as_ordered]. f_equal. cbn [children] in IH.
    apply map_ext_in. intros w Hw.
    rewrite Forall_forall in IH, Hv. now apply IH; [|apply Hv].
Qed.

Section Agree.
Variables (rc : regex_consts) (host : regex_host) (opts : deserialize_opts).

Local Abbreviation agrees := (TimeSpec.agrees rc host opts).

Lemma entries_agree es :
  Forall (fun e => exists s, fst e = KStr s) es ->
  Forall (fun e => agrees (snd e)) es ->
  Forall (fun e => wired (snd e)) es
  /\ wire_elements rc es = elements es
  /\ entries_decoded rc host opts es
     = map (fun e => (fst e, read_back host (snd e))) es
  /\ wire_need_entries es = need_entries es.
Proof.
  induction es as [|[k w] es IH]; intros HK Hv.
  - repeat split; constructor.
  - inversion HK as [|? ? [s Hs] HK']; subst.
    inversion Hv as [|? ? (Hw & E1 & E2 & E3 & E4) Hv']; subst.
    cbn [fst snd] in *. subst k.
    destruct (IH HK' Hv') as (I0 & I1 & I2 & I3).
    repeat split.
    + constructor; assumption.
    + cbn [wire_elements elements]. unfold wire_element, element.
      now rewrite E1, E2, I1.
    + unfold entries_decoded in *. cbn [map fst snd key_bytes].
      now rewrite E3, I2.
    + cbn [wire_need_entries need_entries]. now rewrite E4, I3.
Qed.

Lemma items_agree items :
  Forall agrees items ->
  Forall wired items
  /\ (forall i, wire_items_from rc i items = items_from i items)
  /\ map (decoded rc host opts) items = map (read_back host) items
  /\ wire_need_items items = need_items items.
Proof.
  induction items as [|w items IH]; intros Hv.
  - repeat split; constructor.
  - inversion Hv as [|? ? (Hw & E1 & E2 & E3 & E4) Hv']; subst.
    destruct (IH Hv') as (I0 & I1 & I2 & I3).
    repeat split.
    + constructor; assumption.
    + intros i. cbn [wire_items_from items_from]. unfold wire_element, element.
      now rewrite E1, E2, I1.
    + cbn [map]. now rewrite E3, I2.
    + cbn [wire_need_items need_items]. now rewrite E4, I3.
Qed.

Lemma keys_are_strings es :
  keys_ok es -> Forall (fun e : rkey * value => exists s, fst e = KStr s) es.
Proof.
  intros [HK _]. eapply Forall_impl; [|exact HK]. cbn beta.
  intros e (s & Hs & _). now exists s.
Qed.

Lemma dated_agrees v : dated v -> agrees v.
Proof.
  induction v as [v IH] using value_ind_children. intros D.
  destruct v;
    try (inversion D as [v' R| | |]; subst;
         solve [now inversion R
               | repeat split; try reflexivity; now apply wired_rt]).
  - (* VHash *)
    destruct (dated_hash_inv _ _ D) as (HK & HN & Hv).
    cbn [children] in IH. apply Forall_map in IH.
    assert (A : Forall (fun e => agrees (snd e)) entries).
    { rewrite Forall_forall in *. intros e He. now apply IH; [|apply Hv]. }
    destruct (entries_agree entries (keys_are_strings _ HK) A)
      as (I0 & I1 & I2 & I3).
    repeat split.
    + apply wired_hash; [now apply names_of_keys | assumption | assumption].
    + rewrite wire_payload_hash, payload_hash. now rewrite I1.
    + rewrite decoded_hash, read_back_hash. now rewrite I2.
    + rewrite wire_need_hash, need_hash. now rewrite I3.
  - (* VArray *)
    pose proof (dated_array_inv _ D) as Hv.
    cbn [children] in IH.
    assert (A : Forall agrees items).
    { rewrite Forall_forall in *. intros w Hw. now apply IH; [|apply Hv]. }
    destruct (items_agree items A) as (I0 & I1 & I2 & I3).
    repeat split.
    + now apply wired_array.
    + rewrite wire_payload_array, payload_array. now rewrite I1.
    + cbn [decoded read_back]. now rewrite I2.
    + rewrite wire_need_array, need_array. now rewrite I3.
  - (* VTime *)
    inversion D as [v' R|t millis Hm| |]; subst.
    + now inversion R.
    + repeat split. now apply (wired_time _ millis).
Qed.

Lemma dated_doc_agrees es :
  dated_doc es ->
  wired_doc es
  /\ wire_elements rc es = elements es
  /\ entries_decoded rc host opts es
     = map (fun e => (fst e, read_back host (snd e))) es
  /\ wire_need_entries es = need_entries es.
Proof.
  intros [HK Hv].
  assert (A : Forall (fun e => agrees (snd e)) es).
  { eapply Forall_impl; [|exact Hv]. intros e. apply dated_agrees. }
  destruct (entries_agree es (keys_are_strings _ HK) A) as (I0 & I1 & I2 & I3).
  split; [split; [now apply names_of_keys | assumption]|].
  repeat split; assumption.
Qed.

End Agree.

(** A [Time] beyond the precision of a [double] is not written with its
    milliseconds: the [to_f] of the host's [Time] of 2^53 + 1
    milliseconds gives 2^53 milliseconds on the wire, and the [Time] of
    2^53 milliseconds is read back. *)
Lemma time_beyond_double_is_written_rounded :
  fst (method_serialize Host.ruby_consts (Some 4096)
         (VHash PlainHash [(KStr (lit "t"), time_beyond_double)])
         false false 4194304)
  = Ok (frame (9 :: lit "t" ++ 0 :: le_bytes 8 (2 ^ 53)))
  /\ round_trip Host.ruby_consts Host.ruby_regex_host 4096 10 None
       (VHash PlainHash [(KStr (lit "t"), time_beyond_double)])
     = Ok (VHash OrderedHash
             [(KStr (lit "t"), time_of_millis Host.ruby_regex_host (2 ^ 53))]).
Proof. split; vm_compute; reflexivity. Qed.


Lemma dated_entries_dated : dated_doc dated_entries.
Proof.
  split; [split|].
  - repeat (constructor;
            [eexists; split; [reflexivity | reflexivity]|]).
    constructor.
  - repeat (constructor; [cbn; intuition discriminate|]). constructor.
  - constructor; [apply dated_rt, rt_int; cbn; int_consts; lia|].
    constructor; [apply (dated_time _ 1500); reflexivity|].
    constructor; [|constructor]. cbn [snd].
    apply dated_array.
    constructor; [apply (dated_time _ 0); reflexivity|].
    constructor; [apply dated_rt, rt_nil|constructor].
Defined.


End TimeFacts.

(** ** The key checks at every depth *)

Module KeyChecks.
Import Encoder BytesFacts DecoderFacts EncoderFacts RegexFacts ValueInd
  ErrorFacts Wire KeyFacts Spec EncoderSpec EncoderOrder KeySpec.
Local Open Scope enc_scope.

Lemma keys_allowed_hash c es :
  keys_allowed (VHash c es)
  = forallb (fun e => key_allowed (fst e) && keys_allowed (snd e)) es.
Proof.
  cbn [keys_allowed]. induction es as [|[k w] es IH]; [reflexivity|].
  cbn [forallb fst snd]. now rewrite IH.
Qed.

Lemma keys_allowed_array items :
  keys_allowed (VArray items) = forallb keys_allowed items.
Proof.
  cbn [keys_allowed]. induction items as [|w items IH]; [reflexivity|].
  cbn [forallb]. now rewrite IH.
Qed.

Lemma checked_bind {A B} g1 g2 (c1t c1f : enc A) (kt kf : A -> enc B) :
  checked g1 c1t c1f -> (forall a, checked g2 (kt a) (kf a)) ->
  checked (g1 && g2) (bind c1t kt) (bind c1f kf).
Proof.
  intros H1 H2 b a b' E.
  apply bind_ok_inv in E. destruct E as (a1 & b1 & E1 & E2).
  specialize (H1 _ _ _ E1). destruct g1; cbn [andb].
  - rewrite (bind_ok _ _ _ _ _ H1). now apply H2.
  - destruct H1 as (msg & b'' & R & F). exists msg, b''.
    split; [now apply bind_raised | exact F].
Qed.

Lemma checked_same {A} (c : enc A) : checked true c c.
Proof. intros b a b' E. exact E. Qed.

Lemma checked_after {A B} g (c : enc A) (kt kf : A -> enc B) :
  (forall a, checked g (kt a) (kf a)) -> checked g (bind c kt) (bind c kf).
Proof. intros H. apply (checked_bind true g); [apply checked_same | exact H]. Qed.

Lemma checked_before {A B} g (ct cf : enc A) (k : A -> enc B) :
  checked g ct cf -> checked g (bind ct k) (bind cf k).
Proof.
  intros H. rewrite <- (andb_true_r g).
  apply checked_bind; [exact H | intro; apply checked_same].
Qed.

(** The two tests on the key. *)
Lemma checked_key key :
  checked (name_allowed key)
    ((match key with
      | c :: _ =>
          if c =? 36 then
            free_buffer ;;
            rb_raise InvalidKeyName
              ("key " ++ text (cstr key) ++ " must not start with '$'")%string
          else ret tt
      | [] => ret tt
      end) ;;
     (if existsb (fun c => c =? 46) key then
        free_buffer ;;
        rb_raise InvalidKeyName
          ("key " ++ text (cstr key) ++ " must not contain '.'")%string
      else ret tt))
    (ret tt).
Proof.
  intros b a b' E. unfold ret in E. injection E as <- <-.
  unfold name_allowed.
  destruct key as [|c key']; cbn [hd].
  - cbn [existsb Z.eqb negb andb]. reflexivity.
  - destruct (c =? 36); cbn [negb andb].
    + eexists _, _. split; [reflexivity|reflexivity].
    + rewrite bind_ret.
      destruct (existsb (fun c0 => c0 =? 46) (c :: key')); cbn [negb].
      * eexists _, _. split; [reflexivity|reflexivity].
      * reflexivity.
Qed.

Lemma checked_each_entry (ft ff : rkey -> value -> enc unit) es :
  Forall (fun e => checked (key_allowed (fst e) && keys_allowed (snd e))
                     (ft (fst e) (snd e)) (ff (fst e) (snd e))) es ->
  checked (forallb (fun e => key_allowed (fst e) && keys_allowed (snd e)) es)
    (each_entry ft es) (each_entry ff es).
Proof.
  induction 1 as [|[k w] es H _ IH]; cbn [each_entry forallb].
  - apply checked_same.
  - apply checked_bind; [exact H | intro; exact IH].
Qed.

Lemma checked_each_item (ft ff : Z -> value -> enc unit) items :
  forall i, 0 <= i ->
  Forall (fun w => forall i, 0 <= i -> checked (keys_allowed w) (ft i w) (ff i w))
    items ->
  checked (forallb keys_allowed items)
    (each_item ft i items) (each_item ff i items).
Proof.
  intros i Hi H. revert i Hi.
  induction H as [|w items H _ IH]; intros i Hi; cbn [each_item forallb].
  - apply checked_same.
  - apply checked_bind; [now apply H | intro; apply IH; lia].
Qed.

Lemma checked_never {A} g (ct cf : enc A) :
  (forall b a b', cf b <> (Ok a, b')) -> checked g ct cf.
Proof. intros H b a b' E. now apply H in E. Qed.

Lemma checked_as {A} g g' (ct cf : enc A) :
  g = g' -> checked g ct cf -> checked g' ct cf.
Proof. now intros ->. Qed.

Lemma digits_are_digits fuel : forall n acc,
  0 <= n -> Forall (fun b => 48 <= b <= 57) acc ->
  Forall (fun b => 48 <= b <= 57) (digits fuel n acc).
Proof.
  induction fuel as [|fuel IH]; intros n acc Hn Ha; cbn [digits]; [assumption|].
  assert (Forall (fun b => 48 <= b <= 57) ((48 + n mod 10) :: acc)).
  { constructor; [|assumption]. pose proof (Z.mod_pos_bound n 10 ltac:(lia)). lia. }
  destruct (n <? 10); [assumption|].
  apply IH; [|assumption]. apply Z.div_pos; lia.
Qed.

(** The name of an item of an array passes the checks. *)
Lemma printf_d_allowed i : 0 <= i -> name_allowed (printf_d i) = true.
Proof.
  intros Hi. unfold printf_d. destruct (Z.ltb_spec i 0); [lia|].
  pose proof (digits_are_digits 10 i [] Hi (Forall_nil _)) as D.
  unfold name_allowed. apply andb_true_intro. split.
  - destruct (digits 10 i []) as [|c r]; [reflexivity|].
    cbn [hd]. pose proof (Forall_inv D) as Hc. cbn in Hc.
    destruct (Z.eqb_spec c 36); [lia|reflexivity].
  - apply negb_true_iff. apply not_true_is_false. intros C.
    apply existsb_dot in C. rewrite Forall_forall in D.
    apply D in C. lia.
Qed.

Lemma other_key_never rc cls v check_keys allow_id b a b' :
  write_element rc (KOther cls) v check_keys allow_id b <> (Ok a, b').
Proof. destruct v; discriminate. Qed.

(** With [check_keys], an element and a document are written as without
    it when all the keys that are checked pass, and are refused with
    [InvalidKeyName] otherwise. *)
Lemma checked_write_both rc v :
  (forall k, checked (key_allowed k && keys_allowed v)
               (write_element rc k v true 1) (write_element rc k v false 1))
  /\ checked (keys_allowed v)
       (write_doc rc v true false) (write_doc rc v false false).
Proof.
  induction v as [v IH] using value_ind_children.
  assert (D : checked (keys_allowed v)
                (write_doc rc v true false) (write_doc rc v false false)).
  { unfold write_doc, write_doc_with, classname_comma_Hash_is_null.
    apply checked_after. intros start_position.
    apply checked_after. intros length_location.
    lazy beta iota zeta.
    match goal with
    | |- checked ?g (bind (ret ?a) ?kt) (bind (ret ?a) ?kf) =>
        change (checked g (kt a) (kf a))
    end.
    lazy beta iota zeta.
    destruct v as [| | | | |c es| | | | | | | | | | | | | | | | | |];
      try (apply checked_never; intros b a b' E;
           apply bind_ok_inv in E; destruct E as (? & ? & E & _);
           discriminate E).
    rewrite keys_allowed_hash.
    assert (E : forall ck,
              (match c with
               | PlainHash | _ =>
                   each_entry (fun key value => write_element rc key value ck 1) es
               end)
              = each_entry (fun key value => write_element rc key value ck 1) es)
      by (now destruct c).
    rewrite !E. clear E.
    apply checked_before. apply checked_each_entry.
    cbn [children] in IH. apply Forall_map in IH.
    eapply Forall_impl; [|exact IH]. cbn beta. intros [k w] [Hw _]. apply Hw. }
  split; [|exact D].
  assert (S : forall key,
             checked (name_allowed key && keys_allowed v)
               (write_element rc (KStr key) v true 1)
               (write_element rc (KStr key) v false 1)).
  { intros key.
    destruct v; cbn [write_element Z.eqb andb];
      (apply checked_bind; [apply checked_key | intros []]);
      try apply checked_same.
    - (* VHash *)
      apply checked_after. intros []. apply D.
    - (* VArray *)
      rewrite keys_allowed_array.
      apply checked_after. intros [].
      apply checked_after. intros start_position.
      apply checked_after. intros length_location.
      apply checked_before. apply checked_each_item; [lia|].
      cbn [children] in IH.
      eapply Forall_impl; [|exact IH]. cbn beta. intros w [Hw _] i Hi.
      eapply checked_as; [|apply (Hw (KStr (INT2STRING i)))].
      cbn [key_allowed name_of]. unfold INT2STRING.
      now rewrite printf_d_allowed. }
  intros [key|name|cls].
  - apply S.
  - rewrite !write_element_symbol_key. apply S.
  - apply checked_never. apply other_key_never.
Qed.

Lemma name_allowed_bad key : bad_key key -> name_allowed key = false.
Proof.
  unfold name_allowed. intros [[rest ->]|H].
  - reflexivity.
  - apply existsb_dot in H. rewrite H. apply andb_false_r.
Qed.

Lemma key_allowed_bad k key :
  name_of k = Some key -> bad_key key -> key_allowed k = false.
Proof. unfold key_allowed. intros -> H. now apply name_allowed_bad. Qed.

(** [serialize] with [check_keys], against [serialize] without it. *)
Lemma serialize_checked rc avail c es move_id max_size bytes b :
  method_serialize rc (Some avail) (VHash c es) false move_id max_size
  = (Ok bytes, b) ->
  if keys_allowed (VHash c (written_entries move_id es))
  then method_serialize rc (Some avail) (VHash c es) true move_id max_size
       = (Ok bytes, b)
  else exists msg b',
         method_serialize rc (Some avail) (VHash c es) true move_id max_size
         = (Raised (Exn InvalidKeyName msg), Some b')
         /\ freed b' = true.
Proof.
  intros H.
  destruct (in_int max_size) eqn:E.
  2:{ unfold method_serialize, FIX2INT in H. rewrite E in H. discriminate H. }
  rewrite method_serialize_eq in * by assumption.
  set (b0 := bson_buffer_set_max_size (bson_buffer_new avail) max_size) in *.
  assert (W : write_doc rc (VHash c es) false move_id b0
              = write_doc rc (VHash c (written_entries move_id es)) false false b0
              /\ write_doc rc (VHash c es) true move_id b0
                 = write_doc rc (VHash c (written_entries move_id es)) true false b0).
  { unfold written_entries. destruct move_id; [|split; reflexivity].
    split; apply write_doc_id_first. }
  destruct W as [Wf Wt]. rewrite Wf in H. rewrite Wt. clear Wf Wt.
  destruct (write_doc rc (VHash c (written_entries move_id es)) false false b0)
    as [[[]| | |] b1] eqn:W; try discriminate H.
  pose proof (proj2 (checked_write_both rc (VHash c (written_entries move_id es)))
                b0 tt b1 W) as K.
  destruct (keys_allowed (VHash c (written_entries move_id es))).
  - rewrite K. exact H.
  - destruct K as (msg & b'' & -> & F). eauto.
Qed.

(** C7, amended. With [check_keys = true], [write_element] refuses every
    element whose key, a string or the name of a symbol, begins with '$'
    or contains '.', unless it is an [_id] that is being suppressed: it
    frees the buffer and raises [InvalidKeyName], whatever the value; a
    top-level document fails so at the first such key when the entries
    before it are written. The check reaches the keys of the documents
    held as values and in arrays, at any depth, with and without
    [move_id]: a document that [serialize] writes without [check_keys] is
    written to the same bytes with it when every key that is checked is
    allowed, and is refused with [InvalidKeyName], the buffer freed, when
    one of them is not. The check does not reach what is written inside a
    [DBRef] or the scope of a [Code]: under a key that passes, both are
    written as with [check_keys = false], and a [DBRef] of a string and an
    ObjectId becomes the document with the keys ["$ref"] and ["$id"]. *)
Theorem check_keys_rejects_dollar_and_dot :
  forall rc k key,
    name_of k = Some key -> bad_key key ->
    (forall value allow_id b,
        not_suppressed allow_id key ->
        exists msg,
          write_element rc k value true allow_id b
          = (Raised (Exn InvalidKeyName msg), snd (bson_buffer_free b)))
    /\ (forall avail c pre v post max_size bytes,
        fst (method_serialize rc (Some avail) (VHash c pre) true false max_size)
        = Ok bytes ->
        exists msg b,
          method_serialize rc (Some avail) (VHash c (pre ++ (k, v) :: post))
            true false max_size
          = (Raised (Exn InvalidKeyName msg), Some b) /\ freed b = true)
    /\ (forall name ns oid allow_id,
        key_passes true name ->
        write_element rc (KStr name) (VDBRef ns oid) true allow_id
        = write_element rc (KStr name) (VDBRef ns oid) false allow_id)
    /\ (forall name code scope allow_id,
        key_passes true name ->
        write_element rc (KStr name) (VCode code scope) true allow_id
        = write_element rc (KStr name) (VCode code scope) false allow_id)
    /\ (forall name s o allow_id b,
        validate_utf8_encoding name false = VALID ->
        key_passes true name -> not_suppressed allow_id name ->
        validate_utf8_encoding s true = VALID ->
        length o = 12%nat -> Forall is_byte o ->
        fits b (Z.of_nat (length (3 :: name ++ 0 :: dbref_document s o))) ->
        write_element rc (KStr name) (VDBRef (VString s) (VObjectId o)) true
          allow_id b
        = (Ok tt, appended b (3 :: name ++ 0 :: dbref_document s o)))
    /\ key_allowed k = false
    /\ (forall avail c es move_id max_size bytes b,
        method_serialize rc (Some avail) (VHash c es) false move_id max_size
        = (Ok bytes, b) ->
        if keys_allowed (VHash c (written_entries move_id es))
        then method_serialize rc (Some avail) (VHash c es) true move_id max_size
             = (Ok bytes, b)
        else exists msg b',
               method_serialize rc (Some avail) (VHash c es) true move_id
                 max_size
               = (Raised (Exn InvalidKeyName msg), Some b')
               /\ freed b' = true).
Proof.
  intros rc k key Hk Hbad. repeat split.
  - intros value allow_id b Hs. now apply (write_element_rejects rc k key).
  - intros avail c pre v post max_size bytes Hpre.
    now apply (serialize_rejects rc avail c pre k key v post max_size bytes).
  - intros name ns oid allow_id Hp. now apply check_keys_irrelevant.
  - intros name code scope allow_id Hp. now apply check_keys_irrelevant.
  - intros name s o allow_id b. apply write_element_dbref.
  - now apply (key_allowed_bad k key).
  - intros avail c es move_id max_size bytes b. apply serialize_checked.
Qed.

Lemma check_keys_rejects_dollar_and_dot_witness :
  exists msg b,
    method_serialize Host.ruby_consts (Some 4096)
      (VHash PlainHash dollar_three_levels_down) true true 4194304
    = (Raised (Exn InvalidKeyName msg), Some b) /\ freed b = true.
Proof.
  assert (B : bad_key (lit "$c")) by (left; eexists; reflexivity).
  destruct (check_keys_rejects_dollar_and_dot Host.ruby_consts
              (KStr (lit "$c")) (lit "$c") eq_refl B) as (_ & _ & _ & _ & _ & _ & T).
  eassert (E : method_serialize Host.ruby_consts (Some 4096)
                 (VHash PlainHash dollar_three_levels_down) false true 4194304
               = (Ok _, _)) by (vm_compute; reflexivity).
  exact (T 4096 PlainHash dollar_three_levels_down true 4194304 _ _ E).
Defined.

End KeyChecks.

(** ** The decoder past the end of its input *)

Module DecoderBounds.
Import Encoder Decoder BytesFacts DecoderFacts EncoderFacts ValueInd ErrorFacts
  Wire RoundTrip Spec.

Ltac steps :=
  repeat (rewrite ?add_int_ok, ?sub_int_ok by (int_consts; len_lia);
          progress cbn [obind]).

Section Through.
Variables (host : regex_host) (opts : deserialize_opts).

(** The loop of [elements_to_hash] goes through the elements that are
    whole and comes to what follows them. *)
Lemma hash_loop_through es : forall fuel mem pre post buffer position acc max,
  Forall (fun e => rt (snd e)) es ->
  Forall (fun e => exists s, fst e = KStr s /\ no_nul s) es ->
  NoDup (map fst es) ->
  Forall (fun e => ~ In (fst e) (map fst acc)) es ->
  Forall (fun e => (need (snd e) <= fuel)%nat) es ->
  mem = pre ++ elements es ++ post ->
  buffer + position = Z.of_nat (length pre) ->
  0 <= position ->
  position + Z.of_nat (length (elements es)) < max ->
  max <= INT_MAX ->
  post_ok post ->
  hash_loop host mem (length es + fuel) opts buffer max position acc
  = hash_loop host mem fuel opts buffer max
      (position + Z.of_nat (length (elements es)))
      (acc ++ entries_as_ordered es).
Proof.
  induction es as [|[k w] es IH];
    intros fuel mem pre post buffer position acc max
      Hr Hk Hn Ha Hf Hm Hb Hp Hl Hmax Hpost.
  - cbn [elements length entries_as_ordered map Nat.add].
    now rewrite Z.add_0_r, app_nil_r.
  - pose proof (Forall_inv Hk) as (s & Hs & Hnul). cbn [fst] in Hs. subst k.
    pose proof (rt_reads_ok host opts w (Forall_inv Hr)) as Hw.
    pose proof (Forall_inv Hf) as Hfw. cbn [snd] in Hfw.
    cbn [elements key_bytes length Nat.add] in *. unfold element in *.
    assert (Ls : Z.of_nat (length s) <= INT_MAX) by len_lia.
    rewrite hash_loop_eq.
    rewrite ltb_true_intro by len_lia.
    rewrite (rd_at mem pre
               ((s ++ 0 :: payload w) ++ elements es ++ post) (tag_of w))
      by (assumption || (mem_eq)).
    cbn [obind]. rewrite add_int_ok by (int_consts; len_lia). cbn [obind].
    rewrite (strlen_at mem (pre ++ [tag_of w]) (payload w ++ elements es ++ post) s)
      by (assumption || (mem_eq) || len_lia).
    cbn [obind].
    rewrite (str_new_at mem (pre ++ [tag_of w])
               (0 :: payload w ++ elements es ++ post) s)
      by (reflexivity || (mem_eq) || len_lia).
    cbn [obind]. rewrite add_int_ok by (int_consts; len_lia). cbn [obind].
    rewrite add_int_ok by (int_consts; len_lia). cbn [obind].
    rewrite (Hw (length es + fuel)%nat mem (pre ++ tag_of w :: s ++ [0])
               (elements es ++ post)
               buffer (position + 1 + (Z.of_nat (length s) + 1)));
      [|lia|mem_eq|len_lia|lia|len_lia|now apply post_ok_elements].
    cbn [obind].
    rewrite ordered_hash_set_fresh.
    2:{ pose proof (Forall_inv Ha) as Hfresh. cbn [fst] in Hfresh.
        apply Forall_forall. intros e He C. apply Hfresh.
        rewrite <- C. now apply in_map. }
    rewrite (IH fuel mem (pre ++ tag_of w :: s ++ 0 :: payload w) post);
      [| exact (Forall_inv_tail Hr) | exact (Forall_inv_tail Hk)
       | now inversion Hn | | exact (Forall_inv_tail Hf) | mem_eq | len_lia | lia
       | len_lia | assumption | assumption].
    + cbn [entries_as_ordered map fst snd]. rewrite <- app_assoc. cbn [app].
      f_equal. len_lia.
    + apply Forall_forall. intros e He C.
      rewrite map_app in C. apply in_app_or in C. destruct C as [C|C].
      * pose proof (Forall_inv_tail Ha) as Hfresh.
        rewrite Forall_forall in Hfresh. now apply (Hfresh e He).
      * cbn in C. destruct C as [C|[]]. inversion Hn as [|? ? Hnotin _]; subst.
        apply Hnotin. rewrite C. now apply in_map.
Qed.

(** One turn of the loop: the tag and the name are read, and [get_value]
    is called on what follows them. *)
Lemma hash_loop_element fuel mem pre t key rest buffer position acc max :
  mem = pre ++ t :: key ++ 0 :: rest ->
  buffer + position = Z.of_nat (length pre) ->
  0 <= position -> position < max ->
  no_nul key ->
  position + Z.of_nat (length key) + 2 <= INT_MAX ->
  hash_loop host mem (S fuel) opts buffer max position acc
  = obind (get_value host mem fuel opts buffer
             (position + 1 + (Z.of_nat (length key) + 1)) t)
      (fun '(value, position) =>
         hash_loop host mem fuel opts buffer max position
           (ordered_hash_set acc key value)).
Proof.
  intros Hm Hb Hp Hlt Hk Hl.
  rewrite hash_loop_eq. rewrite ltb_true_intro by assumption.
  rewrite (rd_at mem pre (key ++ 0 :: rest) t) by assumption.
  cbn [obind]. rewrite add_int_ok by (int_consts; lia). cbn [obind].
  rewrite (strlen_at mem (pre ++ [t]) rest key)
    by (assumption || mem_eq || len_lia).
  cbn [obind].
  rewrite (str_new_at mem (pre ++ [t]) (0 :: rest) key)
    by (reflexivity || mem_eq || len_lia).
  cbn [obind]. rewrite add_int_ok by (int_consts; lia). cbn [obind].
  rewrite add_int_ok by (int_consts; lia). cbn [obind].
  reflexivity.
Qed.

End Through.

Lemma length_need_entries es : (length es + 1 <= need_entries es)%nat.
Proof.
  induction es as [|[k w] es IH]; cbn [length need_entries]; lia.
Qed.

Lemma need_in_need_entries es :
  Forall (fun e => (length es + need (snd e) <= need_entries es)%nat) es.
Proof.
  induction es as [|[k w] es IH]; [constructor|].
  cbn [length need_entries]. constructor.
  - cbn [snd]. pose proof (length_need_entries es). lia.
  - eapply Forall_impl; [|exact IH]. cbn beta. intros e He. lia.
Qed.

(** [deserialize] comes to the element that follows whole elements. *)
Lemma deserialize_through host fuel prefix es t key rest opt :
  length prefix = 4%nat ->
  Forall (fun e => exists s, fst e = KStr s /\ no_nul s) es ->
  NoDup (map fst es) ->
  Forall (fun e => rt (snd e)) es ->
  no_nul key -> t <> 36 ->
  (need_entries es + 1 <= fuel)%nat ->
  Z.of_nat (length (prefix ++ elements es ++ t :: key ++ 0 :: rest)) <= INT_MAX ->
  exists opts fuel' next,
    method_deserialize host fuel (prefix ++ elements es ++ t :: key ++ 0 :: rest) opt
    = obind (get_value host (prefix ++ elements es ++ t :: key ++ 0 :: rest)
               (S fuel') opts 4
               (Z.of_nat (length (elements es)) + 1 + (Z.of_nat (length key) + 1)) t)
        next.
Proof.
  intros Hp Hk Hn Hr Hnul Ht Hf Hl.
  set (mem := prefix ++ elements es ++ t :: key ++ 0 :: rest) in *.
  pose proof (length_need_entries es) as Hle.
  pose proof (need_in_need_entries es) as Hin.
  destruct (Nat.le_exists_sub (length es + 2) fuel ltac:(lia)) as (f & Ef & _).
  exists {| compile_regex := match opt with Some VFalse => 0 | _ => 1 end |}, f.
  eexists.
  unfold method_deserialize, elements_to_hash.
  assert (Hlen : Z.of_nat (length mem)
                 = Z.of_nat (length (elements es ++ t :: key ++ 0 :: rest)) + 4).
  { unfold mem. len_lia. }
  rewrite Hlen, to_signed_32_small by (int_consts; lia).
  rewrite sub_int_ok by (int_consts; len_lia). cbn [obind].
  replace fuel with (length es + S (S f))%nat by lia.
  rewrite (hash_loop_through host _ es (S (S f)) mem prefix (t :: key ++ 0 :: rest));
    [| assumption | assumption | assumption
     | apply Forall_forall; intros e _ []
     | eapply Forall_impl; [|exact Hin]; cbn beta; intros e He; lia
     | reflexivity | len_lia | lia | len_lia | len_lia
     | eexists _, _; split; [reflexivity|assumption]].
  rewrite (hash_loop_element host _ (S f) mem (prefix ++ elements es) t key rest);
    [| unfold mem; mem_eq | len_lia | len_lia | len_lia | assumption | len_lia].
  rewrite Z.add_0_l. reflexivity.
Qed.



End DecoderBounds.

(** ** Documents: the [_id] that is moved, the integers *)

Module DocumentFacts.
Import Encoder Decoder BytesFacts DecoderFacts EncoderFacts RegexFacts ValueInd
  ErrorFacts Wire RoundTrip KeyFacts Spec EncoderSpec EncoderOrder KeySpec
  KeyChecks IntegerSpec.
Local Open Scope enc_scope.

Lemma serialize_rt_under rc avail c es cap :
  rt_doc es ->
  in_int cap = true ->
  Z.of_nat (length (frame (elements es))) <= cap ->
  Z.of_nat (length (frame (elements es))) <= avail ->
  exists b,
    method_serialize rc (Some avail) (VHash c es) false false cap
    = (Ok (frame (elements es)), Some b) /\ freed b = true.
Proof.
  intros [[HK _] Hv] Hin Hcap Hroom.
  rewrite method_serialize_eq by assumption.
  rewrite write_doc_ok.
  - eexists. split; reflexivity.
  - eapply Forall_impl; [|exact Hv]. intros e. apply rt_writes_ok.
  - exact HK.
  - unfold in_int in Hin. apply andb_prop in Hin. destruct Hin as [_ Hin].
    apply Z.leb_le in Hin.
    unfold fits, bson_buffer_set_max_size, bson_buffer_new,
      bson_buffer_get_position.
    cbn [data room length Z.of_nat]. int_consts. lia.
  - cbn [bson_buffer_set_max_size max_size]. exact Hcap.
Qed.

Lemma app_same_length {A} (a b x y : list A) :
  length a = length b -> a ++ x = b ++ y -> x = y.
Proof.
  revert b. induction a as [|h a IH]; intros [|h' b] L E; try discriminate.
  - exact E.
  - cbn in L, E. injection E as _ E. apply (IH b); [lia | exact E].
Qed.

Lemma frame_inj x y : frame x = frame y -> x = y.
Proof.
  unfold frame. intros E.
  apply app_same_length in E; [|now rewrite !le_bytes_length].
  now apply app_inv_tail in E.
Qed.

Lemma elements_app es1 es2 : elements (es1 ++ es2) = elements es1 ++ elements es2.
Proof.
  induction es1 as [|[k w] es1 IH]; [reflexivity|].
  cbn [app elements]. now rewrite IH, app_assoc.
Qed.

Lemma without_id_no_id es :
  Forall (fun e => id_key (fst e) = false) (without_id es).
Proof.
  unfold without_id. apply Forall_forall. intros e He.
  apply filter_In in He. destruct He as [_ He].
  now apply negb_true_iff in He.
Qed.

Lemma serialize_move_id rc heap c es v check_keys max_size :
  with_entry es id_str Some None = Some v ->
  method_serialize rc heap (VHash c es) check_keys true max_size
  = method_serialize rc heap (VHash c ((id_str, v) :: without_id es))
      check_keys false max_size.
Proof.
  intros Hv.
  unfold method_serialize. destruct heap as [avail|]; [|reflexivity].
  match goal with
  | |- (let (_, _) := ?X in _) = (let (_, _) := ?Y in _) =>
      assert (E : X = Y); [|rewrite E; reflexivity]
  end.
  apply bind_ext. intros m b1.
  apply bind_ext. intros [] b2.
  apply bind_cong. apply write_doc_move_id, Hv.
Qed.

(** C3, amended. With [move_id] on, a hash that holds the string key
    ["_id"], whether or not it holds the symbol [:_id] as well, is
    serialized to the frame that starts with one element ["_id"] holding
    the value stored under the string key, followed by the elements of
    the entries that are not written as [_id], in their order: a single
    [_id] element, first, under the string key, with the value of the
    string key; the value under [:_id] is not written. This is what
    [serialize] without [move_id] returns for the hash of these
    entries, whatever [check_keys] and the cap are. *)
Theorem move_id_writes_the_string_id :
  forall rc avail c es v,
    with_entry es id_str Some None = Some v ->
    rt_doc ((id_str, v) :: without_id es) ->
    Z.of_nat (length (frame (elements ((id_str, v) :: without_id es))))
    <= 4194304 ->
    Z.of_nat (length (frame (elements ((id_str, v) :: without_id es))))
    <= avail ->
    fst (method_serialize rc (Some avail) (VHash c es) false true 4194304)
    = Ok (frame (element (lit "_id") v ++ elements (without_id es)))
    /\ Forall (fun e => id_key (fst e) = false) (without_id es)
    /\ (forall heap check_keys max_size,
          method_serialize rc heap (VHash c es) check_keys true max_size
          = method_serialize rc heap (VHash c ((id_str, v) :: without_id es))
              check_keys false max_size).
Proof.
  intros rc avail c es v Hv Hrt Hcap Hroom. split; [|split].
  - rewrite (serialize_move_id rc (Some avail) c es v false 4194304 Hv).
    now apply serialize_rt.
  - apply without_id_no_id.
  - intros heap check_keys max_size. now apply serialize_move_id.
Qed.

Lemma move_id_writes_the_string_id_witness :
  fst (method_serialize Host.ruby_consts (Some 4096)
         (VHash PlainHash [(KStr (lit "a"), VNil); (KSym (lit "_id"), VInt 2);
                           (KStr (lit "_id"), VInt 1)]) false true 4194304)
  = Ok (frame (element (lit "_id") (VInt 1)
               ++ elements [(KStr (lit "a"), VNil)])).
Proof.
  refine (proj1 (move_id_writes_the_string_id Host.ruby_consts 4096 PlainHash
                   [(KStr (lit "a"), VNil); (KSym (lit "_id"), VInt 2);
                    (KStr (lit "_id"), VInt 1)] (VInt 1) _ _ _ _)).
  - reflexivity.
  - split; [split|].
    + repeat (constructor;
              [eexists; split; [reflexivity | reflexivity]|]).
      constructor.
    + repeat (constructor; [cbn; intuition discriminate|]). constructor.
    + repeat constructor; vm_compute; discriminate.
  - vm_compute. discriminate.
  - vm_compute. discriminate.
Defined.

(** *** Integers *)

Lemma keys_ok_app es1 es2 : keys_ok (es1 ++ es2) -> keys_ok es1.
Proof.
  intros [HK HD]. split.
  - apply Forall_app in HK. tauto.
  - rewrite map_app in HD. now apply NoDup_app_remove_r in HD.
Qed.

Lemma name_allowed_passes check_keys key :
  (check_keys = true -> name_allowed key = true) -> key_passes check_keys key.
Proof.
  intros H E. specialize (H E). unfold name_allowed in H.
  apply andb_prop in H. destruct H as [H1 H2].
  apply negb_true_iff in H1, H2. split.
  - intros C. rewrite C in H1. discriminate H1.
  - intros C. apply existsb_dot in C. congruence.
Qed.

Lemma keys_allowed_app c es1 es2 :
  keys_allowed (VHash c (es1 ++ es2)) = true ->
  keys_allowed (VHash c es1) = true /\ keys_allowed (VHash c es2) = true.
Proof.
  rewrite !keys_allowed_hash, forallb_app. apply andb_prop.
Qed.

(** [serialize] with [check_keys] returns what it returns without it
    when the keys pass. *)
Lemma serialize_with_keys rc avail c es check_keys cap bytes b :
  (check_keys = true -> keys_allowed (VHash c es) = true) ->
  method_serialize rc (Some avail) (VHash c es) false false cap = (Ok bytes, b) ->
  method_serialize rc (Some avail) (VHash c es) check_keys false cap
  = (Ok bytes, b).
Proof.
  intros Hk H. destruct check_keys; [|exact H].
  pose proof (serialize_checked rc avail c es false cap bytes b H) as K.
  unfold written_entries in K. now rewrite (Hk eq_refl) in K.
Qed.

Section Integer.
Variables (rc : regex_consts) (avail : Z) (c : hash_class)
  (pre post : list (rkey * value)) (key : bytes) (n : Z)
  (check_keys : bool) (cap : Z).

Local Abbreviation es := (pre ++ (KStr key, VInt n) :: post).
Local Abbreviation r :=
  (method_serialize rc (Some avail) (VHash c es) check_keys false cap).
Local Abbreviation written t w := (with_integer pre key t w n post).

Hypothesis Hkeys : keys_ok es.
Hypothesis Hpre : Forall (fun e => rt (snd e)) pre.
Hypothesis Hpost : Forall (fun e => rt (snd e)) post.
Hypothesis Hallowed : check_keys = true -> keys_allowed (VHash c es) = true.
Hypothesis Hcap : in_int cap = true.
Hypothesis Hlen : Z.of_nat (length (written 18 8)) <= cap.
Hypothesis Hroom : Z.of_nat (length (written 18 8)) <= avail.

Lemma integer_written :
  LLONG_MIN <= n <= LLONG_MAX ->
  exists b,
    r = (Ok (written (if in_int n then 16 else 18) (if in_int n then 4 else 8)),
         Some b).
Proof using All.
  intros Hn.
  assert (Hrt : rt_doc es).
  { split; [exact Hkeys|]. apply Forall_app. split; [assumption|].
    constructor; [now constructor | assumption]. }
  assert (E : elements es
              = elements pre
                ++ ((if in_int n then 16 else 18) :: key ++ 0
                    :: le_bytes (if in_int n then 4 else 8) n)
                ++ elements post).
  { rewrite elements_app. cbn [elements key_bytes].
    unfold element. cbn [tag_of payload]. now destruct (in_int n). }
  destruct (serialize_rt_under rc avail c es cap Hrt Hcap) as (b & S & _).
  - rewrite E. unfold with_integer, frame in *. destruct (in_int n); len_lia.
  - rewrite E. unfold with_integer, frame in *. destruct (in_int n); len_lia.
  - exists b.
    rewrite (serialize_with_keys rc avail c es check_keys cap _ _ Hallowed S).
    unfold with_integer. now rewrite E.
Qed.

Lemma integer_refused :
  n < LLONG_MIN \/ LLONG_MAX < n ->
  exists b,
    r = (Raised (Exn RangeError "MongoDB can only handle 8-byte ints"), Some b)
    /\ freed b = true.
Proof using All.
  intros Hn.
  assert (Hk : keys_ok pre) by (apply (keys_ok_app pre _ Hkeys)).
  assert (Hrt : rt_doc pre) by (split; assumption).
  destruct (serialize_rt_under rc avail c pre cap Hrt Hcap) as (b & S & _).
  - unfold with_integer, frame in *. len_lia.
  - unfold with_integer, frame in *. len_lia.
  - assert (Ha : check_keys = true -> keys_allowed (VHash c pre) = true).
    { intros C. now apply (keys_allowed_app c pre _ (Hallowed C)). }
    pose proof (serialize_with_keys rc avail c pre check_keys cap _ _ Ha S) as S'.
    apply (serialize_stops_at rc avail c pre (KStr key) (VInt n) post check_keys cap
             (frame (elements pre))).
    + now rewrite S'.
    + intros b0.
      destruct Hkeys as [HK _]. apply Forall_app in HK.
      destruct HK as [_ HK]. pose proof (Forall_inv HK) as (s & Es & Hv).
      cbn [fst] in Es. injection Es as <-.
      apply (write_element_int rc key n check_keys 1 b0); try assumption.
      * apply name_allowed_passes. intros C. specialize (Hallowed C).
        apply (keys_allowed_app c pre) in Hallowed. destruct Hallowed as [_ A].
        rewrite keys_allowed_hash in A. cbn [forallb fst snd] in A.
        apply andb_prop in A. destruct A as [A _].
        apply andb_prop in A. now destruct A as [A _].
      * intros C. discriminate C.
Qed.

End Integer.

(** [serialize] with [move_id] is [serialize] without it, of the entries
    that [move_id] has written. *)
Lemma serialize_written_entries rc heap c es check_keys move_id max_size :
  method_serialize rc heap (VHash c es) check_keys move_id max_size
  = method_serialize rc heap (VHash c (written_entries move_id es))
      check_keys false max_size.
Proof.
  unfold written_entries. destruct move_id; [|reflexivity].
  unfold method_serialize. destruct heap as [avail|]; [|reflexivity].
  match goal with
  | |- (let (_, _) := ?X in _) = (let (_, _) := ?Y in _) =>
      assert (E : X = Y); [|rewrite E; reflexivity]
  end.
  apply bind_ext. intros m b1.
  apply bind_ext. intros [] b2.
  apply bind_cong. apply write_doc_id_first.
Qed.

(** *** Integers at any depth *)

Lemma ints_fit_hash c es :
  ints_fit (VHash c es) = forallb (fun e => ints_fit (snd e)) es.
Proof.
  cbn [ints_fit]. induction es as [|[k w] es IH]; [reflexivity|].
  cbn [forallb snd]. now rewrite IH.
Qed.

Lemma ints_fit_array items : ints_fit (VArray items) = forallb ints_fit items.
Proof.
  cbn [ints_fit]. induction items as [|w items IH]; [reflexivity|].
  cbn [forallb]. now rewrite IH.
Qed.

Lemma clamped_hash c es :
  clamped (VHash c es) = VHash c (map (fun e => (fst e, clamped (snd e))) es).
Proof.
  cbn [clamped]. f_equal. induction es as [|[k w] es IH]; [reflexivity|].
  cbn [map fst snd]. now rewrite IH.
Qed.

Lemma clamped_fit v : ints_fit v = true -> clamped v = v.
Proof.
  induction v as [v IH] using value_ind_children. intros F.
  destruct v; try reflexivity; cbn [children] in IH.
  - cbn [ints_fit clamped] in *. now rewrite F.
  - rewrite clamped_hash. f_equal. rewrite ints_fit_hash in F.
    rewrite forallb_forall in F. apply Forall_map in IH.
    rewrite Forall_forall in IH.
    rewrite <- (map_id entries) at 2. apply map_ext_in. intros [k w] He.
    cbn [fst snd]. f_equal. apply (IH _ He). apply (F _ He).
  - cbn [clamped]. f_equal. rewrite ints_fit_array in F.
    rewrite forallb_forall in F. rewrite Forall_forall in IH.
    rewrite <- (map_id items) at 2. apply map_ext_in. intros w Hw.
    apply (IH _ Hw). apply (F _ Hw).
  - cbn [ints_fit clamped] in *. apply andb_prop in F. destruct F as [F1 F2].
    inversion IH as [|? ? I1 IH']; subst. inversion IH' as [|? ? I2 _]; subst.
    now rewrite I1, I2.
  - cbn [ints_fit clamped] in *. inversion IH as [|? ? I1 _]; subst.
    now rewrite I1.
Qed.

Lemma is_hash_clamped v : is_hash (clamped v) = is_hash v.
Proof.
  destruct v; try reflexivity. cbn [clamped]. now destruct (in_long_long n).
Qed.

Lemma ranged_bind {A B} g1 g2 (c1t c1f : enc A) (kt kf : A -> enc B) :
  ranged g1 c1t c1f -> (forall a, ranged g2 (kt a) (kf a)) ->
  ranged (g1 && g2) (bind c1t kt) (bind c1f kf).
Proof.
  intros H1 H2 b a b' E.
  apply bind_ok_inv in E. destruct E as (a1 & b1 & E1 & E2).
  specialize (H1 _ _ _ E1). destruct g1; cbn [andb].
  - rewrite (bind_ok _ _ _ _ _ H1). now apply H2.
  - destruct H1 as (b'' & R & F). exists b''.
    split; [now apply bind_raised | exact F].
Qed.

Lemma ranged_same {A} (c : enc A) : ranged true c c.
Proof. intros b a b' E. exact E. Qed.

Lemma ranged_after {A B} g (c : enc A) (kt kf : A -> enc B) :
  (forall a, ranged g (kt a) (kf a)) -> ranged g (bind c kt) (bind c kf).
Proof. intros H. apply (ranged_bind true g); [apply ranged_same | exact H]. Qed.

Lemma ranged_before {A B} g (ct cf : enc A) (k : A -> enc B) :
  ranged g ct cf -> ranged g (bind ct k) (bind cf k).
Proof.
  intros H. rewrite <- (andb_true_r g).
  apply ranged_bind; [exact H | intro; apply ranged_same].
Qed.

Lemma ranged_never {A} g (ct cf : enc A) :
  (forall b a b', cf b <> (Ok a, b')) -> ranged g ct cf.
Proof. intros H b a b' E. now apply H in E. Qed.

Lemma each_entry_clamped (f : rkey -> value -> enc unit) es :
  each_entry f (map (fun e => (fst e, clamped (snd e))) es)
  = each_entry (fun k w => f k (clamped w)) es.
Proof.
  induction es as [|[k w] es IH]; [reflexivity|].
  cbn [map each_entry fst snd]. now rewrite IH.
Qed.

Lemma each_item_clamped (f : Z -> value -> enc unit) items : forall i,
  each_item f i (map clamped items)
  = each_item (fun i w => f i (clamped w)) i items.
Proof.
  induction items as [|w items IH]; intros i; [reflexivity|].
  cbn [map each_item]. now rewrite IH.
Qed.

Lemma ranged_each_entry (ft ff : rkey -> value -> enc unit) es :
  Forall (fun e => ranged (ints_fit (snd e))
                     (ft (fst e) (snd e)) (ff (fst e) (snd e))) es ->
  ranged (forallb (fun e => ints_fit (snd e)) es)
    (each_entry ft es) (each_entry ff es).
Proof.
  induction 1 as [|[k w] es H _ IH]; cbn [each_entry forallb].
  - apply ranged_same.
  - apply ranged_bind; [exact H | intro; exact IH].
Qed.

Lemma ranged_each_item (ft ff : Z -> value -> enc unit) items :
  Forall (fun w => forall i, ranged (ints_fit w) (ft i w) (ff i w)) items ->
  forall i,
    ranged (forallb ints_fit items)
      (each_item ft i items) (each_item ff i items).
Proof.
  induction 1 as [|w items H _ IH]; intros i; cbn [each_item forallb].
  - apply ranged_same.
  - apply ranged_bind; [apply H | intro; apply IH].
Qed.

(** Nothing but a hash is written as a document. *)
Lemma write_doc_never rc v check_keys b a b' :
  is_hash v = false -> write_doc rc v check_keys false b <> (Ok a, b').
Proof.
  intros Hh E. unfold write_doc, write_doc_with in E.
  apply bind_ok_inv in E. destruct E as (? & ? & _ & E).
  apply bind_ok_inv in E. destruct E as (? & ? & _ & E).
  apply bind_ok_inv in E. destruct E as (? & ? & _ & E).
  unfold classname_comma_Hash_is_null in E.
  apply bind_ok_inv in E. destruct E as (? & ? & E & _).
  destruct v; try discriminate Hh; discriminate E.
Qed.

(** An integer that [long long] does not hold is refused once the key has
    passed. *)
Lemma ranged_int rc key n check_keys :
  ranged (ints_fit (VInt n))
    (write_element rc (KStr key) (VInt n) check_keys 1)
    (write_element rc (KStr key) (clamped (VInt n)) check_keys 1).
Proof.
  cbn [ints_fit clamped]. destruct (in_long_long n) eqn:E;
    [apply ranged_same|].
  cbn [write_element Z.eqb andb].
  apply ranged_after. intros [].
  intros b a b' _.
  unfold in_long_long, LLONG_MIN, LLONG_MAX in E.
  apply andb_false_iff in E. rewrite Z.leb_gt, Z.leb_gt in E.
  unfold is_fixnum.
  replace ((- 2 ^ 62 <=? n) && (n <? 2 ^ 62)) with false
    by (symmetry; apply andb_false_iff; rewrite Z.leb_gt, Z.ltb_ge;
        int_consts; lia).
  replace ((n >? 9223372036854775807)
           || (n <? to_signed 64 ((- 9223372036854775808) mod 2 ^ 64)))
    with true
    by (symmetry; apply orb_true_iff; rewrite Z.gtb_ltb, !Z.ltb_lt;
        change (to_signed 64 ((- 9223372036854775808) mod 2 ^ 64))
          with (- 9223372036854775808);
        int_consts; lia).
  exists (snd (bson_buffer_free b)). split; [reflexivity | apply freed_free].
Qed.

(** An element and a document are written as with 0 for the integers
    that [long long] does not hold when there is none, and are refused
    with [RangeError] otherwise. *)
Lemma ranged_write_both rc v :
  (forall k check_keys,
      ranged (ints_fit v) (write_element rc k v check_keys 1)
        (write_element rc k (clamped v) check_keys 1))
  /\ (forall check_keys,
        ranged (ints_fit v) (write_doc rc v check_keys false)
          (write_doc rc (clamped v) check_keys false)).
Proof.
  induction v as [v IH] using value_ind_children.
  assert (D : forall check_keys,
            ranged (ints_fit v) (write_doc rc v check_keys false)
              (write_doc rc (clamped v) check_keys false)).
  { intros check_keys.
    destruct (is_hash v) eqn:Hh.
    2:{ apply ranged_never. intros b a b'. apply write_doc_never.
        now rewrite is_hash_clamped. }
    destruct v as [| | | | |c es| | | | | | | | | | | | | | | | | |];
      try discriminate Hh.
    rewrite clamped_hash, ints_fit_hash.
    unfold write_doc, write_doc_with, classname_comma_Hash_is_null.
    apply ranged_after. intros start_position.
    apply ranged_after. intros length_location.
    lazy beta iota zeta.
    match goal with
    | |- ranged ?g (bind (ret ?a) ?kt) (bind (ret ?a) ?kf) =>
        change (ranged g (kt a) (kf a))
    end.
    lazy beta iota zeta.
    assert (E : forall es',
              (match c with
               | PlainHash | _ =>
                   each_entry
                     (fun key value => write_element rc key value check_keys 1) es'
               end)
              = each_entry
                  (fun key value => write_element rc key value check_keys 1) es')
      by (now destruct c).
    rewrite !E. clear E. rewrite each_entry_clamped.
    apply ranged_before. apply ranged_each_entry.
    cbn [children] in IH. apply Forall_map in IH.
    eapply Forall_impl; [|exact IH]. cbn beta. intros [k w] [Hw _]. apply Hw. }
  split; [|exact D].
  assert (S : forall key check_keys,
             ranged (ints_fit v)
               (write_element rc (KStr key) v check_keys 1)
               (write_element rc (KStr key) (clamped v) check_keys 1)).
  { intros key check_keys.
    destruct v; try apply ranged_same.
    - (* VInt *)
      apply ranged_int.
    - (* VHash *)
      specialize (D check_keys). revert D.
      rewrite clamped_hash. intros D.
      cbn [write_element Z.eqb andb].
      apply ranged_after. intros []. apply ranged_after. intros []. apply D.
    - (* VArray *)
      rewrite ints_fit_array. cbn [clamped write_element Z.eqb andb].
      apply ranged_after. intros [].
      apply ranged_after. intros [].
      apply ranged_after. intros start_position.
      apply ranged_after. intros length_location.
      rewrite each_item_clamped.
      apply ranged_before. apply ranged_each_item.
      cbn [children] in IH.
      eapply Forall_impl; [|exact IH]. cbn beta. intros w [Hw _] i. apply Hw.
    - (* VDBRef *)
      cbn [children] in IH.
      inversion IH as [|? ? [I1 _] IH']; subst.
      inversion IH' as [|? ? [I2 _] _]; subst.
      cbn [ints_fit clamped write_element Z.eqb andb].
      apply ranged_after. intros [].
      apply ranged_after. intros [].
      apply ranged_after. intros start_position.
      apply ranged_after. intros length_location.
      apply ranged_bind; [apply I1|]. intros [].
      apply ranged_before. apply I2.
    - (* VCode *)
      cbn [children] in IH. inversion IH as [|? ? [_ I1] _]; subst.
      cbn [ints_fit clamped write_element Z.eqb andb].
      apply ranged_after. intros [].
      apply ranged_after. intros [].
      apply ranged_after. intros start_position.
      apply ranged_after. intros length_location.
      apply ranged_after. intros length.
      apply ranged_after. intros [].
      apply ranged_after. intros [].
      apply ranged_after. intros [].
      apply ranged_before. apply I1. }
  intros [key|name|cls] check_keys.
  - apply S.
  - rewrite !write_element_symbol_key. apply S.
  - apply ranged_never. intros b a b'. apply other_key_never.
Qed.

(** [serialize] of a document, against [serialize] of the document with 0
    for the integers that [long long] does not hold. *)
Lemma serialize_ranged rc avail c es check_keys move_id max_size bytes b :
  method_serialize rc (Some avail)
    (clamped (VHash c (written_entries move_id es))) check_keys false max_size
  = (Ok bytes, b) ->
  if ints_fit (VHash c (written_entries move_id es))
  then method_serialize rc (Some avail) (VHash c es) check_keys move_id max_size
       = (Ok bytes, b)
  else exists b',
         method_serialize rc (Some avail) (VHash c es) check_keys move_id
           max_size
         = (Raised (Exn RangeError "MongoDB can only handle 8-byte ints"),
            Some b')
         /\ freed b' = true.
Proof.
  intros H. rewrite (serialize_written_entries rc (Some avail) c es).
  set (d := VHash c (written_entries move_id es)) in *.
  destruct (in_int max_size) eqn:E.
  2:{ unfold method_serialize, FIX2INT in H. rewrite E in H. discriminate H. }
  rewrite method_serialize_eq in * by assumption.
  set (b0 := bson_buffer_set_max_size (bson_buffer_new avail) max_size) in *.
  destruct (write_doc rc (clamped d) check_keys false b0)
    as [[[]| | |] b1] eqn:W; try discriminate H.
  pose proof (proj2 (ranged_write_both rc d) check_keys b0 tt b1 W) as K.
  destruct (ints_fit d).
  - rewrite K. exact H.
  - destruct K as (b'' & -> & F). eauto.
Qed.

(** C5, as the specification states it, fails on an integer that is not
    written: 2^64, outside [-2^63, 2^63 - 1], raises no [RangeError] when
    it is the value of an [_id] that [move_id] suppresses (in
    [{"_id" => nil, :_id => 2^64}], which is serialized without it), and
    none under a key that [check_keys] refuses first (in
    [{"a.b" => 2^64}], which raises [InvalidKeyName]). *)
Lemma integer_under_a_key_that_is_not_written :
  fst (method_serialize Host.ruby_consts (Some 4096) suppressed_big_id
         false true 4194304)
  = Ok [10; 0; 0; 0; 10; 95; 105; 100; 0; 0]
  /\ fst (method_serialize Host.ruby_consts (Some 4096) big_under_dotted_key
            true false 4194304)
     = Raised (Exn InvalidKeyName "key a.b must not contain '.'").
Proof. split; vm_compute; reflexivity. Qed.

(** C5, amended. Let [serialize] write the entries [pre], then the
    integer [n] under the string [key], then the entries [post] (the
    entries of the document, or with [move_id] the entries that it has
    written: the [_id] first, no suppressed [_id]), the keys being
    strings that are valid UTF-8 without NUL, pairwise different and,
    with [check_keys], allowed, the other values being of the lossless
    set, and the cap and the buffer having room. Then [n] is written with
    the tag 0x10 on 4 bytes if and only if it lies in [-2^31, 2^31 - 1],
    with the tag 0x12 on 8 bytes if and only if it lies outside that
    range and in [-2^63, 2^63 - 1], and [serialize] raises, a
    [RangeError] after freeing the buffer, if and only if [n] lies
    outside [-2^63, 2^63 - 1]. At any depth: a document that is
    serialized when 0 stands for each of its integers outside
    [-2^63, 2^63 - 1] is serialized to the same bytes when it has no such
    integer among the values that are written (in documents, arrays, the
    parts of a [DBRef] and the scope of a [Code]), and raises that
    [RangeError], the buffer freed, when it has one. *)
Theorem integer_size_selection :
  forall rc avail c es move_id pre key n post check_keys cap,
    written_entries move_id es = pre ++ (KStr key, VInt n) :: post ->
    keys_ok (pre ++ (KStr key, VInt n) :: post) ->
    Forall (fun e => rt (snd e)) pre ->
    Forall (fun e => rt (snd e)) post ->
    (check_keys = true ->
     keys_allowed (VHash c (pre ++ (KStr key, VInt n) :: post)) = true) ->
    in_int cap = true ->
    Z.of_nat (length (with_integer pre key 18 8 n post)) <= cap ->
    Z.of_nat (length (with_integer pre key 18 8 n post)) <= avail ->
    let r := method_serialize rc (Some avail) (VHash c es) check_keys move_id cap in
    (- 2 ^ 31 <= n <= 2 ^ 31 - 1 ->
       fst r = Ok (with_integer pre key 16 4 n post)) /\
    ((n < - 2 ^ 31 \/ 2 ^ 31 - 1 < n) /\ - 2 ^ 63 <= n <= 2 ^ 63 - 1 ->
       fst r = Ok (with_integer pre key 18 8 n post)) /\
    (n < - 2 ^ 63 \/ 2 ^ 63 - 1 < n ->
       exists b,
         r = (Raised (Exn RangeError "MongoDB can only handle 8-byte ints"),
              Some b)
         /\ freed b = true) /\
    (forall rest, fst r = Ok (frame (elements pre ++ 16 :: rest)) ->
       - 2 ^ 31 <= n <= 2 ^ 31 - 1) /\
    (forall rest, fst r = Ok (frame (elements pre ++ 18 :: rest)) ->
       (n < - 2 ^ 31 \/ 2 ^ 31 - 1 < n) /\ - 2 ^ 63 <= n <= 2 ^ 63 - 1) /\
    (forall e, fst r = Raised e -> n < - 2 ^ 63 \/ 2 ^ 63 - 1 < n) /\
    (forall room c' es' check_keys' move_id' max_size bytes b,
       method_serialize rc (Some room)
         (clamped (VHash c' (written_entries move_id' es'))) check_keys' false
         max_size
       = (Ok bytes, b) ->
       if ints_fit (VHash c' (written_entries move_id' es'))
       then method_serialize rc (Some room) (VHash c' es') check_keys' move_id'
              max_size
            = (Ok bytes, b)
       else exists b',
              method_serialize rc (Some room) (VHash c' es') check_keys'
                move_id' max_size
              = (Raised (Exn RangeError "MongoDB can only handle 8-byte ints"),
                 Some b')
              /\ freed b' = true).
Proof.
  intros rc avail c es move_id pre key n post check_keys cap
    Hw Hkeys Hpre Hpost Hallowed Hcap Hlen Hroom r.
  assert (Deep : forall room c' es' check_keys' move_id' max_size bytes b,
    method_serialize rc (Some room)
      (clamped (VHash c' (written_entries move_id' es'))) check_keys' false
      max_size
    = (Ok bytes, b) ->
    if ints_fit (VHash c' (written_entries move_id' es'))
    then method_serialize rc (Some room) (VHash c' es') check_keys' move_id'
           max_size
         = (Ok bytes, b)
    else exists b',
           method_serialize rc (Some room) (VHash c' es') check_keys'
             move_id' max_size
           = (Raised (Exn RangeError "MongoDB can only handle 8-byte ints"),
              Some b')
           /\ freed b' = true).
  { intros room c' es' check_keys' move_id' max_size bytes b.
    apply serialize_ranged. }
  subst r. rewrite serialize_written_entries, Hw.
  pose proof (integer_written rc avail c pre post key n check_keys cap
                Hkeys Hpre Hpost Hallowed Hcap Hlen Hroom) as Hin.
  pose proof (integer_refused rc avail c pre post key n check_keys cap
                Hkeys Hpre Hpost Hallowed Hcap Hlen Hroom) as Hout.
  unfold in_int in Hin.
  unfold INT_MIN, INT_MAX, LLONG_MIN, LLONG_MAX in *.
  assert (D : (- 2 ^ 31 <= n <= 2 ^ 31 - 1)
              \/ ((n < - 2 ^ 31 \/ 2 ^ 31 - 1 < n) /\ - 2 ^ 63 <= n <= 2 ^ 63 - 1)
              \/ (n < - 2 ^ 63 \/ 2 ^ 63 - 1 < n)) by (int_consts; lia).
  assert (T : forall t u (x y : bytes),
             t <> u ->
             Ok (frame (elements pre ++ t :: x)) = Ok (frame (elements pre ++ u :: y))
             -> False).
  { intros t u x y N E.
    apply (f_equal (fun o => match o with Ok v => v | _ => [] end)) in E.
    apply frame_inj, app_inv_head in E. congruence. }
  match goal with
  | |- ?A /\ ?B /\ ?C /\ ?D /\ ?E /\ ?F /\ ?G =>
      assert (Main : A /\ B /\ C /\ D /\ E /\ F);
        [clear Deep
        | destruct Main as (M1 & M2 & M3 & M4 & M5 & M6);
          repeat (split; [assumption|]); exact Deep]
  end.
  destruct D as [D|[D|D]].
  - destruct Hin as (b & E); [int_consts; lia|].
    replace ((- 2 ^ 31 <=? n) && (n <=? 2 ^ 31 - 1)) with true in E
      by (symmetry; apply andb_true_iff; rewrite !Z.leb_le; int_consts; lia).
    rewrite E. cbn [fst]. clear Hout.
    repeat split; intros; try (int_consts; lia); try discriminate;
      exfalso;
      match goal with
      | H : Ok _ = Ok _ |- _ =>
          revert H; unfold with_integer; apply T; discriminate
      end.
  - destruct Hin as (b & E); [int_consts; lia|].
    replace ((- 2 ^ 31 <=? n) && (n <=? 2 ^ 31 - 1)) with false in E
      by (symmetry; apply andb_false_iff; rewrite !Z.leb_gt; int_consts; lia).
    rewrite E. cbn [fst]. clear Hout.
    repeat split; intros; try (int_consts; lia); try discriminate;
      exfalso;
      match goal with
      | H : Ok _ = Ok _ |- _ =>
          revert H; unfold with_integer; apply T; discriminate
      end.
  - destruct Hout as (b & E & F); [int_consts; lia|].
    rewrite E. cbn [fst]. clear Hin.
    repeat split; intros; try (int_consts; lia); try discriminate.
    exists b. split; [reflexivity | exact F].
Qed.

Lemma integer_size_selection_witness :
  fst (method_serialize Host.ruby_consts (Some 4096)
         (VHash PlainHash [(KStr (lit "a"), VNil);
                           (KStr (lit "n"), VInt (2 ^ 40));
                           (KSym (lit "_id"), VInt (2 ^ 64));
                           (KStr (lit "_id"), VInt 1)]) true true 4194304)
  = Ok (with_integer [(KStr (lit "_id"), VInt 1); (KStr (lit "a"), VNil)]
          (lit "n") 18 8 (2 ^ 40) [])
  /\ exists b,
       method_serialize Host.ruby_consts (Some 4096)
         (VHash PlainHash big_three_levels_down) true false 4194304
       = (Raised (Exn RangeError "MongoDB can only handle 8-byte ints"), Some b)
       /\ freed b = true.
Proof.
  set (pre := [(KStr (lit "_id"), VInt 1); (KStr (lit "a"), VNil)]).
  assert (K : keys_ok (pre ++ [(KStr (lit "n"), VInt (2 ^ 40))])).
  { split.
    - repeat (constructor;
              [eexists; split; [reflexivity | reflexivity]|]).
      constructor.
    - repeat (constructor; [cbn; intuition discriminate|]). constructor. }
  assert (P : Forall (fun e : rkey * value => rt (snd e)) pre)
    by (repeat constructor; vm_compute; discriminate).
  assert (L : Z.of_nat (length (with_integer pre (lit "n") 18 8 (2 ^ 40) []))
              <= 4096) by (vm_compute; discriminate).
  assert (L' : Z.of_nat (length (with_integer pre (lit "n") 18 8 (2 ^ 40) []))
               <= 4194304) by (vm_compute; discriminate).
  destruct (integer_size_selection Host.ruby_consts 4096 PlainHash
              [(KStr (lit "a"), VNil); (KStr (lit "n"), VInt (2 ^ 40));
               (KSym (lit "_id"), VInt (2 ^ 64)); (KStr (lit "_id"), VInt 1)]
              true pre (lit "n") (2 ^ 40) [] true 4194304
              eq_refl K P (Forall_nil _) (fun _ => eq_refl) eq_refl L' L)
    as (_ & T64 & _ & _ & _ & _ & Deep).
  split.
  - apply T64. vm_compute. split; [right; reflexivity | split; discriminate].
  - eassert (E : method_serialize Host.ruby_consts (Some 4096)
                   (clamped (VHash PlainHash
                               (written_entries false big_three_levels_down)))
                   true false 4194304 = (Ok _, _))
      by (vm_compute; reflexivity).
    exact (Deep 4096 PlainHash big_three_levels_down true false 4194304 _ _ E).
Defined.

End DocumentFacts.
